(** * Cartesian Genetic Programming driver (cgp/cgp.py): a shallow embedding

    The Python classes [Gen], [CgpConfig], [Individual] and [CGP] are
    embedded as records and functions.  Conventions:

    - Python integers and numpy [int] cells are [Z] (no overflow is
      modelled: every value is bounded by the grid size);
      Python floats that are only compared ([score], [accuracy]) are
      rationals [Q]; the mutation rate is the rational the caller wrote,
      read as the binary64 float nearest to it, and its product with the
      number of genes is the IEEE 754 product (the Standard Library's
      [SpecFloat]); [mutate] is modelled for the rates whose product with
      the number of genes is a finite float;
    - an exception is a [Raise e] result; loops of the source that have
      no static bound ([while] loops, recursion) take a [fuel] argument and
      answer [Timeout] when it runs out;
    - [np.random] is a tape of integers read left to right: a draw of
      [randint(low, high)] is [low + tape(pos) mod (high - low)], so a
      statement quantified over all tapes covers every outcome of the
      generator;
    - the first part uses value semantics for genotypes (explicit state
      passing); the [Heap] module models object identity and aliasing
      for [clone], and on genotypes built by [spawn] and [clone] the
      functions on the store are proved to compute what the functions on
      values compute;
    - the last parts cover the rest of the module: reachability and the
      active mask, the decoded net ([active_net]), the constructor of the
      configuration and degenerate grids, what the Pareto ranking does get
      right, and the evolution loop at degenerate budgets;
    - of the Keras evaluator (evaluator/keras_evaluator.py) the parts that
      do not run Keras are embedded: the function mapping, the names of
      the layers and the keys of the node table of a model. *)

From Stdlib Require Import ZArith QArith Qround Lia List Bool Ascii.
From Stdlib Require Import Floats.SpecFloat.
From stdpp Require Import base gmap list strings pretty sorting.
Local Open Scope Z_scope.

(** ** Results and exceptions *)

Inductive exn : Type :=
| ValueError | TypeError | IndexError | AttributeError
| ZeroDivisionError | UnpicklingError | OverflowError
| SystemError (* a dangling reference: Python cannot produce one *).

Inductive result (A : Type) : Type :=
| Ok (a : A)
| Raise (e : exn)
| Timeout.
Arguments Ok {A} a.
Arguments Raise {A} e.
Arguments Timeout {A}.

Definition rbind {A B} (m : result A) (k : A -> result B) : result B :=
  match m with
  | Ok a => k a
  | Raise e => Raise e
  | Timeout => Timeout
  end.

Declare Scope result_scope.
Delimit Scope result_scope with res.
Notation "x <- m ;; k" := (rbind m (fun x => k))
  (at level 100, m at next level, right associativity) : result_scope.

(** ** The random tape *)

Record Rng : Type := { tape : nat -> Z; pos : nat }.

Definition M (A : Type) : Type := Rng -> result (A * Rng).

Definition ret {A} (a : A) : M A := fun r => Ok (a, r).
Definition mbind {A B} (m : M A) (k : A -> M B) : M B :=
  fun r => match m r with
           | Ok (a, r') => k a r'
           | Raise e => Raise e
           | Timeout => Timeout
           end.
Definition lift {A} (m : result A) : M A :=
  fun r => match m with
           | Ok a => Ok (a, r)
           | Raise e => Raise e
           | Timeout => Timeout
           end.
Definition timeout {A} : M A := fun _ => Timeout.

Declare Scope rand_scope.
Delimit Scope rand_scope with rnd.
Notation "x <- m ;; k" := (mbind m (fun x => k))
  (at level 100, m at next level, right associativity) : rand_scope.

(** [np.random.randint(low, high)]: a value of [low, high), [ValueError]
    when the interval is empty. *)
Definition randint (low high : Z) : M Z :=
  fun r =>
    if high <=? low then Raise ValueError
    else Ok (low + tape r (pos r) mod (high - low),
             {| tape := tape r; pos := S (pos r) |}).

(** ** Python sequences *)

(** [l[i]] with Python's negative indexing. *)
Definition py_pos {A} (l : list A) (i : Z) : option nat :=
  let n := Z.of_nat (length l) in
  let j := if i <? 0 then i + n else i in
  if (0 <=? j) && (j <? n) then Some (Z.to_nat j) else None.

Definition py_index {A} (l : list A) (i : Z) : result A :=
  match py_pos l i with
  | Some j => match l !! j with Some x => Ok x | None => Raise IndexError end
  | None => Raise IndexError
  end.

(** [l[i] = x] *)
Definition py_store {A} (l : list A) (i : Z) (x : A) : result (list A) :=
  match py_pos l i with
  | Some j => Ok (<[j := x]> l)
  | None => Raise IndexError
  end.

(** [np.zeros(n, dtype=int)] *)
Definition np_zeros (n : Z) : result (list Z) :=
  if n <? 0 then Raise ValueError else Ok (replicate (Z.to_nat n) 0).

(** [for i in range(start, start + k): s = body(i, s)] *)
Fixpoint for_range {St} (k : nat) (i : Z) (body : Z -> St -> M St) (s : St)
    : M St :=
  match k with
  | O => ret s
  | S k' => (s' <- body i s ;; for_range k' (i + 1) body s')%rnd
  end.

(** ** Genes (classes [Gen], [OutputGen], [FunctionGen])

    One record for both classes: [is_output] is the field the base class
    sets to [True] and [FunctionGen] resets to [False]; [fnc_idx] is
    [None] when the object has no such attribute (an [OutputGen]). *)

Record Gen : Type := {
  is_output : bool;
  fnc_idx : option Z;
  inputs : list Z;
  num_inputs : Z
}.

Definition OutputGen (max_inputs : Z) : result Gen :=
  (z <- np_zeros max_inputs ;;
   Ok {| is_output := true; fnc_idx := None; inputs := z; num_inputs := 1 |})%res.

Definition FunctionGen (fnc_idx max_inputs num_inputs : Z) : result Gen :=
  (_ <- np_zeros max_inputs ;;
   z <- np_zeros max_inputs ;;
   Ok {| is_output := false; fnc_idx := Some fnc_idx; inputs := z;
         num_inputs := num_inputs |})%res.

Definition set_inputs (g : Gen) (l : list Z) : Gen :=
  {| is_output := is_output g; fnc_idx := fnc_idx g; inputs := l;
     num_inputs := num_inputs g |}.
Definition set_fnc_idx (g : Gen) (f : Z) : Gen :=
  {| is_output := is_output g; fnc_idx := Some f; inputs := inputs g;
     num_inputs := num_inputs g |}.
Definition set_num_inputs (g : Gen) (n : Z) : Gen :=
  {| is_output := is_output g; fnc_idx := fnc_idx g; inputs := inputs g;
     num_inputs := n |}.

(** Reading [gene.fnc_idx]: [AttributeError] on an object without it. *)
Definition get_fnc_idx (g : Gen) : result Z :=
  match fnc_idx g with
  | Some f => Ok f
  | None => Raise AttributeError
  end.

(** ** Configuration (class [CgpConfig]) *)

Record CgpConfig : Type := {
  rows : Z;
  cols : Z;
  level_back : Z;
  num_input : Z;
  num_output : Z;
  num_nodes : Z;
  functions : list nat;
  function_inputs : list Z;
  num_func_genes : Z;
  max_inputs : Z;
  mutation_rate : Q
}.

(** [np.max] of a list: [ValueError] on the empty list. *)
Definition np_max (l : list Z) : result Z :=
  match l with
  | [] => Raise ValueError
  | x :: l' => Ok (fold_left Z.max l' x)
  end.

(** [CgpConfig.__init__]; the function set is a list of opaque handles. *)
Definition new_CgpConfig (rows cols level_back : Z) (functions : list nat)
    (function_inputs : list Z) (mutation_rate : Q) : result CgpConfig :=
  if negb (length functions =? length function_inputs)%nat then Raise ValueError
  else
    (mx <- np_max function_inputs ;;
     Ok {| rows := rows; cols := cols; level_back := level_back;
           num_input := 1; num_output := 1; num_nodes := rows * cols;
           functions := functions; function_inputs := function_inputs;
           num_func_genes := Z.of_nat (length functions);
           max_inputs := mx; mutation_rate := mutation_rate |})%res.

(** ** Genotypes (class [Individual]) *)

Record Individual : Type := {
  config : CgpConfig;
  score : option Q;
  model : option Z;
  total_params : option Z;
  genes : list Gen;
  active : option (list bool);
  accuracy : option Q
}.

Definition new_Individual (cfg : CgpConfig) : Individual :=
  {| config := cfg; score := None; model := None; total_params := None;
     genes := []; active := None; accuracy := None |}.

Definition set_genes (ind : Individual) (gs : list Gen) : Individual :=
  {| config := config ind; score := score ind; model := model ind;
     total_params := total_params ind; genes := gs; active := active ind;
     accuracy := accuracy ind |}.
Definition set_active (ind : Individual) (a : list bool) : Individual :=
  {| config := config ind; score := score ind; model := model ind;
     total_params := total_params ind; genes := genes ind; active := Some a;
     accuracy := accuracy ind |}.

Definition is_spawned (ind : Individual) : bool :=
  match active ind with Some _ => true | None => false end.

(** The legal interval of connection values of the gene at grid position
    [node]: the computation that [init_genes] (lines 187-192) and
    [__mutate_connection_gene] (lines 242-247) both spell out. *)
Definition con_id_range (cfg : CgpConfig) (node : Z) : result (Z * Z) :=
  if rows cfg =? 0 then Raise ZeroDivisionError
  else
    let col := Z.min (node / rows cfg) (cols cfg) in
    let max_con_id := col * rows cfg + num_input cfg in
    let min_con_id :=
      if col - level_back cfg >=? 0
      then (col - level_back cfg) * rows cfg + num_input cfg
      else 0 in
    Ok (min_con_id, max_con_id).

(** ** Reachability ([__walk_to_out], [check_active]) *)

(** [for i in range(start, start + k): s = body(i, s)] without random
    draws. *)
Definition for_range_res {St} (body : Z -> St -> result St)
    : nat -> Z -> St -> result St :=
  fix go (k : nat) (i : Z) (s : St) : result St :=
    match k with
    | O => Ok s
    | S k' => (s' <- body i s ;; go k' (i + 1) s')%res
    end.

(** [__walk_to_out(node)] on the mask [act]; [fuel] bounds the recursion
    depth. *)
Fixpoint walk_to_out (fuel : nat) (cfg : CgpConfig) (gs : list Gen)
    (node : Z) (act : list bool) : result (list bool) :=
  match fuel with
  | O => Timeout
  | S fuel' =>
      (b <- py_index act node ;;
       if negb b then
         act1 <- py_store act node true ;;
         g <- py_index gs node ;;
         for_range_res
           (fun i a =>
              c <- py_index (inputs g) i ;;
              if c >=? num_input cfg
              then walk_to_out fuel' cfg gs (c - num_input cfg) a
              else Ok a)
           (Z.to_nat (num_inputs g)) 0 act1
       else Ok act)%res
  end.

(** [check_active]: [self.active[:] = False], then one walk per output. *)
Definition check_active (fuel : nat) (ind : Individual) : result Individual :=
  match active ind with
  | None => Raise TypeError
  | Some a =>
      (a' <- for_range_res
               (fun node act =>
                  walk_to_out fuel (config ind) (genes ind)
                    (num_nodes (config ind) + node) act)
               (Z.to_nat (num_output (config ind))) 0
               (replicate (length a) false) ;;
       Ok (set_active ind a'))%res
  end.

(** ** Initialisation ([init_genes], [spawn]) *)

(** One turn of the loop of [init_genes]: the gene built for [node]. *)
Definition init_gene (cfg : CgpConfig) (node : Z) : M Gen :=
  (gene <- (if node <? num_nodes cfg then
              fi <- randint 0 (num_func_genes cfg) ;;
              ni <- lift (py_index (function_inputs cfg) fi) ;;
              lift (FunctionGen fi (max_inputs cfg) ni)
            else lift (OutputGen (max_inputs cfg))) ;;
   rg <- lift (con_id_range cfg node) ;;
   let '(min_con_id, max_con_id) := rg in
   ins <- for_range (length (inputs gene)) 0
            (fun i ins =>
               r <- randint 0 (max_con_id - min_con_id) ;;
               lift (py_store ins i (min_con_id + r)))
            (inputs gene) ;;
   ret (set_inputs gene ins))%rnd.

Definition init_genes (fuel : nat) (ind : Individual) : M Individual :=
  let cfg := config ind in
  (gs <- for_range (Z.to_nat (num_nodes cfg + num_output cfg)) 0
           (fun node gs => gene <- init_gene cfg node ;; ret (gs ++ [gene]))
           (genes ind) ;;
   (* np.empty(len(self.genes), dtype=bool): the content is overwritten
      by check_active before it is read *)
   lift (check_active fuel
           (set_active (set_genes ind gs) (replicate (length gs) false))))%rnd.

Definition spawn (fuel : nat) (cfg : CgpConfig) : M Individual :=
  init_genes fuel (new_Individual cfg).

(** [clone] on values: [self.active.copy()] raises on an individual that
    was never spawned ([None] has no [copy]). *)
Definition clone (ind : Individual) : result Individual :=
  match active ind with
  | None => Raise AttributeError
  | Some a => Ok ind
  end.

(** ** Mutation *)

(** [while fnc_idx == cur: fnc_idx = np.random.randint(num_func_genes)] *)
Fixpoint resample_fnc (fuel : nat) (cfg : CgpConfig) (cur fi : Z) : M Z :=
  if fi =? cur then
    match fuel with
    | O => timeout
    | S fuel' =>
        (fi' <- randint 0 (num_func_genes cfg) ;;
         resample_fnc fuel' cfg cur fi')%rnd
    end
  else ret fi.

(** [__mutate_function_gene(gene_idx)]: the new gene list and the value
    returned ([True]). *)
Definition mutate_function_gene (fuel : nat) (cfg : CgpConfig)
    (gs : list Gen) (gene_idx : Z) : M (list Gen * bool) :=
  (fi0 <- randint 0 (num_func_genes cfg) ;;
   g <- lift (py_index gs gene_idx) ;;
   cur <- lift (get_fnc_idx g) ;;
   fi <- resample_fnc fuel cfg cur fi0 ;;
   ni <- lift (py_index (function_inputs cfg) fi) ;;
   gs' <- lift (py_store gs gene_idx (set_num_inputs (set_fnc_idx g fi) ni)) ;;
   ret (gs', true))%rnd.

(** [while n == self.genes[gene_idx].inputs[i]: n = min_con_id + randint(..)] *)
Fixpoint resample_con (fuel : nat) (min_con_id max_con_id cur n : Z) : M Z :=
  if n =? cur then
    match fuel with
    | O => timeout
    | S fuel' =>
        (r <- randint 0 (max_con_id - min_con_id) ;;
         resample_con fuel' min_con_id max_con_id cur (min_con_id + r))%rnd
    end
  else ret n.

(** The [for i in range(num_inputs)] loop of [__mutate_connection_gene],
    from slot [i] on, [k] slots left; it leaves the loop at the first slot
    it rewrites. *)
Fixpoint mutate_slots (fuel : nat) (min_con_id max_con_id : Z) (g : Gen)
    (k : nat) (i : Z) : M (Gen * bool) :=
  match k with
  | O => ret (g, false)
  | S k' =>
      (coin <- randint 0 2 ;;
       if negb (coin =? 0) && (max_con_id - min_con_id >? 1) then
         r <- randint 0 (max_con_id - min_con_id) ;;
         cur <- lift (py_index (inputs g) i) ;;
         n <- resample_con fuel min_con_id max_con_id cur (min_con_id + r) ;;
         ins <- lift (py_store (inputs g) i n) ;;
         ret (set_inputs g ins, true)
       else mutate_slots fuel min_con_id max_con_id g k' (i + 1))%rnd
  end.

Definition mutate_connection_gene (fuel : nat) (cfg : CgpConfig)
    (gs : list Gen) (gene_idx : Z) : M (list Gen * bool) :=
  (rg <- lift (con_id_range cfg gene_idx) ;;
   let '(min_con_id, max_con_id) := rg in
   g <- lift (py_index gs gene_idx) ;;
   gb <- mutate_slots fuel min_con_id max_con_id g
           (Z.to_nat (num_inputs g)) 0 ;;
   let '(g', changed) := gb in
   gs' <- lift (py_store gs gene_idx g') ;;
   ret (gs', changed))%rnd.

(** [int(x)] on a float of value [q]: truncation towards zero. *)
Definition py_int (q : Q) : Z :=
  if Qle_bool 0 q then Qfloor q else Qceiling q.

(** ** Float arithmetic

    A Python float is an IEEE 754 binary64 number: a [spec_float] at
    precision 53 and [emax] 1024, with the operations of the Standard
    Library's specification. *)

(** [x * y] on floats *)
Definition float_mul (x y : spec_float) : spec_float := SFmul 53 1024 x y.

(** The float that stands for the rational [q]: the one nearest to it,
    ties to even, as for a literal or for the quotient of two integers. *)
Definition py_float (q : Q) : spec_float :=
  match Qnum q with
  | Z0 => S754_zero false
  | Zpos p => SFdiv 53 1024 (S754_finite false p 0)
                (S754_finite false (Qden q) 0)
  | Zneg p => SFdiv 53 1024 (S754_finite true p 0)
                (S754_finite false (Qden q) 0)
  end.

(** [float(n)] of an integer, as [n * x] converts its left operand:
    [OverflowError] beyond the largest float. *)
Definition float_of_int (n : Z) : result spec_float :=
  match binary_normalize 53 1024 n 0 false with
  | S754_infinity _ => Raise OverflowError
  | x => Ok x
  end.

(** The value of the finite float of sign [s], mantissa [m] and exponent
    [e]. *)
Definition float_value (s : bool) (m : positive) (e : Z) : Q :=
  let n := if s then Z.neg m else Z.pos m in
  if 0 <=? e then inject_Z (n * 2 ^ e) else n # Z.to_pos (2 ^ (- e)).

(** [int(x)] on a float *)
Definition py_int_float (x : spec_float) : result Z :=
  match x with
  | S754_zero _ => Ok 0
  | S754_finite s m e => Ok (py_int (float_value s m e))
  | S754_infinity _ => Raise OverflowError
  | S754_nan => Raise ValueError
  end.

(** [int(num_genes * self.config.mutation_rate)] *)
Definition int_of_product (cfg : CgpConfig) (num_genes : Z) : result Z :=
  (x <- float_of_int num_genes ;;
   py_int_float (float_mul x (py_float (mutation_rate cfg))))%res.

(** The bound of the loop of [mutate], where [int_of_product] has a
    value: on the rates whose product with the number of genes is a
    finite float.  (Past the largest float the product is infinite and
    Python raises [OverflowError] at the head of the loop; [mutate] is
    not modelled there.) *)
Definition mutation_budget (cfg : CgpConfig) (num_genes : Z) : Z :=
  match int_of_product cfg num_genes with
  | Ok b => b
  | _ => 0
  end.

Definition Z_of_bool (b : bool) : Z := if b then 1 else 0.

(** [while cnt <= int(num_genes * mutation_rate): ...]; the result carries
    the final value of [cnt]. *)
Fixpoint mutate_loop (fuel : nat) (cfg : CgpConfig) (num_genes cnt : Z)
    (gs : list Gen) : M (list Gen * Z) :=
  if cnt <=? mutation_budget cfg num_genes then
    match fuel with
    | O => timeout
    | S fuel' =>
        (idx <- randint 0 num_genes ;;
         r1 <- (if idx <? num_nodes cfg then
                  mutate_function_gene fuel' cfg gs idx
                else ret (gs, false)) ;;
         let '(gs1, b1) := r1 in
         r2 <- mutate_connection_gene fuel' cfg gs1 idx ;;
         let '(gs2, b2) := r2 in
         mutate_loop fuel' cfg num_genes (cnt + Z_of_bool b1 + Z_of_bool b2) gs2)%rnd
    end
  else ret (gs, cnt).

(** One pass of [mutate]: the loop, then [check_active].  The final count
    is returned next to the genotype. *)
Definition mutate_pass (fuel : nat) (ind : Individual) : M (Individual * Z) :=
  (r <- mutate_loop fuel (config ind) (Z.of_nat (length (genes ind))) 0
          (genes ind) ;;
   let '(gs, cnt) := r in
   ind' <- lift (check_active fuel (set_genes ind gs)) ;;
   ret (ind', cnt))%rnd.

(** [np.array_equal] on two masks. *)
Definition array_equal (a b : list bool) : bool :=
  bool_decide (a = b).

(** [mutate(force)]; the recursive call of the last line consumes one unit
    of [fuel]. *)
Fixpoint mutate (fuel : nat) (force : bool) (ind : Individual) : M Individual :=
  match fuel with
  | O => timeout
  | S fuel' =>
      (ind0 <- (if negb (is_spawned ind) then init_genes fuel' ind
                else ret ind) ;;
       let old_net := active ind0 in
       r <- mutate_pass fuel' ind0 ;;
       let '(ind1, _) := r in
       if force then
         match active ind1, old_net with
         | Some a, Some o =>
             if array_equal a o then mutate fuel' force ind1 else ret ind1
         | _, _ => lift (Raise TypeError)
         end
       else ret ind1)%rnd
  end.

(** * Decoding the phenotype ([num_active_nodes], [active_net]) *)

(** [np.where(a)[0]]: the positions of the mask that hold [True]. *)
Fixpoint np_where_from (i : Z) (a : list bool) : list Z :=
  match a with
  | [] => []
  | b :: a' => if b then i :: np_where_from (i + 1) a'
               else np_where_from (i + 1) a'
  end.
Definition np_where (a : list bool) : list Z := np_where_from 0 a.

(** [num_active_nodes] of a genotype whose mask is [a] (on a genotype that
    was never spawned the mask is [None], and what [np.where(None)]
    answers depends on the version of numpy). *)
Definition num_active_nodes (a : list bool) : Z :=
  Z.of_nat (length (np_where a)).

(** [np.arange(n)] *)
Definition np_arange (n : Z) : list Z :=
  Z.of_nat <$> seq 0 (Z.to_nat n).

(** [np.cumsum] of a mask: the running count of [True]. *)
Fixpoint cumsum_from (acc : Z) (a : list bool) : list Z :=
  match a with
  | [] => []
  | b :: a' => (acc + Z_of_bool b) :: cumsum_from (acc + Z_of_bool b) a'
  end.
Definition np_cumsum (a : list bool) : list Z := cumsum_from 0 a.

(** Where the slice [l[start:]] begins in a sequence of [len] items. *)
Definition slice_start (len : nat) (start : Z) : nat :=
  if start <? 0 then Z.to_nat (Z.max 0 (start + Z.of_nat len))
  else Z.to_nat (Z.min start (Z.of_nat len)).

(** [dst[start:] = src] on numpy arrays: [src] has to have the length of
    the slice, or length one (it is then broadcast). *)
Definition np_assign_from (dst : list Z) (start : Z) (src : list Z)
    : result (list Z) :=
  let s := slice_start (length dst) start in
  let m := (length dst - s)%nat in
  if (length src =? m)%nat then Ok (take s dst ++ src)
  else match src with
       | [x] => Ok (take s dst ++ replicate m x)
       | _ => Raise ValueError
       end.

(** What [active_net] reads of a function object: its attribute [name]
    and its attribute [__name__], when it has them (both strings). *)
Record FncAttrs : Type := {
  attr_name : option string;
  attr_dunder_name : option string
}.

(** [fnc.name if hasattr(fnc, 'name') else fnc.__name__] *)
Definition fnc_name (f : FncAttrs) : result string :=
  match attr_name f with
  | Some s => Ok s
  | None =>
      match attr_dunder_name f with
      | Some s => Ok s
      | None => Raise AttributeError
      end
  end.

(** A row of the decoded net, [[name, con_0, con_1, ...]]. *)
Definition NetRow : Type := string * list Z.

(** [[active_cnt[inputs[i]] for i in range(k)]], from slot [i] on. *)
Fixpoint net_connections (active_cnt ins : list Z) (k : nat) (i : Z)
    : result (list Z) :=
  match k with
  | O => Ok []
  | S k' =>
      (c <- py_index ins i ;;
       v <- py_index active_cnt c ;;
       rest <- net_connections active_cnt ins k' (i + 1) ;;
       Ok (v :: rest))%res
  end.

(** The body of the loop of [active_net] for an active [node]; a [Gen]
    stands for a [FunctionGen] exactly when it has a [fnc_idx]. *)
Definition net_row (names : nat -> FncAttrs) (cfg : CgpConfig)
    (gs : list Gen) (active_cnt : list Z) (node : Z)
    (acc : list NetRow * Z) : result (list NetRow * Z) :=
  let '(net, out_idx) := acc in
  (g <- py_index gs node ;;
   con <- net_connections active_cnt (inputs g) (Z.to_nat (num_inputs g)) 0 ;;
   match fnc_idx g with
   | Some fi =>
       fnc <- py_index (functions cfg) fi ;;
       name <- fnc_name (names fnc) ;;
       Ok (net ++ [(name +:+ "_id_" +:+ pretty (length net), con)], out_idx)
   | None =>
       Ok (net ++ [("output-" +:+ pretty out_idx, con)], out_idx + 1)
   end)%res.

(** [for node, active in enumerate(self.active): ...], from [node] on. *)
Fixpoint net_rows (names : nat -> FncAttrs) (cfg : CgpConfig)
    (gs : list Gen) (active_cnt : list Z) (node : Z) (mask : list bool)
    (acc : list NetRow * Z) : result (list NetRow) :=
  match mask with
  | [] => Ok acc.1
  | b :: mask' =>
      if b then
        (acc' <- net_row names cfg gs active_cnt node acc ;;
         net_rows names cfg gs active_cnt (node + 1) mask' acc')%res
      else net_rows names cfg gs active_cnt (node + 1) mask' acc
  end.

(** [active_net()]; [names] gives the attributes of the function objects
    behind the handles of [config.functions]. *)
Definition active_net (names : nat -> FncAttrs) (ind : Individual)
    : result (list NetRow) :=
  let cfg := config ind in
  let net := (fun i : Z => ("input " +:+ pretty i, [i; i]))
               <$> np_arange (num_input cfg) in
  let active_cnt :=
    np_arange (num_nodes cfg + num_output cfg + num_input cfg) in
  match active ind with
  | None => Raise TypeError
  | Some a =>
      (active_cnt <- np_assign_from active_cnt (num_input cfg) (np_cumsum a) ;;
       net_rows names cfg (genes ind) active_cnt 0 a (net, 0))%res
  end.

(** * Pareto ranking ([CGP.fast_non_dominated_sort]) *)

(** A genome of the population: the identity of the object and its state.
    [Individual] defines no [__eq__], so [x in l] is a test on identity. *)
Definition Genome : Type := nat * Individual.

Definition py_in (g : Genome) (l : list Genome) : bool :=
  bool_decide (g.1 ∈ l.*1).

(** Comparisons of the fitness fields; comparing [None] raises. *)
Definition gt_score (p q : Individual) : result bool :=
  match score p, score q with
  | Some x, Some y => Ok (negb (Qle_bool x y))
  | _, _ => Raise TypeError
  end.
Definition ge_score (p q : Individual) : result bool :=
  match score p, score q with
  | Some x, Some y => Ok (Qle_bool y x)
  | _, _ => Raise TypeError
  end.
Definition lt_params (p q : Individual) : result bool :=
  match total_params p, total_params q with
  | Some x, Some y => Ok (x <? y)
  | _, _ => Raise TypeError
  end.
Definition le_params (p q : Individual) : result bool :=
  match total_params p, total_params q with
  | Some x, Some y => Ok (x <=? y)
  | _, _ => Raise TypeError
  end.

(** Python's short-circuit [and] / [or] on fallible operands. *)
Definition and_then (a b : result bool) : result bool :=
  (x <- a ;; if x then b else Ok false)%res.
Definition or_else (a b : result bool) : result bool :=
  (x <- a ;; if x then Ok true else b)%res.

(** The test of lines 395-400 (and, with the roles swapped, 403-408). *)
Definition dominates (p q : Individual) : result bool :=
  or_else (and_then (gt_score p q) (lt_params p q))
    (or_else (and_then (ge_score p q) (lt_params p q))
             (and_then (gt_score p q) (le_params p q))).

Definition append_new (g : Genome) (l : list Genome) : list Genome :=
  if py_in g l then l else l ++ [g].

(** The working lists of the function. *)
Record SortState : Type := {
  S_sets : list (list Genome);
  n_count : list Z;
  rank : list Z;
  front : list (list Genome)
}.

(** The inner loop [for q in range(len(non_sort_genomes))] for a fixed
    [p]: it updates [S[p]] and [n[p]]. *)
Definition scan_pair (pop : list Genome) (p q : Z) (st : SortState)
    : result SortState :=
  (gp <- py_index pop p ;;
   gq <- py_index pop q ;;
   pq <- dominates gp.2 gq.2 ;;
   if pq then
     Sp <- py_index (S_sets st) p ;;
     S' <- py_store (S_sets st) p (append_new gq Sp) ;;
     Ok {| S_sets := S'; n_count := n_count st; rank := rank st;
           front := front st |}
   else
     qp <- dominates gq.2 gp.2 ;;
     if qp then
       np <- py_index (n_count st) p ;;
       n' <- py_store (n_count st) p (np + 1) ;;
       Ok {| S_sets := S_sets st; n_count := n'; rank := rank st;
             front := front st |}
     else Ok st)%res.

(** One turn of the loop [for p in range(len(non_sort_genomes))]. *)
Definition scan_genome (pop : list Genome) (p : Z) (st : SortState)
    : result SortState :=
  (S0 <- py_store (S_sets st) p [] ;;
   n0 <- py_store (n_count st) p 0 ;;
   st1 <- for_range_res (scan_pair pop p) (length pop) 0
            {| S_sets := S0; n_count := n0; rank := rank st;
               front := front st |} ;;
   np <- py_index (n_count st1) p ;;
   if np =? 0 then
     rank' <- py_store (rank st1) p 0 ;;
     gp <- py_index pop p ;;
     f0 <- py_index (front st1) 0 ;;
     front' <- py_store (front st1) 0 (append_new gp f0) ;;
     Ok {| S_sets := S_sets st1; n_count := n_count st1; rank := rank';
           front := front' |}
   else Ok st1)%res.

(** The body of [for q in range(0, len(S))] in the peeling loop: the count
    of every [q] goes down by one, whoever the front member is. *)
Definition peel_one (pop : list Genome) (i : Z) (q : Z)
    (acc : SortState * list Genome) : result (SortState * list Genome) :=
  let '(st, Q) := acc in
  (nq <- py_index (n_count st) q ;;
   n' <- py_store (n_count st) q (nq - 1) ;;
   nq' <- py_index n' q ;;
   if nq' =? 0 then
     rank' <- py_store (rank st) q (i + 1) ;;
     gq <- py_index pop q ;;
     Ok ({| S_sets := S_sets st; n_count := n'; rank := rank';
            front := front st |}, append_new gq Q)
   else
     Ok ({| S_sets := S_sets st; n_count := n'; rank := rank st;
            front := front st |}, Q))%res.

(** [for p in front[i]: for q in range(0, len(S)): ...] *)
Fixpoint peel_front (pop : list Genome) (i : Z) (members : list Genome)
    (acc : SortState * list Genome) : result (SortState * list Genome) :=
  match members with
  | [] => Ok acc
  | _ :: members' =>
      (acc' <- for_range_res (peel_one pop i)
                 (length (S_sets acc.1)) 0 acc ;;
       peel_front pop i members' acc')%res
  end.

(** [while (front[i] != []): ...] *)
Fixpoint peel_loop (fuel : nat) (pop : list Genome) (i : Z) (st : SortState)
    : result SortState :=
  (cur <- py_index (front st) i ;;
   match cur with
   | [] => Ok st
   | _ :: _ =>
       match fuel with
       | O => Timeout
       | S fuel' =>
           r <- peel_front pop i cur (st, []) ;;
           let '(st', Q) := r in
           peel_loop fuel' pop (i + 1)
             {| S_sets := S_sets st'; n_count := n_count st';
                rank := rank st'; front := front st' ++ [Q] |}
       end
   end)%res.

Definition fast_non_dominated_sort (fuel : nat) (non_sort_genomes : list Genome)
    : result (list (list Genome)) :=
  let len := length non_sort_genomes in
  (st <- for_range_res (scan_genome non_sort_genomes) len 0
           {| S_sets := replicate len []; n_count := replicate len 0;
              rank := replicate len 0; front := [[]] |} ;;
   st' <- peel_loop fuel non_sort_genomes 0 st ;;
   (* del front[len(front) - 1] *)
   Ok (removelast (front st')))%res.

(** * The evolution loop ([CGP.run]) *)

(** What the external evaluator returns: [score, total_params, model,
    accuracy]; the model is an opaque handle. *)
Record Evaluation : Type := {
  ev_score : Q;
  ev_total_params : Z;
  ev_model : Z;
  ev_accuracy : Q
}.

(** The evaluator is a parameter of the run.  It receives the child, its
    index and the epoch; it may draw random numbers and may change the child
    it was given (the Keras evaluator re-mutates a child it cannot build),
    so it answers the child as it left it. *)
Definition Evaluator : Type := Individual -> Z -> Z -> M (Individual * Evaluation).

(** What the run shows to the outside, in order. *)
Inductive Event : Type :=
| Evaluated (index epoch : Z)
| ParetoLine (epoch params : Z) (error : Q)
| ModelSaved (model : option Z)
| Improved (index : Z) (new_score : Q).

(** [__evaluator_wrapper] *)
Definition evaluator_wrapper (evaluator : Evaluator) (child : Individual)
    (index epoch : Z) : M Individual :=
  (r <- evaluator child index epoch ;;
   let '(child', e) := r in
   ret {| config := config child'; score := Some (ev_score e);
          model := Some (ev_model e);
          total_params := Some (ev_total_params e);
          genes := genes child'; active := active child';
          accuracy := Some (ev_accuracy e) |})%rnd.

(** The variables of [run]; [generations] is a ghost counter of the turns
    of the [while] loop. *)
Record RunState : Type := {
  parent : Individual;
  current_epoch : Z;
  log : list Event;
  generations : Z
}.

Definition Qgtb (a b : Q) : bool := negb (Qle_bool a b).

(** One turn of [for i in range(self.num_children)] (lines 517-524).  The
    list [children] of the source is overwritten slot by slot, in order,
    before it is read: it is built here by appending. *)
Definition make_child (fuel : nat) (evaluator : Evaluator) (force_mutate : bool)
    (par : Individual) (epoch : Z) (i : Z)
    (acc : list Individual * list Event) : M (list Individual * list Event) :=
  (mutated <- lift (clone par) ;;
   mutated <- mutate fuel force_mutate mutated ;;
   mutated <- evaluator_wrapper evaluator mutated (i + 1) (epoch + 1) ;;
   ret (acc.1 ++ [mutated], acc.2 ++ [Evaluated (i + 1) (epoch + 1)]))%rnd.

(** The report loop of lines 541-548: one line per child of positive
    accuracy. *)
Fixpoint pareto_lines (epoch : Z) (children : list Individual)
    : result (list Event) :=
  match children with
  | [] => Ok []
  | child :: rest =>
      match accuracy child, total_params child with
      | Some a, Some t =>
          (ls <- pareto_lines epoch rest ;;
           Ok (if Qgtb a 0 then ParetoLine epoch t (1 - a) :: ls else ls))%res
      | _, _ => Raise TypeError
      end
  end.

(** One turn of the selection loop of lines 552-580, the increment of
    [current_epoch] of line 580 included. *)
Definition select_child (comp : option Q -> Q -> bool) (idx : Z)
    (child : Individual) (st : RunState) : result RunState :=
  match score child with
  | None => Raise TypeError
  | Some cs =>
      let st1 :=
        if Qgtb cs 0 && comp (score (parent st)) cs then
          {| parent := child; current_epoch := current_epoch st;
             log := log st ++ [ModelSaved (model child); Improved (idx + 1) cs];
             generations := generations st |}
        else st in
      Ok {| parent := parent st1; current_epoch := current_epoch st1 + 1;
            log := log st1; generations := generations st1 |}
  end.

(** [for idx, child in enumerate(children)] *)
Fixpoint select_children (comp : option Q -> Q -> bool) (idx : Z)
    (children : list Individual) (st : RunState) : result RunState :=
  match children with
  | [] => Ok st
  | child :: rest =>
      (st' <- select_child comp idx child st ;;
       select_children comp (idx + 1) rest st')%res
  end.

(** One generation: the body of the [while] loop. *)
Definition generation (fuel : nat) (num_children : Z) (evaluator : Evaluator)
    (comp : option Q -> Q -> bool) (force_mutate : bool) (st : RunState)
    : M RunState :=
  (made <- for_range (Z.to_nat num_children) 0
             (make_child fuel evaluator force_mutate (parent st)
                (current_epoch st))
             ([], log st) ;;
   let '(children, lg) := made in
   lines <- lift (pareto_lines (current_epoch st) children) ;;
   lift (select_children comp 0 children
           {| parent := parent st; current_epoch := current_epoch st;
              log := lg ++ lines; generations := generations st + 1 |}))%rnd.

(** [while current_epoch < max_epochs: ...] *)
Fixpoint run_loop (fuel : nat) (num_children : Z) (evaluator : Evaluator)
    (comp : option Q -> Q -> bool) (max_epochs : Z) (force_mutate : bool)
    (st : RunState) : M RunState :=
  if current_epoch st <? max_epochs then
    match fuel with
    | O => timeout
    | S fuel' =>
        (st' <- generation fuel' num_children evaluator comp force_mutate st ;;
         run_loop fuel' num_children evaluator comp max_epochs force_mutate
           st')%rnd
    end
  else ret st.

(** The object [CGP]: configuration, number of children, loaded parent. *)
Record CGP : Type := {
  cgp_config : CgpConfig;
  num_children : Z;
  cgp_parent : option Individual
}.

(** [CGP.run(evaluator, max_epochs, force_mutate)]; the comparator is
    [evaluator.trainer.comp]. *)
Definition run (fuel : nat) (self : CGP) (evaluator : Evaluator)
    (comp : option Q -> Q -> bool) (max_epochs : Z) (force_mutate : bool)
    : M RunState :=
  (first <- match cgp_parent self with
            | None =>
                p <- spawn fuel (cgp_config self) ;;
                p' <- evaluator_wrapper evaluator p 0 0 ;;
                ret (p', [Evaluated 0 0])
            | Some p => ret (p, [])
            end ;;
   run_loop fuel (num_children self) evaluator comp max_epochs force_mutate
     {| parent := first.1; current_epoch := 0; log := first.2;
        generations := 0 |})%rnd.

(** * Loading a parent ([CGP.load_parent], [CGP.__init__]) *)

(** What a pickle file can hold, as far as [load_parent] looks at it: an
    [Individual], or some other object, which may have no attribute
    [score], or one that is not a number ([Some None]), or a number. *)
Inductive PyObject : Type :=
| PIndividual (ind : Individual)
| POther (score_attr : option (option Q)).

Inductive FileContent : Type :=
| NotAPickle
| Pickled (o : PyObject).

(** [instance.score] *)
Definition get_score_attr (o : PyObject) : result (option Q) :=
  match o with
  | PIndividual ind => Ok (score ind)
  | POther (Some s) => Ok s
  | POther None => Raise AttributeError
  end.

(** ["%.4f" % x]: the operand has to be a number. *)
Definition format_float (x : option Q) : result unit :=
  match x with
  | Some _ => Ok tt
  | None => Raise TypeError
  end.

Definition not_valid_warning : string :=
  "parent is not a valid Individual instance".

(** [load_parent(filename)] on a file system [fs]: the value returned and
    the warnings issued. *)
Definition load_parent (fs : gmap string FileContent) (filename : option string)
    : result (option Individual * list string) :=
  match filename with
  | None => Ok (None, [])
  | Some path =>
      match fs !! path with
      | None => Ok (None, [])
      | Some NotAPickle => Raise UnpicklingError
      | Some (Pickled instance) =>
          (* the print of line 458 comes before the isinstance test *)
          (s <- get_score_attr instance ;;
           _ <- format_float s ;;
           match instance with
           | PIndividual ind => Ok (Some ind, [])
           | POther _ => Ok (None, [not_valid_warning])
           end)%res
      end
  end.

(** [CGP(config, children, parent)] *)
Definition new_CGP (fs : gmap string FileContent) (cfg : CgpConfig)
    (children : Z) (parent_file : option string)
    : result (CGP * list string) :=
  (r <- load_parent fs parent_file ;;
   Ok ({| cgp_config := cfg; num_children := children;
          cgp_parent := r.1 |}, r.2))%res.

(** * Objects and aliasing: [clone] and [mutate] on a store

    The functions above pass genotypes by value.  Here the objects the
    source mutates in place live in a store: the Python list
    [self.genes], the [Gen] objects it refers to, their numpy arrays
    [inputs], and the mask [self.active].  An [Individual] is a handle on
    these; two handles may share any of them. *)

Module Heap.

Abbreviation loc := nat (only parsing).

Inductive cell : Type :=
| CInts (xs : list Z)                      (* numpy array, dtype=int *)
| CBools (bs : list bool)                  (* numpy array, dtype=bool *)
| CList (items : list loc)                 (* Python list of objects *)
| CGen (is_out : bool) (fnc : option Z) (ins : loc) (arity : Z).
                                           (* a Gen: fields is_output,
                                              fnc_idx, inputs, num_inputs *)

Abbreviation heap := (gmap loc cell) (only parsing).

(** The fields of an [Individual] object; [h_genes] and [h_active] are
    references. *)
Record Handle : Type := {
  h_config : CgpConfig;
  h_score : option Q;
  h_model : option Z;
  h_total_params : option Z;
  h_genes : loc;
  h_active : option loc;
  h_accuracy : option Q
}.

Definition HM (A : Type) : Type := heap -> Rng -> result (A * heap * Rng).

Definition hret {A} (a : A) : HM A := fun h r => Ok (a, h, r).
Definition hbind {A B} (m : HM A) (k : A -> HM B) : HM B :=
  fun h r => match m h r with
             | Ok (a, h', r') => k a h' r'
             | Raise e => Raise e
             | Timeout => Timeout
             end.
Definition hlift {A} (m : result A) : HM A :=
  fun h r => match m with
             | Ok a => Ok (a, h, r)
             | Raise e => Raise e
             | Timeout => Timeout
             end.
(** A computation that only draws random numbers. *)
Definition hrand {A} (m : M A) : HM A :=
  fun h r => match m r with
             | Ok (a, r') => Ok (a, h, r')
             | Raise e => Raise e
             | Timeout => Timeout
             end.
Definition htimeout {A} : HM A := fun _ _ => Timeout.

Declare Scope heap_scope.
Delimit Scope heap_scope with hp.
Notation "x <- m ;; k" := (hbind m (fun x => k))
  (at level 100, m at next level, right associativity) : heap_scope.

Definition read (l : loc) : HM cell :=
  fun h r => match h !! l with
             | Some c => Ok (c, h, r)
             | None => Raise SystemError
             end.
Definition write (l : loc) (c : cell) : HM unit :=
  fun h r => Ok (tt, <[l := c]> h, r).
Definition alloc (c : cell) : HM loc :=
  fun h r => let l := fresh (dom h) in Ok (l, <[l := c]> h, r).

Definition read_ints (l : loc) : HM (list Z) :=
  (c <- read l ;;
   match c with CInts xs => hret xs | _ => hlift (Raise TypeError) end)%hp.
Definition read_bools (l : loc) : HM (list bool) :=
  (c <- read l ;;
   match c with CBools bs => hret bs | _ => hlift (Raise TypeError) end)%hp.
Definition read_list (l : loc) : HM (list loc) :=
  (c <- read l ;;
   match c with CList ls => hret ls | _ => hlift (Raise TypeError) end)%hp.

(** The fields of the [Gen] object at [l], as a value: [inputs] is the
    reference to its array. *)
Record GenFields : Type := {
  g_is_output : bool;
  g_fnc_idx : option Z;
  g_inputs : loc;
  g_num_inputs : Z
}.
Definition read_gen (l : loc) : HM GenFields :=
  (c <- read l ;;
   match c with
   | CGen o f i n =>
       hret {| g_is_output := o; g_fnc_idx := f; g_inputs := i;
               g_num_inputs := n |}
   | _ => hlift (Raise TypeError)
   end)%hp.

(** [self.genes[idx]]: the reference found in the list. *)
Definition gene_ref (ind : Handle) (idx : Z) : HM loc :=
  (ls <- read_list (h_genes ind) ;; hlift (py_index ls idx))%hp.

(** [self.genes[idx].inputs[i]] *)
Definition read_input (ind : Handle) (idx i : Z) : HM Z :=
  (g <- gene_ref ind idx ;;
   gf <- read_gen g ;;
   xs <- read_ints (g_inputs gf) ;;
   hlift (py_index xs i))%hp.

(** [self.genes[idx].inputs[i] = v] *)
Definition write_input (ind : Handle) (idx i v : Z) : HM unit :=
  (g <- gene_ref ind idx ;;
   gf <- read_gen g ;;
   xs <- read_ints (g_inputs gf) ;;
   xs' <- hlift (py_store xs i v) ;;
   write (g_inputs gf) (CInts xs'))%hp.

Fixpoint for_range {St} (k : nat) (i : Z) (body : Z -> St -> HM St) (s : St)
    : HM St :=
  match k with
  | O => hret s
  | S k' => (s' <- body i s ;; for_range k' (i + 1) body s')%hp
  end.

(** ** [__walk_to_out], [check_active] *)

Definition active_ref (ind : Handle) : HM loc :=
  match h_active ind with
  | Some l => hret l
  | None => hlift (Raise TypeError)
  end.

Fixpoint walk_to_out (fuel : nat) (ind : Handle) (node : Z) : HM unit :=
  match fuel with
  | O => htimeout
  | S fuel' =>
      (la <- active_ref ind ;;
       act <- read_bools la ;;
       b <- hlift (py_index act node) ;;
       if negb b then
         act' <- hlift (py_store act node true) ;;
         _ <- write la (CBools act') ;;
         g <- gene_ref ind node ;;
         gf <- read_gen g ;;
         for_range (Z.to_nat (g_num_inputs gf)) 0
           (fun i _ =>
              c <- read_input ind node i ;;
              if c >=? num_input (h_config ind)
              then walk_to_out fuel' ind (c - num_input (h_config ind))
              else hret tt)
           tt
       else hret tt)%hp
  end.

Definition check_active (fuel : nat) (ind : Handle) : HM unit :=
  (la <- active_ref ind ;;
   act <- read_bools la ;;
   _ <- write la (CBools (replicate (length act) false)) ;;
   for_range (Z.to_nat (num_output (h_config ind))) 0
     (fun node _ =>
        walk_to_out fuel ind (num_nodes (h_config ind) + node))
     tt)%hp.

(** ** Construction: [Gen.__init__], [init_genes], [spawn] *)

Definition new_OutputGen (max_inputs : Z) : HM loc :=
  (z <- hlift (np_zeros max_inputs) ;;
   a <- alloc (CInts z) ;;
   alloc (CGen true None a 1))%hp.

(** [FunctionGen.__init__] first runs the base initialiser (whose array is
    dropped), then binds a second array. *)
Definition new_FunctionGen (fnc_idx max_inputs num_inputs : Z) : HM loc :=
  (z0 <- hlift (np_zeros max_inputs) ;;
   _ <- alloc (CInts z0) ;;
   z <- hlift (np_zeros max_inputs) ;;
   a <- alloc (CInts z) ;;
   alloc (CGen false (Some fnc_idx) a num_inputs))%hp.

Definition new_Individual (cfg : CgpConfig) : HM Handle :=
  (lg <- alloc (CList []) ;;
   hret {| h_config := cfg; h_score := None; h_model := None;
           h_total_params := None; h_genes := lg; h_active := None;
           h_accuracy := None |})%hp.

Definition init_gene (ind : Handle) (node : Z) : HM unit :=
  let cfg := h_config ind in
  (g <- (if node <? num_nodes cfg then
           fi <- hrand (randint 0 (num_func_genes cfg)) ;;
           ni <- hlift (py_index (function_inputs cfg) fi) ;;
           new_FunctionGen fi (max_inputs cfg) ni
         else new_OutputGen (max_inputs cfg)) ;;
   rg <- hlift (con_id_range cfg node) ;;
   let '(min_con_id, max_con_id) := rg in
   gf <- read_gen g ;;
   xs <- read_ints (g_inputs gf) ;;
   _ <- for_range (length xs) 0
          (fun i _ =>
             r <- hrand (randint 0 (max_con_id - min_con_id)) ;;
             xs <- read_ints (g_inputs gf) ;;
             xs' <- hlift (py_store xs i (min_con_id + r)) ;;
             write (g_inputs gf) (CInts xs'))
          tt ;;
   (* self.genes.append(gene) *)
   ls <- read_list (h_genes ind) ;;
   write (h_genes ind) (CList (ls ++ [g])))%hp.

Definition set_h_active (ind : Handle) (l : loc) : Handle :=
  {| h_config := h_config ind; h_score := h_score ind;
     h_model := h_model ind; h_total_params := h_total_params ind;
     h_genes := h_genes ind; h_active := Some l;
     h_accuracy := h_accuracy ind |}.

(** [init_genes] rebinds [self.active]: it answers the updated handle. *)
Definition init_genes (fuel : nat) (ind : Handle) : HM Handle :=
  let cfg := h_config ind in
  (_ <- for_range (Z.to_nat (num_nodes cfg + num_output cfg)) 0
          (fun node _ => init_gene ind node) tt ;;
   ls <- read_list (h_genes ind) ;;
   la <- alloc (CBools (replicate (length ls) false)) ;;
   let ind' := set_h_active ind la in
   _ <- check_active fuel ind' ;;
   hret ind')%hp.

Definition spawn (fuel : nat) (cfg : CgpConfig) : HM Handle :=
  (ind <- new_Individual cfg ;; init_genes fuel ind)%hp.

(** ** [clone]

    [deepcopy(self.genes)] builds a new list of new [Gen] objects with new
    arrays.  (Its memo table only matters when one object occurs twice
    below [self.genes], which [init_genes] never produces.) *)

Definition copy_gen (g : loc) : HM loc :=
  (gf <- read_gen g ;;
   xs <- read_ints (g_inputs gf) ;;
   a <- alloc (CInts xs) ;;
   alloc (CGen (g_is_output gf) (g_fnc_idx gf) a (g_num_inputs gf)))%hp.

Fixpoint copy_gens (gs : list loc) : HM (list loc) :=
  match gs with
  | [] => hret []
  | g :: rest =>
      (g' <- copy_gen g ;;
       rest' <- copy_gens rest ;;
       hret (g' :: rest'))%hp
  end.

Definition clone (self : Handle) : HM Handle :=
  (instance <- new_Individual (h_config self) ;;
   la <- match h_active self with
         | Some l => hret l
         | None => hlift (Raise AttributeError)
         end ;;
   act <- read_bools la ;;
   la' <- alloc (CBools act) ;;
   ls <- read_list (h_genes self) ;;
   ls' <- copy_gens ls ;;
   lg' <- alloc (CList ls') ;;
   hret {| h_config := h_config instance; h_score := h_score self;
           h_model := h_model self; h_total_params := h_total_params self;
           h_genes := lg'; h_active := Some la';
           h_accuracy := h_accuracy self |})%hp.

(** A clone that copies the list but not the genes ([copy.copy]): what the
    frame property below excludes. *)
Definition clone_shallow (self : Handle) : HM Handle :=
  (la <- match h_active self with
         | Some l => hret l
         | None => hlift (Raise AttributeError)
         end ;;
   act <- read_bools la ;;
   la' <- alloc (CBools act) ;;
   ls <- read_list (h_genes self) ;;
   lg' <- alloc (CList ls) ;;
   hret {| h_config := h_config self; h_score := h_score self;
           h_model := h_model self; h_total_params := h_total_params self;
           h_genes := lg'; h_active := Some la';
           h_accuracy := h_accuracy self |})%hp.

(** ** Mutation *)

(** [self.genes[idx].<field> = ...] *)
Definition update_gen (ind : Handle) (idx : Z)
    (f : GenFields -> GenFields) : HM unit :=
  (g <- gene_ref ind idx ;;
   gf <- read_gen g ;;
   let gf' := f gf in
   write g (CGen (g_is_output gf') (g_fnc_idx gf') (g_inputs gf')
              (g_num_inputs gf')))%hp.

Definition mutate_function_gene (fuel : nat) (ind : Handle) (gene_idx : Z)
    : HM bool :=
  let cfg := h_config ind in
  (fi0 <- hrand (randint 0 (num_func_genes cfg)) ;;
   g <- gene_ref ind gene_idx ;;
   gf <- read_gen g ;;
   cur <- hlift (match g_fnc_idx gf with
                 | Some f => Ok f
                 | None => Raise AttributeError
                 end) ;;
   fi <- hrand (resample_fnc fuel cfg cur fi0) ;;
   _ <- update_gen ind gene_idx
          (fun gf => {| g_is_output := g_is_output gf; g_fnc_idx := Some fi;
                        g_inputs := g_inputs gf;
                        g_num_inputs := g_num_inputs gf |}) ;;
   ni <- hlift (py_index (function_inputs cfg) fi) ;;
   _ <- update_gen ind gene_idx
          (fun gf => {| g_is_output := g_is_output gf;
                        g_fnc_idx := g_fnc_idx gf;
                        g_inputs := g_inputs gf; g_num_inputs := ni |}) ;;
   hret true)%hp.

Fixpoint mutate_slots (fuel : nat) (ind : Handle) (gene_idx : Z)
    (min_con_id max_con_id : Z) (k : nat) (i : Z) : HM bool :=
  match k with
  | O => hret false
  | S k' =>
      (coin <- hrand (randint 0 2) ;;
       if negb (coin =? 0) && (max_con_id - min_con_id >? 1) then
         r <- hrand (randint 0 (max_con_id - min_con_id)) ;;
         cur <- read_input ind gene_idx i ;;
         n <- hrand (resample_con fuel min_con_id max_con_id cur
                       (min_con_id + r)) ;;
         _ <- write_input ind gene_idx i n ;;
         hret true
       else mutate_slots fuel ind gene_idx min_con_id max_con_id k' (i + 1))%hp
  end.

Definition mutate_connection_gene (fuel : nat) (ind : Handle) (gene_idx : Z)
    : HM bool :=
  (rg <- hlift (con_id_range (h_config ind) gene_idx) ;;
   let '(min_con_id, max_con_id) := rg in
   g <- gene_ref ind gene_idx ;;
   gf <- read_gen g ;;
   mutate_slots fuel ind gene_idx min_con_id max_con_id
     (Z.to_nat (g_num_inputs gf)) 0)%hp.

Fixpoint mutate_loop (fuel : nat) (ind : Handle) (num_genes cnt : Z) : HM Z :=
  if cnt <=? mutation_budget (h_config ind) num_genes then
    match fuel with
    | O => htimeout
    | S fuel' =>
        (idx <- hrand (randint 0 num_genes) ;;
         b1 <- (if idx <? num_nodes (h_config ind)
                then mutate_function_gene fuel' ind idx
                else hret false) ;;
         b2 <- mutate_connection_gene fuel' ind idx ;;
         mutate_loop fuel' ind num_genes
           (cnt + Z_of_bool b1 + Z_of_bool b2))%hp
    end
  else hret cnt.

Fixpoint mutate (fuel : nat) (force : bool) (ind : Handle) : HM Handle :=
  match fuel with
  | O => htimeout
  | S fuel' =>
      (ind0 <- (match h_active ind with
                | None => init_genes fuel' ind
                | Some _ => hret ind
                end) ;;
       (* old_net = self.active.copy() *)
       old_net <- (if force then
                     la <- active_ref ind0 ;;
                     act <- read_bools la ;;
                     o <- alloc (CBools act) ;;
                     hret (Some o)
                   else hret None) ;;
       ls <- read_list (h_genes ind0) ;;
       _ <- mutate_loop fuel' ind0 (Z.of_nat (length ls)) 0 ;;
       _ <- check_active fuel' ind0 ;;
       match old_net with
       | Some o =>
           la <- active_ref ind0 ;;
           act <- read_bools la ;;
           old <- read_bools o ;;
           if array_equal act old then mutate fuel' force ind0
           else hret ind0
       | None => hret ind0
       end)%hp
  end.

(** ** Reading a genotype back as a value *)

Definition gen_at (h : heap) (g : loc) : option Gen :=
  match h !! g with
  | Some (CGen o f i n) =>
      match h !! i with
      | Some (CInts xs) =>
          Some {| is_output := o; fnc_idx := f; inputs := xs;
                  num_inputs := n |}
      | _ => None
      end
  | _ => None
  end.

Definition genes_at (h : heap) (ind : Handle) : option (list Gen) :=
  match h !! h_genes ind with
  | Some (CList ls) => mapM (gen_at h) ls
  | _ => None
  end.

Definition active_at (h : heap) (ind : Handle) : option (list bool) :=
  match h_active ind with
  | Some la => match h !! la with Some (CBools bs) => Some bs | _ => None end
  | None => None
  end.

End Heap.

(** * The Keras evaluator (evaluator/keras_evaluator.py)

    The parts of [Evaluator] that do not run Keras: the function mapping
    and the names of the layers built from it, and the keys of the node
    table from which the model is assembled. *)

(** The exceptions of these methods: the [ValueError] of an unknown name
    and the [KeyError] of a subscript on a dict that lacks the key. *)
Inductive kexn : Type := KValueError | KKeyError.

Inductive kresult (A : Type) : Type :=
| KOk (a : A)
| KRaise (e : kexn).
Arguments KOk {A} a.
Arguments KRaise {A} e.

(** A dict with string keys whose order counts: the pairs in insertion
    order, no key twice. *)
Fixpoint dict_get {V} (k : string) (d : list (string * V)) : option V :=
  match d with
  | [] => None
  | (k', v) :: d' => if String.eqb k k' then Some v else dict_get k d'
  end.

(** [d[k] = v]: a key that is there keeps its place. *)
Fixpoint dict_set {V} (k : string) (v : V) (d : list (string * V))
    : list (string * V) :=
  match d with
  | [] => [(k, v)]
  | (k', v') :: d' =>
      if String.eqb k k' then (k, v) :: d' else (k', v') :: dict_set k v d'
  end.

(** A keyword argument of a layer: a string, or some other object. *)
Inductive Arg : Type := ArgStr (s : string) | ArgObj (h : nat).

(** An entry of [function_mapping]: a dict that may hold the keys ['cls']
    (a layer class, an opaque handle), ['args'] (the keyword arguments)
    and ['inputs']. *)
Record LayerSpec : Type := {
  spec_cls : option nat;
  spec_args : option (gmap string Arg);
  spec_inputs : option Z
}.

Definition FunctionMapping : Type := list (string * LayerSpec).

Definition set_args (l : LayerSpec) (args : gmap string Arg) : LayerSpec :=
  {| spec_cls := spec_cls l; spec_args := Some args;
     spec_inputs := spec_inputs l |}.

(** The call of the class on the unpacked [args]: the class and the
    keyword arguments it gets. *)
Record Layer : Type := {
  layer_cls : nat;
  layer_kwargs : gmap string Arg
}.

(** [get_function_input_list()] *)
Fixpoint declared_inputs (m : FunctionMapping) : kresult (list Z) :=
  match m with
  | [] => KOk []
  | (_, v) :: m' =>
      match spec_inputs v with
      | None => KRaise KKeyError
      | Some n =>
          match declared_inputs m' with
          | KOk rest => KOk (n :: rest)
          | KRaise e => KRaise e
          end
      end
  end.

Definition get_function_input_list (m : FunctionMapping)
    : kresult (list string * list Z) :=
  let functions := m.*1 in
  match declared_inputs m with
  | KOk ins => KOk (functions, ins)
  | KRaise e => KRaise e
  end.

(** [name_to_layer(name, idx)]: the mapping afterwards (the dict of the
    arguments is written in place) and the layer. *)
Definition name_to_layer (m : FunctionMapping) (name : string) (idx : Z)
    : kresult (FunctionMapping * Layer) :=
  match dict_get name m with
  | None => KRaise KValueError
  | Some layer =>
      match spec_cls layer with
      | None => KRaise KKeyError
      | Some cls =>
          match spec_args layer with
          | None => KRaise KKeyError
          | Some args =>
              let args' :=
                <["name" := ArgStr (name +:+ "_id_" +:+ pretty idx)]> args in
              KOk (dict_set name (set_args layer args') m,
                   {| layer_cls := cls; layer_kwargs := args' |})
          end
      end
  end.

(** ** The node table of [individual_to_keras_model]

    The keys of the dict [nodes]; the Keras objects stored under them play
    no part in which keys there are. *)

(** [nodes[k] = ...] on the keys. *)
Definition add_key (keys : list Z) (k : Z) : list Z :=
  if bool_decide (k ∈ keys) then keys else keys ++ [k].

(** The first loop over [active_nodes] (lines 154-160): a function gene
    gets the key [idx + num_input], once its function is looked up. *)
Fixpoint function_keys (cfg : CgpConfig) (gs : list Gen)
    (active_nodes : list Z) (keys : list Z) : result (list Z) :=
  match active_nodes with
  | [] => Ok keys
  | idx :: rest =>
      (n <- py_index gs idx ;;
       keys' <- match fnc_idx n with
                | Some fi =>
                    _ <- py_index (functions cfg) fi ;;
                    Ok (add_key keys (idx + num_input cfg))
                | None => Ok keys
                end ;;
       function_keys cfg gs rest keys')%res
  end.

(** The keys once both loops are through, for the mask [a]: the second
    loop (lines 162-203) stores under keys that are there already. *)
Definition node_keys (cfg : CgpConfig) (gs : list Gen) (a : list bool)
    : result (list Z) :=
  function_keys cfg gs (np_where a)
    (fold_left add_key (np_arange (num_input cfg)) []).

(** [sorted(l)] on integers *)
Definition py_sorted (l : list Z) : list Z := merge_sort Z.le l.

(** [sorted(keys)[-num_output:]]: the keys whose nodes become the outputs
    of the model (lines 205-207). *)
Definition output_keys (cfg : CgpConfig) (gs : list Gen) (a : list bool)
    : result (list Z) :=
  (keys <- node_keys cfg gs a ;;
   Ok (drop (slice_start (length keys) (- num_output cfg))
         (py_sorted keys)))%res.

(** * Reasoning principles *)

Section MonadFacts.
Context {A B : Type}.

Lemma rbind_Ok (m : result A) (k : A -> result B) (b : B) :
  rbind m k = Ok b -> exists a, m = Ok a /\ k a = Ok b.
Proof. destruct m as [a| |]; simpl; [eauto | discriminate..]. Qed.

Lemma mbind_Ok (m : M A) (k : A -> M B) (r r' : Rng) (b : B) :
  mbind m k r = Ok (b, r') ->
  exists a r1, m r = Ok (a, r1) /\ k a r1 = Ok (b, r').
Proof.
  unfold mbind. destruct (m r) as [[a r1]| |]; [eauto | discriminate..].
Qed.

Lemma lift_Ok (m : result A) (r r' : Rng) (a : A) :
  lift m r = Ok (a, r') -> m = Ok a /\ r' = r.
Proof.
  unfold lift. destruct m; [| discriminate..].
  intros [= -> ->]. auto.
Qed.

Lemma ret_Ok (a a' : A) (r r' : Rng) :
  ret a r = Ok (a', r') -> a' = a /\ r' = r.
Proof. unfold ret. intros [= -> ->]. auto. Qed.
End MonadFacts.

Lemma randint_Ok (low high v : Z) (r r' : Rng) :
  randint low high r = Ok (v, r') ->
  low <= v < high /\ v = low + tape r (pos r) mod (high - low) /\
  r' = {| tape := tape r; pos := S (pos r) |}.
Proof.
  unfold randint. destruct (Z.leb_spec high low); [discriminate |].
  intros [= <- <-]. split; [| auto].
  pose proof (Z.mod_pos_bound (tape r (pos r)) (high - low)). lia.
Qed.

Lemma timeout_Ok {A} (r r' : Rng) (a : A) : timeout r = Ok (a, r') -> False.
Proof. discriminate. Qed.

(** Break a successful run of a monadic block into its steps. *)
Ltac inv_run :=
  repeat match goal with
    | H : mbind _ _ _ = Ok (_, _) |- _ =>
        let a := fresh "a" in let r := fresh "r" in
        let H1 := fresh "Hrun" in
        apply mbind_Ok in H; destruct H as (a & r & H1 & H)
    | H : rbind _ _ = Ok _ |- _ =>
        let a := fresh "a" in let H1 := fresh "Hrun" in
        apply rbind_Ok in H; destruct H as (a & H1 & H)
    | H : lift _ _ = Ok (_, _) |- _ =>
        apply lift_Ok in H; destruct H as [H ->]
    | H : ret _ _ = Ok (_, _) |- _ =>
        apply ret_Ok in H; destruct H as [H ->];
        first [subst | injection H as H; try subst]
    | H : (_, _) = (_, _) |- _ => injection H as H; try subst
    | H : timeout _ = Ok (_, _) |- _ => destruct (timeout_Ok _ _ _ H)
    | H : Ok _ = Ok _ |- _ => injection H as H; try subst
    | H : (let '(_, _) := ?p in _) _ = Ok _ |- _ => destruct p
    | H : (let '(_, _) := ?p in _) = Ok _ |- _ => destruct p
    | H : Raise _ = Ok _ |- _ => discriminate H
    | H : Timeout = Ok _ |- _ => discriminate H
    end.

Section SequenceFacts.
Context {A : Type}.
Implicit Types (l : list A) (i : Z) (j : nat).

Lemma py_pos_Some l i j :
  py_pos l i = Some j ->
  (j < length l)%nat /\
  j = Z.to_nat (if i <? 0 then i + Z.of_nat (length l) else i).
Proof.
  unfold py_pos. set (z := if i <? 0 then _ else _).
  destruct (Z.leb_spec 0 z), (Z.ltb_spec z (Z.of_nat (length l)));
    simpl; intros [= <-]. split; [lia | reflexivity].
Qed.

Lemma py_pos_nonneg l i j :
  0 <= i -> py_pos l i = Some j -> j = Z.to_nat i /\ (j < length l)%nat.
Proof.
  intros Hi H. apply py_pos_Some in H as [Hlt ->].
  destruct (Z.ltb_spec i 0); [lia | auto].
Qed.

Lemma py_pos_in_range l i :
  0 <= i < Z.of_nat (length l) -> py_pos l i = Some (Z.to_nat i).
Proof.
  intros Hi. unfold py_pos.
  destruct (Z.ltb_spec i 0); [lia |].
  destruct (Z.leb_spec 0 i), (Z.ltb_spec i (Z.of_nat (length l)));
    simpl; auto; lia.
Qed.

Lemma py_index_Ok l i x :
  py_index l i = Ok x -> exists j, py_pos l i = Some j /\ l !! j = Some x.
Proof.
  unfold py_index. destruct (py_pos l i) as [j|]; [| discriminate].
  destruct (l !! j) eqn:E; [| discriminate]. intros [= ->]. eauto.
Qed.

Lemma py_store_Ok l i x l' :
  py_store l i x = Ok l' ->
  exists j, py_pos l i = Some j /\ l' = <[j := x]> l.
Proof.
  unfold py_store. destruct (py_pos l i) as [j|]; [| discriminate].
  intros [= <-]. eauto.
Qed.

Lemma py_store_length l i x l' :
  py_store l i x = Ok l' -> length l' = length l.
Proof.
  intros H. apply py_store_Ok in H as (j & _ & ->). apply length_insert.
Qed.

Lemma py_index_in_range l i :
  0 <= i < Z.of_nat (length l) -> exists x, py_index l i = Ok x.
Proof.
  intros Hi. unfold py_index. rewrite (py_pos_in_range l i Hi).
  destruct (lookup_lt_is_Some_2 l (Z.to_nat i)) as [x ->]; [lia | eauto].
Qed.

Lemma py_store_in_range l i x :
  0 <= i < Z.of_nat (length l) ->
  py_store l i x = Ok (<[Z.to_nat i := x]> l).
Proof.
  intros Hi. unfold py_store. now rewrite (py_pos_in_range l i Hi).
Qed.
End SequenceFacts.

(** Loop invariants for the two [for] combinators. *)
Lemma for_range_inv {St} (P : Z -> St -> Prop) (body : Z -> St -> M St) :
  (forall j s r s' r', P j s -> body j s r = Ok (s', r') -> P (j + 1) s') ->
  forall k i s r s' r',
    P i s -> for_range k i body s r = Ok (s', r') -> P (i + Z.of_nat k) s'.
Proof.
  intros Hstep. induction k as [|k IH]; simpl; intros i s r s' r' HP H.
  - inv_run. now rewrite Z.add_0_r.
  - inv_run. replace (i + Z.of_nat (S k)) with (i + 1 + Z.of_nat k) by lia.
    eauto.
Qed.

Lemma for_range_res_inv {St} (P : Z -> St -> Prop)
    (body : Z -> St -> result St) :
  (forall j s s', P j s -> body j s = Ok s' -> P (j + 1) s') ->
  forall k i s s',
    P i s -> for_range_res body k i s = Ok s' -> P (i + Z.of_nat k) s'.
Proof.
  intros Hstep. induction k as [|k IH]; simpl; intros i s s' HP H.
  - inv_run. now rewrite Z.add_0_r.
  - inv_run. replace (i + Z.of_nat (S k)) with (i + 1 + Z.of_nat k) by lia.
    eauto.
Qed.

(** * The connection invariant *)

(** Every slot of [g] holds a value of the legal interval of position
    [node]. *)
Definition slots_in_range (cfg : CgpConfig) (node : Z) (g : Gen) : Prop :=
  exists lo hi,
    con_id_range cfg node = Ok (lo, hi) /\
    Forall (fun v => lo <= v < hi) (inputs g).

Definition connections_ok (cfg : CgpConfig) (gs : list Gen) : Prop :=
  forall (j : nat) (g : Gen),
    gs !! j = Some g -> slots_in_range cfg (Z.of_nat j) g.

Lemma np_zeros_Ok n l :
  np_zeros n = Ok l -> 0 <= n /\ l = replicate (Z.to_nat n) 0.
Proof.
  unfold np_zeros. destruct (Z.ltb_spec n 0); [discriminate |].
  intros [= <-]. auto.
Qed.

Lemma init_gene_slots cfg node r g r' :
  init_gene cfg node r = Ok (g, r') -> slots_in_range cfg node g.
Proof.
  unfold init_gene. intros H. inv_run.
  rename z into lo, z0 into hi, a into g0, a0 into ins.
  exists lo, hi. split; [assumption |]. simpl.
  set (L := length (inputs g0)) in *.
  pose (P := fun (i : Z) (l : list Z) =>
               0 <= i /\ length l = L /\
               forall (k : nat) v, Z.of_nat k < i -> l !! k = Some v ->
                                   lo <= v < hi).
  assert (HP : P (0 + Z.of_nat L) ins).
  { eapply (for_range_inv P); [| | exact Hrun1].
    - clear. intros j s r s' r' (Hj & Hlen & Hin) Hb. inv_run.
      apply randint_Ok in Hrun as (Hv & _ & _).
      apply py_store_Ok in Hb as (p & Hp & ->).
      apply py_pos_nonneg in Hp as [-> Hlt]; [| assumption].
      split; [lia |]. split; [now rewrite length_insert |].
      intros k v Hk Hlk.
      destruct (decide (k = Z.to_nat j)) as [-> | Hne].
      + rewrite list_lookup_insert_eq in Hlk by assumption.
        injection Hlk as <-. lia.
      + rewrite list_lookup_insert_ne in Hlk by congruence.
        apply (Hin k v); [lia | assumption].
    - unfold P. split; [lia |]. split; [reflexivity |].
      intros k v Hk. lia. }
  destruct HP as (_ & Hlen & Hin).
  apply Forall_lookup. intros k v Hk. apply (Hin k v); [| assumption].
  apply lookup_lt_Some in Hk. lia.
Qed.

Lemma walk_to_out_length fuel cfg gs node act act' :
  walk_to_out fuel cfg gs node act = Ok act' -> length act' = length act.
Proof.
  revert node act act'.
  induction fuel as [|f IH]; simpl; intros node act act' H; [discriminate |].
  apply rbind_Ok in H as (b & Hb & H).
  destruct b; simpl in H; [injection H as <-; reflexivity |].
  apply rbind_Ok in H as (act1 & Hst & H).
  apply rbind_Ok in H as (g & Hg & H).
  apply py_store_length in Hst. rewrite <- Hst.
  apply (for_range_res_inv (fun _ l => length l = length act1)) in H;
    [assumption | | reflexivity].
  intros j s s' HP Hbody. apply rbind_Ok in Hbody as (c & Hc & Hbody).
  destruct (c >=? num_input cfg).
  - apply IH in Hbody. congruence.
  - injection Hbody as <-. assumption.
Qed.

Lemma check_active_frame fuel ind ind' :
  check_active fuel ind = Ok ind' ->
  exists a0 a, active ind = Some a0 /\ ind' = set_active ind a /\
               length a = length a0.
Proof.
  unfold check_active. destruct (active ind) as [a0|] eqn:E; [| discriminate].
  intros H. apply rbind_Ok in H as (a & Hrun & [= <-]).
  exists a0, a. split; [reflexivity |]. split; [reflexivity |].
  apply (for_range_res_inv (fun _ l => length l = length a0)) in Hrun;
    [assumption | | apply length_replicate].
  intros j s s' HP Hb. apply walk_to_out_length in Hb. congruence.
Qed.

Lemma init_genes_connections fuel ind r ind' r' :
  genes ind = [] ->
  init_genes fuel ind r = Ok (ind', r') ->
  config ind' = config ind /\
  connections_ok (config ind) (genes ind') /\
  is_spawned ind' = true /\
  length (genes ind') =
    Z.to_nat (num_nodes (config ind) + num_output (config ind)).
Proof.
  intros Hnil H. unfold init_genes in H. inv_run.
  rename a into gs.
  apply check_active_frame in H as (act0 & act & _ & -> & _). simpl.
  rewrite Hnil in Hrun.
  pose (P := fun (node : Z) (l : list Gen) =>
               0 <= node /\ length l = Z.to_nat node /\
               connections_ok (config ind) l).
  apply (for_range_inv P) in Hrun.
  - destruct Hrun as (_ & Hlen & Hok). repeat split; [assumption |].
    rewrite Hlen, Z.add_0_l. apply Nat2Z.id.
  - clear. intros j s r s' r' (Hj & Hlen & Hok) Hb. inv_run.
    apply init_gene_slots in Hrun.
    split; [lia |]. split; [rewrite length_app; simpl; lia |].
    intros k g Hk. apply lookup_app_Some in Hk as [Hk | [Hge Hk]].
    + now apply Hok.
    + apply list_lookup_singleton_Some in Hk as [Hk0 ->].
      replace (Z.of_nat k) with j by lia. assumption.
  - repeat split; [lia |]. intros k g Hk. discriminate.
Qed.

(** Mutation keeps the gene list's length, the kind of each gene, and the
    connection invariant. *)

Lemma resample_con_range fuel lo hi cur n r n' r' :
  lo <= n < hi ->
  resample_con fuel lo hi cur n r = Ok (n', r') ->
  lo <= n' < hi /\ n' <> cur.
Proof.
  revert n r. induction fuel as [|f IH]; simpl; intros n r Hn H.
  - destruct (Z.eqb_spec n cur); inv_run. auto.
  - destruct (Z.eqb_spec n cur); inv_run; [| auto].
    apply randint_Ok in Hrun as (Hv & _ & _).
    eapply IH; [| eassumption]. lia.
Qed.

(** What one connection mutation does to a gene: nothing when it answers
    [False]; otherwise exactly one used slot is rewritten, with a different
    value of the legal interval. *)
Lemma mutate_slots_spec fuel lo hi g k i r g' b r' :
  0 <= i ->
  mutate_slots fuel lo hi g k i r = Ok (g', b, r') ->
  (b = false /\ g' = g) \/
  (b = true /\ exists (s : nat) old new,
      i <= Z.of_nat s < i + Z.of_nat k /\
      inputs g !! s = Some old /\ new <> old /\ lo <= new < hi /\
      g' = set_inputs g (<[s := new]> (inputs g))).
Proof.
  revert i r g' b r'.
  induction k as [|k IH]; simpl; intros i r g' b r' Hi H.
  - inv_run. auto.
  - apply mbind_Ok in H as (coin & r1 & Hcoin & H).
    destruct (negb (coin =? 0) && (hi - lo >? 1)).
    + right. inv_run. rename Hrun2 into H. split; [reflexivity |].
      apply randint_Ok in Hrun as (Hv & _ & _).
      apply resample_con_range in Hrun1 as [Hn Hne]; [| lia].
      apply py_index_Ok in Hrun0 as (p & Hp & Hold).
      apply py_store_Ok in H as (p' & Hp' & ->).
      rewrite Hp in Hp'. injection Hp' as <-.
      apply py_pos_nonneg in Hp as [-> Hlt]; [| assumption].
      exists (Z.to_nat i). eexists. eexists.
      repeat split; try eassumption; lia.
    + apply IH in H; [| lia].
      destruct H as [H | (Hb & s & old & new & Hs & H)]; [auto |].
      right. split; [assumption |]. exists s, old, new.
      split; [lia | assumption].
Qed.

Lemma Forall_slot_insert (P : Z -> Prop) (l : list Z) s v :
  Forall P l -> P v -> Forall P (<[s := v]> l).
Proof. intros Hl Hv. now apply Forall_insert. Qed.

(** The gene list after a step: one position rewritten by a gene of the
    same kind whose slots are still legal. *)
Definition same_kind (g g' : Gen) : Prop :=
  is_output g' = is_output g /\
  (is_Some (fnc_idx g') <-> is_Some (fnc_idx g)) /\
  length (inputs g') = length (inputs g).

Definition genes_step (cfg : CgpConfig) (gs gs' : list Gen) : Prop :=
  length gs' = length gs /\
  (forall j g', gs' !! j = Some g' ->
     exists g, gs !! j = Some g /\ same_kind g g' /\
               (slots_in_range cfg (Z.of_nat j) g ->
                slots_in_range cfg (Z.of_nat j) g')).

Lemma genes_step_refl cfg gs : genes_step cfg gs gs.
Proof.
  split; [reflexivity |]. intros j g Hj. exists g.
  unfold same_kind. tauto.
Qed.

Lemma genes_step_trans cfg gs1 gs2 gs3 :
  genes_step cfg gs1 gs2 -> genes_step cfg gs2 gs3 -> genes_step cfg gs1 gs3.
Proof.
  intros [L1 H1] [L2 H2]. split; [congruence |].
  intros j g3 Hj. destruct (H2 j g3 Hj) as (g2 & Hj2 & K2 & R2).
  destruct (H1 j g2 Hj2) as (g1 & Hj1 & K1 & R1).
  exists g1. split; [assumption |]. split; [| tauto].
  destruct K1 as (? & ? & ?), K2 as (? & ? & ?).
  unfold same_kind. split; [congruence |]. split; [tauto | congruence].
Qed.

Lemma genes_step_insert cfg gs (p : nat) g g' :
  gs !! p = Some g -> same_kind g g' ->
  (slots_in_range cfg (Z.of_nat p) g -> slots_in_range cfg (Z.of_nat p) g') ->
  genes_step cfg gs (<[p := g']> gs).
Proof.
  intros Hp Hk Hr. split; [apply length_insert |].
  intros j gj Hj. destruct (decide (j = p)) as [-> | Hne].
  - rewrite list_lookup_insert_eq in Hj by (eapply lookup_lt_Some; eauto).
    injection Hj as <-. eauto.
  - rewrite list_lookup_insert_ne in Hj by congruence.
    exists gj. unfold same_kind. tauto.
Qed.

Lemma mutate_function_gene_step fuel cfg gs idx r gs' b r' :
  0 <= idx ->
  mutate_function_gene fuel cfg gs idx r = Ok (gs', b, r') ->
  genes_step cfg gs gs' /\ b = true.
Proof.
  intros Hidx H. unfold mutate_function_gene in H. inv_run.
  split; [| reflexivity].
  apply py_index_Ok in Hrun0 as (p & Hp & Hg).
  apply py_store_Ok in Hrun4 as (p' & Hp' & ->).
  rewrite Hp in Hp'. injection Hp' as <-.
  eapply genes_step_insert; [eassumption | |].
  - unfold same_kind, get_fnc_idx in *. simpl.
    destruct (fnc_idx a0); [| discriminate].
    repeat split; eauto.
  - intros (lo & hi & ? & ?). exists lo, hi. auto.
Qed.

Lemma mutate_connection_gene_step fuel cfg gs idx r gs' b r' :
  0 <= idx ->
  mutate_connection_gene fuel cfg gs idx r = Ok (gs', b, r') ->
  genes_step cfg gs gs'.
Proof.
  intros Hidx H. unfold mutate_connection_gene in H. inv_run.
  apply py_index_Ok in Hrun0 as (p & Hp & Hg).
  apply py_store_Ok in Hrun2 as (p' & Hp' & ->).
  rewrite Hp in Hp'. injection Hp' as <-.
  apply py_pos_nonneg in Hp as [-> Hlt]; [| assumption].
  apply mutate_slots_spec in Hrun1; [| lia].
  eapply genes_step_insert; [eassumption | |].
  - destruct Hrun1 as [[_ ->] | (_ & s & old & new & _ & _ & _ & _ & ->)].
    + unfold same_kind. tauto.
    + unfold same_kind. simpl. rewrite length_insert. tauto.
  - rewrite Z2Nat.id by assumption.
    intros (lo & hi & Hrg & Hall). exists lo, hi. split; [assumption |].
    rewrite Hrg in Hrun. injection Hrun as <- <-.
    destruct Hrun1 as [[_ ->] | (_ & s & old & new & _ & _ & _ & Hn & ->)];
      [assumption |].
    simpl. now apply Forall_slot_insert.
Qed.

Lemma mutate_loop_step fuel cfg n cnt gs r gs' cnt' r' :
  mutate_loop fuel cfg n cnt gs r = Ok (gs', cnt', r') ->
  genes_step cfg gs gs'.
Proof.
  revert cnt gs r.
  induction fuel as [|f IH]; simpl; intros cnt gs r H.
  - destruct (cnt <=? mutation_budget cfg n); inv_run.
    apply genes_step_refl.
  - destruct (cnt <=? mutation_budget cfg n); inv_run;
      [| apply genes_step_refl].
    apply randint_Ok in Hrun as (Hidx & _ & _).
    apply mutate_connection_gene_step in Hrun1; [| lia].
    apply IH in H.
    apply (genes_step_trans _ _ l);
      [| apply (genes_step_trans _ _ l0); assumption].
    destruct (a <? num_nodes cfg).
    + apply mutate_function_gene_step in Hrun0 as [? _]; [assumption | lia].
    + inv_run. apply genes_step_refl.
Qed.

Lemma genes_step_connections cfg gs gs' :
  genes_step cfg gs gs' -> connections_ok cfg gs -> connections_ok cfg gs'.
Proof.
  intros [_ Hstep] Hok j g' Hj.
  destruct (Hstep j g' Hj) as (g & Hg & _ & Hr). auto.
Qed.

Lemma mutate_pass_step fuel ind r ind' cnt r' :
  mutate_pass fuel ind r = Ok (ind', cnt, r') ->
  config ind' = config ind /\ is_spawned ind' = true /\
  genes_step (config ind) (genes ind) (genes ind').
Proof.
  unfold mutate_pass. intros H. inv_run.
  apply mutate_loop_step in Hrun.
  apply check_active_frame in Hrun0 as (act0 & act & _ & -> & _).
  simpl. auto.
Qed.

(** A property of the gene list that initialisation establishes and every
    mutation step keeps holds after [mutate]. *)
Section MutatePreserves.
Variable P : CgpConfig -> list Gen -> Prop.
Hypothesis P_init :
  forall fuel ind r ind' r',
    genes ind = [] -> init_genes fuel ind r = Ok (ind', r') ->
    P (config ind) (genes ind').
Hypothesis P_step :
  forall cfg gs gs', genes_step cfg gs gs' -> P cfg gs -> P cfg gs'.

Lemma mutate_preserves fuel force ind r ind' r' :
  (is_spawned ind = false -> genes ind = []) ->
  (is_spawned ind = true -> P (config ind) (genes ind)) ->
  mutate fuel force ind r = Ok (ind', r') ->
  config ind' = config ind /\ is_spawned ind' = true /\
  P (config ind) (genes ind').
Proof.
  revert ind r.
  induction fuel as [|f IH]; simpl; intros ind r Hwf HP H; [discriminate |].
  apply mbind_Ok in H as (ind0 & r0 & H0 & H).
  assert (Hind0 : config ind0 = config ind /\ is_spawned ind0 = true /\
                  P (config ind) (genes ind0)).
  { destruct (is_spawned ind) eqn:Esp; simpl in H0.
    - inv_run. auto.
    - pose proof (P_init _ _ _ _ _ (Hwf eq_refl) H0).
      apply init_genes_connections in H0; [| auto]. tauto. }
  destruct Hind0 as (Hc0 & Hs0 & HP0).
  apply mbind_Ok in H as ([ind1 cnt] & r1 & H1 & H).
  apply mutate_pass_step in H1 as (Hc1 & Hs1 & Hst).
  rewrite Hc0 in Hst. apply P_step in Hst; [| assumption].
  assert (Hdone : config ind1 = config ind /\ is_spawned ind1 = true /\
                  P (config ind) (genes ind1)) by (split; [congruence | auto]).
  destruct force; [| inv_run; assumption].
  destruct (active ind1) as [a|]; [| inv_run].
  destruct (active ind0) as [o|]; [| inv_run].
  destruct (array_equal a o); [| inv_run; assumption].
  apply IH in H.
  - rewrite Hc1, Hc0 in H. destruct H as (? & ? & ?).
    split; [congruence | auto].
  - congruence.
  - intros _. rewrite Hc1, Hc0. assumption.
Qed.
End MutatePreserves.

(** A value of the legal interval names an external input or a node of a
    strictly earlier column, at most [level_back] columns back. *)
Lemma con_id_range_column cfg node lo hi v :
  0 < rows cfg ->
  con_id_range cfg node = Ok (lo, hi) ->
  lo <= v < hi ->
  let col := Z.min (node / rows cfg) (cols cfg) in
  v < num_input cfg \/
  (col - level_back cfg <= (v - num_input cfg) / rows cfg < col /\
   0 <= (v - num_input cfg) / rows cfg).
Proof.
  intros Hrows H Hv col. unfold con_id_range in H.
  destruct (Z.eqb_spec (rows cfg) 0); [lia |].
  fold col in H. injection H as <- <-.
  destruct (Z_lt_le_dec v (num_input cfg)) as [Hlt | Hge]; [auto | right].
  assert (0 <= (v - num_input cfg) / rows cfg)
    by (apply Z.div_pos; lia).
  split; [| assumption]. split.
  - destruct (Z.geb_spec (col - level_back cfg) 0); [| lia].
    apply Z.div_le_lower_bound; lia.
  - apply Z.div_lt_upper_bound; lia.
Qed.

(** ** Initialisation always succeeds on a sound configuration *)

(** A configuration as [CgpConfig.__init__] builds it from a positive number
    of rows, a non-negative number of columns, a positive level-back and
    functions of arity at least one. *)
Definition config_ok (cfg : CgpConfig) : Prop :=
  0 < rows cfg /\ 0 <= cols cfg /\ 0 < level_back cfg /\
  num_input cfg = 1 /\ 0 <= num_output cfg /\
  num_nodes cfg = rows cfg * cols cfg /\
  num_func_genes cfg = Z.of_nat (length (function_inputs cfg)) /\
  0 < num_func_genes cfg /\ 1 <= max_inputs cfg /\
  Forall (fun a => a <= max_inputs cfg) (function_inputs cfg).

Lemma fold_left_max_ge l : forall x, x <= fold_left Z.max l x.
Proof.
  induction l as [|y l IH]; simpl; intros x; [lia |].
  specialize (IH (Z.max x y)). lia.
Qed.

Lemma fold_left_max_bound l :
  forall x, Forall (fun a => a <= fold_left Z.max l x) l.
Proof.
  induction l as [|y l IH]; simpl; intros x; constructor.
  - pose proof (fold_left_max_ge l (Z.max x y)). lia.
  - apply IH.
Qed.

Lemma new_CgpConfig_ok rows cols level_back fns fis rate cfg :
  new_CgpConfig rows cols level_back fns fis rate = Ok cfg ->
  0 < rows -> 0 <= cols -> 0 < level_back ->
  Forall (fun a => 1 <= a) fis ->
  config_ok cfg.
Proof.
  unfold new_CgpConfig. intros H Hr Hc Hl Hfis.
  destruct (Nat.eqb_spec (length fns) (length fis)) as [Hlen|];
    [| discriminate]. simpl in H.
  apply rbind_Ok in H as (mx & Hmx & [= <-]).
  destruct fis as [|a fis]; [discriminate |]. injection Hmx as <-.
  unfold config_ok. simpl.
  repeat split; try lia.
  - rewrite Hlen. simpl. lia.
  - rewrite Hlen. simpl. lia.
  - apply Forall_cons in Hfis as [Ha _].
    pose proof (fold_left_max_ge fis a). lia.
  - constructor; [apply fold_left_max_ge | apply fold_left_max_bound].
Qed.

(** A loop whose body always succeeds on states of the invariant
    succeeds. *)
Lemma for_range_total {St} (P : Z -> St -> Prop) (body : Z -> St -> M St) :
  forall k i,
    (forall j s r, i <= j < i + Z.of_nat k -> P j s ->
       exists s' r', body j s r = Ok (s', r') /\ P (j + 1) s') ->
    forall s r, P i s ->
      exists s' r', for_range k i body s r = Ok (s', r') /\
                    P (i + Z.of_nat k) s'.
Proof.
  induction k as [|k IH]; intros i Hb s r HP.
  - exists s, r. simpl. rewrite Z.add_0_r. auto.
  - destruct (Hb i s r ltac:(lia) HP) as (s1 & r1 & H1 & HP1).
    destruct (IH (i + 1) ltac:(intros; apply Hb; [lia | assumption])
                s1 r1 HP1) as (s' & r' & H' & HP').
    exists s', r'. simpl. unfold mbind. rewrite H1.
    replace (i + Z.of_nat (S k)) with (i + 1 + Z.of_nat k) by lia. auto.
Qed.

Lemma for_range_res_total {St} (P : Z -> St -> Prop)
    (body : Z -> St -> result St) :
  forall k i,
    (forall j s, i <= j < i + Z.of_nat k -> P j s ->
       exists s', body j s = Ok s' /\ P (j + 1) s') ->
    forall s, P i s ->
      exists s', for_range_res body k i s = Ok s' /\ P (i + Z.of_nat k) s'.
Proof.
  induction k as [|k IH]; intros i Hb s HP.
  - exists s. simpl. rewrite Z.add_0_r. auto.
  - destruct (Hb i s ltac:(lia) HP) as (s1 & H1 & HP1).
    destruct (IH (i + 1) ltac:(intros; apply Hb; [lia | assumption])
                s1 HP1) as (s' & H' & HP').
    exists s'. simpl. rewrite H1. simpl.
    replace (i + Z.of_nat (S k)) with (i + 1 + Z.of_nat k) by lia. auto.
Qed.

Lemma con_id_range_nonempty cfg node :
  config_ok cfg -> 0 <= node ->
  exists lo hi, con_id_range cfg node = Ok (lo, hi) /\ 0 <= lo < hi /\
                hi <= node + 1.
Proof.
  intros (Hr & Hc & Hl & Hni & _) Hnode. unfold con_id_range.
  destruct (Z.eqb_spec (rows cfg) 0); [lia |].
  set (col := Z.min (node / rows cfg) (cols cfg)).
  assert (Hcol : 0 <= col) by (unfold col; pose proof (Z.div_pos node (rows cfg)); lia).
  assert (Hcolr : col * rows cfg <= node).
  { assert (col <= node / rows cfg) by (unfold col; lia).
    pose proof (Z.mul_div_le node (rows cfg) Hr). nia. }
  eexists _, _. split; [reflexivity |]. fold col.
  destruct (Z.geb_spec (col - level_back cfg) 0); nia.
Qed.

(** The arity of a gene does not exceed the size of its array. *)
Definition arity_ok (g : Gen) : Prop :=
  (Z.to_nat (num_inputs g) <= length (inputs g))%nat.

Lemma init_gene_total cfg node r :
  config_ok cfg -> 0 <= node ->
  exists g r', init_gene cfg node r = Ok (g, r') /\ arity_ok g.
Proof.
  intros Hok Hnode.
  destruct (con_id_range_nonempty cfg node Hok Hnode)
    as (lo & hi & Hrg & Hlohi & _).
  pose proof Hok as (Hr & Hc & Hl & Hni & Hno & Hnn & Hnf & Hnf0 & Hmx & Hfis).
  unfold init_gene.
  assert (Hgene : exists g0 r0,
             (if node <? num_nodes cfg
              then mbind (randint 0 (num_func_genes cfg)) (fun fi =>
                   mbind (lift (py_index (function_inputs cfg) fi)) (fun ni =>
                   lift (FunctionGen fi (max_inputs cfg) ni)))
              else lift (OutputGen (max_inputs cfg))) r = Ok (g0, r0) /\
             length (inputs g0) = Z.to_nat (max_inputs cfg) /\
             (Z.to_nat (num_inputs g0) <= Z.to_nat (max_inputs cfg))%nat).
  { destruct (node <? num_nodes cfg).
    - unfold mbind at 1. unfold randint.
      destruct (Z.leb_spec (num_func_genes cfg) 0); [lia |].
      set (fi := 0 + _).
      assert (Hfi : 0 <= fi < num_func_genes cfg).
      { unfold fi. pose proof (Z.mod_pos_bound (tape r (pos r))
                                 (num_func_genes cfg - 0)). lia. }
      destruct (py_index_in_range (function_inputs cfg) fi) as [ni Hni'];
        [lia |].
      unfold mbind, lift. rewrite Hni'.
      unfold FunctionGen, np_zeros.
      destruct (Z.ltb_spec (max_inputs cfg) 0); [lia |]. simpl.
      eexists _, _. split; [reflexivity |]. simpl.
      rewrite length_replicate. split; [reflexivity |].
      apply py_index_Ok in Hni' as (j & _ & Hj).
      rewrite Forall_lookup in Hfis. specialize (Hfis _ _ Hj). simpl in Hfis.
      lia.
    - unfold lift, OutputGen, np_zeros.
      destruct (Z.ltb_spec (max_inputs cfg) 0); [lia |]. simpl.
      eexists _, _. split; [reflexivity |]. simpl.
      rewrite length_replicate. split; [reflexivity | lia]. }
  destruct Hgene as (g0 & r0 & Hg0 & Hlen & Har).
  unfold mbind at 1. rewrite Hg0.
  unfold mbind at 1, lift at 1. rewrite Hrg.
  pose (P := fun (_ : Z) (l : list Z) => length l = length (inputs g0)).
  destruct (for_range_total P
              (fun i ins => mbind (randint 0 (hi - lo)) (fun v =>
                            lift (py_store ins i (lo + v))))
              (length (inputs g0)) 0) with (s := inputs g0) (r := r0)
    as (ins & r1 & Hloop & HP).
  - intros j s r2 Hj Hs. unfold P in Hs. unfold mbind, randint.
    destruct (Z.leb_spec (hi - lo) 0); [lia |].
    unfold lift. rewrite py_store_in_range by lia.
    eexists _, _. split; [reflexivity |]. unfold P.
    now rewrite length_insert.
  - reflexivity.
  - unfold mbind in Hloop |- *. unfold mbind. rewrite Hloop.
    eexists _, _. split; [reflexivity |]. unfold arity_ok, P in *. simpl.
    lia.
Qed.

(** The backward walk ends: a connection of the node at position [node]
    names a node of a smaller position, so the depth of the recursion from
    [node] is at most [node + 1]. *)
Lemma walk_to_out_total cfg gs :
  config_ok cfg -> connections_ok cfg gs -> Forall arity_ok gs ->
  forall fuel node act,
    0 <= node < Z.of_nat (length gs) -> node < Z.of_nat fuel ->
    length act = length gs ->
    exists act', walk_to_out fuel cfg gs node act = Ok act' /\
                 length act' = length gs.
Proof.
  intros Hok Hcon Har. induction fuel as [|f IH]; intros node act Hnode Hf Hlen;
    [simpl in Hf; lia |].
  simpl.
  destruct (py_index_in_range act node) as [b Hb]; [lia |].
  rewrite Hb. simpl. destruct b; simpl; [eauto |].
  rewrite py_store_in_range by lia. simpl.
  destruct (py_index_in_range gs node) as [g Hg]; [lia |].
  rewrite Hg. simpl.
  apply py_index_Ok in Hg as (p & Hp & Hlk).
  apply py_pos_nonneg in Hp as [-> _]; [| lia].
  destruct (Hcon _ _ Hlk) as (lo & hi & Hrg & Hall).
  rewrite Z2Nat.id in Hrg by lia.
  destruct (con_id_range_nonempty cfg node Hok ltac:(lia))
    as (lo' & hi' & Hrg' & _ & Hhi).
  rewrite Hrg in Hrg'. injection Hrg' as <- <-.
  rewrite Forall_lookup in Har. pose proof (Har _ _ Hlk) as Hag.
  unfold arity_ok in Hag.
  pose proof Hok as (_ & _ & _ & Hni & _).
  destruct (for_range_res_total (fun _ a => length a = length gs)
              (fun i a =>
                 rbind (py_index (inputs g) i) (fun c =>
                 if c >=? num_input cfg
                 then walk_to_out f cfg gs (c - num_input cfg) a
                 else Ok a))
              (Z.to_nat (num_inputs g)) 0)
    with (s := <[Z.to_nat node := true]> act) as (act' & Hloop & Hlen').
  - intros j a Hj Ha.
    destruct (py_index_in_range (inputs g) j) as [c Hc]; [lia |].
    rewrite Hc. simpl.
    apply py_index_Ok in Hc as (q & _ & Hq).
    rewrite Forall_lookup in Hall. specialize (Hall _ _ Hq). simpl in Hall.
    destruct (Z.geb_spec c (num_input cfg)); [| eauto].
    apply IH; lia.
  - now rewrite length_insert.
  - eauto.
Qed.

Lemma check_active_total fuel ind a :
  config_ok (config ind) -> connections_ok (config ind) (genes ind) ->
  Forall arity_ok (genes ind) ->
  active ind = Some a -> length a = length (genes ind) ->
  length (genes ind)
    = Z.to_nat (num_nodes (config ind) + num_output (config ind)) ->
  0 <= num_nodes (config ind) ->
  (length (genes ind) <= fuel)%nat ->
  exists ind', check_active fuel ind = Ok ind'.
Proof.
  intros Hok Hcon Har Ha Hlen Hgs Hnn Hfuel. unfold check_active. rewrite Ha.
  pose proof Hok as (_ & _ & _ & _ & Hno & _).
  destruct (for_range_res_total (fun _ act => length act = length (genes ind))
              (fun node act =>
                 walk_to_out fuel (config ind) (genes ind)
                   (num_nodes (config ind) + node) act)
              (Z.to_nat (num_output (config ind))) 0)
    with (s := replicate (length a) false) as (act' & Hloop & _).
  - intros j act Hj Hact.
    apply (walk_to_out_total _ _ Hok Hcon Har); lia.
  - now rewrite length_replicate.
  - rewrite Hloop. simpl. eauto.
Qed.

Lemma config_ok_num_nodes cfg : config_ok cfg -> 0 <= num_nodes cfg.
Proof. intros (? & ? & _ & _ & _ & -> & _). nia. Qed.

(** [spawn] returns on every sound configuration, whatever the tape, as
    soon as the fuel covers the depth of the walk. *)
Lemma spawn_total cfg fuel r :
  config_ok cfg ->
  (Z.to_nat (num_nodes cfg + num_output cfg) <= fuel)%nat ->
  exists ind r', spawn fuel cfg r = Ok (ind, r').
Proof.
  intros Hok Hfuel. unfold spawn, init_genes.
  cbn [config genes new_Individual].
  pose proof (config_ok_num_nodes cfg Hok) as Hnn.
  destruct (for_range_total
              (fun node gs => 0 <= node /\ length gs = Z.to_nat node /\
                              connections_ok cfg gs /\ Forall arity_ok gs)
              (fun node gs => mbind (init_gene cfg node)
                                (fun gene => ret (gs ++ [gene])))
              (Z.to_nat (num_nodes cfg + num_output cfg)) 0)
    with (s := @nil Gen) (r := r) as (gs & r1 & Hloop & HP).
  - intros j s r0 Hj (Hj0 & Hlen & Hcon & Har).
    destruct (init_gene_total cfg j r0 Hok Hj0) as (g & r' & Hg & Hag).
    unfold mbind. rewrite Hg. eexists _, _. split; [reflexivity |].
    split; [lia |]. split; [rewrite length_app; simpl; lia |]. split.
    + intros k g' Hk. apply lookup_app_Some in Hk as [Hk | [Hge Hk]].
      * now apply Hcon.
      * apply list_lookup_singleton_Some in Hk as [Hk0 ->].
        apply init_gene_slots in Hg.
        replace (Z.of_nat k) with j by lia. assumption.
    + apply Forall_app. split; [assumption | now constructor].
  - split; [lia |]. split; [reflexivity |]. split; [| constructor].
    intros k g Hk. discriminate.
  - destruct HP as (_ & Hlen & Hcon & Har).
    unfold mbind at 1. rewrite Hloop. unfold lift.
    rewrite Z.add_0_l, Nat2Z.id in Hlen.
    destruct (check_active_total fuel
                (set_active (set_genes (new_Individual cfg) gs)
                   (replicate (length gs) false))
                (replicate (length gs) false)) as (ind & Hind); simpl; auto.
    + apply length_replicate.
    + lia.
    + rewrite Hind. eauto.
Qed.

(** ** Sample configuration used by the examples *)

(** A 2 x 3 grid, level-back 2, two functions (arities 1 and 2),
    mutation rate 1/10. *)
Definition demo_config : CgpConfig :=
  {| rows := 2; cols := 3; level_back := 2; num_input := 1; num_output := 1;
     num_nodes := 6; functions := [0%nat; 1%nat]; function_inputs := [1; 2];
     num_func_genes := 2; max_inputs := 2; mutation_rate := 1 # 10 |}.

Definition demo_tape (n : nat) : Z := (Z.of_nat n * 7919 + 13) mod 101.
Definition demo_rng : Rng := {| tape := demo_tape; pos := 0 |}.

Example demo_config_built :
  new_CgpConfig 2 3 2 [0%nat; 1%nat] [1; 2] (1 # 10) = Ok demo_config.
Proof. reflexivity. Qed.

(** The genotype [spawn] builds from the sample tape. *)
Definition demo_parent : Individual :=
  {| config := demo_config; score := None; model := None;
     total_params := None;
     genes :=
       [ {| is_output := false; fnc_idx := Some 1; inputs := [0; 0]; num_inputs := 2 |};
         {| is_output := false; fnc_idx := Some 1; inputs := [0; 0]; num_inputs := 2 |};
         {| is_output := false; fnc_idx := Some 1; inputs := [2; 2]; num_inputs := 2 |};
         {| is_output := false; fnc_idx := Some 1; inputs := [1; 0]; num_inputs := 2 |};
         {| is_output := false; fnc_idx := Some 0; inputs := [2; 3]; num_inputs := 1 |};
         {| is_output := false; fnc_idx := Some 0; inputs := [4; 4]; num_inputs := 1 |};
         {| is_output := true; fnc_idx := None; inputs := [3; 4]; num_inputs := 1 |} ];
     active := Some [false; true; true; false; false; false; true];
     accuracy := None |}.

Example demo_spawn :
  spawn 10 demo_config demo_rng =
  Ok (demo_parent, {| tape := demo_tape; pos := 20 |}).
Proof. vm_compute. reflexivity. Qed.

(** C4: after [init_genes] (through [spawn], which does return on every
    sound configuration) and after every call of
    [mutate] that returns, every connection slot of every gene, function
    and output genes alike, the live slots included, holds a value of the
    half-open interval [min_con_id, max_con_id) of the gene's grid position;
    with a positive number of rows such a value names an external input or
    a node of a strictly earlier column inside the level-back window. *)
Theorem C4_connections_in_legal_range :
  (forall fuel cfg r ind r',
      spawn fuel cfg r = Ok (ind, r') ->
      config ind = cfg /\ connections_ok cfg (genes ind)) /\
  (forall fuel cfg r,
      config_ok cfg ->
      (Z.to_nat (num_nodes cfg + num_output cfg) <= fuel)%nat ->
      exists ind r',
        spawn fuel cfg r = Ok (ind, r') /\ connections_ok cfg (genes ind)) /\
  (forall fuel force ind r ind' r',
      (is_spawned ind = false -> genes ind = []) ->
      connections_ok (config ind) (genes ind) ->
      mutate fuel force ind r = Ok (ind', r') ->
      config ind' = config ind /\
      connections_ok (config ind) (genes ind')) /\
  (forall cfg gs (j k : nat) g v,
      connections_ok cfg gs -> 0 < rows cfg ->
      gs !! j = Some g -> inputs g !! k = Some v ->
      exists lo hi,
        con_id_range cfg (Z.of_nat j) = Ok (lo, hi) /\ lo <= v < hi /\
        let col := Z.min (Z.of_nat j / rows cfg) (cols cfg) in
        (v < num_input cfg \/
         col - level_back cfg <= (v - num_input cfg) / rows cfg < col)).
Proof.
  assert (Hspawn : forall fuel cfg r ind r',
             spawn fuel cfg r = Ok (ind, r') ->
             config ind = cfg /\ connections_ok cfg (genes ind)).
  { intros fuel cfg r ind r' H. unfold spawn in H.
    apply init_genes_connections in H; [| reflexivity]. simpl in H. tauto. }
  split; [exact Hspawn |]. split; [| split].
  - intros fuel cfg r Hcfg Hfuel.
    destruct (spawn_total cfg fuel r Hcfg Hfuel) as (ind & r' & H).
    exists ind, r'. split; [assumption |]. now apply Hspawn in H.
  - intros fuel force ind r ind' r' Hwf Hok H.
    apply (mutate_preserves connections_ok) in H; auto.
    + tauto.
    + intros f i r0 i' r0' Hnil H0.
      apply init_genes_connections in H0; tauto.
    + apply genes_step_connections.
  - intros cfg gs j k g v Hok Hrows Hj Hk.
    destruct (Hok j g Hj) as (lo & hi & Hrg & Hall).
    rewrite Forall_lookup in Hall. specialize (Hall k v Hk).
    exists lo, hi. split; [assumption |]. split; [assumption |].
    intros col.
    destruct (con_id_range_column cfg _ lo hi v Hrows Hrg Hall); tauto.
Qed.

Lemma C4_witness :
  connections_ok demo_config (genes demo_parent) /\
  exists ind' r',
    mutate 20 true demo_parent {| tape := demo_tape; pos := 20 |}
      = Ok (ind', r') /\
    connections_ok demo_config (genes ind').
Proof.
  pose proof (proj1 C4_connections_in_legal_range _ _ _ _ _ demo_spawn)
    as [_ Hok].
  split; [exact Hok |].
  destruct (mutate 20 true demo_parent {| tape := demo_tape; pos := 20 |})
    as [[ind' r']| |] eqn:E; [| vm_compute in E; discriminate..].
  exists ind', r'. split; [reflexivity |].
  apply (proj1 (proj2 (proj2 C4_connections_in_legal_range)) _ _ _ _ _ _
           (fun H : is_spawned demo_parent = false =>
              False_ind _ (Bool.diff_true_false H)) Hok E).
Defined.

(** * The layout of the gene list, and attribute safety *)

(** Positions below [num_nodes] hold [FunctionGen] objects (they have a
    [fnc_idx]); the [num_output] positions after them hold [OutputGen]
    objects (no [fnc_idx]). *)
Definition layout (cfg : CgpConfig) (gs : list Gen) : Prop :=
  length gs = Z.to_nat (num_nodes cfg + num_output cfg) /\
  forall (j : nat) (g : Gen),
    gs !! j = Some g ->
    if Z.of_nat j <? num_nodes cfg
    then is_output g = false /\ is_Some (fnc_idx g)
    else is_output g = true /\ fnc_idx g = None.

(** [x] is not an [AttributeError]. *)
Definition attr_safe {A} (x : result A) : Prop :=
  match x with
  | Raise AttributeError => False
  | _ => True
  end.

Lemma attr_safe_mbind {A B} (m : M A) (k : A -> M B) r :
  attr_safe (m r) ->
  (forall a r1, m r = Ok (a, r1) -> attr_safe (k a r1)) ->
  attr_safe (mbind m k r).
Proof.
  unfold mbind. destruct (m r) as [[a r1]| |]; simpl; auto.
Qed.

Lemma attr_safe_rbind {A B} (m : result A) (k : A -> result B) :
  attr_safe m ->
  (forall a, m = Ok a -> attr_safe (k a)) ->
  attr_safe (rbind m k).
Proof. destruct m; simpl; auto. Qed.

Lemma attr_safe_lift {A} (m : result A) r :
  attr_safe m -> attr_safe (lift m r).
Proof. unfold lift. destruct m; simpl; auto. Qed.

Lemma attr_safe_randint low high r : attr_safe (randint low high r).
Proof. unfold randint. destruct (high <=? low); exact I. Qed.

Lemma attr_safe_py_index {A} (l : list A) i : attr_safe (py_index l i).
Proof.
  unfold py_index. destruct (py_pos l i) as [j|]; [| exact I].
  destruct (l !! j); exact I.
Qed.

Lemma attr_safe_py_store {A} (l : list A) i x : attr_safe (py_store l i x).
Proof. unfold py_store. destruct (py_pos l i); exact I. Qed.

Lemma attr_safe_con_id_range cfg node : attr_safe (con_id_range cfg node).
Proof. unfold con_id_range. destruct (rows cfg =? 0); exact I. Qed.

Lemma attr_safe_np_zeros n : attr_safe (np_zeros n).
Proof. unfold np_zeros. destruct (n <? 0); exact I. Qed.

Lemma attr_safe_for_range {St} (body : Z -> St -> M St) :
  (forall j s r, attr_safe (body j s r)) ->
  forall k i s r, attr_safe (for_range k i body s r).
Proof.
  intros Hb. induction k as [|k IH]; simpl; intros i s r; [exact I |].
  apply attr_safe_mbind; auto.
Qed.

Lemma attr_safe_for_range_res {St} (body : Z -> St -> result St) :
  (forall j s, attr_safe (body j s)) ->
  forall k i s, attr_safe (for_range_res body k i s).
Proof.
  intros Hb. induction k as [|k IH]; simpl; intros i s; [exact I |].
  apply attr_safe_rbind; auto.
Qed.

Lemma attr_safe_walk_to_out fuel cfg gs node act :
  attr_safe (walk_to_out fuel cfg gs node act).
Proof.
  revert node act. induction fuel as [|f IH]; simpl; intros node act;
    [exact I |].
  apply attr_safe_rbind; [apply attr_safe_py_index |].
  intros b _. destruct b; simpl; [exact I |].
  apply attr_safe_rbind; [apply attr_safe_py_store |]. intros act1 _.
  apply attr_safe_rbind; [apply attr_safe_py_index |]. intros g _.
  apply attr_safe_for_range_res. intros j s.
  apply attr_safe_rbind; [apply attr_safe_py_index |]. intros c _.
  destruct (c >=? num_input cfg); [apply IH | exact I].
Qed.

Lemma attr_safe_check_active fuel ind : attr_safe (check_active fuel ind).
Proof.
  unfold check_active. destruct (active ind); [| exact I].
  apply attr_safe_rbind; [| intros; exact I].
  apply attr_safe_for_range_res. intros. apply attr_safe_walk_to_out.
Qed.

Lemma attr_safe_init_gene cfg node r : attr_safe (init_gene cfg node r).
Proof.
  unfold init_gene. apply attr_safe_mbind.
  - destruct (node <? num_nodes cfg).
    + apply attr_safe_mbind; [apply attr_safe_randint |]. intros fi r1 _.
      apply attr_safe_mbind;
        [apply attr_safe_lift, attr_safe_py_index |]. intros ni r2 _.
      apply attr_safe_lift. unfold FunctionGen.
      apply attr_safe_rbind; [apply attr_safe_np_zeros |]. intros _ _.
      apply attr_safe_rbind; [apply attr_safe_np_zeros |]. intros; exact I.
    + apply attr_safe_lift. unfold OutputGen.
      apply attr_safe_rbind; [apply attr_safe_np_zeros |]. intros; exact I.
  - intros g r1 _.
    apply attr_safe_mbind; [apply attr_safe_lift, attr_safe_con_id_range |].
    intros [lo hi] r2 _.
    apply attr_safe_mbind; [| intros; exact I].
    apply attr_safe_for_range. intros j s r3.
    apply attr_safe_mbind; [apply attr_safe_randint |]. intros v r4 _.
    apply attr_safe_lift, attr_safe_py_store.
Qed.

Lemma attr_safe_init_genes fuel ind r : attr_safe (init_genes fuel ind r).
Proof.
  unfold init_genes. apply attr_safe_mbind.
  - apply attr_safe_for_range. intros j s r1.
    apply attr_safe_mbind; [apply attr_safe_init_gene | intros; exact I].
  - intros gs r1 _. apply attr_safe_lift, attr_safe_check_active.
Qed.

Lemma attr_safe_resample_fnc fuel cfg cur fi r :
  attr_safe (resample_fnc fuel cfg cur fi r).
Proof.
  revert fi r. induction fuel as [|f IH]; simpl; intros fi r;
    (destruct (fi =? cur); [| exact I]); [exact I |].
  apply attr_safe_mbind; [apply attr_safe_randint | auto].
Qed.

Lemma attr_safe_resample_con fuel lo hi cur n r :
  attr_safe (resample_con fuel lo hi cur n r).
Proof.
  revert n r. induction fuel as [|f IH]; simpl; intros n r;
    (destruct (n =? cur); [| exact I]); [exact I |].
  apply attr_safe_mbind; [apply attr_safe_randint | auto].
Qed.

Lemma attr_safe_mutate_slots fuel lo hi g k i r :
  attr_safe (mutate_slots fuel lo hi g k i r).
Proof.
  revert i r. induction k as [|k IH]; simpl; intros i r; [exact I |].
  apply attr_safe_mbind; [apply attr_safe_randint |]. intros coin r1 _.
  destruct (negb (coin =? 0) && (hi - lo >? 1)); [| apply IH].
  apply attr_safe_mbind; [apply attr_safe_randint |]. intros v r2 _.
  apply attr_safe_mbind; [apply attr_safe_lift, attr_safe_py_index |].
  intros cur r3 _.
  apply attr_safe_mbind; [apply attr_safe_resample_con |]. intros n r4 _.
  apply attr_safe_mbind; [apply attr_safe_lift, attr_safe_py_store |].
  intros; exact I.
Qed.

Lemma attr_safe_mutate_connection_gene fuel cfg gs idx r :
  attr_safe (mutate_connection_gene fuel cfg gs idx r).
Proof.
  unfold mutate_connection_gene.
  apply attr_safe_mbind; [apply attr_safe_lift, attr_safe_con_id_range |].
  intros [lo hi] r1 _.
  apply attr_safe_mbind; [apply attr_safe_lift, attr_safe_py_index |].
  intros g r2 _.
  apply attr_safe_mbind; [apply attr_safe_mutate_slots |].
  intros [g' b] r3 _.
  apply attr_safe_mbind; [apply attr_safe_lift, attr_safe_py_store |].
  intros; exact I.
Qed.

(** The one place that reads [fnc_idx]: safe on a position below
    [num_nodes] of a gene list with the layout. *)
Lemma attr_safe_mutate_function_gene fuel cfg gs idx r :
  layout cfg gs -> 0 <= idx < num_nodes cfg ->
  attr_safe (mutate_function_gene fuel cfg gs idx r).
Proof.
  intros [_ Hlay] Hidx. unfold mutate_function_gene.
  apply attr_safe_mbind; [apply attr_safe_randint |]. intros fi0 r1 _.
  apply attr_safe_mbind; [apply attr_safe_lift, attr_safe_py_index |].
  intros g r2 Hg. apply lift_Ok in Hg as [Hg _].
  apply py_index_Ok in Hg as (p & Hp & Hg).
  apply py_pos_nonneg in Hp as [-> _]; [| lia].
  specialize (Hlay _ _ Hg). rewrite Z2Nat.id in Hlay by lia.
  destruct (Z.ltb_spec idx (num_nodes cfg)); [| lia].
  destruct Hlay as [_ [f Hf]].
  apply attr_safe_mbind.
  { apply attr_safe_lift. unfold get_fnc_idx. rewrite Hf. exact I. }
  intros cur r3 _.
  apply attr_safe_mbind; [apply attr_safe_resample_fnc |]. intros fi r4 _.
  apply attr_safe_mbind; [apply attr_safe_lift, attr_safe_py_index |].
  intros ni r5 _.
  apply attr_safe_mbind; [apply attr_safe_lift, attr_safe_py_store |].
  intros; exact I.
Qed.

Lemma genes_step_layout cfg gs gs' :
  genes_step cfg gs gs' -> layout cfg gs -> layout cfg gs'.
Proof.
  intros [Hlen Hstep] [Hl Hlay]. split; [congruence |].
  intros j g' Hj. destruct (Hstep j g' Hj) as (g & Hg & (Ho & Hf & _) & _).
  specialize (Hlay j g Hg). destruct (Z.of_nat j <? num_nodes cfg).
  - destruct Hlay. split; [congruence | tauto].
  - destruct Hlay as [? Hnone]. split; [congruence |].
    destruct (fnc_idx g') eqn:E; [| reflexivity].
    assert (is_Some (fnc_idx g)) as [x Hx] by (apply Hf; eauto). congruence.
Qed.

Lemma attr_safe_mutate_loop fuel cfg n cnt gs r :
  layout cfg gs -> attr_safe (mutate_loop fuel cfg n cnt gs r).
Proof.
  revert cnt gs r. induction fuel as [|f IH]; simpl; intros cnt gs r Hlay;
    (destruct (cnt <=? mutation_budget cfg n); [| exact I]); [exact I |].
  apply attr_safe_mbind; [apply attr_safe_randint |]. intros idx r1 Hidx.
  apply randint_Ok in Hidx as (Hidx & _ & _).
  apply attr_safe_mbind.
  { destruct (Z.ltb_spec idx (num_nodes cfg)); [| exact I].
    apply attr_safe_mutate_function_gene; [assumption | lia]. }
  intros [gs1 b1] r2 H1.
  assert (Hlay1 : layout cfg gs1).
  { destruct (idx <? num_nodes cfg).
    - apply mutate_function_gene_step in H1 as [H1 _]; [| lia].
      eapply genes_step_layout; eassumption.
    - inv_run. assumption. }
  apply attr_safe_mbind; [apply attr_safe_mutate_connection_gene |].
  intros [gs2 b2] r3 H2.
  apply mutate_connection_gene_step in H2; [| lia].
  apply IH. eapply genes_step_layout; eassumption.
Qed.

Lemma init_gene_kind cfg node r g r' :
  init_gene cfg node r = Ok (g, r') ->
  if node <? num_nodes cfg
  then is_output g = false /\ is_Some (fnc_idx g)
  else is_output g = true /\ fnc_idx g = None.
Proof.
  unfold init_gene. intros H.
  apply mbind_Ok in H as (g0 & r0 & Hg0 & H). inv_run. simpl.
  destruct (node <? num_nodes cfg).
  - inv_run. unfold FunctionGen in Hg0. inv_run. simpl. eauto.
  - inv_run. unfold OutputGen in Hg0. inv_run. simpl. auto.
Qed.

(** Every gene of a freshly initialised genotype was built by [init_gene]
    for its own position. *)
Lemma init_genes_made fuel ind r ind' r' :
  genes ind = [] ->
  init_genes fuel ind r = Ok (ind', r') ->
  forall (j : nat) g,
    genes ind' !! j = Some g ->
    exists r0 r1, init_gene (config ind) (Z.of_nat j) r0 = Ok (g, r1).
Proof.
  intros Hnil H. unfold init_genes in H. inv_run. rename a into gs.
  apply check_active_frame in H as (act0 & act & _ & -> & _). simpl.
  rewrite Hnil in Hrun.
  pose (P := fun (node : Z) (l : list Gen) =>
               0 <= node /\ length l = Z.to_nat node /\
               forall (j : nat) g, l !! j = Some g ->
                 exists r0 r1, init_gene (config ind) (Z.of_nat j) r0
                               = Ok (g, r1)).
  apply (for_range_inv P) in Hrun; [apply Hrun | |].
  - clear. intros j s r s' r' (Hj & Hlen & Hok) Hb. inv_run.
    split; [lia |]. split; [rewrite length_app; simpl; lia |].
    intros k g Hk. apply lookup_app_Some in Hk as [Hk | [Hge Hk]].
    + now apply Hok.
    + apply list_lookup_singleton_Some in Hk as [Hk0 ->].
      replace (Z.of_nat k) with j by lia. eauto.
  - unfold P. split; [lia |]. split; [reflexivity |].
    intros k g Hk. discriminate.
Qed.

Lemma init_genes_layout fuel ind r ind' r' :
  genes ind = [] ->
  init_genes fuel ind r = Ok (ind', r') ->
  layout (config ind) (genes ind').
Proof.
  intros Hnil H. split.
  - apply init_genes_connections in H; tauto.
  - intros j g Hj.
    destruct (init_genes_made _ _ _ _ _ Hnil H j g Hj) as (r0 & r1 & Hg).
    now apply init_gene_kind in Hg.
Qed.

Lemma attr_safe_mutate_pass fuel ind r :
  layout (config ind) (genes ind) -> attr_safe (mutate_pass fuel ind r).
Proof.
  intros Hlay. unfold mutate_pass.
  apply attr_safe_mbind; [now apply attr_safe_mutate_loop |].
  intros [gs cnt] r1 _.
  apply attr_safe_mbind; [apply attr_safe_lift, attr_safe_check_active |].
  intros; exact I.
Qed.

Lemma attr_safe_mutate fuel force ind r :
  (is_spawned ind = false -> genes ind = []) ->
  (is_spawned ind = true -> layout (config ind) (genes ind)) ->
  attr_safe (mutate fuel force ind r).
Proof.
  revert ind r. induction fuel as [|f IH]; simpl; intros ind r Hwf Hlay;
    [exact I |].
  apply attr_safe_mbind.
  { destruct (is_spawned ind); simpl; [exact I | apply attr_safe_init_genes]. }
  intros ind0 r0 H0.
  assert (Hind0 : config ind0 = config ind /\
                  layout (config ind) (genes ind0)).
  { destruct (is_spawned ind) eqn:Esp; simpl in H0.
    - inv_run. auto.
    - pose proof (init_genes_layout _ _ _ _ _ (Hwf eq_refl) H0).
      apply init_genes_connections in H0; [| auto]. tauto. }
  destruct Hind0 as [Hc0 Hl0].
  apply attr_safe_mbind;
    [apply attr_safe_mutate_pass; now rewrite Hc0 |].
  intros [ind1 cnt] r1 H1.
  apply mutate_pass_step in H1 as (Hc1 & Hs1 & Hst).
  destruct force; [| exact I].
  destruct (active ind1); [| exact I].
  destruct (active ind0); [| exact I].
  destruct (array_equal l l0); [| exact I].
  apply IH; [congruence |]. intros _. rewrite Hc1.
  eapply genes_step_layout; [eassumption |]. now rewrite Hc0.
Qed.

(** Without the guard [idx < num_nodes] the read of [fnc_idx] would fail:
    on an output position [__mutate_function_gene] raises. *)
Lemma mutate_function_gene_on_output fuel cfg gs idx r :
  layout cfg gs -> 0 < num_func_genes cfg ->
  0 <= num_nodes cfg <= idx -> idx < Z.of_nat (length gs) ->
  mutate_function_gene fuel cfg gs idx r = Raise AttributeError.
Proof.
  intros [_ Hlay] Hn Hidx Hlen. unfold mutate_function_gene, mbind at 1.
  unfold randint. destruct (Z.leb_spec (num_func_genes cfg) 0); [lia |].
  unfold mbind at 1.
  destruct (py_index_in_range gs idx) as [g Hg]; [lia |].
  unfold lift at 1. rewrite Hg.
  apply py_index_Ok in Hg as (p & Hp & Hg).
  apply py_pos_nonneg in Hp as [-> _]; [| lia].
  specialize (Hlay _ _ Hg). rewrite Z2Nat.id in Hlay by lia.
  destruct (Z.ltb_spec idx (num_nodes cfg)); [lia |].
  destruct Hlay as [_ Hnone].
  unfold mbind, lift, get_fnc_idx. rewrite Hnone. reflexivity.
Qed.

(** C10: the layout of the gene list (function genes at the positions
    below [num_nodes], output genes at the [num_output] positions after
    them) holds after [spawn] and is kept by [mutate]; on a genotype with
    this layout [mutate] never reads [fnc_idx] of an object without it (it
    never raises [AttributeError]), and an output gene still has no
    [fnc_idx] afterwards: the function mutation is only run below
    [num_nodes], where it is safe, and would raise at an output position. *)
Theorem C10_layout_invariant :
  (forall fuel cfg r ind r',
      spawn fuel cfg r = Ok (ind, r') ->
      config ind = cfg /\ is_spawned ind = true /\ layout cfg (genes ind)) /\
  (forall fuel force ind r ind' r',
      is_spawned ind = true -> layout (config ind) (genes ind) ->
      mutate fuel force ind r = Ok (ind', r') ->
      config ind' = config ind /\ layout (config ind) (genes ind')) /\
  (forall fuel force ind r,
      is_spawned ind = true -> layout (config ind) (genes ind) ->
      mutate fuel force ind r <> Raise AttributeError) /\
  (forall fuel cfg gs idx r,
      layout cfg gs -> 0 < num_func_genes cfg ->
      0 <= num_nodes cfg <= idx -> idx < Z.of_nat (length gs) ->
      mutate_function_gene fuel cfg gs idx r = Raise AttributeError).
Proof.
  split; [| split; [| split]].
  - intros fuel cfg r ind r' H. unfold spawn in H.
    pose proof (init_genes_layout _ (new_Individual cfg) _ _ _ eq_refl H)
      as Hlay.
    apply init_genes_connections in H; [| reflexivity]. simpl in *. tauto.
  - intros fuel force ind r ind' r' Hsp Hlay H.
    apply (mutate_preserves layout) in H; auto.
    + tauto.
    + intros. eapply init_genes_layout; eassumption.
    + apply genes_step_layout.
    + congruence.
  - intros fuel force ind r Hsp Hlay H.
    pose proof (attr_safe_mutate fuel force ind r) as Hs.
    rewrite H in Hs. apply Hs; [congruence | auto].
  - apply mutate_function_gene_on_output.
Qed.

Lemma C10_witness :
  layout demo_config (genes demo_parent) /\
  exists ind' r',
    mutate 20 true demo_parent {| tape := demo_tape; pos := 20 |}
      = Ok (ind', r') /\
    layout demo_config (genes ind') /\
    mutate_function_gene 20 demo_config (genes ind') 6
      {| tape := demo_tape; pos := 0 |} = Raise AttributeError.
Proof.
  pose proof (proj1 C10_layout_invariant _ _ _ _ _ demo_spawn)
    as (_ & Hsp & Hlay).
  split; [exact Hlay |].
  destruct (mutate 20 true demo_parent {| tape := demo_tape; pos := 20 |})
    as [[ind' r']| |] eqn:E; [| vm_compute in E; discriminate..].
  exists ind', r'. split; [reflexivity |].
  destruct (proj1 (proj2 C10_layout_invariant) _ _ _ _ _ _ Hsp Hlay E)
    as [_ Hlay'].
  split; [exact Hlay' |].
  apply (proj2 (proj2 (proj2 C10_layout_invariant))); [exact Hlay' | | |].
  - reflexivity.
  - simpl. lia.
  - rewrite (proj1 Hlay'). reflexivity.
Defined.

(** * Forced mutation *)

(** The passes a forced [mutate] goes through: every pass but the last
    leaves the mask as it was, the last one changes it. *)
Inductive forced_passes : Individual -> Rng -> Individual -> Rng -> Prop :=
| fp_last ind r fuel ind' cnt r' :
    mutate_pass fuel ind r = Ok (ind', cnt, r') ->
    active ind' <> active ind ->
    forced_passes ind r ind' r'
| fp_retry ind r fuel ind1 cnt r1 ind' r' :
    mutate_pass fuel ind r = Ok (ind1, cnt, r1) ->
    active ind1 = active ind ->
    forced_passes ind1 r1 ind' r' ->
    forced_passes ind r ind' r'.

Lemma forced_passes_mask ind r ind' r' :
  forced_passes ind r ind' r' -> active ind' <> active ind.
Proof.
  induction 1 as [| ind r fuel ind1 cnt r1 ind' r' _ Heq _ IH];
    [assumption | congruence].
Qed.

Lemma mutate_forced_passes fuel ind r ind' r' :
  is_spawned ind = true ->
  mutate fuel true ind r = Ok (ind', r') ->
  forced_passes ind r ind' r'.
Proof.
  revert ind r. induction fuel as [|f IH]; simpl; intros ind r Hsp H;
    [discriminate |].
  rewrite Hsp in H. simpl in H.
  apply mbind_Ok in H as (ind0 & r0 & H0 & H).
  apply ret_Ok in H0 as [-> ->].
  apply mbind_Ok in H as ([ind1 cnt] & r1 & H1 & H).
  pose proof (mutate_pass_step _ _ _ _ _ _ H1) as (_ & Hs1 & _).
  unfold is_spawned in Hsp, Hs1.
  destruct (active ind1) as [a|] eqn:Ea; [| discriminate].
  destruct (active ind) as [o|] eqn:Eo; [| discriminate].
  unfold array_equal in H. case_bool_decide as Heq.
  - subst o. eapply fp_retry; [eassumption | congruence |].
    apply IH; [| assumption]. unfold is_spawned. now rewrite Ea.
  - inv_run. eapply fp_last; [eassumption |]. congruence.
Qed.

(** C3: when [mutate] is called with [force] set on a spawned genotype and
    returns, the active mask differs from the mask held before the call;
    the call is a chain of whole mutation passes, each pass but the last
    leaving the mask identical and being followed by a fresh pass, the
    last pass being the first one that changes the mask. *)
Theorem C3_forced_mutation_changes_mask fuel ind r ind' r' :
  is_spawned ind = true ->
  mutate fuel true ind r = Ok (ind', r') ->
  active ind' <> active ind /\ forced_passes ind r ind' r'.
Proof.
  intros Hsp H. apply mutate_forced_passes in H; [| assumption].
  split; [eapply forced_passes_mask; eassumption | assumption].
Qed.

Lemma C3_witness :
  exists ind' r',
    mutate 20 true demo_parent {| tape := demo_tape; pos := 20 |}
      = Ok (ind', r') /\
    active ind' <> active demo_parent.
Proof.
  destruct (mutate 20 true demo_parent {| tape := demo_tape; pos := 20 |})
    as [[ind' r']| |] eqn:E; [| vm_compute in E; discriminate..].
  exists ind', r'. split; [reflexivity |].
  exact (proj1 (C3_forced_mutation_changes_mask 20 demo_parent _ _ _
                  eq_refl E)).
Defined.

(** * The mutation budget *)

(** [round(x)] of Python 3 on a float: to the nearest integer, ties to the
    even one. *)
Definition py_round (q : Q) : Z :=
  let f := Qfloor q in
  let d := (q - inject_Z f)%Q in
  match (d ?= 1 # 2)%Q with
  | Lt => f
  | Gt => f + 1
  | Eq => if Z.even f then f else f + 1
  end.

(** [round(x)] on a float *)
Definition py_round_float (x : spec_float) : result Z :=
  match x with
  | S754_zero _ => Ok 0
  | S754_finite s m e => Ok (py_round (float_value s m e))
  | S754_infinity _ => Raise OverflowError
  | S754_nan => Raise ValueError
  end.

(** The budget in the words of the specification:
    [round(mutation_rate * total_genes)]. *)
Definition rounded_budget (cfg : CgpConfig) (total_genes : Z) : result Z :=
  (x <- float_of_int total_genes ;;
   py_round_float (float_mul (py_float (mutation_rate cfg)) x))%res.

(** [mutation_events cfg gs gs' n]: [gs'] comes from [gs] by [n] successive
    changes, each one either a function gene that takes a different
    function index (and that function's arity), or one used connection slot
    that takes a different value of its legal interval. *)
Inductive mutation_events (cfg : CgpConfig) : list Gen -> list Gen -> Z -> Prop :=
| ev_none gs : mutation_events cfg gs gs 0
| ev_function gs (p : nat) g f f' ni gs' n :
    gs !! p = Some g -> fnc_idx g = Some f -> f' <> f ->
    mutation_events cfg (<[p := set_num_inputs (set_fnc_idx g f') ni]> gs) gs' n ->
    mutation_events cfg gs gs' (n + 1)
| ev_connection gs (p s : nat) g old new lo hi gs' n :
    gs !! p = Some g ->
    con_id_range cfg (Z.of_nat p) = Ok (lo, hi) ->
    Z.of_nat s < num_inputs g ->
    inputs g !! s = Some old -> new <> old -> lo <= new < hi ->
    mutation_events cfg (<[p := set_inputs g (<[s := new]> (inputs g))]> gs) gs' n ->
    mutation_events cfg gs gs' (n + 1).

Lemma mutation_events_eq cfg gs gs' n m :
  mutation_events cfg gs gs' n -> n = m -> mutation_events cfg gs gs' m.
Proof. intros H <-. exact H. Qed.

Lemma mutation_events_app cfg gs1 gs2 gs3 n m :
  mutation_events cfg gs1 gs2 n -> mutation_events cfg gs2 gs3 m ->
  mutation_events cfg gs1 gs3 (n + m).
Proof.
  induction 1 as [gs | gs p g f f' ni gs' n Hp Hf Hne _ IH
                 | gs p s g old new lo hi gs' n Hp Hr Hs Ho Hne Hn _ IH];
    intros H2.
  - exact H2.
  - eapply mutation_events_eq; [eapply ev_function; eauto | lia].
  - eapply mutation_events_eq; [eapply ev_connection; eauto | lia].
Qed.

Lemma mutation_events_nonneg cfg gs gs' n :
  mutation_events cfg gs gs' n -> 0 <= n.
Proof. induction 1; lia. Qed.

Lemma resample_fnc_differs fuel cfg cur fi r fi' r' :
  resample_fnc fuel cfg cur fi r = Ok (fi', r') -> fi' <> cur.
Proof.
  revert fi r. induction fuel as [|f IH]; simpl; intros fi r H.
  - destruct (Z.eqb_spec fi cur); inv_run. assumption.
  - destruct (Z.eqb_spec fi cur); inv_run; [eauto | assumption].
Qed.

Lemma mutate_function_gene_event fuel cfg gs idx r gs' b r' :
  0 <= idx ->
  mutate_function_gene fuel cfg gs idx r = Ok (gs', b, r') ->
  b = true /\ mutation_events cfg gs gs' 1.
Proof.
  intros Hidx H. unfold mutate_function_gene in H.
  apply mbind_Ok in H as (fi0 & r0 & _ & H).
  apply mbind_Ok in H as (g & r1 & Hg & H). apply lift_Ok in Hg as [Hg ->].
  apply mbind_Ok in H as (cur & r2 & Hcur & H).
  apply lift_Ok in Hcur as [Hcur ->].
  apply mbind_Ok in H as (fi & r3 & Hfi & H).
  apply mbind_Ok in H as (ni & r4 & _ & H).
  apply mbind_Ok in H as (gs1 & r5 & Hst & H).
  apply lift_Ok in Hst as [Hst ->]. apply ret_Ok in H as [[= <- <-] ->].
  split; [reflexivity |].
  apply resample_fnc_differs in Hfi.
  apply py_index_Ok in Hg as (p & Hp & Hg).
  apply py_store_Ok in Hst as (p' & Hp' & ->).
  rewrite Hp in Hp'. injection Hp' as <-.
  unfold get_fnc_idx in Hcur. destruct (fnc_idx g) as [f|] eqn:Ef;
    [| discriminate]. injection Hcur as ->.
  apply (ev_function cfg gs p g cur fi ni _ 0 Hg Ef Hfi). constructor.
Qed.

Lemma mutate_connection_gene_event fuel cfg gs idx r gs' b r' :
  0 <= idx ->
  mutate_connection_gene fuel cfg gs idx r = Ok (gs', b, r') ->
  mutation_events cfg gs gs' (Z_of_bool b) /\ (b = false -> gs' = gs).
Proof.
  intros Hidx H. unfold mutate_connection_gene in H.
  apply mbind_Ok in H as ([lo hi] & r0 & Hrg & H).
  apply lift_Ok in Hrg as [Hrg ->].
  apply mbind_Ok in H as (g & r1 & Hg & H). apply lift_Ok in Hg as [Hg ->].
  apply mbind_Ok in H as ([g' c] & r2 & Hsl & H).
  apply mbind_Ok in H as (gs1 & r3 & Hst & H).
  apply lift_Ok in Hst as [Hst ->]. apply ret_Ok in H as [[= <- <-] ->].
  apply py_index_Ok in Hg as (p & Hp & Hg).
  apply py_store_Ok in Hst as (p' & Hp' & ->).
  rewrite Hp in Hp'. injection Hp' as <-.
  apply py_pos_nonneg in Hp as [-> Hlt]; [| assumption].
  apply mutate_slots_spec in Hsl; [| lia].
  destruct Hsl as [[-> ->] | (-> & s & old & new & Hs & Ho & Hne & Hn & ->)].
  - rewrite list_insert_id by assumption. split; [constructor | auto].
  - split; [| discriminate].
    apply (ev_connection cfg gs (Z.to_nat idx) s g old new lo hi _ 0);
      try assumption; [now rewrite Z2Nat.id | lia | constructor].
Qed.

Lemma mutate_loop_events fuel cfg n cnt gs r gs' cnt' r' :
  mutate_loop fuel cfg n cnt gs r = Ok (gs', cnt', r') ->
  mutation_events cfg gs gs' (cnt' - cnt).
Proof.
  revert cnt gs r. induction fuel as [|f IH]; simpl; intros cnt gs r H.
  - destruct (cnt <=? mutation_budget cfg n); inv_run.
    rewrite Z.sub_diag. constructor.
  - destruct (cnt <=? mutation_budget cfg n);
      [| inv_run; rewrite Z.sub_diag; constructor].
    apply mbind_Ok in H as (idx & r0 & Hidx & H).
    apply randint_Ok in Hidx as (Hidx & _ & _).
    apply mbind_Ok in H as ([gs1 b1] & r1 & H1 & H).
    apply mbind_Ok in H as ([gs2 b2] & r2 & H2 & H).
    apply IH in H.
    apply mutate_connection_gene_event in H2 as [H2 _]; [| lia].
    assert (E1 : mutation_events cfg gs gs1 (Z_of_bool b1)).
    { destruct (idx <? num_nodes cfg).
      - apply mutate_function_gene_event in H1 as [-> H1]; [exact H1 | lia].
      - inv_run. constructor. }
    eapply mutation_events_eq;
      [exact (mutation_events_app _ _ _ _ _ _ E1
                (mutation_events_app _ _ _ _ _ _ H2 H)) | lia].
Qed.

(** The loop stops at the first count above the budget; one turn adds at
    most two. *)
Lemma mutate_loop_count fuel cfg n cnt gs r gs' cnt' r' :
  cnt <= mutation_budget cfg n + 2 ->
  mutate_loop fuel cfg n cnt gs r = Ok (gs', cnt', r') ->
  mutation_budget cfg n < cnt' <= mutation_budget cfg n + 2.
Proof.
  revert cnt gs r. induction fuel as [|f IH]; simpl; intros cnt gs r Hc H.
  - destruct (Z.leb_spec cnt (mutation_budget cfg n)); inv_run. lia.
  - destruct (Z.leb_spec cnt (mutation_budget cfg n)); [| inv_run; lia].
    apply mbind_Ok in H as (idx & r0 & _ & H).
    apply mbind_Ok in H as ([gs1 b1] & r1 & _ & H).
    apply mbind_Ok in H as ([gs2 b2] & r2 & _ & H).
    apply IH in H; [assumption |].
    destruct b1, b2; simpl; lia.
Qed.

Lemma py_int_nonneg q : (0 <= q)%Q -> 0 <= py_int q.
Proof.
  intros Hq. unfold py_int.
  apply Qle_bool_iff in Hq as Hb. rewrite Hb.
  change 0 with (Qfloor 0). now apply Qfloor_resp_le.
Qed.

(** ** The sign of the float product *)

(** [x] is not a number, or its sign bit is [s]. *)
Definition has_sign (s : bool) (x : spec_float) : Prop :=
  match x with
  | S754_zero s' | S754_infinity s' | S754_finite s' _ _ => s' = s
  | S754_nan => True
  end.

Lemma binary_round_aux_sign s m e l :
  has_sign s (binary_round_aux 53 1024 s m e l).
Proof.
  unfold binary_round_aux.
  destruct (shr_fexp 53 1024 m e l) as [mrs e1].
  destruct (shr_fexp 53 1024 _ e1 loc_Exact) as [mrs2 e2].
  destruct (shr_m mrs2); simpl; [reflexivity | | exact I].
  destruct (Z.leb e2 (1024 - 53)); reflexivity.
Qed.

Lemma py_float_sign q : (0 <= q)%Q -> has_sign false (py_float q).
Proof.
  intros Hq. unfold py_float.
  destruct (Qnum q) as [|p|p] eqn:Hp; [reflexivity | |].
  - unfold SFdiv.
    destruct (SFdiv_core_binary 53 1024 (Z.pos p) 0 (Z.pos (Qden q)) 0)
      as [[mz ez] lz].
    apply binary_round_aux_sign.
  - unfold Qle in Hq. rewrite Hp in Hq. simpl in Hq. lia.
Qed.

Lemma float_of_int_sign n x :
  0 <= n -> float_of_int n = Ok x -> has_sign false x.
Proof.
  intros Hn. unfold float_of_int.
  assert (Hs : has_sign false (binary_normalize 53 1024 n 0 false)).
  { destruct n as [|p|p]; [reflexivity | | lia].
    unfold binary_normalize, binary_round.
    destruct (shl_align p 0 _) as [mz ez]. apply binary_round_aux_sign. }
  destruct (binary_normalize 53 1024 n 0 false); [| discriminate | |];
    intros [= <-]; exact Hs.
Qed.

Lemma float_mul_sign x y :
  has_sign false x -> has_sign false y -> has_sign false (float_mul x y).
Proof.
  unfold float_mul.
  destruct x as [sx|sx| |sx mx ex], y as [sy|sy| |sy my ey]; simpl;
    intros Hx Hy; subst; try reflexivity; try exact I.
  apply binary_round_aux_sign.
Qed.

Lemma float_value_nonneg m e : (0 <= float_value false m e)%Q.
Proof.
  unfold float_value. destruct (0 <=? e).
  - change 0%Q with (inject_Z 0). rewrite <- Zle_Qle.
    apply Z.mul_nonneg_nonneg; [lia | apply Z.pow_nonneg; lia].
  - unfold Qle. simpl. lia.
Qed.

Lemma py_int_float_nonneg x b :
  has_sign false x -> py_int_float x = Ok b -> 0 <= b.
Proof.
  destruct x as [s|s| |s m e]; simpl; intros Hs H; try discriminate.
  - injection H as <-. lia.
  - injection H as <-. subst s. apply py_int_nonneg, float_value_nonneg.
Qed.

(** With a rate that is not negative, [int(num_genes * mutation_rate)]
    is not negative. *)
Lemma int_of_product_nonneg cfg n b :
  (0 <= mutation_rate cfg)%Q -> 0 <= n ->
  int_of_product cfg n = Ok b -> 0 <= b.
Proof.
  intros Hr Hn H. unfold int_of_product in H.
  apply rbind_Ok in H as (x & Hx & H).
  eapply py_int_float_nonneg; [| exact H].
  apply float_mul_sign; [eapply float_of_int_sign; eassumption |].
  now apply py_float_sign.
Qed.


(** The float product is not the product of the rationals: [10 * 0.3] is
    the float [3.0] (the rational [0.3] times ten is below three), and
    [100 * 0.57] is a float below [57]; past the largest float [int]
    raises. *)
Example float_product_examples :
  (x <- float_of_int 10 ;;
   py_int_float (float_mul x (py_float (3 # 10))))%res = Ok 3 /\
  (x <- float_of_int 100 ;;
   py_int_float (float_mul x (py_float (57 # 100))))%res = Ok 56 /\
  (x <- float_of_int 4 ;;
   py_int_float (float_mul x (py_float (1 # 2))))%res = Ok 2 /\
  (x <- float_of_int 7 ;;
   py_int_float (float_mul x (py_float (1 # 10))))%res = Ok 0 /\
  (x <- float_of_int 10 ;;
   py_int_float (float_mul x (py_float (inject_Z (10 ^ 308)))))%res
  = Raise OverflowError /\
  py_float (3 # 10) = S754_finite false 5404319552844595 (-54).
Proof. repeat split; vm_compute; reflexivity. Qed.

(** A connection mutation on a legal interval of at most one value never
    changes the gene. *)
Lemma mutate_slots_single fuel lo hi g k i r g' b r' :
  hi - lo <= 1 ->
  mutate_slots fuel lo hi g k i r = Ok (g', b, r') -> b = false /\ g' = g.
Proof.
  intros Hone. revert i r. induction k as [|k IH]; simpl; intros i r H.
  - inv_run. auto.
  - apply mbind_Ok in H as (coin & r1 & _ & H).
    destruct (Z.gtb_spec (hi - lo) 1); [lia |].
    rewrite andb_false_r in H. eauto.
Qed.

(** A 1 x 3 grid with level-back 1 (every legal interval has one value) and
    mutation rate 1/2: [num_genes * mutation_rate] is the float [2.0]. *)
Definition cex_config : CgpConfig :=
  {| rows := 1; cols := 3; level_back := 1; num_input := 1; num_output := 1;
     num_nodes := 3; functions := [0%nat; 1%nat]; function_inputs := [1; 2];
     num_func_genes := 2; max_inputs := 2; mutation_rate := 1 # 2 |}.

Definition cex_parent : Individual :=
  {| config := cex_config; score := None; model := None;
     total_params := None;
     genes :=
       [ {| is_output := false; fnc_idx := Some 1; inputs := [0; 0]; num_inputs := 2 |};
         {| is_output := false; fnc_idx := Some 1; inputs := [1; 1]; num_inputs := 2 |};
         {| is_output := false; fnc_idx := Some 1; inputs := [2; 2]; num_inputs := 2 |};
         {| is_output := true; fnc_idx := None; inputs := [3; 3]; num_inputs := 1 |} ];
     active := Some [true; true; true; true];
     accuracy := None |}.

Example cex_config_built :
  new_CgpConfig 1 3 1 [0%nat; 1%nat] [1; 2] (1 # 2) = Ok cex_config.
Proof. reflexivity. Qed.

Example cex_spawn :
  spawn 10 cex_config demo_rng
  = Ok (cex_parent, {| tape := demo_tape; pos := 11 |}).
Proof. vm_compute. reflexivity. Qed.

Example py_round_examples :
  py_round (5 # 2) = 2 /\ py_round (7 # 2) = 4 /\ py_round (7 # 10) = 1 /\
  py_round (51 # 10) = 5 /\ py_int (51 # 10) = 5 /\ py_int (-7 # 3) = -2.
Proof. repeat split. Qed.

Lemma mutate_connection_gene_single fuel cfg gs idx r gs' b r' lo hi :
  con_id_range cfg idx = Ok (lo, hi) -> hi - lo <= 1 ->
  mutate_connection_gene fuel cfg gs idx r = Ok (gs', b, r') -> b = false.
Proof.
  intros Hrg Hone H. unfold mutate_connection_gene in H.
  apply mbind_Ok in H as ([lo' hi'] & r0 & Hrg' & H).
  apply lift_Ok in Hrg' as [Hrg' ->].
  rewrite Hrg in Hrg'. injection Hrg' as <- <-.
  apply mbind_Ok in H as (g & r1 & _ & H).
  apply mbind_Ok in H as ([g' c] & r2 & Hsl & H).
  apply mbind_Ok in H as (gs1 & r3 & _ & H).
  apply ret_Ok in H as [[= <- <-] ->].
  now apply mutate_slots_single in Hsl as [-> _].
Qed.

(** C6 (as stated) fails: on a genotype of 4 genes with mutation rate 1/2
    a pass of [mutate] (here the whole call, [force] being off) applies 3
    counted events, and [round(0.5 * 4)] is 2. *)
Lemma C6_counterexample :
  exists ind' cnt r',
    mutate_pass 19 cex_parent {| tape := demo_tape; pos := 11 |}
      = Ok (ind', cnt, r') /\
    mutate 20 false cex_parent {| tape := demo_tape; pos := 11 |}
      = Ok (ind', r') /\
    cnt = 3 /\
    rounded_budget cex_config (Z.of_nat (length (genes cex_parent)))
    = Ok 2 /\
    rounded_budget cex_config (Z.of_nat (length (genes cex_parent)))
    <> Ok cnt.
Proof.
  eexists _, _, _. split; [vm_compute; reflexivity |].
  split; [vm_compute; reflexivity |].
  split; [reflexivity |]. split; [vm_compute; reflexivity |].
  vm_compute. discriminate.
Qed.

(** C6 (amended): a pass of [mutate] stops at the first count of
    successful events above [B = int(num_genes * mutation_rate)], the
    truncation of the float product: with a non-negative rate the count is
    [B] plus one or plus two, and the gene list after the pass (the one
    [check_active] then walks) comes from the one before by exactly that
    many changes, each a function gene given a different function or one
    used slot given a different legal value.  A connection attempt that
    answers [False] leaves the gene list as it was and adds nothing to the
    count, and it always answers [False] when the legal interval has at
    most one value. *)
Theorem C6_mutation_budget :
  (forall fuel ind r ind' cnt r' B,
      (0 <= mutation_rate (config ind))%Q ->
      int_of_product (config ind) (Z.of_nat (length (genes ind))) = Ok B ->
      mutate_pass fuel ind r = Ok (ind', cnt, r') ->
      B + 1 <= cnt <= B + 2 /\
      mutation_events (config ind) (genes ind) (genes ind') cnt) /\
  (forall fuel cfg gs idx r gs' b r',
      0 <= idx ->
      mutate_connection_gene fuel cfg gs idx r = Ok (gs', b, r') ->
      mutation_events cfg gs gs' (Z_of_bool b) /\
      (b = false -> gs' = gs) /\
      (forall lo hi, con_id_range cfg idx = Ok (lo, hi) ->
                     hi - lo <= 1 -> b = false)).
Proof.
  split.
  - intros fuel ind r ind' cnt r' B Hrate HB H. unfold mutate_pass in H.
    apply mbind_Ok in H as ([gs c] & r1 & Hloop & H).
    apply mbind_Ok in H as (ind1 & r2 & Hact & H).
    apply lift_Ok in Hact as [Hact ->]. apply ret_Ok in H as [[= <- <-] ->].
    apply check_active_frame in Hact as (a0 & a & _ & -> & _). simpl.
    pose proof (int_of_product_nonneg _ _ _ Hrate (Nat2Z.is_nonneg _) HB)
      as HB0.
    assert (HBv : mutation_budget (config ind)
                    (Z.of_nat (length (genes ind))) = B)
      by (unfold mutation_budget; now rewrite HB).
    split.
    + apply mutate_loop_count in Hloop; [rewrite HBv in Hloop; lia |].
      rewrite HBv. lia.
    + apply mutate_loop_events in Hloop. now rewrite Z.sub_0_r in Hloop.
  - intros fuel cfg gs idx r gs' b r' Hidx H.
    pose proof (mutate_connection_gene_event _ _ _ _ _ _ _ _ Hidx H)
      as [He Hf].
    split; [assumption |]. split; [assumption |].
    intros lo hi Hrg Hone.
    eapply mutate_connection_gene_single; eassumption.
Qed.

Lemma C6_witness :
  exists ind' cnt r',
    mutate_pass 20 demo_parent {| tape := demo_tape; pos := 20 |}
      = Ok (ind', cnt, r') /\
    1 <= cnt <= 2 /\
    mutation_events demo_config (genes demo_parent) (genes ind') cnt.
Proof.
  destruct (mutate_pass 20 demo_parent {| tape := demo_tape; pos := 20 |})
    as [[[ind' cnt] r']| |] eqn:E; [| vm_compute in E; discriminate..].
  exists ind', cnt, r'. split; [reflexivity |].
  assert (Hrate : (0 <= mutation_rate (config demo_parent))%Q)
    by (vm_compute; discriminate).
  assert (HB : int_of_product (config demo_parent)
                 (Z.of_nat (length (genes demo_parent))) = Ok 0)
    by (vm_compute; reflexivity).
  exact (proj1 C6_mutation_budget 20%nat demo_parent _ _ _ _ 0 Hrate HB E).
Defined.

(** * A function set of one member *)








(** The smallest one-function configuration: one node, one output. *)
Definition single_config : CgpConfig :=
  {| rows := 1; cols := 1; level_back := 5; num_input := 1; num_output := 1;
     num_nodes := 1; functions := [0%nat]; function_inputs := [1];
     num_func_genes := 1; max_inputs := 1; mutation_rate := 1 # 10 |}.

Definition single_parent : Individual :=
  {| config := single_config; score := None; model := None;
     total_params := None;
     genes :=
       [ {| is_output := false; fnc_idx := Some 0; inputs := [0]; num_inputs := 1 |};
         {| is_output := true; fnc_idx := None; inputs := [1]; num_inputs := 1 |} ];
     active := Some [true; true];
     accuracy := None |}.


Example single_config_built :
  new_CgpConfig 1 1 5 [0%nat] [1] (1 # 10) = Ok single_config.
Proof. reflexivity. Qed.


(** On the same genotype a call that only ever picks the output gene does
    return: the hang below comes from the function gene alone. *)
Example single_parent_output_only :
  exists ind' r',
    mutate 5 true single_parent
      {| tape := fun n => if (n <? 2)%nat then 1 else 0; pos := 0 |}
    = Ok (ind', r').
Proof. eexists _, _. vm_compute. reflexivity. Qed.



(** * Pareto ranking: the peel step *)

(** ** The ranking as the specification words it

    Modelled from the spec (section 4.4), for comparison with the code:
    [p] dominates [q] when it is at least as good on both objectives and
    strictly better on one; front 0 holds the genomes with domination count
    zero; peeling a front decrements the count of exactly the genomes its
    members dominate, and those reaching zero form the next front. *)

Definition spec_dominates (p q : Individual) : bool :=
  match score p, score q, total_params p, total_params q with
  | Some sp, Some sq, Some tp, Some tq =>
      (Qle_bool sq sp && (tp <=? tq)) && (negb (Qle_bool sp sq) || (tp <? tq))
  | _, _, _, _ => false
  end.

Definition spec_domination_count (pop : list Genome) (q : Genome) : Z :=
  Z.of_nat (length (filter (fun p : Genome => spec_dominates p.2 q.2 = true)
                      pop)).

(** Peeling one member [p]: the counts are kept next to the genomes. *)
Fixpoint spec_peel_member (p : Genome) (counted : list (Genome * Z))
    : list (Genome * Z) * list Genome :=
  match counted with
  | [] => ([], [])
  | (q, n) :: rest =>
      let '(rest', next) := spec_peel_member p rest in
      if spec_dominates p.2 q.2
      then ((q, n - 1) :: rest', if n - 1 =? 0 then q :: next else next)
      else ((q, n) :: rest', next)
  end.

Fixpoint spec_peel_front (members : list Genome) (counted : list (Genome * Z))
    : list (Genome * Z) * list Genome :=
  match members with
  | [] => (counted, [])
  | p :: members' =>
      let '(counted1, next1) := spec_peel_member p counted in
      let '(counted2, next2) := spec_peel_front members' counted1 in
      (counted2, next1 ++ next2)
  end.

Fixpoint spec_fronts (fuel : nat) (cur : list Genome)
    (counted : list (Genome * Z)) : list (list Genome) :=
  match cur, fuel with
  | [], _ | _, O => []
  | _ :: _, S fuel' =>
      let '(counted', next) := spec_peel_front cur counted in
      cur :: spec_fronts fuel' next counted'
  end.

Definition spec_non_dominated_sort (pop : list Genome) : list (list Genome) :=
  let counted := map (fun q => (q, spec_domination_count pop q)) pop in
  spec_fronts (length pop)
    (map fst (filter (fun qn : Genome * Z => qn.2 = 0) counted)) counted.

(** ** A population of four *)

Definition evaluated (addr : nat) (s : Q) (t : Z) : Genome :=
  (addr, {| config := demo_config; score := Some s; model := None;
            total_params := Some t; genes := []; active := None;
            accuracy := Some s |}).

Definition gA : Genome := evaluated 0 3 3.
Definition gB : Genome := evaluated 1 0 0.
Definition gX : Genome := evaluated 2 2 4.
Definition gY : Genome := evaluated 3 1 5.

(** The population of the spec's own test: neither genome dominates the
    other, both are in front 0. *)
Example two_non_dominated :
  fast_non_dominated_sort 10 [evaluated 0 (9 # 10) 10; evaluated 1 (8 # 10) 5]
  = Ok [[evaluated 0 (9 # 10) 10; evaluated 1 (8 # 10) 5]].
Proof. vm_compute. reflexivity. Qed.

(** C1 (the code at a failing input): on the population A = (3, 3),
    B = (0, 0), X = (2, 4), Y = (1, 5) (score, parameters) the code answers
    the fronts [A, B] and [X, Y], although X dominates Y: peeling B, which
    does not dominate Y, took Y's count down as well, because the loop runs
    over every index ([for q in range(0, len(S))]) and not over [S[p]].
    Peeling as the claim says gives [A, B], [X], [Y]. *)
Theorem C1_peel_decrements_every_count :
  fast_non_dominated_sort 10 [gA; gB; gX; gY] = Ok [[gA; gB]; [gX; gY]] /\
  dominates gX.2 gY.2 = Ok true /\
  dominates gB.2 gY.2 = Ok false /\
  spec_non_dominated_sort [gA; gB; gX; gY] = [[gA; gB]; [gX]; [gY]].
Proof. repeat split; vm_compute; reflexivity. Qed.

(** * The evolution loop: selection and generations *)

(** ** The selection step *)

(** Does [child] replace the parent [p]?  (lines 553-554) *)
Definition child_wins (comp : option Q -> Q -> bool) (p child : Individual)
    : bool :=
  match score child with
  | Some cs => Qgtb cs 0 && comp (score p) cs
  | None => false
  end.

(** A comparator for which the higher score wins. *)
Definition higher_score_wins (current : option Q) (candidate : Q) : bool :=
  match current with
  | Some c => Qgtb candidate c
  | None => true
  end.

Lemma select_child_parent comp idx child st st' :
  select_child comp idx child st = Ok st' ->
  parent st' = (if child_wins comp (parent st) child then child
                else parent st) /\
  current_epoch st' = current_epoch st + 1 /\
  generations st' = generations st.
Proof.
  unfold select_child, child_wins. destruct (score child) as [cs|];
    [| discriminate].
  intros [= <-]. destruct (Qgtb cs 0 && comp (score (parent st)) cs); auto.
Qed.

Lemma select_children_parent comp children :
  forall idx st st',
    select_children comp idx children st = Ok st' ->
    parent st' =
      fold_left (fun p child => if child_wins comp p child then child else p)
        children (parent st) /\
    current_epoch st' = current_epoch st + Z.of_nat (length children) /\
    generations st' = generations st.
Proof.
  induction children as [|child rest IH]; simpl; intros idx st st' H.
  - injection H as <-. repeat split. lia.
  - apply rbind_Ok in H as (st1 & H1 & H).
    apply select_child_parent in H1 as (Hp & He & Hg).
    apply IH in H as (Hp' & He' & Hg').
    rewrite Hp', He', Hg', Hp, He, Hg. repeat split. lia.
Qed.

(** C5: the selection step scans the children in index order; a child of
    positive score that the injected comparator prefers to the current
    parent replaces it at once, and the children after it are compared with
    that new parent.  With a parent of score 0.5, children of scores 0.4,
    0.6 and 0.55 and a comparator for which the higher score wins, the
    parent after the step is the second child (score 0.6). *)
Theorem C5_greedy_selection :
  (forall comp idx children st st',
      select_children comp idx children st = Ok st' ->
      parent st' =
        fold_left (fun p child => if child_wins comp p child then child else p)
          children (parent st)) /\
  (forall st c1 c2 c3,
      score (parent st) = Some (5 # 10) ->
      score c1 = Some (4 # 10) -> score c2 = Some (6 # 10) ->
      score c3 = Some (55 # 100) ->
      exists st',
        select_children higher_score_wins 0 [c1; c2; c3] st = Ok st' /\
        parent st' = c2 /\ score (parent st') = Some (6 # 10)).
Proof.
  split.
  - intros comp idx children st st' H.
    now apply select_children_parent in H as [H _].
  - intros st c1 c2 c3 Hp H1 H2 H3. simpl.
    unfold select_child. rewrite H1. simpl. rewrite Hp. simpl.
    rewrite H2. simpl. rewrite Hp. simpl. rewrite H3. simpl. rewrite H2.
    simpl. eexists. split; [reflexivity |]. simpl. auto.
Qed.

Definition with_score (ind : Individual) (s : Q) : Individual :=
  {| config := config ind; score := Some s; model := Some 0;
     total_params := Some 100; genes := genes ind; active := active ind;
     accuracy := Some s |}.

Lemma C5_witness :
  exists st',
    select_children higher_score_wins 0
      [with_score demo_parent (4 # 10); with_score demo_parent (6 # 10);
       with_score demo_parent (55 # 100)]
      {| parent := with_score demo_parent (5 # 10); current_epoch := 0;
         log := []; generations := 1 |} = Ok st' /\
    score (parent st') = Some (6 # 10).
Proof.
  destruct (proj2 C5_greedy_selection
              {| parent := with_score demo_parent (5 # 10);
                 current_epoch := 0; log := []; generations := 1 |}
              (with_score demo_parent (4 # 10))
              (with_score demo_parent (6 # 10))
              (with_score demo_parent (55 # 100))
              eq_refl eq_refl eq_refl eq_refl) as (st' & Hsel & _ & Hsc).
  exists st'. split; [exact Hsel | exact Hsc].
Defined.

(** ** Counting generations *)

(** The number of evaluator calls on a log. *)
Fixpoint evaluations (l : list Event) : Z :=
  match l with
  | [] => 0
  | Evaluated _ _ :: l' => 1 + evaluations l'
  | _ :: l' => evaluations l'
  end.

Lemma evaluations_app l1 l2 :
  evaluations (l1 ++ l2) = evaluations l1 + evaluations l2.
Proof.
  induction l1 as [|e l1 IH]; simpl; [reflexivity |].
  destruct e; lia.
Qed.

Lemma pareto_lines_evaluations epoch children ls :
  pareto_lines epoch children = Ok ls -> evaluations ls = 0.
Proof.
  revert ls. induction children as [|c rest IH]; simpl; intros ls H.
  - now injection H as <-.
  - destruct (accuracy c); [| discriminate].
    destruct (total_params c); [| discriminate].
    apply rbind_Ok in H as (ls' & Hls & [= <-]).
    destruct (Qgtb q 0); simpl; eauto.
Qed.

Lemma select_children_log comp children :
  forall idx st st',
    select_children comp idx children st = Ok st' ->
    evaluations (log st') = evaluations (log st).
Proof.
  induction children as [|child rest IH]; simpl; intros idx st st' H.
  - now injection H as <-.
  - apply rbind_Ok in H as (st1 & H1 & H). apply IH in H. rewrite H.
    unfold select_child in H1. destruct (score child); [| discriminate].
    injection H1 as <-.
    destruct (Qgtb q 0 && comp (score (parent st)) q); simpl; [| reflexivity].
    rewrite evaluations_app. simpl. lia.
Qed.

(** A generation makes and evaluates [num_children] children, and moves
    [current_epoch] by one per child. *)
Lemma generation_effect fuel nc evaluator comp force st r st' r' :
  generation fuel nc evaluator comp force st r = Ok (st', r') ->
  current_epoch st' = current_epoch st + Z.of_nat (Z.to_nat nc) /\
  generations st' = generations st + 1 /\
  evaluations (log st') = evaluations (log st) + Z.of_nat (Z.to_nat nc).
Proof.
  unfold generation. intros H.
  apply mbind_Ok in H as ([children lg] & r1 & Hmade & H).
  apply mbind_Ok in H as (lines & r2 & Hlines & H).
  apply lift_Ok in Hlines as [Hlines ->]. apply lift_Ok in H as [H ->].
  pose (P := fun (i : Z) (acc : list Individual * list Event) =>
               0 <= i /\ Z.of_nat (length acc.1) = i /\
               evaluations acc.2 = evaluations (log st) + i).
  apply (for_range_inv P) in Hmade.
  - destruct Hmade as (_ & Hlen & Hev). simpl in Hlen, Hev.
    pose proof (select_children_log _ _ _ _ _ H) as Hlog.
    apply select_children_parent in H as (_ & He & Hg). simpl in *.
    rewrite He, Hg, Hlog, evaluations_app, Hev, Hlen.
    rewrite (pareto_lines_evaluations _ _ _ Hlines). lia.
  - clear. intros j [cs lg] r [cs' lg'] r' (Hj & Hlen & Hev) Hb.
    unfold make_child in Hb.
    apply mbind_Ok in Hb as (m1 & r1 & _ & Hb).
    apply mbind_Ok in Hb as (m2 & r2 & _ & Hb).
    apply mbind_Ok in Hb as (m3 & r3 & _ & Hb).
    apply ret_Ok in Hb as [[= -> ->] ->]. unfold P in *. cbn [fst snd] in *.
    split; [lia |]. split; [rewrite length_app; simpl; lia |].
    rewrite evaluations_app. simpl. lia.
  - unfold P. simpl. split; [lia |]. split; lia.
Qed.

(** The loop stops at the first moment [current_epoch] reaches
    [max_epochs], and the counter moves by [num_children] per generation. *)
Lemma run_loop_effect fuel nc evaluator comp max_epochs force :
  1 <= nc ->
  forall st r st' r',
    run_loop fuel nc evaluator comp max_epochs force st r = Ok (st', r') ->
    let k := generations st' - generations st in
    0 <= k /\
    current_epoch st' = current_epoch st + k * nc /\
    max_epochs <= current_epoch st' /\
    (0 < k -> current_epoch st' - nc < max_epochs) /\
    (k = 0 -> st' = st) /\
    evaluations (log st') = evaluations (log st) + k * nc.
Proof.
  intros Hnc. induction fuel as [|f IH]; simpl; intros st r st' r' H.
  - destruct (Z.ltb_spec (current_epoch st) max_epochs); inv_run.
    rewrite Z.sub_diag. simpl. repeat split; lia.
  - destruct (Z.ltb_spec (current_epoch st) max_epochs).
    + apply mbind_Ok in H as (st1 & r1 & Hgen & H).
      apply generation_effect in Hgen as (He & Hg & Hl).
      apply IH in H. cbv zeta in H.
      destruct H as (Hk & He' & Hmax & Hlast & Hsame & Hl').
      rewrite Z2Nat.id in He, Hl by lia.
      cbv zeta.
      replace (generations st' - generations st)
        with (generations st' - generations st1 + 1) by lia.
      set (k := generations st' - generations st1) in *.
      split; [lia |]. split; [lia |]. split; [assumption |].
      split; [| split; [lia | lia]].
      intros _. destruct (Z.eq_dec k 0) as [Hk0 | Hk0].
      * rewrite (Hsame Hk0). lia.
      * apply Hlast. lia.
    + inv_run. rewrite Z.sub_diag. simpl. repeat split; lia.
Qed.

Lemma ceil_div_unique m n k :
  1 <= n -> 0 <= m -> 0 <= k -> m <= k * n -> (0 < k -> k * n - n < m) ->
  k = (m + n - 1) / n.
Proof.
  intros Hn Hm Hk Hle Hlt.
  destruct (Z.eq_dec k 0) as [-> | Hk0].
  - assert (m = 0) by lia. subst m. symmetry. apply Z.div_small. lia.
  - apply Z.div_unique with (r := m + n - 1 - n * k); nia.
Qed.

(** An evaluator for the examples: the score grows with the child index. *)
Definition demo_evaluator : Evaluator :=
  fun child index epoch =>
    ret (child, {| ev_score := (4 + index) # 10;
                   ev_total_params := 100 * epoch;
                   ev_model := index; ev_accuracy := (4 + index) # 10 |}).

(** [CGP(config)] with the default [children=2] and no parent file. *)
Definition demo_cgp : CGP :=
  {| cgp_config := demo_config; num_children := 2; cgp_parent := None |}.

(** C2 (what the code does instead): line 580 increments [current_epoch]
    inside the selection loop, once per child.  A run that returns, with at
    least one child per generation, has executed
    ceil(max_epochs / num_children) generations, not [max_epochs]; each
    generation does make and evaluate [num_children] children. *)
Theorem C2_generations_per_run fuel self evaluator comp max_epochs force r st r' :
  1 <= num_children self -> 0 <= max_epochs ->
  run fuel self evaluator comp max_epochs force r = Ok (st, r') ->
  generations st
    = (max_epochs + num_children self - 1) / num_children self /\
  current_epoch st = generations st * num_children self /\
  evaluations (log st)
    = match cgp_parent self with Some _ => 0 | None => 1 end
      + generations st * num_children self /\
  (2 <= num_children self -> 2 <= max_epochs -> generations st < max_epochs).
Proof.
  intros Hnc Hmax H. unfold run in H.
  apply mbind_Ok in H as ([p lg] & r1 & Hfirst & H).
  assert (Hlg : evaluations lg = match cgp_parent self with Some _ => 0 | None => 1 end).
  { destruct (cgp_parent self).
    - now apply ret_Ok in Hfirst as [[= _ ->] _].
    - apply mbind_Ok in Hfirst as (p0 & r2 & _ & Hfirst).
      apply mbind_Ok in Hfirst as (p1 & r3 & _ & Hfirst).
      now apply ret_Ok in Hfirst as [[= _ ->] _]. }
  apply run_loop_effect in H; [| assumption]. simpl in H.
  rewrite Z.sub_0_r in H. destruct H as (Hk & He & Hge & Hlast & _ & Hev).
  set (k := generations st) in *. set (n := num_children self) in *.
  assert (Hceil : k = (max_epochs + n - 1) / n)
    by (apply ceil_div_unique; lia).
  split; [assumption |]. split; [lia |]. split; [lia |].
  intros Hn2 Hm2. destruct (Z.eq_dec k 0); [lia |]. nia.
Qed.

(** The default call [CGP(config).run(evaluator, max_epochs=10)]: five
    generations. *)
Lemma C2_failing_input :
  exists st r',
    run 30 demo_cgp demo_evaluator higher_score_wins 10 true demo_rng
      = Ok (st, r') /\
    generations st = 5 /\ current_epoch st = 10 /\
    evaluations (log st) = 11.
Proof.
  destruct (run 30 demo_cgp demo_evaluator higher_score_wins 10 true demo_rng)
    as [[st r']| |] eqn:E; [| vm_compute in E; discriminate..].
  exists st, r'. split; [reflexivity |].
  destruct (C2_generations_per_run 30 demo_cgp demo_evaluator
              higher_score_wins 10 true demo_rng st r'
              ltac:(simpl; lia) ltac:(lia) E) as (Hg & He & Hl & _).
  change ((10 + num_children demo_cgp - 1) / num_children demo_cgp)
    with 5 in Hg.
  rewrite Hg in He, Hl. auto.
Defined.

(** The same run, spelled out: the epochs handed to the evaluator are 1, 3,
    5, 7 and 9, and the parent ends on the best child of the first
    generation. *)
Example demo_run_log :
  exists st r',
    run 30 demo_cgp demo_evaluator higher_score_wins 10 true demo_rng
      = Ok (st, r') /\
    score (parent st) = Some (6 # 10) /\
    List.filter (fun e => match e with Evaluated _ _ => true | _ => false end)
      (log st)
    = [Evaluated 0 0; Evaluated 1 1; Evaluated 2 1; Evaluated 1 3;
       Evaluated 2 3; Evaluated 1 5; Evaluated 2 5; Evaluated 1 7;
       Evaluated 2 7; Evaluated 1 9; Evaluated 2 9].
Proof. eexists _, _. split; [vm_compute; reflexivity |]. split; reflexivity. Qed.

(** * Loading a parent: invalid content *)

(** C8 (the code at failing inputs): [load_parent] answers [None] for no
    path and for an absent file, but content that is not a valid
    [Individual] is fatal in general: line 458 formats [instance.score]
    before the [isinstance] test, so an object without a [score] raises
    [AttributeError], one whose [score] is not a number (an [Individual]
    that was never evaluated included) raises [TypeError], and a file that
    is no pickle raises from [pickle.load]; the warning is only reached by
    a foreign object that happens to carry a numeric [score].  The
    exception leaves [CGP.__init__], so no run starts. *)
Theorem C8_load_parent_invalid_content_is_fatal :
  (forall fs, load_parent fs None = Ok (None, [])) /\
  (forall fs path, load_parent (delete path fs) (Some path) = Ok (None, [])) /\
  (forall fs path,
      load_parent (<[path := Pickled (POther None)]> fs) (Some path)
      = Raise AttributeError) /\
  (forall fs path,
      load_parent (<[path := Pickled (POther (Some None))]> fs) (Some path)
      = Raise TypeError) /\
  (forall fs path cfg,
      load_parent (<[path := Pickled (PIndividual (new_Individual cfg))]> fs)
        (Some path) = Raise TypeError) /\
  (forall fs path,
      load_parent (<[path := NotAPickle]> fs) (Some path)
      = Raise UnpicklingError) /\
  (forall fs path q,
      load_parent (<[path := Pickled (POther (Some (Some q)))]> fs) (Some path)
      = Ok (None, [not_valid_warning])) /\
  (forall fs path cfg children,
      new_CGP (<[path := Pickled (POther None)]> fs) cfg children (Some path)
      = Raise AttributeError).
Proof.
  repeat split; intros; unfold new_CGP, load_parent;
    rewrite ?lookup_delete_eq, ?lookup_insert_eq; reflexivity.
Qed.

(** A valid checkpoint is returned as it is, and a run started from an
    absent one spawns its parent. *)
Lemma load_parent_valid fs path ind s :
  score ind = Some s ->
  load_parent (<[path := Pickled (PIndividual ind)]> fs) (Some path)
  = Ok (Some ind, []).
Proof.
  intros Hs. unfold load_parent. rewrite lookup_insert_eq. simpl.
  now rewrite Hs.
Qed.

(** * Clone independence on the store *)


(** ** Reasoning on the store *)

Lemma hbind_Ok {A B} (m : Heap.HM A) (k : A -> Heap.HM B) h r b h' r' :
  Heap.hbind m k h r = Ok (b, h', r') ->
  exists a h1 r1, m h r = Ok (a, h1, r1) /\ k a h1 r1 = Ok (b, h', r').
Proof.
  unfold Heap.hbind. destruct (m h r) as [[[a h1] r1]| |];
    [eauto | discriminate..].
Qed.

(** A computation that leaves the store as it is. *)
Definition read_only {A} (m : Heap.HM A) : Prop :=
  forall h r a h' r', m h r = Ok (a, h', r') -> h' = h.

Lemma read_only_hret {A} (a : A) : read_only (Heap.hret a).
Proof. intros h r a' h' r' [= _ <- _]. reflexivity. Qed.

Lemma read_only_hlift {A} (m : result A) : read_only (Heap.hlift m).
Proof.
  intros h r a h' r'. unfold Heap.hlift. destruct m; [| discriminate..].
  intros [= _ <- _]. reflexivity.
Qed.

Lemma read_only_hrand {A} (m : M A) : read_only (Heap.hrand m).
Proof.
  intros h r a h' r'. unfold Heap.hrand.
  destruct (m r) as [[a0 r0]| |]; [| discriminate..].
  intros [= _ <- _]. reflexivity.
Qed.

Lemma read_only_read l : read_only (Heap.read l).
Proof.
  intros h r a h' r'. unfold Heap.read. destruct (h !! l); [| discriminate].
  intros [= _ <- _]. reflexivity.
Qed.

Lemma read_only_hbind {A B} (m : Heap.HM A) (k : A -> Heap.HM B) :
  read_only m -> (forall a, read_only (k a)) -> read_only (Heap.hbind m k).
Proof.
  intros Hm Hk h r b h' r' H.
  apply hbind_Ok in H as (a & h1 & r1 & H1 & H2).
  apply Hm in H1 as ->. now apply Hk in H2.
Qed.

Lemma read_only_read_ints l : read_only (Heap.read_ints l).
Proof.
  apply read_only_hbind; [apply read_only_read |].
  intros []; first [apply read_only_hret | apply read_only_hlift].
Qed.

Lemma read_only_read_bools l : read_only (Heap.read_bools l).
Proof.
  apply read_only_hbind; [apply read_only_read |].
  intros []; first [apply read_only_hret | apply read_only_hlift].
Qed.

Lemma read_only_read_list l : read_only (Heap.read_list l).
Proof.
  apply read_only_hbind; [apply read_only_read |].
  intros []; first [apply read_only_hret | apply read_only_hlift].
Qed.

Lemma read_only_read_gen l : read_only (Heap.read_gen l).
Proof.
  apply read_only_hbind; [apply read_only_read |].
  intros []; first [apply read_only_hret | apply read_only_hlift].
Qed.

Lemma read_only_gene_ref ind idx : read_only (Heap.gene_ref ind idx).
Proof.
  apply read_only_hbind; [apply read_only_read_list |].
  intros ls. apply read_only_hlift.
Qed.

Lemma read_only_read_input ind idx i : read_only (Heap.read_input ind idx i).
Proof.
  apply read_only_hbind; [apply read_only_gene_ref |]. intros g.
  apply read_only_hbind; [apply read_only_read_gen |]. intros gf.
  apply read_only_hbind; [apply read_only_read_ints |]. intros xs.
  apply read_only_hlift.
Qed.

Lemma read_only_active_ref ind : read_only (Heap.active_ref ind).
Proof.
  unfold Heap.active_ref. destruct (Heap.h_active ind);
    [apply read_only_hret | apply read_only_hlift].
Qed.

(** What the typed reads found. *)
Lemma read_ints_Ok l h r xs h' r' :
  Heap.read_ints l h r = Ok (xs, h', r') -> h !! l = Some (Heap.CInts xs).
Proof.
  unfold Heap.read_ints, Heap.hbind, Heap.read.
  destruct (h !! l) as [[]|]; try discriminate.
  unfold Heap.hret. intros [= -> _ _]. reflexivity.
Qed.

Lemma read_bools_Ok l h r bs h' r' :
  Heap.read_bools l h r = Ok (bs, h', r') -> h !! l = Some (Heap.CBools bs).
Proof.
  unfold Heap.read_bools, Heap.hbind, Heap.read.
  destruct (h !! l) as [[]|]; try discriminate.
  unfold Heap.hret. intros [= -> _ _]. reflexivity.
Qed.

Lemma read_list_Ok l h r ls h' r' :
  Heap.read_list l h r = Ok (ls, h', r') -> h !! l = Some (Heap.CList ls).
Proof.
  unfold Heap.read_list, Heap.hbind, Heap.read.
  destruct (h !! l) as [[]|]; try discriminate.
  unfold Heap.hret. intros [= -> _ _]. reflexivity.
Qed.

Lemma read_gen_Ok l h r gf h' r' :
  Heap.read_gen l h r = Ok (gf, h', r') ->
  h !! l = Some (Heap.CGen (Heap.g_is_output gf) (Heap.g_fnc_idx gf)
                   (Heap.g_inputs gf) (Heap.g_num_inputs gf)).
Proof.
  unfold Heap.read_gen, Heap.hbind, Heap.read.
  destruct (h !! l) as [[]|]; try discriminate.
  unfold Heap.hret. intros [= <- _ _]. reflexivity.
Qed.

Lemma gene_ref_Ok ind idx h r g h' r' :
  Heap.gene_ref ind idx h r = Ok (g, h', r') ->
  exists ls, h !! Heap.h_genes ind = Some (Heap.CList ls) /\ g ∈ ls.
Proof.
  unfold Heap.gene_ref. intros H.
  apply hbind_Ok in H as (ls & h1 & r1 & Hls & H).
  pose proof (read_only_read_list _ _ _ _ _ _ Hls) as ->.
  apply read_list_Ok in Hls. exists ls. split; [assumption |].
  unfold Heap.hlift in H. destruct (py_index ls idx) as [x| |] eqn:E;
    [| discriminate..]. injection H as -> _ _.
  apply py_index_Ok in E as (j & _ & Hj).
  eapply list_elem_of_lookup_2; eassumption.
Qed.

(** ** The objects below a handle, and the frame of a computation *)

Record Shape : Type := {
  s_list : Heap.loc;
  s_gens : list Heap.loc;
  s_arrays : list Heap.loc;
  s_mask : Heap.loc
}.

Definition footprint (sh : Shape) : gset Heap.loc :=
  {[ s_list sh ]} ∪ {[ s_mask sh ]} ∪ list_to_set (s_gens sh)
  ∪ list_to_set (s_arrays sh).

(** [ind] refers to the list [s_list], whose items are the genes [s_gens];
    every gene holds one of the arrays [s_arrays]; the mask is [s_mask]. *)
Definition has_shape (h : Heap.heap) (ind : Heap.Handle) (sh : Shape) : Prop :=
  Heap.h_genes ind = s_list sh /\
  Heap.h_active ind = Some (s_mask sh) /\
  h !! s_list sh = Some (Heap.CList (s_gens sh)) /\
  (exists bs, h !! s_mask sh = Some (Heap.CBools bs)) /\
  (forall g, g ∈ s_gens sh ->
     exists o f a n, h !! g = Some (Heap.CGen o f a n) /\ a ∈ s_arrays sh) /\
  (forall a, a ∈ s_arrays sh -> exists xs, h !! a = Some (Heap.CInts xs)).

(** [h'] extends [h] and agrees with it outside the footprint. *)
Definition frame (sh : Shape) (h h' : Heap.heap) : Prop :=
  dom h ⊆ dom h' /\
  forall l, l ∈ dom h -> l ∉ footprint sh -> h' !! l = h !! l.

Lemma frame_refl sh h : frame sh h h.
Proof. split; [reflexivity | auto]. Qed.

Lemma frame_trans sh h1 h2 h3 :
  frame sh h1 h2 -> frame sh h2 h3 -> frame sh h1 h3.
Proof.
  intros [D1 F1] [D2 F2]. split; [set_solver |].
  intros l Hl Hn. rewrite F2, F1; auto.
Qed.

Lemma footprint_in_dom h ind sh l :
  has_shape h ind sh -> l ∈ footprint sh -> l ∈ dom h.
Proof.
  intros (_ & _ & Hl & [bs Hm] & Hg & Ha). unfold footprint.
  rewrite !elem_of_union, !elem_of_singleton, !elem_of_list_to_set.
  intros [[[-> | ->] | Hin] | Hin].
  - eapply elem_of_dom_2; eassumption.
  - eapply elem_of_dom_2; eassumption.
  - destruct (Hg _ Hin) as (o & f & a & n & Hc & _).
    eapply elem_of_dom_2; eassumption.
  - destruct (Ha _ Hin) as (xs & Hc). eapply elem_of_dom_2; eassumption.
Qed.

(** The triple [keeps ind sh m Q]: from a store where [ind] has shape
    [sh], a run of [m] that returns leaves the shape, touches nothing
    outside the footprint, and its result satisfies [Q]. *)
Definition keeps (ind : Heap.Handle) (sh : Shape) {A} (m : Heap.HM A)
    (Q : A -> Prop) : Prop :=
  forall h r a h' r',
    has_shape h ind sh -> m h r = Ok (a, h', r') ->
    has_shape h' ind sh /\ frame sh h h' /\ Q a.

Lemma keeps_bind ind sh {A B} (m : Heap.HM A) (k : A -> Heap.HM B)
    (Q : A -> Prop) (R : B -> Prop) :
  keeps ind sh m Q -> (forall a, Q a -> keeps ind sh (k a) R) ->
  keeps ind sh (Heap.hbind m k) R.
Proof.
  intros Hm Hk h r b h' r' Hsh H.
  apply hbind_Ok in H as (a & h1 & r1 & H1 & H2).
  destruct (Hm _ _ _ _ _ Hsh H1) as (Hsh1 & Hf1 & HQ).
  destruct (Hk a HQ _ _ _ _ _ Hsh1 H2) as (Hsh2 & Hf2 & HR).
  split; [assumption |]. split; [eapply frame_trans; eassumption | assumption].
Qed.

Lemma keeps_read_only ind sh {A} (m : Heap.HM A) :
  read_only m -> keeps ind sh m (fun _ => True).
Proof.
  intros Hro h r a h' r' Hsh H. apply Hro in H as ->.
  split; [assumption |]. split; [apply frame_refl | exact I].
Qed.

Lemma keeps_weaken ind sh {A} (m : Heap.HM A) (Q Q' : A -> Prop) :
  keeps ind sh m Q -> (forall a, Q a -> Q' a) -> keeps ind sh m Q'.
Proof.
  intros Hm HQ h r a h' r' Hsh H.
  destruct (Hm _ _ _ _ _ Hsh H) as (? & ? & ?). auto.
Qed.

Lemma keeps_ret ind sh {A} (a : A) (Q : A -> Prop) :
  Q a -> keeps ind sh (Heap.hret a) Q.
Proof.
  intros HQ h r a' h' r' Hsh [= <- <- _].
  split; [assumption |]. split; [apply frame_refl | assumption].
Qed.

(** A write that keeps the kind of the cell and the references it holds. *)
Definition cell_compat (c c' : Heap.cell) : Prop :=
  match c, c' with
  | Heap.CInts _, Heap.CInts _ => True
  | Heap.CBools _, Heap.CBools _ => True
  | Heap.CList l, Heap.CList l' => l = l'
  | Heap.CGen _ _ a _, Heap.CGen _ _ a' _ => a = a'
  | _, _ => False
  end.

Lemma has_shape_write h ind sh l c c' :
  has_shape h ind sh -> h !! l = Some c -> cell_compat c c' ->
  has_shape (<[l := c']> h) ind sh.
Proof.
  intros (Hg & Ha & Hl & [bs Hm] & Hgs & Has) Hc Hcompat.
  split; [assumption |]. split; [assumption |].
  split; [| split; [| split]].
  - destruct (decide (l = s_list sh)) as [-> | Hne].
    + rewrite lookup_insert_eq. rewrite Hl in Hc. injection Hc as <-.
      destruct c'; simpl in Hcompat; try contradiction. now subst.
    + now rewrite lookup_insert_ne.
  - destruct (decide (l = s_mask sh)) as [-> | Hne].
    + rewrite lookup_insert_eq. rewrite Hm in Hc. injection Hc as <-.
      destruct c'; simpl in Hcompat; try contradiction. eauto.
    + rewrite lookup_insert_ne by assumption. eauto.
  - intros g Hin. destruct (Hgs g Hin) as (o & f & a & n & Hcell & Hain).
    destruct (decide (l = g)) as [-> | Hne].
    + rewrite lookup_insert_eq. rewrite Hcell in Hc. injection Hc as <-.
      destruct c'; simpl in Hcompat; try contradiction. subst.
      eauto 10.
    + rewrite lookup_insert_ne by assumption. eauto 10.
  - intros a Hin. destruct (Has a Hin) as (xs & Hcell).
    destruct (decide (l = a)) as [-> | Hne].
    + rewrite lookup_insert_eq. rewrite Hcell in Hc. injection Hc as <-.
      destruct c'; simpl in Hcompat; try contradiction. eauto.
    + rewrite lookup_insert_ne by assumption. eauto.
Qed.

Lemma frame_write sh (h : Heap.heap) l c :
  l ∈ footprint sh -> frame sh h (<[l := c]> h).
Proof.
  intros Hin. split; [apply dom_insert_subseteq |].
  intros l' _ Hn. apply lookup_insert_ne. congruence.
Qed.

Lemma write_step ind sh (h : gmap nat Heap.cell) l c c' :
  has_shape h ind sh -> l ∈ footprint sh -> h !! l = Some c ->
  cell_compat c c' ->
  has_shape (<[l := c']> h) ind sh /\ frame sh h (<[l := c']> h).
Proof.
  intros Hsh Hin Hc Hcompat.
  split; [eapply has_shape_write; eauto | now apply frame_write].
Qed.

Lemma keeps_alloc ind sh c :
  keeps ind sh (Heap.alloc c) (fun _ => True).
Proof.
  intros h r x h' r' Hsh [= _ <- _].
  pose proof (is_fresh (dom h)) as Hfresh.
  set (l := fresh (dom h)) in *.
  assert (Hout : forall l', l' ∈ dom h -> l' <> l) by (intros l' ? ->; auto).
  destruct Hsh as (Hg & Ha & Hl & [bs Hm] & Hgs & Has).
  split; [| split; [| exact I]].
  - split; [assumption |]. split; [assumption |].
    split; [| split; [| split]].
    + rewrite lookup_insert_ne; [assumption |].
      apply not_eq_sym, Hout. eapply elem_of_dom_2; eassumption.
    + exists bs. rewrite lookup_insert_ne; [assumption |].
      apply not_eq_sym, Hout. eapply elem_of_dom_2; eassumption.
    + intros g Hin. destruct (Hgs g Hin) as (o & f & a & n & Hc & Hain).
      exists o, f, a, n. split; [| assumption].
      rewrite lookup_insert_ne; [assumption |].
      apply not_eq_sym, Hout. eapply elem_of_dom_2; eassumption.
    + intros a Hin. destruct (Has a Hin) as (xs & Hc). exists xs.
      rewrite lookup_insert_ne; [assumption |].
      apply not_eq_sym, Hout. eapply elem_of_dom_2; eassumption.
  - split; [apply dom_insert_subseteq |].
    intros l' Hl' _. apply lookup_insert_ne, not_eq_sym, Hout, Hl'.
Qed.

Lemma keeps_active_ref ind sh :
  keeps ind sh (Heap.active_ref ind) (fun la => la = s_mask sh).
Proof.
  intros h r a h' r' Hsh H.
  pose proof (read_only_active_ref _ _ _ _ _ _ H) as ->.
  split; [assumption |]. split; [apply frame_refl |].
  destruct Hsh as (_ & Ha & _). unfold Heap.active_ref in H.
  rewrite Ha in H. now injection H as <- _.
Qed.

Lemma keeps_write_mask ind sh bs :
  keeps ind sh (Heap.write (s_mask sh) (Heap.CBools bs)) (fun _ => True).
Proof.
  intros h r a h' r' Hsh [= _ <- _].
  pose proof Hsh as (_ & _ & _ & [bs' Hm] & _).
  destruct (write_step ind sh h (s_mask sh) (Heap.CBools bs')
              (Heap.CBools bs) Hsh) as [? ?];
    [unfold footprint; set_solver | assumption | exact I | auto].
Qed.

(** [self.genes[idx].inputs[i] = v] writes one of the arrays. *)
Lemma keeps_write_input ind sh idx i v :
  keeps ind sh (Heap.write_input ind idx i v) (fun _ => True).
Proof.
  intros h r a h' r' Hsh H. unfold Heap.write_input in H.
  apply hbind_Ok in H as (g & h1 & r1 & Hg & H).
  pose proof (read_only_gene_ref _ _ _ _ _ _ _ Hg) as ->.
  apply gene_ref_Ok in Hg as (ls & Hls & Hin).
  apply hbind_Ok in H as (gf & h2 & r2 & Hgf & H).
  pose proof (read_only_read_gen _ _ _ _ _ _ Hgf) as ->.
  apply read_gen_Ok in Hgf.
  apply hbind_Ok in H as (xs & h3 & r3 & Hxs & H).
  pose proof (read_only_read_ints _ _ _ _ _ _ Hxs) as ->.
  apply read_ints_Ok in Hxs.
  apply hbind_Ok in H as (xs' & h4 & r4 & Hst & H).
  pose proof (read_only_hlift _ _ _ _ _ _ Hst) as ->.
  pose proof Hsh as (Hgl & _ & Hl & _ & Hgs & _).
  rewrite Hgl, Hl in Hls. injection Hls as <-.
  destruct (Hgs g Hin) as (o & f & arr & n & Hc & Hain).
  rewrite Hc in Hgf. injection Hgf as _ _ Harr _.
  injection H as _ <- _.
  destruct (write_step ind sh h (Heap.g_inputs gf) (Heap.CInts xs)
              (Heap.CInts xs') Hsh) as [? ?];
    [| assumption | exact I | auto].
  rewrite <- Harr. unfold footprint. set_solver.
Qed.

(** [self.genes[idx].<field> = ...] for a field other than [inputs]. *)
Lemma keeps_update_gen ind sh idx (f : Heap.GenFields -> Heap.GenFields) :
  (forall gf, Heap.g_inputs (f gf) = Heap.g_inputs gf) ->
  keeps ind sh (Heap.update_gen ind idx f) (fun _ => True).
Proof.
  intros Hf h r a h' r' Hsh H. unfold Heap.update_gen in H.
  apply hbind_Ok in H as (g & h1 & r1 & Hg & H).
  pose proof (read_only_gene_ref _ _ _ _ _ _ _ Hg) as ->.
  apply gene_ref_Ok in Hg as (ls & Hls & Hin).
  apply hbind_Ok in H as (gf & h2 & r2 & Hgf & H).
  pose proof (read_only_read_gen _ _ _ _ _ _ Hgf) as ->.
  apply read_gen_Ok in Hgf.
  pose proof Hsh as (Hgl & _ & Hl & _ & Hgs & _).
  rewrite Hgl, Hl in Hls. injection Hls as <-.
  injection H as _ <- _.
  destruct (write_step ind sh h g _
              (Heap.CGen (Heap.g_is_output (f gf)) (Heap.g_fnc_idx (f gf))
                 (Heap.g_inputs (f gf)) (Heap.g_num_inputs (f gf))) Hsh
              ltac:(unfold footprint; set_solver) Hgf
              ltac:(simpl; now rewrite Hf)) as [? ?]; auto.
Qed.

Lemma keeps_for_range ind sh {St} (body : Z -> St -> Heap.HM St) :
  (forall i s, keeps ind sh (body i s) (fun _ => True)) ->
  forall k i s, keeps ind sh (Heap.for_range k i body s) (fun _ => True).
Proof.
  intros Hb. induction k as [|k IH]; simpl; intros i s.
  - now apply keeps_ret.
  - eapply keeps_bind; [apply Hb | intros; apply IH].
Qed.

Lemma keeps_walk_to_out ind sh fuel node :
  keeps ind sh (Heap.walk_to_out fuel ind node) (fun _ => True).
Proof.
  revert node. induction fuel as [|f IH]; simpl; intros node.
  - intros h r a h' r' _ H. discriminate.
  - eapply keeps_bind; [apply keeps_active_ref |]. intros la ->.
    eapply keeps_bind;
      [apply keeps_read_only, read_only_read_bools |]. intros act _.
    eapply keeps_bind; [apply keeps_read_only, read_only_hlift |].
    intros b _. destruct b; simpl; [now apply keeps_ret |].
    eapply keeps_bind; [apply keeps_read_only, read_only_hlift |].
    intros act' _.
    eapply keeps_bind; [apply keeps_write_mask |]. intros _ _.
    eapply keeps_bind; [apply keeps_read_only, read_only_gene_ref |].
    intros g _.
    eapply keeps_bind; [apply keeps_read_only, read_only_read_gen |].
    intros gf _.
    apply keeps_for_range. intros i [].
    eapply keeps_bind; [apply keeps_read_only, read_only_read_input |].
    intros c _.
    destruct (c >=? num_input (Heap.h_config ind));
      [apply IH | now apply keeps_ret].
Qed.

Lemma keeps_check_active ind sh fuel :
  keeps ind sh (Heap.check_active fuel ind) (fun _ => True).
Proof.
  unfold Heap.check_active.
  eapply keeps_bind; [apply keeps_active_ref |]. intros la ->.
  eapply keeps_bind; [apply keeps_read_only, read_only_read_bools |].
  intros act _.
  eapply keeps_bind; [apply keeps_write_mask |]. intros _ _.
  apply keeps_for_range. intros i []. apply keeps_walk_to_out.
Qed.

Lemma keeps_mutate_function_gene ind sh fuel idx :
  keeps ind sh (Heap.mutate_function_gene fuel ind idx) (fun _ => True).
Proof.
  unfold Heap.mutate_function_gene.
  eapply keeps_bind; [apply keeps_read_only, read_only_hrand |]. intros fi0 _.
  eapply keeps_bind; [apply keeps_read_only, read_only_gene_ref |].
  intros g _.
  eapply keeps_bind; [apply keeps_read_only, read_only_read_gen |].
  intros gf _.
  eapply keeps_bind; [apply keeps_read_only, read_only_hlift |]. intros cur _.
  eapply keeps_bind; [apply keeps_read_only, read_only_hrand |]. intros fi _.
  eapply keeps_bind; [apply keeps_update_gen; reflexivity |]. intros _ _.
  eapply keeps_bind; [apply keeps_read_only, read_only_hlift |]. intros ni _.
  eapply keeps_bind; [apply keeps_update_gen; reflexivity |]. intros _ _.
  now apply keeps_ret.
Qed.

Lemma keeps_mutate_slots ind sh fuel idx lo hi k i :
  keeps ind sh (Heap.mutate_slots fuel ind idx lo hi k i) (fun _ => True).
Proof.
  revert i. induction k as [|k IH]; simpl; intros i;
    [now apply keeps_ret |].
  eapply keeps_bind; [apply keeps_read_only, read_only_hrand |].
  intros coin _.
  destruct (negb (coin =? 0) && (hi - lo >? 1)); [| apply IH].
  eapply keeps_bind; [apply keeps_read_only, read_only_hrand |]. intros v _.
  eapply keeps_bind; [apply keeps_read_only, read_only_read_input |].
  intros cur _.
  eapply keeps_bind; [apply keeps_read_only, read_only_hrand |]. intros n _.
  eapply keeps_bind; [apply keeps_write_input |]. intros _ _.
  now apply keeps_ret.
Qed.

Lemma keeps_mutate_connection_gene ind sh fuel idx :
  keeps ind sh (Heap.mutate_connection_gene fuel ind idx) (fun _ => True).
Proof.
  unfold Heap.mutate_connection_gene.
  eapply keeps_bind; [apply keeps_read_only, read_only_hlift |].
  intros [lo hi] _.
  eapply keeps_bind; [apply keeps_read_only, read_only_gene_ref |].
  intros g _.
  eapply keeps_bind; [apply keeps_read_only, read_only_read_gen |].
  intros gf _. apply keeps_mutate_slots.
Qed.

Lemma keeps_mutate_loop ind sh fuel n cnt :
  keeps ind sh (Heap.mutate_loop fuel ind n cnt) (fun _ => True).
Proof.
  revert cnt. induction fuel as [|f IH]; simpl; intros cnt;
    (destruct (cnt <=? mutation_budget (Heap.h_config ind) n);
     [| now apply keeps_ret]).
  - intros h r a h' r' _ H. discriminate.
  - eapply keeps_bind; [apply keeps_read_only, read_only_hrand |].
    intros idx _.
    eapply (keeps_bind _ _ _ _ (fun _ => True)).
    { destruct (idx <? num_nodes (Heap.h_config ind));
        [apply keeps_mutate_function_gene | now apply keeps_ret]. }
    intros b1 _.
    eapply keeps_bind; [apply keeps_mutate_connection_gene |]. intros b2 _.
    apply IH.
Qed.

(** [mutate] on a spawned genotype: all its writes fall on the genotype's
    own genes, arrays and mask, and it answers the handle it was given. *)
Lemma keeps_mutate ind sh fuel force :
  keeps ind sh (Heap.mutate fuel force ind) (fun ind' => ind' = ind).
Proof.
  induction fuel as [|f IH]; simpl.
  - intros h r a h' r' _ H. discriminate.
  - intros h r a h' r' Hsh H.
    pose proof Hsh as (_ & Hact & _). rewrite Hact in H.
    apply hbind_Ok in H as (ind0 & h1 & r1 & H0 & H).
    injection H0 as <- <- <-.
    revert h r a h' r' Hsh H.
    eapply (keeps_bind _ _ _ _ (fun _ => True)).
    { destruct force; [| now apply keeps_ret].
      eapply keeps_bind; [apply keeps_active_ref |]. intros la _.
      eapply keeps_bind; [apply keeps_read_only, read_only_read_bools |].
      intros act _.
      eapply keeps_bind; [apply keeps_alloc |]. intros o _.
      now apply keeps_ret. }
    intros old_net _.
    eapply keeps_bind; [apply keeps_read_only, read_only_read_list |].
    intros ls _.
    eapply keeps_bind; [apply keeps_mutate_loop |]. intros cnt _.
    eapply keeps_bind; [apply keeps_check_active |]. intros _ _.
    destruct old_net as [o|]; [| now apply keeps_ret].
    eapply keeps_bind; [apply keeps_active_ref |]. intros la _.
    eapply keeps_bind; [apply keeps_read_only, read_only_read_bools |].
    intros act _.
    eapply keeps_bind; [apply keeps_read_only, read_only_read_bools |].
    intros old _.
    destruct (array_equal act old); [apply IH | now apply keeps_ret].
Qed.

(** ** [clone] allocates everything it returns *)

Lemma alloc_Ok c (h : gmap nat Heap.cell) r l h' r' :
  Heap.alloc c h r = Ok (l, h', r') ->
  (l ∉ dom h) /\ h' = <[l := c]> h /\ (h ⊆ h').
Proof.
  intros [= <- <- _]. pose proof (is_fresh (dom h)) as Hf.
  split; [assumption |]. split; [reflexivity |].
  apply insert_subseteq. now apply not_elem_of_dom.
Qed.

Lemma subseteq_dom_fresh (h h' : gmap nat Heap.cell) l :
  h ⊆ h' -> l ∉ dom h' -> l ∉ dom h.
Proof. intros Hsub Hl Hin. apply Hl. eapply subseteq_dom; eassumption. Qed.

Lemma gen_at_weaken (h h' : gmap nat Heap.cell) g x :
  h ⊆ h' -> Heap.gen_at h g = Some x -> Heap.gen_at h' g = Some x.
Proof.
  intros Hsub. unfold Heap.gen_at.
  destruct (h !! g) as [[| | |o f i n]|] eqn:Eg; try discriminate.
  destruct (h !! i) as [[xs| | |]|] eqn:Ei; try discriminate.
  rewrite (lookup_weaken _ _ _ _ Eg Hsub), (lookup_weaken _ _ _ _ Ei Hsub).
  auto.
Qed.

Lemma mapM_gen_at_weaken (h h' : gmap nat Heap.cell) ls xs :
  h ⊆ h' -> mapM (Heap.gen_at h) ls = Some xs ->
  mapM (Heap.gen_at h') ls = Some xs.
Proof.
  intros Hsub. rewrite !mapM_Some. intros H.
  eapply Forall2_impl; [exact H |]. intros g x. now apply gen_at_weaken.
Qed.

Lemma genes_at_weaken (h h' : gmap nat Heap.cell) ind gs :
  h ⊆ h' -> Heap.genes_at h ind = Some gs -> Heap.genes_at h' ind = Some gs.
Proof.
  intros Hsub. unfold Heap.genes_at.
  destruct (h !! Heap.h_genes ind) as [[| |ls|]|] eqn:E; try discriminate.
  rewrite (lookup_weaken _ _ _ _ E Hsub). now apply mapM_gen_at_weaken.
Qed.

Lemma active_at_weaken (h h' : gmap nat Heap.cell) ind bs :
  h ⊆ h' -> Heap.active_at h ind = Some bs -> Heap.active_at h' ind = Some bs.
Proof.
  intros Hsub. unfold Heap.active_at.
  destruct (Heap.h_active ind) as [la|]; [| discriminate].
  destruct (h !! la) as [[|bs'| |]|] eqn:E; try discriminate.
  now rewrite (lookup_weaken _ _ _ _ E Hsub).
Qed.

Lemma copy_gen_Ok g (h : gmap nat Heap.cell) r g' h' r' :
  Heap.copy_gen g h r = Ok (g', h', r') ->
  (h ⊆ h') /\ (g' ∉ dom h) /\
  exists o f a n xs,
    h !! g = Some (Heap.CGen o f (Heap.g_inputs
                     {| Heap.g_is_output := o; Heap.g_fnc_idx := f;
                        Heap.g_inputs := a; Heap.g_num_inputs := n |}) n) /\
    exists a', h' !! g' = Some (Heap.CGen o f a' n) /\ (a' ∉ dom h) /\
               h' !! a' = Some (Heap.CInts xs) /\
               h !! a = Some (Heap.CInts xs).
Proof.
  unfold Heap.copy_gen. intros H.
  apply hbind_Ok in H as (gf & h1 & r1 & Hgf & H).
  pose proof (read_only_read_gen _ _ _ _ _ _ Hgf) as ->.
  apply read_gen_Ok in Hgf.
  apply hbind_Ok in H as (xs & h2 & r2 & Hxs & H).
  pose proof (read_only_read_ints _ _ _ _ _ _ Hxs) as ->.
  apply read_ints_Ok in Hxs.
  apply hbind_Ok in H as (a' & h3 & r3 & Ha & H).
  apply alloc_Ok in Ha as (Hfa & -> & Hsub1).
  apply alloc_Ok in H as (Hfg & -> & Hsub2).
  split; [etrans; eassumption |].
  split; [eapply subseteq_dom_fresh; eassumption |].
  destruct gf as [o f a n]. simpl in *.
  exists o, f, a, n, xs. split; [assumption |].
  exists a'. split; [apply lookup_insert_eq |]. split; [assumption |].
  split; [| assumption].
  rewrite lookup_insert_ne; [apply lookup_insert_eq |].
  intros <-. apply Hfg. rewrite dom_insert. set_solver.
Qed.

Lemma copy_gens_Ok gs :
  forall (h : gmap nat Heap.cell) r gs' h' r',
    Heap.copy_gens gs h r = Ok (gs', h', r') ->
    (h ⊆ h') /\
    (forall xs, mapM (Heap.gen_at h) gs = Some xs ->
                mapM (Heap.gen_at h') gs' = Some xs) /\
    exists arrs : list nat,
      (forall g, g ∈ gs' ->
         (g ∉ dom h) /\
         exists o f a n, h' !! g = Some (Heap.CGen o f a n) /\ a ∈ arrs) /\
      (forall a, a ∈ arrs ->
         (a ∉ dom h) /\ exists xs, h' !! a = Some (Heap.CInts xs)).
Proof.
  induction gs as [|g rest IH]; intros h r gs' h' r' H;
    cbn [Heap.copy_gens] in H.
  - injection H as <- <- _. split; [reflexivity |]. split; [auto |].
    exists []. split; intros x Hx; inversion Hx.
  - apply hbind_Ok in H as (g' & h1 & r1 & Hg & H).
    apply hbind_Ok in H as (rest' & h2 & r2 & Hrest & H).
    injection H as <- <- _.
    apply copy_gen_Ok in Hg
      as (Hsub1 & Hfg & o & f & a & n & xs & Hcg & a' & Hcg' & Hfa & Hca' & Hca).
    apply IH in Hrest as (Hsub2 & Hval & arrs & Hgens & Harrs).
    split; [etrans; eassumption |]. split.
    + intros ys Hys. simpl in Hcg.
      rewrite mapM_Some in Hys. apply Forall2_cons_inv_l in Hys
        as (y & ys' & Hy & Hys' & ->).
      apply mapM_Some. constructor.
      * unfold Heap.gen_at in *. rewrite Hcg, Hca in Hy.
        rewrite (lookup_weaken _ _ _ _ Hcg' Hsub2),
                (lookup_weaken _ _ _ _ Hca' Hsub2). assumption.
      * apply mapM_Some, Hval, (mapM_gen_at_weaken h h1); [assumption |].
        now apply mapM_Some.
    + exists (a' :: arrs). split.
      * intros x Hx. apply elem_of_cons in Hx as [-> | Hx].
        -- split; [assumption |]. exists o, f, a', n.
           split; [eapply lookup_weaken; eassumption | left].
        -- destruct (Hgens x Hx) as (Hfx & o' & f' & a0 & n' & Hc & Hin).
           split; [eapply subseteq_dom_fresh; eassumption |].
           exists o', f', a0, n'. split; [assumption | now right].
      * intros x Hx. apply elem_of_cons in Hx as [-> | Hx].
        -- split; [assumption |]. exists xs.
           eapply lookup_weaken; eassumption.
        -- destruct (Harrs x Hx) as (Hfx & ys & Hc).
           split; [eapply subseteq_dom_fresh; eassumption | eauto].
Qed.

(** The clone of a genotype that lives in the store: the same value, on
    objects none of which existed before. *)
Lemma clone_Ok p (h : gmap nat Heap.cell) r c h1 r1 gs bs :
  Heap.genes_at h p = Some gs -> Heap.active_at h p = Some bs ->
  Heap.clone p h r = Ok (c, h1, r1) ->
  (h ⊆ h1) /\
  Heap.genes_at h1 c = Some gs /\ Heap.active_at h1 c = Some bs /\
  exists sh, has_shape h1 c sh /\ forall l, l ∈ footprint sh -> l ∉ dom h.
Proof.
  intros Hgs Hbs H. unfold Heap.clone in H.
  apply hbind_Ok in H as (inst & ha & ra & Hinst & H).
  unfold Heap.new_Individual in Hinst.
  apply hbind_Ok in Hinst as (l0 & ha' & ra' & Hl0 & Hinst).
  injection Hinst as <- -> _.
  apply alloc_Ok in Hl0 as (_ & _ & Hsub0).
  unfold Heap.active_at in Hbs.
  destruct (Heap.h_active p) as [la|] eqn:Ela; [| discriminate].
  destruct (h !! la) as [[|bs0| |]|] eqn:Hla; try discriminate.
  injection Hbs as ->.
  apply hbind_Ok in H as (la0 & hb & rb & Hret & H).
  injection Hret as <- <- _.
  apply hbind_Ok in H as (act & hc & rc & Hact & H).
  pose proof (read_only_read_bools _ _ _ _ _ _ Hact) as ->.
  apply read_bools_Ok in Hact.
  rewrite (lookup_weaken _ _ _ _ Hla Hsub0) in Hact. injection Hact as <-.
  apply hbind_Ok in H as (la' & hd & rd & Hla' & H).
  apply alloc_Ok in Hla' as (Hfla' & -> & Hsub1).
  apply hbind_Ok in H as (ls & he & re & Hls & H).
  pose proof (read_only_read_list _ _ _ _ _ _ Hls) as ->.
  apply read_list_Ok in Hls.
  unfold Heap.genes_at in Hgs.
  destruct (h !! Heap.h_genes p) as [[| |ls0|]|] eqn:Hlg; try discriminate.
  assert (Hsub01 : h ⊆ <[la' := Heap.CBools bs]> ha) by (etrans; eassumption).
  rewrite (lookup_weaken _ _ _ _ Hlg Hsub01) in Hls. injection Hls as <-.
  apply hbind_Ok in H as (ls' & hf & rf & Hcopy & H).
  apply copy_gens_Ok in Hcopy as (Hsub2 & Hval & arrs & Hgens & Harrs).
  apply hbind_Ok in H as (lg' & hg & rg & Hlg' & H).
  apply alloc_Ok in Hlg' as (Hflg' & -> & Hsub3).
  injection H as <- <- _.
  assert (Hsub : h ⊆ <[lg' := Heap.CList ls']> hf)
    by (etrans; [exact Hsub01 | etrans; eassumption]).
  split; [exact Hsub |].
  assert (Hmask : (<[lg' := Heap.CList ls']> hf) !! la'
                  = Some (Heap.CBools bs)).
  { eapply lookup_weaken; [| exact Hsub3].
    eapply lookup_weaken; [| exact Hsub2]. apply lookup_insert_eq. }
  split; [| split].
  - unfold Heap.genes_at. simpl. rewrite lookup_insert_eq.
    eapply mapM_gen_at_weaken; [exact Hsub3 |]. apply Hval.
    eapply mapM_gen_at_weaken; [exact Hsub01 | exact Hgs].
  - unfold Heap.active_at. simpl. now rewrite Hmask.
  - exists {| s_list := lg'; s_gens := ls'; s_arrays := arrs;
              s_mask := la' |}.
    split.
    + split; [reflexivity |]. split; [reflexivity |]. simpl.
      split; [apply lookup_insert_eq |]. split; [eauto |]. split.
      * intros g Hg. destruct (Hgens g Hg) as (_ & o & f & a & n & Hc & Hin).
        exists o, f, a, n. split; [| assumption].
        eapply lookup_weaken; eassumption.
      * intros a Ha. destruct (Harrs a Ha) as (_ & xs & Hc).
        exists xs. eapply lookup_weaken; eassumption.
    + intros l. unfold footprint. simpl.
      rewrite !elem_of_union, !elem_of_singleton, !elem_of_list_to_set.
      intros [[[-> | ->] | Hin] | Hin].
      * eapply subseteq_dom_fresh; [| exact Hflg'].
        etrans; [exact Hsub01 | exact Hsub2].
      * eapply subseteq_dom_fresh; [exact Hsub0 | exact Hfla'].
      * destruct (Hgens l Hin) as [Hf _].
        eapply subseteq_dom_fresh; [exact Hsub01 | exact Hf].
      * destruct (Harrs l Hin) as [Hf _].
        eapply subseteq_dom_fresh; [exact Hsub01 | exact Hf].
Qed.

(** Any number of calls of [mutate] on the same genotype, one after the
    other: each call has its fuel and its [force] flag, the store and the
    random tape go from one call to the next. *)
Fixpoint mutate_many (calls : list (nat * bool)) (c : Heap.Handle)
    : Heap.HM Heap.Handle :=
  match calls with
  | [] => Heap.hret c
  | (fuel, force) :: rest =>
      Heap.hbind (Heap.mutate fuel force c) (mutate_many rest)
  end.

Lemma keeps_mutate_many ind sh calls :
  keeps ind sh (mutate_many calls ind) (fun ind' => ind' = ind).
Proof.
  induction calls as [|[fuel force] rest IH]; simpl.
  - now apply keeps_ret.
  - eapply keeps_bind; [apply keeps_mutate |]. intros ind' ->. exact IH.
Qed.

(** C9: let [c = p.clone()] for a genotype [p] that lives in the store.
    Whatever sequence of [mutate] calls is applied to [c], every object
    that existed before the clone is afterwards exactly as it was;
    in particular the gene array of [p] (function index, number of inputs
    and connection values of every gene) and its active mask read the
    same.  The clone starts as a copy of [p] on objects of its own: none
    of its list, genes, arrays and mask existed before. *)
Theorem C9_clone_independence p (h : gmap nat Heap.cell) r c h1 r1
    calls r1' c' h2 r2 gs bs :
  Heap.genes_at h p = Some gs -> Heap.active_at h p = Some bs ->
  Heap.clone p h r = Ok (c, h1, r1) ->
  mutate_many calls c h1 r1' = Ok (c', h2, r2) ->
  (h ⊆ h2) /\
  Heap.genes_at h2 p = Some gs /\ Heap.active_at h2 p = Some bs /\
  Heap.genes_at h1 c = Some gs /\ Heap.active_at h1 c = Some bs /\
  exists sh, has_shape h1 c sh /\ forall l, l ∈ footprint sh -> l ∉ dom h.
Proof.
  intros Hgs Hbs Hclone Hmut.
  destruct (clone_Ok _ _ _ _ _ _ _ _ Hgs Hbs Hclone)
    as (Hsub & Hgc & Hbc & sh & Hsh & Hfresh).
  destruct (keeps_mutate_many c sh calls _ _ _ _ _ Hsh Hmut)
    as (_ & [Hdom Hframe] & _).
  assert (Hsub2 : h ⊆ h2).
  { apply map_subseteq_spec. intros l x Hl.
    assert (Hin : l ∈ dom h) by (eapply elem_of_dom_2; eassumption).
    rewrite Hframe.
    - eapply lookup_weaken; eassumption.
    - eapply subseteq_dom; eassumption.
    - intros Hfp. now apply (Hfresh l Hfp). }
  split; [exact Hsub2 |].
  split; [eapply genes_at_weaken; eassumption |].
  split; [eapply active_at_weaken; eassumption |].
  split; [assumption |]. split; [assumption |]. eauto.
Qed.

(** ** The sample genotype in the store *)

Definition null_handle : Heap.Handle :=
  {| Heap.h_config := demo_config; Heap.h_score := None;
     Heap.h_model := None; Heap.h_total_params := None; Heap.h_genes := 0%nat;
     Heap.h_active := None; Heap.h_accuracy := None |}.

(** The outcome of a store computation, with defaults for a failed one. *)
Definition outcome (x : result (Heap.Handle * gmap nat Heap.cell * Rng))
    : Heap.Handle * gmap nat Heap.cell * Rng :=
  match x with
  | Ok y => y
  | _ => (null_handle, ∅, demo_rng)
  end.

Definition stored_parent := outcome (Heap.spawn 10 demo_config ∅ demo_rng).
Definition stored_clone :=
  outcome (Heap.clone stored_parent.1.1 stored_parent.1.2 stored_parent.2).
Definition mutated_clone :=
  outcome (mutate_many [(20%nat, true); (20%nat, false)]
             stored_clone.1.1 stored_clone.1.2 stored_clone.2).
Definition stored_shallow_clone :=
  outcome (Heap.clone_shallow stored_parent.1.1 stored_parent.1.2
             stored_parent.2).
Definition mutated_shallow_clone :=
  outcome (Heap.mutate 20 true stored_shallow_clone.1.1
             stored_shallow_clone.1.2 stored_shallow_clone.2).

(** On the store [spawn] builds the genotype the value model builds. *)
Example stored_parent_value :
  Heap.spawn 10 demo_config ∅ demo_rng = Ok stored_parent /\
  Heap.genes_at stored_parent.1.2 stored_parent.1.1
    = Some (genes demo_parent) /\
  Heap.active_at stored_parent.1.2 stored_parent.1.1 = active demo_parent.
Proof. repeat split; vm_compute; reflexivity. Qed.

Lemma C9_witness :
  Heap.genes_at mutated_clone.1.2 stored_parent.1.1
    = Some (genes demo_parent) /\
  Heap.active_at mutated_clone.1.2 stored_parent.1.1 = active demo_parent /\
  Heap.genes_at mutated_clone.1.2 mutated_clone.1.1
    <> Some (genes demo_parent).
Proof.
  destruct (C9_clone_independence
              stored_parent.1.1 stored_parent.1.2 stored_parent.2
              stored_clone.1.1 stored_clone.1.2 stored_clone.2
              [(20%nat, true); (20%nat, false)] stored_clone.2
              mutated_clone.1.1 mutated_clone.1.2 mutated_clone.2
              (genes demo_parent)
              [false; true; true; false; false; false; true])
    as (_ & Hg & Ha & _); try (vm_compute; reflexivity).
  split; [exact Hg |]. split; [exact Ha |].
  vm_compute. discriminate.
Defined.

(** With a shallow copy of the gene list the same mutation shows through
    on the source: the frame property is a property of [deepcopy]. *)
Example shallow_clone_shares_genes :
  Heap.genes_at mutated_shallow_clone.1.2 stored_parent.1.1
    <> Some (genes demo_parent) /\
  Heap.genes_at mutated_shallow_clone.1.2 stored_parent.1.1
    = Heap.genes_at mutated_shallow_clone.1.2 mutated_shallow_clone.1.1.
Proof. split; [vm_compute; discriminate | vm_compute; reflexivity]. Qed.

(** * The store model refines the value model

    On a genotype whose genes and arrays are pairwise distinct objects (as
    [init_genes] and [clone] build them) the functions on the store compute
    what the functions on values compute. *)

(** The gene [x] of the value model is stored in the object [g] with the
    array [a]. *)
Definition gene_stored (h : gmap nat Heap.cell) (g a : nat) (x : Gen) : Prop :=
  h !! g = Some (Heap.CGen (is_output x) (fnc_idx x) a (num_inputs x)) /\
  h !! a = Some (Heap.CInts (inputs x)).

(** The handle [ind], with its objects laid out as [sh], holds the value
    [v]. *)
Definition represents (h : gmap nat Heap.cell) (ind : Heap.Handle)
    (sh : Shape) (v : Individual) : Prop :=
  Heap.h_genes ind = s_list sh /\
  Heap.h_active ind = Some (s_mask sh) /\
  Heap.h_config ind = config v /\
  h !! s_list sh = Some (Heap.CList (s_gens sh)) /\
  (exists bs, active v = Some bs /\ h !! s_mask sh = Some (Heap.CBools bs)) /\
  length (s_gens sh) = length (genes v) /\
  length (s_arrays sh) = length (genes v) /\
  NoDup (s_arrays sh) /\
  forall (j : nat) g a x,
    s_gens sh !! j = Some g -> s_arrays sh !! j = Some a ->
    genes v !! j = Some x -> gene_stored h g a x.

Lemma py_pos_length {A B} (l : list A) (l' : list B) i :
  length l = length l' -> py_pos l i = py_pos l' i.
Proof. unfold py_pos. now intros ->. Qed.

(** What [self.genes[idx]] finds. *)
Lemma gene_ref_sim h ind sh v idx r g h' r' :
  represents h ind sh v ->
  Heap.gene_ref ind idx h r = Ok (g, h', r') ->
  h' = h /\ r' = r /\
  exists (j : nat) a x,
    py_pos (genes v) idx = Some j /\
    s_gens sh !! j = Some g /\ s_arrays sh !! j = Some a /\
    genes v !! j = Some x /\ gene_stored h g a x.
Proof.
  intros (Hg & _ & _ & Hl & _ & Hlen & Hlena & _ & Hst) H.
  unfold Heap.gene_ref in H.
  apply hbind_Ok in H as (ls & h1 & r1 & Hls & H).
  assert (r1 = r /\ h1 = h) as [-> ->].
  { unfold Heap.read_list, Heap.hbind, Heap.read in Hls.
    destruct (h !! Heap.h_genes ind) as [[]|]; try discriminate.
    injection Hls as _ <- <-. auto. }
  apply read_list_Ok in Hls. rewrite Hg, Hl in Hls. injection Hls as <-.
  unfold Heap.hlift in H.
  destruct (py_index (s_gens sh) idx) as [g0| |] eqn:E; [| discriminate..].
  injection H as -> <- <-. split; [reflexivity |]. split; [reflexivity |].
  apply py_index_Ok in E as (j & Hj & Hgj).
  rewrite (py_pos_length _ (genes v) _ Hlen) in Hj.
  pose proof (lookup_lt_Some _ _ _ Hgj) as Hlt.
  destruct (lookup_lt_is_Some_2 (s_arrays sh) j) as [a Ha]; [lia |].
  destruct (lookup_lt_is_Some_2 (genes v) j) as [x Hx]; [lia |].
  exists j, a, x. repeat split; try assumption; eapply Hst; eassumption.
Qed.

Lemma read_gen_sim (h : gmap nat Heap.cell) g a x r gf h' r' :
  gene_stored h g a x ->
  Heap.read_gen g h r = Ok (gf, h', r') ->
  h' = h /\ r' = r /\
  gf = {| Heap.g_is_output := is_output x; Heap.g_fnc_idx := fnc_idx x;
          Heap.g_inputs := a; Heap.g_num_inputs := num_inputs x |}.
Proof.
  intros [Hg _] H. unfold Heap.read_gen, Heap.hbind, Heap.read in H.
  rewrite Hg in H. injection H as <- <- <-. auto.
Qed.

Lemma read_ints_sim (h : gmap nat Heap.cell) a xs r ys h' r' :
  h !! a = Some (Heap.CInts xs) ->
  Heap.read_ints a h r = Ok (ys, h', r') -> h' = h /\ r' = r /\ ys = xs.
Proof.
  intros Ha H. unfold Heap.read_ints, Heap.hbind, Heap.read in H.
  rewrite Ha in H. injection H as <- <- <-. auto.
Qed.

Lemma read_bools_sim (h : gmap nat Heap.cell) a xs r ys h' r' :
  h !! a = Some (Heap.CBools xs) ->
  Heap.read_bools a h r = Ok (ys, h', r') -> h' = h /\ r' = r /\ ys = xs.
Proof.
  intros Ha H. unfold Heap.read_bools, Heap.hbind, Heap.read in H.
  rewrite Ha in H. injection H as <- <- <-. auto.
Qed.

Lemma hlift_Ok {A} (m : result A) (h : gmap nat Heap.cell) r a h' r' :
  Heap.hlift m h r = Ok (a, h', r') -> m = Ok a /\ h' = h /\ r' = r.
Proof.
  unfold Heap.hlift. destruct m; [| discriminate..].
  intros [= <- <- <-]. auto.
Qed.

Lemma hrand_Ok {A} (m : M A) (h : gmap nat Heap.cell) r a h' r' :
  Heap.hrand m h r = Ok (a, h', r') -> m r = Ok (a, r') /\ h' = h.
Proof.
  unfold Heap.hrand. destruct (m r) as [[a0 r0]| |]; [| discriminate..].
  intros [= <- <- <-]. auto.
Qed.

(** [self.genes[idx].inputs[i]] *)
Lemma read_input_sim h ind sh v idx i r c h' r' :
  represents h ind sh v ->
  Heap.read_input ind idx i h r = Ok (c, h', r') ->
  h' = h /\ r' = r /\
  exists x, py_index (genes v) idx = Ok x /\ py_index (inputs x) i = Ok c.
Proof.
  intros Hrep H. unfold Heap.read_input in H.
  apply hbind_Ok in H as (g & h1 & r1 & Hg & H).
  apply (gene_ref_sim _ _ _ _ _ _ _ _ _ Hrep) in Hg
    as (-> & -> & j & a & x & Hj & Hgj & Haj & Hxj & Hst).
  apply hbind_Ok in H as (gf & h2 & r2 & Hgf & H).
  apply (read_gen_sim _ _ _ _ _ _ _ _ Hst) in Hgf as (-> & -> & ->).
  apply hbind_Ok in H as (xs & h3 & r3 & Hxs & H). simpl in Hxs.
  apply (read_ints_sim _ _ _ _ _ _ _ (proj2 Hst)) in Hxs as (-> & -> & ->).
  apply hlift_Ok in H as (H & -> & ->).
  split; [reflexivity |]. split; [reflexivity |].
  exists x. split; [| assumption]. unfold py_index. now rewrite Hj, Hxj.
Qed.

Lemma represents_update_array h ind sh v (j : nat) g a x xs' :
  represents h ind sh v ->
  s_gens sh !! j = Some g -> s_arrays sh !! j = Some a ->
  genes v !! j = Some x ->
  represents (<[a := Heap.CInts xs']> h) ind sh
    (set_genes v (<[j := set_inputs x xs']> (genes v))).
Proof.
  intros (Hg & Ha & Hc & Hl & (bs & Hbs & Hm) & Hlen & Hlena & Hnd & Hst)
    Hgj Haj Hxj.
  destruct (Hst _ _ _ _ Hgj Haj Hxj) as [Hcg Hca].
  assert (Hne : forall l c, h !! l = Some c ->
                  (forall ys, c <> Heap.CInts ys) -> a <> l).
  { intros l c Hlc Hty ->. rewrite Hca in Hlc. injection Hlc as <-.
    now apply (Hty (inputs x)). }
  split; [assumption |]. split; [assumption |]. split; [assumption |].
  split; [rewrite lookup_insert_ne; [assumption | eapply Hne; eauto; discriminate] |].
  split.
  { exists bs. split; [assumption |].
    rewrite lookup_insert_ne; [assumption | eapply Hne; eauto; discriminate]. }
  simpl. rewrite length_insert.
  split; [assumption |]. split; [assumption |]. split; [assumption |].
  intros k gk ak xk Hgk Hak Hxk.
  destruct (decide (k = j)) as [-> | Hkj].
  - rewrite list_lookup_insert_eq in Hxk by (eapply lookup_lt_Some; eauto).
    injection Hxk as <-. rewrite Hgj in Hgk. rewrite Haj in Hak.
    injection Hgk as <-. injection Hak as <-.
    split; simpl.
    + rewrite lookup_insert_ne; [assumption | eapply Hne; eauto; discriminate].
    + apply lookup_insert_eq.
  - rewrite list_lookup_insert_ne in Hxk by congruence.
    destruct (Hst _ _ _ _ Hgk Hak Hxk) as [Hcgk Hcak].
    split.
    + rewrite lookup_insert_ne; [assumption | eapply Hne; eauto; discriminate].
    + rewrite lookup_insert_ne; [assumption |].
      intros <-. apply Hkj. eapply NoDup_lookup; eassumption.
Qed.

Lemma represents_update_gen h ind sh v (j : nat) g a x x' :
  represents h ind sh v ->
  s_gens sh !! j = Some g -> s_arrays sh !! j = Some a ->
  genes v !! j = Some x -> inputs x' = inputs x ->
  represents
    (<[g := Heap.CGen (is_output x') (fnc_idx x') a (num_inputs x')]> h)
    ind sh (set_genes v (<[j := x']> (genes v))).
Proof.
  intros (Hg & Ha & Hc & Hl & (bs & Hbs & Hm) & Hlen & Hlena & Hnd & Hst)
    Hgj Haj Hxj Hin.
  destruct (Hst _ _ _ _ Hgj Haj Hxj) as [Hcg Hca].
  assert (Hne : forall l c, h !! l = Some c ->
                  (forall o f i n, c <> Heap.CGen o f i n) -> g <> l).
  { intros l c Hlc Hty ->. rewrite Hcg in Hlc. injection Hlc as <-.
    now apply (Hty (is_output x) (fnc_idx x) a (num_inputs x)). }
  split; [assumption |]. split; [assumption |]. split; [assumption |].
  split; [rewrite lookup_insert_ne; [assumption | eapply Hne; eauto; discriminate] |].
  split.
  { exists bs. split; [assumption |].
    rewrite lookup_insert_ne; [assumption | eapply Hne; eauto; discriminate]. }
  simpl. rewrite length_insert.
  split; [assumption |]. split; [assumption |]. split; [assumption |].
  intros k gk ak xk Hgk Hak Hxk.
  destruct (decide (k = j)) as [-> | Hkj].
  - rewrite list_lookup_insert_eq in Hxk by (eapply lookup_lt_Some; eauto).
    injection Hxk as <-. rewrite Hgj in Hgk. rewrite Haj in Hak.
    injection Hgk as <-. injection Hak as <-.
    split.
    + apply lookup_insert_eq.
    + rewrite lookup_insert_ne; [now rewrite Hin |].
      eapply Hne; eauto; discriminate.
  - rewrite list_lookup_insert_ne in Hxk by congruence.
    destruct (Hst _ _ _ _ Hgk Hak Hxk) as [Hcgk Hcak].
    assert (g <> gk).
    { intros <-. rewrite Hcg in Hcgk. injection Hcgk as _ _ Haa _.
      subst ak. apply Hkj. eapply NoDup_lookup; eassumption. }
    split.
    + rewrite lookup_insert_ne; assumption.
    + rewrite lookup_insert_ne; [assumption |].
      eapply Hne; eauto; discriminate.
Qed.

Lemma represents_write_mask h ind sh v bs' :
  represents h ind sh v ->
  represents (<[s_mask sh := Heap.CBools bs']> h) ind sh (set_active v bs').
Proof.
  intros (Hg & Ha & Hc & Hl & (bs & Hbs & Hm) & Hlen & Hlena & Hnd & Hst).
  assert (Hne : forall l c, h !! l = Some c ->
                  (forall ys, c <> Heap.CBools ys) -> s_mask sh <> l).
  { intros l c Hlc Hty Heq. rewrite <- Heq, Hm in Hlc. injection Hlc as <-.
    now apply (Hty bs). }
  split; [assumption |]. split; [assumption |]. split; [assumption |].
  split; [rewrite lookup_insert_ne; [assumption | eapply Hne; eauto; discriminate] |].
  split; [exists bs'; split; [reflexivity | apply lookup_insert_eq] |].
  split; [assumption |]. split; [assumption |]. split; [assumption |].
  intros k gk ak xk Hgk Hak Hxk.
  destruct (Hst _ _ _ _ Hgk Hak Hxk) as [Hcgk Hcak].
  split; (rewrite lookup_insert_ne;
          [assumption | eapply Hne; eauto; discriminate]).
Qed.

Lemma represents_alloc (h : gmap nat Heap.cell) ind sh v l c :
  represents h ind sh v -> l ∉ dom h ->
  represents (<[l := c]> h) ind sh v.
Proof.
  intros (Hg & Ha & Hc & Hl & (bs & Hbs & Hm) & Hlen & Hlena & Hnd & Hst) Hf.
  assert (Hne : forall l' c', h !! l' = Some c' -> l <> l').
  { intros l' c' Hlc <-. apply Hf. eapply elem_of_dom_2; eassumption. }
  split; [assumption |]. split; [assumption |]. split; [assumption |].
  split; [rewrite lookup_insert_ne; eauto |].
  split; [exists bs; split; [assumption | rewrite lookup_insert_ne; eauto] |].
  split; [assumption |]. split; [assumption |]. split; [assumption |].
  intros k gk ak xk Hgk Hak Hxk.
  destruct (Hst _ _ _ _ Hgk Hak Hxk) as [Hcgk Hcak].
  split; rewrite lookup_insert_ne; eauto.
Qed.

Lemma represents_same_genes h ind sh v v' :
  represents h ind sh v ->
  config v' = config v -> genes v' = genes v -> active v' = active v ->
  represents h ind sh v'.
Proof.
  unfold represents. intros H Hc Hg Ha. rewrite Hc, Hg, Ha. exact H.
Qed.

(** [self.genes[idx].inputs[i] = n] *)
Lemma write_input_sim h ind sh v idx i n r u h' r' :
  represents h ind sh v ->
  Heap.write_input ind idx i n h r = Ok (u, h', r') ->
  r' = r /\
  exists (j : nat) x xs',
    py_pos (genes v) idx = Some j /\ genes v !! j = Some x /\
    py_store (inputs x) i n = Ok xs' /\
    represents h' ind sh
      (set_genes v (<[j := set_inputs x xs']> (genes v))).
Proof.
  intros Hrep H. unfold Heap.write_input in H.
  apply hbind_Ok in H as (g & h1 & r1 & Hg & H).
  apply (gene_ref_sim _ _ _ _ _ _ _ _ _ Hrep) in Hg
    as (-> & -> & j & a & x & Hj & Hgj & Haj & Hxj & Hst).
  apply hbind_Ok in H as (gf & h2 & r2 & Hgf & H).
  apply (read_gen_sim _ _ _ _ _ _ _ _ Hst) in Hgf as (-> & -> & ->).
  apply hbind_Ok in H as (xs & h3 & r3 & Hxs & H). simpl in Hxs.
  apply (read_ints_sim _ _ _ _ _ _ _ (proj2 Hst)) in Hxs as (-> & -> & ->).
  apply hbind_Ok in H as (xs' & h4 & r4 & Hstore & H).
  apply hlift_Ok in Hstore as (Hstore & -> & ->).
  injection H as _ <- <-. split; [reflexivity |].
  exists j, x, xs'. split; [assumption |]. split; [assumption |].
  split; [assumption |]. simpl.
  eapply represents_update_array; eassumption.
Qed.

(** [self.genes[idx].<field> = ...] *)
Lemma update_gen_sim h ind sh v idx f r u h' r' :
  represents h ind sh v ->
  (forall gf, Heap.g_inputs (f gf) = Heap.g_inputs gf) ->
  Heap.update_gen ind idx f h r = Ok (u, h', r') ->
  r' = r /\
  exists (j : nat) x a,
    py_pos (genes v) idx = Some j /\ genes v !! j = Some x /\
    let gf' := f {| Heap.g_is_output := is_output x;
                    Heap.g_fnc_idx := fnc_idx x; Heap.g_inputs := a;
                    Heap.g_num_inputs := num_inputs x |} in
    represents h' ind sh
      (set_genes v
         (<[j := {| is_output := Heap.g_is_output gf';
                    fnc_idx := Heap.g_fnc_idx gf';
                    inputs := inputs x;
                    num_inputs := Heap.g_num_inputs gf' |}]> (genes v))).
Proof.
  intros Hrep Hf H. unfold Heap.update_gen in H.
  apply hbind_Ok in H as (g & h1 & r1 & Hg & H).
  apply (gene_ref_sim _ _ _ _ _ _ _ _ _ Hrep) in Hg
    as (-> & -> & j & a & x & Hj & Hgj & Haj & Hxj & Hst).
  apply hbind_Ok in H as (gf & h2 & r2 & Hgf & H).
  apply (read_gen_sim _ _ _ _ _ _ _ _ Hst) in Hgf as (-> & -> & ->).
  injection H as _ <- <-. split; [reflexivity |].
  exists j, x, a. split; [assumption |]. split; [assumption |].
  cbv zeta. rewrite Hf. simpl.
  set (gf' := f _).
  apply (represents_update_gen h ind sh v j g a x
           {| is_output := Heap.g_is_output gf'; fnc_idx := Heap.g_fnc_idx gf';
              inputs := inputs x; num_inputs := Heap.g_num_inputs gf' |});
    auto.
Qed.

Lemma active_ref_sim h ind sh v r la h' r' :
  represents h ind sh v ->
  Heap.active_ref ind h r = Ok (la, h', r') ->
  la = s_mask sh /\ h' = h /\ r' = r.
Proof.
  intros (_ & Ha & _) H. unfold Heap.active_ref in H. rewrite Ha in H.
  injection H as <- <- <-. auto.
Qed.

(** The statement of the walk, for a given fuel. *)
Definition walk_sim_at (ind : Heap.Handle) (sh : Shape) (fuel : nat) : Prop :=
  forall node h r u h' r' v,
    represents h ind sh v ->
    Heap.walk_to_out fuel ind node h r = Ok (u, h', r') ->
    r' = r /\
    exists act act',
      active v = Some act /\
      walk_to_out fuel (config v) (genes v) node act = Ok act' /\
      represents h' ind sh (set_active v act').

Lemma walk_inputs_sim ind sh fuel node x :
  walk_sim_at ind sh fuel ->
  forall k i h r u h' r' v,
    represents h ind sh v ->
    py_index (genes v) node = Ok x ->
    Heap.for_range k i
      (fun i _ =>
         Heap.hbind (Heap.read_input ind node i) (fun c =>
         if c >=? num_input (Heap.h_config ind)
         then Heap.walk_to_out fuel ind (c - num_input (Heap.h_config ind))
         else Heap.hret tt)) u h r = Ok (tt, h', r') ->
    r' = r /\
    exists act act',
      active v = Some act /\
      for_range_res
        (fun i a =>
           rbind (py_index (inputs x) i) (fun c =>
           if c >=? num_input (config v)
           then walk_to_out fuel (config v) (genes v) (c - num_input (config v)) a
           else Ok a)) k i act = Ok act' /\
      represents h' ind sh (set_active v act').
Proof.
  intros IHw. induction k as [|k IH]; intros i h r u h' r' v Hrep Hx H.
  - simpl in H. injection H as _ <- <-. split; [reflexivity |].
    pose proof Hrep as (_ & _ & _ & _ & (bs & Hbs & _) & _).
    exists bs, bs. split; [assumption |]. split; [reflexivity |].
    eapply represents_same_genes; [eassumption | reflexivity..| ].
    simpl. now rewrite Hbs.
  - simpl in H. apply hbind_Ok in H as ([] & h1 & r1 & Hbody & H).
    apply hbind_Ok in Hbody as (c & h2 & r2 & Hc & Hbody).
    apply (read_input_sim _ _ _ _ _ _ _ _ _ _ Hrep) in Hc
      as (-> & -> & x' & Hx' & Hc).
    rewrite Hx in Hx'. injection Hx' as <-.
    pose proof Hrep as (_ & _ & Hcfg & _).
    rewrite Hcfg in Hbody.
    assert (Hstep : r1 = r /\ exists act act1,
               active v = Some act /\
               (if c >=? num_input (config v)
                then walk_to_out fuel (config v) (genes v)
                       (c - num_input (config v)) act
                else Ok act) = Ok act1 /\
               represents h1 ind sh (set_active v act1)).
    { destruct (c >=? num_input (config v)).
      - now apply (IHw _ _ _ _ _ _ _ Hrep) in Hbody.
      - injection Hbody as <- <-. split; [reflexivity |].
        pose proof Hrep as (_ & _ & _ & _ & (bs & Hbs & _) & _).
        exists bs, bs. split; [assumption |]. split; [reflexivity |].
        eapply represents_same_genes; [eassumption | reflexivity..| ].
        simpl. now rewrite Hbs. }
    destruct Hstep as (-> & act & act1 & Hact & Hw & Hrep1).
    apply (IH _ _ _ _ _ _ _ Hrep1) in H; [| exact Hx].
    destruct H as (-> & act1' & act' & Hact1 & Hloop & Hrep').
    simpl in Hact1. injection Hact1 as <-. simpl in Hloop.
    split; [reflexivity |]. exists act, act'.
    split; [assumption |]. split.
    + simpl. rewrite Hc. simpl. rewrite Hw. simpl. exact Hloop.
    + eapply represents_same_genes; [exact Hrep' | reflexivity..].
Qed.

Lemma walk_to_out_sim ind sh fuel : walk_sim_at ind sh fuel.
Proof.
  induction fuel as [|f IH]; intros node h r u h' r' v Hrep H;
    [discriminate |].
  destruct u. cbn [Heap.walk_to_out] in H.
  apply hbind_Ok in H as (la & h1 & r1 & Hla & H).
  apply (active_ref_sim _ _ _ _ _ _ _ _ Hrep) in Hla as (-> & -> & ->).
  pose proof Hrep as (_ & _ & Hcfg & _ & (bs & Hbs & Hm) & _).
  apply hbind_Ok in H as (act & h2 & r2 & Hact & H).
  apply (read_bools_sim _ _ _ _ _ _ _ Hm) in Hact as (-> & -> & ->).
  apply hbind_Ok in H as (b & h3 & r3 & Hb & H).
  apply hlift_Ok in Hb as (Hb & -> & ->).
  cbn [walk_to_out]. 
  destruct b; simpl in H.
  - injection H as <- <-. split; [reflexivity |].
    exists bs, bs. split; [assumption |]. rewrite Hb. simpl.
    split; [reflexivity |].
    eapply represents_same_genes; [eassumption | reflexivity..| ].
    simpl. now rewrite Hbs.
  - apply hbind_Ok in H as (act1 & h4 & r4 & Hst & H).
    apply hlift_Ok in Hst as (Hst & -> & ->).
    apply hbind_Ok in H as ([] & h5 & r5 & Hw & H).
    injection Hw as <- <-.
    pose proof (represents_write_mask _ _ _ _ act1 Hrep) as Hrep1.
    apply hbind_Ok in H as (g & h6 & r6 & Hg & H).
    apply (gene_ref_sim _ _ _ _ _ _ _ _ _ Hrep1) in Hg
      as (-> & -> & j & a & x & Hj & Hgj & Haj & Hxj & Hstored).
    apply hbind_Ok in H as (gf & h7 & r7 & Hgf & H).
    apply (read_gen_sim _ _ _ _ _ _ _ _ Hstored) in Hgf as (-> & -> & ->).
    simpl in Hj, Hxj, H.
    assert (Hx : py_index (genes (set_active v act1)) node = Ok x)
      by (unfold py_index; simpl; now rewrite Hj, Hxj).
    apply (walk_inputs_sim ind sh f node x IH _ _ _ _ _ _ _ _ Hrep1 Hx) in H.
    destruct H as (-> & act1' & act' & Hact1 & Hloop & Hrep').
    simpl in Hact1. injection Hact1 as <-. simpl in Hloop.
    split; [reflexivity |]. exists bs, act'. split; [assumption |].
    rewrite Hb. simpl. rewrite Hst. simpl.
    unfold py_index in Hx. simpl in Hx.
    unfold py_index at 1. rewrite Hj, Hxj. simpl.
    split; [exact Hloop |].
    eapply represents_same_genes; [exact Hrep' | reflexivity..].
Qed.

Lemma check_active_loop_sim ind sh fuel :
  forall k i h r u h' r' v,
    represents h ind sh v ->
    Heap.for_range k i
      (fun node _ =>
         Heap.walk_to_out fuel ind (num_nodes (Heap.h_config ind) + node))
      u h r = Ok (tt, h', r') ->
    r' = r /\
    exists act act',
      active v = Some act /\
      for_range_res
        (fun node a =>
           walk_to_out fuel (config v) (genes v)
             (num_nodes (config v) + node) a) k i act = Ok act' /\
      represents h' ind sh (set_active v act').
Proof.
  induction k as [|k IH]; intros i h r u h' r' v Hrep H.
  - simpl in H. injection H as _ <- <-. split; [reflexivity |].
    pose proof Hrep as (_ & _ & _ & _ & (bs & Hbs & _) & _).
    exists bs, bs. split; [assumption |]. split; [reflexivity |].
    eapply represents_same_genes; [eassumption | reflexivity..| ].
    simpl. now rewrite Hbs.
  - simpl in H. apply hbind_Ok in H as ([] & h1 & r1 & Hbody & H).
    pose proof Hrep as (_ & _ & Hcfg & _). rewrite Hcfg in Hbody.
    apply (walk_to_out_sim _ _ _ _ _ _ _ _ _ _ Hrep) in Hbody
      as (-> & act & act1 & Hact & Hw & Hrep1).
    apply (IH _ _ _ _ _ _ _ Hrep1) in H
      as (-> & act1' & act' & Hact1 & Hloop & Hrep').
    simpl in Hact1. injection Hact1 as <-. simpl in Hloop.
    split; [reflexivity |]. exists act, act'. split; [assumption |].
    split; [simpl; rewrite Hw; exact Hloop |].
    eapply represents_same_genes; [exact Hrep' | reflexivity..].
Qed.

Lemma check_active_sim ind sh fuel h r u h' r' v :
  represents h ind sh v ->
  Heap.check_active fuel ind h r = Ok (u, h', r') ->
  r' = r /\
  exists v', check_active fuel v = Ok v' /\ represents h' ind sh v'.
Proof.
  intros Hrep H. destruct u. unfold Heap.check_active in H.
  apply hbind_Ok in H as (la & h1 & r1 & Hla & H).
  apply (active_ref_sim _ _ _ _ _ _ _ _ Hrep) in Hla as (-> & -> & ->).
  pose proof Hrep as (_ & _ & Hcfg & _ & (bs & Hbs & Hm) & _).
  apply hbind_Ok in H as (act & h2 & r2 & Hact & H).
  apply (read_bools_sim _ _ _ _ _ _ _ Hm) in Hact as (-> & -> & ->).
  apply hbind_Ok in H as ([] & h3 & r3 & Hw & H).
  injection Hw as <- <-.
  pose proof (represents_write_mask _ _ _ _ (replicate (length bs) false) Hrep)
    as Hrep1.
  apply (check_active_loop_sim _ _ _ _ _ _ _ _ _ _ _ Hrep1) in H
    as (-> & act0 & act' & Hact0 & Hloop & Hrep').
  simpl in Hact0. injection Hact0 as <-. simpl in Hloop.
  rewrite Hcfg in Hloop.
  split; [reflexivity |]. unfold check_active. rewrite Hbs, Hloop. simpl.
  eexists. split; [reflexivity |].
  eapply represents_same_genes; [exact Hrep' | reflexivity..].
Qed.

Lemma py_index_pos {A} (l : list A) idx (j : nat) x :
  py_pos l idx = Some j -> l !! j = Some x -> py_index l idx = Ok x.
Proof. intros Hj Hx. unfold py_index. now rewrite Hj, Hx. Qed.

Lemma py_store_pos {A} (l : list A) idx (j : nat) x :
  py_pos l idx = Some j -> py_store l idx x = Ok (<[j := x]> l).
Proof. intros Hj. unfold py_store. now rewrite Hj. Qed.

Lemma mutate_function_gene_sim ind sh fuel idx h r b h' r' v :
  represents h ind sh v ->
  Heap.mutate_function_gene fuel ind idx h r = Ok (b, h', r') ->
  exists gs',
    mutate_function_gene fuel (config v) (genes v) idx r = Ok (gs', b, r') /\
    represents h' ind sh (set_genes v gs').
Proof.
  intros Hrep H. unfold Heap.mutate_function_gene in H.
  pose proof Hrep as (_ & _ & Hcfg & _). rewrite Hcfg in H.
  apply hbind_Ok in H as (fi0 & h1 & r1 & Hfi0 & H).
  apply hrand_Ok in Hfi0 as (Hfi0 & ->).
  apply hbind_Ok in H as (g & h2 & r2 & Hg & H).
  apply (gene_ref_sim _ _ _ _ _ _ _ _ _ Hrep) in Hg
    as (-> & -> & j & a & x & Hj & Hgj & Haj & Hxj & Hst).
  apply hbind_Ok in H as (gf & h3 & r3 & Hgf & H).
  apply (read_gen_sim _ _ _ _ _ _ _ _ Hst) in Hgf as (-> & -> & ->).
  apply hbind_Ok in H as (cur & h4 & r4 & Hcur & H).
  apply hlift_Ok in Hcur as (Hcur & -> & ->). simpl in Hcur.
  apply hbind_Ok in H as (fi & h5 & r5 & Hfi & H).
  apply hrand_Ok in Hfi as (Hfi & ->).
  apply hbind_Ok in H as (u1 & h6 & r6 & Hu1 & H).
  apply (update_gen_sim _ _ _ _ _ _ _ _ _ _ Hrep) in Hu1; [| reflexivity].
  destruct Hu1 as (-> & j1 & x1 & a1 & Hj1 & Hxj1 & Hrep1).
  rewrite Hj in Hj1. injection Hj1 as <-.
  rewrite Hxj in Hxj1. injection Hxj1 as <-.
  cbv zeta in Hrep1. simpl in Hrep1.
  apply hbind_Ok in H as (ni & h7 & r7 & Hni & H).
  apply hlift_Ok in Hni as (Hni & -> & ->).
  apply hbind_Ok in H as (u2 & h8 & r8 & Hu2 & H).
  apply (update_gen_sim _ _ _ _ _ _ _ _ _ _ Hrep1) in Hu2; [| reflexivity].
  destruct Hu2 as (-> & j2 & x2 & a2 & Hj2 & Hxj2 & Hrep2).
  simpl in Hj2, Hxj2.
  rewrite (py_pos_length _ (genes v)) in Hj2 by apply length_insert.
  rewrite Hj in Hj2. injection Hj2 as <-.
  rewrite list_lookup_insert_eq in Hxj2 by (eapply lookup_lt_Some; eauto).
  injection Hxj2 as <-.
  cbv zeta in Hrep2. simpl in Hrep2. rewrite list_insert_insert_eq in Hrep2.
  injection H as <- <- <-.
  exists (<[j := set_num_inputs (set_fnc_idx x fi) ni]> (genes v)).
  split; [| exact Hrep2].
  unfold mutate_function_gene, mbind. rewrite Hfi0. unfold lift at 1.
  rewrite (py_index_pos _ _ _ _ Hj Hxj). unfold lift at 1, get_fnc_idx.
  destruct (fnc_idx x) as [f0|]; [| discriminate]. injection Hcur as <-.
  rewrite Hfi. unfold lift at 1. rewrite Hni. unfold lift.
  rewrite (py_store_pos _ _ _ _ Hj). reflexivity.
Qed.

Lemma mutate_slots_sim ind sh fuel idx lo hi (j : nat) x :
  forall k i h r b h' r' v,
    represents h ind sh v ->
    py_pos (genes v) idx = Some j -> genes v !! j = Some x ->
    Heap.mutate_slots fuel ind idx lo hi k i h r = Ok (b, h', r') ->
    exists x',
      mutate_slots fuel lo hi x k i r = Ok (x', b, r') /\
      represents h' ind sh (set_genes v (<[j := x']> (genes v))).
Proof.
  induction k as [|k IH]; intros i h r b h' r' v Hrep Hj Hxj H.
  - simpl in H. injection H as <- <- <-. exists x. split; [reflexivity |].
    rewrite list_insert_id by assumption.
    eapply represents_same_genes; [eassumption | reflexivity..].
  - simpl in H. apply hbind_Ok in H as (coin & h1 & r1 & Hcoin & H).
    apply hrand_Ok in Hcoin as (Hcoin & ->).
    simpl. unfold mbind at 1. rewrite Hcoin.
    destruct (negb (coin =? 0) && (hi - lo >? 1)).
    + apply hbind_Ok in H as (rv & h2 & r2 & Hrv & H).
      apply hrand_Ok in Hrv as (Hrv & ->).
      apply hbind_Ok in H as (cur & h3 & r3 & Hcur & H).
      apply (read_input_sim _ _ _ _ _ _ _ _ _ _ Hrep) in Hcur
        as (-> & -> & x0 & Hx0 & Hcur).
      rewrite (py_index_pos _ _ _ _ Hj Hxj) in Hx0. injection Hx0 as <-.
      apply hbind_Ok in H as (n & h4 & r4 & Hn & H).
      apply hrand_Ok in Hn as (Hn & ->).
      apply hbind_Ok in H as (u & h5 & r5 & Hw & H).
      apply (write_input_sim _ _ _ _ _ _ _ _ _ _ _ Hrep) in Hw
        as (-> & j' & x1 & xs' & Hj' & Hxj' & Hst & Hrep').
      rewrite Hj in Hj'. injection Hj' as <-.
      rewrite Hxj in Hxj'. injection Hxj' as <-.
      injection H as <- <- <-.
      exists (set_inputs x xs'). split; [| exact Hrep'].
      unfold mbind. rewrite Hrv. unfold lift at 1. rewrite Hcur.
      rewrite Hn. unfold lift. rewrite Hst. reflexivity.
    + eapply IH; eassumption.
Qed.

Lemma mutate_connection_gene_sim ind sh fuel idx h r b h' r' v :
  represents h ind sh v ->
  Heap.mutate_connection_gene fuel ind idx h r = Ok (b, h', r') ->
  exists gs',
    mutate_connection_gene fuel (config v) (genes v) idx r
      = Ok (gs', b, r') /\
    represents h' ind sh (set_genes v gs').
Proof.
  intros Hrep H. unfold Heap.mutate_connection_gene in H.
  pose proof Hrep as (_ & _ & Hcfg & _). rewrite Hcfg in H.
  apply hbind_Ok in H as ([lo hi] & h1 & r1 & Hrg & H).
  apply hlift_Ok in Hrg as (Hrg & -> & ->).
  apply hbind_Ok in H as (g & h2 & r2 & Hg & H).
  apply (gene_ref_sim _ _ _ _ _ _ _ _ _ Hrep) in Hg
    as (-> & -> & j & a & x & Hj & Hgj & Haj & Hxj & Hst).
  apply hbind_Ok in H as (gf & h3 & r3 & Hgf & H).
  apply (read_gen_sim _ _ _ _ _ _ _ _ Hst) in Hgf as (-> & -> & ->).
  simpl in H.
  apply (mutate_slots_sim ind sh fuel idx lo hi j x _ _ _ _ _ _ _ _
           Hrep Hj Hxj) in H as (x' & Hsl & Hrep').
  exists (<[j := x']> (genes v)). split; [| exact Hrep'].
  unfold mutate_connection_gene, mbind. unfold lift at 1. rewrite Hrg.
  unfold lift at 1. rewrite (py_index_pos _ _ _ _ Hj Hxj).
  rewrite Hsl. unfold lift. rewrite (py_store_pos _ _ _ _ Hj). reflexivity.
Qed.

Lemma mutate_loop_sim ind sh n :
  forall fuel cnt h r cnt' h' r' v,
    represents h ind sh v ->
    Heap.mutate_loop fuel ind n cnt h r = Ok (cnt', h', r') ->
    exists gs',
      mutate_loop fuel (config v) n cnt (genes v) r = Ok (gs', cnt', r') /\
      represents h' ind sh (set_genes v gs').
Proof.
  induction fuel as [|f IH]; intros cnt h r cnt' h' r' v Hrep H;
    pose proof Hrep as (_ & _ & Hcfg & _);
    cbn [Heap.mutate_loop] in H; cbn [mutate_loop]; rewrite Hcfg in H;
    (destruct (cnt <=? mutation_budget (config v) n);
     [| injection H as <- <- <-; exists (genes v);
        split; [reflexivity
               | eapply represents_same_genes;
                 [eassumption | reflexivity..]]]);
    [discriminate |].
  apply hbind_Ok in H as (idx & h1 & r1 & Hidx & H).
  apply hrand_Ok in Hidx as (Hidx & ->).
  unfold mbind at 1. rewrite Hidx.
  apply hbind_Ok in H as (b1 & h2 & r2 & H1 & H).
  assert (Hfn : exists gs1,
             (if idx <? num_nodes (config v)
              then mutate_function_gene f (config v) (genes v) idx
              else ret (genes v, false)) r1 = Ok (gs1, b1, r2) /\
             represents h2 ind sh (set_genes v gs1)).
  { destruct (idx <? num_nodes (config v)).
    - eapply mutate_function_gene_sim; eassumption.
    - injection H1 as <- <- <-. exists (genes v). split; [reflexivity |].
      eapply represents_same_genes; [eassumption | reflexivity..]. }
  destruct Hfn as (gs1 & Hfn & Hrep1).
  unfold mbind at 1. rewrite Hfn.
  apply hbind_Ok in H as (b2 & h3 & r3 & H2 & H).
  apply (mutate_connection_gene_sim _ _ _ _ _ _ _ _ _ _ Hrep1) in H2
    as (gs2 & Hcon & Hrep2).
  simpl in Hcon. unfold mbind at 1. rewrite Hcon.
  apply (IH _ _ _ _ _ _ _ Hrep2) in H as (gs' & Hloop & Hrep').
  simpl in Hloop. exists gs'. split; [exact Hloop |].
  eapply represents_same_genes; [exact Hrep' | reflexivity..].
Qed.

Lemma represents_has_shape h ind sh v :
  represents h ind sh v -> has_shape h ind sh.
Proof.
  intros (Hg & Ha & Hc & Hl & (bs & Hbs & Hm) & Hlen & Hlena & Hnd & Hst).
  split; [assumption |]. split; [assumption |]. split; [assumption |].
  split; [eauto |]. split.
  - intros g Hin. apply list_elem_of_lookup in Hin as [j Hj].
    pose proof (lookup_lt_Some _ _ _ Hj) as Hlt.
    destruct (lookup_lt_is_Some_2 (s_arrays sh) j) as [a Ha']; [lia |].
    destruct (lookup_lt_is_Some_2 (genes v) j) as [x Hx]; [lia |].
    destruct (Hst _ _ _ _ Hj Ha' Hx) as [Hcg _].
    exists (is_output x), (fnc_idx x), a, (num_inputs x).
    split; [assumption |]. eapply list_elem_of_lookup_2; eassumption.
  - intros a Hin. apply list_elem_of_lookup in Hin as [j Hj].
    pose proof (lookup_lt_Some _ _ _ Hj) as Hlt.
    destruct (lookup_lt_is_Some_2 (s_gens sh) j) as [g Hg']; [lia |].
    destruct (lookup_lt_is_Some_2 (genes v) j) as [x Hx]; [lia |].
    destruct (Hst _ _ _ _ Hg' Hj Hx) as [_ Hca]. eauto.
Qed.

(** [mutate] on the store computes what [mutate] on values computes. *)
Lemma mutate_sim ind sh :
  forall fuel force h r ind' h' r' v,
    represents h ind sh v ->
    Heap.mutate fuel force ind h r = Ok (ind', h', r') ->
    ind' = ind /\
    exists v', mutate fuel force v r = Ok (v', r') /\
               represents h' ind sh v'.
Proof.
  induction fuel as [|f IH]; intros force h r ind' h' r' v Hrep H;
    [discriminate |].
  cbn [Heap.mutate] in H. cbn [mutate].
  pose proof Hrep as (_ & Hact & Hcfg & Hl & (bs & Hbs & Hm) & Hlen & _).
  rewrite Hact in H.
  apply hbind_Ok in H as (ind0 & h0 & r0 & H0 & H).
  injection H0 as <- <- <-.
  unfold is_spawned. rewrite Hbs. simpl. unfold mbind at 1, ret at 1.
  apply hbind_Ok in H as (old_net & h1 & r1 & Hold & H).
  assert (Hold' : r1 = r /\ represents h1 ind sh v /\ (dom h ⊆ dom h1) /\
                  match old_net with
                  | Some o => force = true /\ (o ∉ dom h) /\
                              h1 !! o = Some (Heap.CBools bs)
                  | None => force = false
                  end).
  { destruct force.
    - apply hbind_Ok in Hold as (la & h2 & r2 & Hla & Hold).
      apply (active_ref_sim _ _ _ _ _ _ _ _ Hrep) in Hla as (-> & -> & ->).
      apply hbind_Ok in Hold as (act & h3 & r3 & Hact' & Hold).
      apply (read_bools_sim _ _ _ _ _ _ _ Hm) in Hact' as (-> & -> & ->).
      apply hbind_Ok in Hold as (o & h4 & r4 & Ho & Hold).
      injection Hold as <- <- <-.
      assert (r4 = r) as -> by (unfold Heap.alloc in Ho; now injection Ho).
      apply alloc_Ok in Ho as (Hfresh & -> & Hsub).
      split; [reflexivity |].
      split; [now apply represents_alloc |].
      split; [apply dom_insert_subseteq |].
      split; [reflexivity |]. split; [assumption | apply lookup_insert_eq].
    - injection Hold as <- <- <-.
      split; [reflexivity |]. split; [assumption |]. split; [reflexivity |].
      reflexivity. }
  destruct Hold' as (-> & Hrep1 & Hdom1 & Hold').
  apply hbind_Ok in H as (ls & h2 & r2 & Hls & H).
  pose proof Hrep1 as (Hg1 & _ & _ & Hl1 & _).
  assert (h2 = h1 /\ r2 = r /\ ls = s_gens sh) as (-> & -> & ->).
  { unfold Heap.read_list, Heap.hbind, Heap.read in Hls.
    rewrite Hg1, Hl1 in Hls. injection Hls as <- <- <-. auto. }
  rewrite Hlen in H.
  apply hbind_Ok in H as (cnt & h3 & r3 & Hloop & H).
  pose proof (keeps_mutate_loop ind sh _ _ _ _ _ _ _ _
                (represents_has_shape _ _ _ _ Hrep1) Hloop)
    as (Hsh3 & [Hdom3 Hfr3] & _).
  apply (mutate_loop_sim _ _ _ _ _ _ _ _ _ _ _ Hrep1) in Hloop
    as (gs' & Hloop & Hrep3).
  apply hbind_Ok in H as (u & h4 & r4 & Hchk & H).
  pose proof (keeps_check_active ind sh _ _ _ _ _ _ Hsh3 Hchk)
    as (Hsh4 & [Hdom4 Hfr4] & _).
  apply (check_active_sim _ _ _ _ _ _ _ _ _ Hrep3) in Hchk
    as (-> & v2 & Hchk & Hrep4).
  unfold mutate_pass, mbind at 1. unfold mbind at 1. rewrite Hloop.
  unfold mbind at 1, lift at 1. rewrite Hchk. unfold ret at 1.
  pose proof Hrep4 as (_ & _ & _ & _ & (bs2 & Hbs2 & Hm2) & _).
  rewrite Hbs2, Hbs.
  destruct old_net as [o|].
  - destruct Hold' as (-> & Hfresh & Ho).
    apply hbind_Ok in H as (la & h5 & r5 & Hla & H).
    apply (active_ref_sim _ _ _ _ _ _ _ _ Hrep4) in Hla as (-> & -> & ->).
    apply hbind_Ok in H as (act & h6 & r6 & Hact' & H).
    apply (read_bools_sim _ _ _ _ _ _ _ Hm2) in Hact' as (-> & -> & ->).
    apply hbind_Ok in H as (old & h7 & r7 & Hrd & H).
    assert (Ho4 : h4 !! o = Some (Heap.CBools bs)).
    { assert (Hnfp : o ∉ footprint sh).
      { intros Hin. apply Hfresh.
        eapply footprint_in_dom;
          [apply (represents_has_shape _ _ _ _ Hrep) | exact Hin]. }
      rewrite Hfr4, Hfr3; [exact Ho | | exact Hnfp | | exact Hnfp].
      - eapply elem_of_dom_2; exact Ho.
      - apply Hdom3. eapply elem_of_dom_2; exact Ho. }
    apply (read_bools_sim _ _ _ _ _ _ _ Ho4) in Hrd as (-> & -> & ->).
    destruct (array_equal bs2 bs).
    + apply (IH _ _ _ _ _ _ _ Hrep4) in H as (-> & v' & Hmut & Hrep').
      split; [reflexivity |]. exists v'. split; assumption.
    + injection H as <- <- <-. split; [reflexivity |].
      exists v2. split; [reflexivity | assumption].
  - subst force. injection H as <- <- <-. split; [reflexivity |].
    exists v2. split; [reflexivity | assumption].
Qed.

(** Reading back a represented genotype. *)
Lemma represents_read h ind sh v :
  represents h ind sh v ->
  Heap.genes_at h ind = Some (genes v) /\ Heap.active_at h ind = active v.
Proof.
  intros (Hg & Ha & Hc & Hl & (bs & Hbs & Hm) & Hlen & Hlena & Hnd & Hst).
  split.
  - unfold Heap.genes_at. rewrite Hg, Hl. apply mapM_Some.
    apply Forall2_same_length_lookup. split; [assumption |].
    intros j g x Hgj Hxj.
    pose proof (lookup_lt_Some _ _ _ Hgj) as Hlt.
    destruct (lookup_lt_is_Some_2 (s_arrays sh) j) as [a Haj]; [lia |].
    destruct (Hst _ _ _ _ Hgj Haj Hxj) as [Hcg Hca].
    unfold Heap.gen_at. rewrite Hcg, Hca. now destruct x.
  - unfold Heap.active_at. now rewrite Ha, Hm, Hbs.
Qed.

Lemma represents_weaken (h h' : gmap nat Heap.cell) ind sh v :
  represents h ind sh v -> h ⊆ h' -> represents h' ind sh v.
Proof.
  intros (Hg & Ha & Hc & Hl & (bs & Hbs & Hm) & Hlen & Hlena & Hnd & Hst) Hsub.
  split; [assumption |]. split; [assumption |]. split; [assumption |].
  split; [eapply lookup_weaken; eassumption |].
  split; [exists bs; split; [assumption | eapply lookup_weaken; eassumption] |].
  split; [assumption |]. split; [assumption |]. split; [assumption |].
  intros j g a x Hgj Haj Hxj. destruct (Hst _ _ _ _ Hgj Haj Hxj) as [? ?].
  split; eapply lookup_weaken; eassumption.
Qed.

Lemma copy_gens_rep gs :
  forall (h : gmap nat Heap.cell) r gs' h' r' xs,
    Heap.copy_gens gs h r = Ok (gs', h', r') ->
    mapM (Heap.gen_at h) gs = Some xs ->
    r' = r /\ (h ⊆ h') /\
    exists arrs : list nat,
      length gs' = length xs /\ length arrs = length xs /\ NoDup arrs /\
      (forall a, a ∈ arrs -> a ∉ dom h) /\
      (forall g, g ∈ gs' -> g ∉ dom h) /\
      forall (j : nat) g a x,
        gs' !! j = Some g -> arrs !! j = Some a -> xs !! j = Some x ->
        gene_stored h' g a x.
Proof.
  induction gs as [|g rest IH]; intros h r gs' h' r' xs H Hxs;
    cbn [Heap.copy_gens] in H.
  - injection H as <- <- <-. apply mapM_Some in Hxs.
    apply Forall2_nil_inv_l in Hxs as ->.
    split; [reflexivity |]. split; [reflexivity |].
    exists []. split; [reflexivity |]. split; [reflexivity |].
    split; [constructor |].
    split; [intros a Hin; inversion Hin |].
    split; [intros g Hin; inversion Hin |].
    intros j g a x Hg. discriminate.
  - apply hbind_Ok in H as (g' & h1 & r1 & Hg & H).
    apply hbind_Ok in H as (rest' & h2 & r2 & Hrest & H).
    injection H as <- <- <-.
    apply mapM_Some in Hxs. apply Forall2_cons_inv_l in Hxs
      as (x & xs' & Hx & Hxs' & ->).
    assert (r1 = r) as ->.
    { unfold Heap.copy_gen in Hg.
      apply hbind_Ok in Hg as (gf & ha & ra & Hgf & Hg).
      unfold Heap.gen_at in Hx.
      destruct (h !! g) as [[| | |o f i n]|] eqn:Eg; try discriminate.
      destruct (h !! i) as [[ys| | |]|] eqn:Ei; try discriminate.
      unfold Heap.read_gen, Heap.hbind, Heap.read in Hgf. rewrite Eg in Hgf.
      injection Hgf as <- <- <-. simpl in Hg.
      apply hbind_Ok in Hg as (zs & hb & rb & Hzs & Hg).
      apply (read_ints_sim _ _ _ _ _ _ _ Ei) in Hzs as (-> & -> & ->).
      apply hbind_Ok in Hg as (a' & hc & rc & Ha' & Hg).
      unfold Heap.alloc in Ha', Hg. injection Ha' as _ _ <-.
      now injection Hg as _ _ <-. }
    apply copy_gen_Ok in Hg
      as (Hsub1 & Hfg & o & f & a & n & ys & Hcg & a' & Hcg' & Hfa & Hca' & Hca).
    simpl in Hcg. unfold Heap.gen_at in Hx. rewrite Hcg, Hca in Hx.
    injection Hx as <-.
    apply (IH _ _ _ _ _ xs') in Hrest;
      [| apply mapM_Some; eapply Forall2_impl; [exact Hxs' |];
         intros g0 x0; now apply gen_at_weaken].
    destruct Hrest as (-> & Hsub2 & arrs & Hl1 & Hl2 & Hnd & Hfa2 & Hfg2 & Hst).
    split; [reflexivity |]. split; [etrans; eassumption |].
    exists (a' :: arrs). simpl.
    split; [lia |]. split; [lia |]. split.
    { constructor; [| assumption]. intros Hin. apply (Hfa2 _ Hin).
      eapply elem_of_dom_2; exact Hca'. }
    split.
    { intros a0 Hin. apply elem_of_cons in Hin as [-> | Hin]; [assumption |].
      eapply subseteq_dom_fresh; [exact Hsub1 | now apply Hfa2]. }
    split.
    { intros g0 Hin. apply elem_of_cons in Hin as [-> | Hin]; [assumption |].
      eapply subseteq_dom_fresh; [exact Hsub1 | now apply Hfg2]. }
    intros [|j] g0 a0 x0 Hg0 Ha0 Hx0; simpl in *.
    + injection Hg0 as <-. injection Ha0 as <-. injection Hx0 as <-.
      split; simpl; eapply lookup_weaken; eassumption.
    + eapply Hst; eassumption.
Qed.

(** [clone] builds a second representation of the same value, on objects
    of its own, and leaves the first one in place. *)
Lemma clone_sim p shp (h : gmap nat Heap.cell) r c h1 r1 v :
  represents h p shp v ->
  Heap.clone p h r = Ok (c, h1, r1) ->
  r1 = r /\ (h ⊆ h1) /\ represents h1 p shp v /\
  exists shc, represents h1 c shc v /\
              forall l, l ∈ footprint shc -> l ∉ dom h.
Proof.
  intros Hrep H.
  pose proof (represents_read _ _ _ _ Hrep) as [Hgs Hbs].
  pose proof Hrep as (Hg & Ha & Hc & Hl & (bs & Hbsv & Hm) & Hlen & Hlena & _).
  unfold Heap.clone in H.
  apply hbind_Ok in H as (inst & ha & ra & Hinst & H).
  unfold Heap.new_Individual in Hinst.
  apply hbind_Ok in Hinst as (l0 & ha' & ra' & Hl0 & Hinst).
  injection Hinst as <- -> ->.
  assert (ra = r) as -> by (unfold Heap.alloc in Hl0; now injection Hl0).
  apply alloc_Ok in Hl0 as (_ & _ & Hsub0).
  rewrite Ha in H.
  apply hbind_Ok in H as (la0 & hb & rb & Hret & H).
  injection Hret as <- <- <-.
  apply hbind_Ok in H as (act & hc & rc & Hact & H).
  apply (read_bools_sim _ _ _ _ _ _ _ (lookup_weaken _ _ _ _ Hm Hsub0))
    in Hact as (-> & -> & ->).
  apply hbind_Ok in H as (la' & hd & rd & Hla' & H).
  assert (rd = r) as -> by (unfold Heap.alloc in Hla'; now injection Hla').
  apply alloc_Ok in Hla' as (Hfla' & -> & Hsub1).
  assert (Hsub01 : h ⊆ <[la' := Heap.CBools bs]> ha) by (etrans; eassumption).
  apply hbind_Ok in H as (ls & he & re & Hls & H).
  assert (he = <[la' := Heap.CBools bs]> ha /\ re = r /\ ls = s_gens shp)
    as (-> & -> & ->).
  { unfold Heap.read_list, Heap.hbind, Heap.read in Hls.
    rewrite Hg, (lookup_weaken _ _ _ _ Hl Hsub01) in Hls.
    injection Hls as <- <- <-. auto. }
  apply hbind_Ok in H as (ls' & hf & rf & Hcopy & H).
  unfold Heap.genes_at in Hgs. rewrite Hg, Hl in Hgs.
  apply (copy_gens_rep _ _ _ _ _ _ (genes v)) in Hcopy;
    [| eapply mapM_gen_at_weaken; eassumption].
  destruct Hcopy as (-> & Hsub2 & arrs & Hl1 & Hl2 & Hnd & Hfa & Hfg & Hst).
  apply hbind_Ok in H as (lg' & hg & rg & Hlg' & H).
  assert (rg = r) as -> by (unfold Heap.alloc in Hlg'; now injection Hlg').
  apply alloc_Ok in Hlg' as (Hflg' & -> & Hsub3).
  injection H as <- <- <-.
  assert (Hsub : h ⊆ <[lg' := Heap.CList ls']> hf)
    by (etrans; [exact Hsub01 | etrans; eassumption]).
  split; [reflexivity |]. split; [exact Hsub |].
  split; [eapply represents_weaken; eassumption |].
  exists {| s_list := lg'; s_gens := ls'; s_arrays := arrs; s_mask := la' |}.
  split.
  - split; [reflexivity |]. split; [reflexivity |]. split; [exact Hc |].
    simpl. split; [apply lookup_insert_eq |]. split.
    { exists bs. split; [assumption |].
      eapply lookup_weaken; [| exact Hsub3].
      eapply lookup_weaken; [| exact Hsub2]. apply lookup_insert_eq. }
    split; [assumption |]. split; [assumption |]. split; [assumption |].
    intros j g a x Hgj Haj Hxj.
    destruct (Hst _ _ _ _ Hgj Haj Hxj) as [? ?].
    split; eapply lookup_weaken; eassumption.
  - intros l. unfold footprint. simpl.
    rewrite !elem_of_union, !elem_of_singleton, !elem_of_list_to_set.
    intros [[[-> | ->] | Hin] | Hin].
    + eapply subseteq_dom_fresh; [| exact Hflg'].
      etrans; [exact Hsub01 | exact Hsub2].
    + eapply subseteq_dom_fresh; [exact Hsub0 | exact Hfla'].
    + eapply subseteq_dom_fresh; [exact Hsub01 | now apply Hfg].
    + eapply subseteq_dom_fresh; [exact Hsub01 | now apply Hfa].
Qed.

(** ** Initialisation on the store *)

(** The gene list under construction: the list object [lg] holds the genes
    [gl], stored with the arrays [arrs], for the values [xs]. *)
Definition building (h : gmap nat Heap.cell) (lg : nat)
    (gl arrs : list nat) (xs : list Gen) : Prop :=
  h !! lg = Some (Heap.CList gl) /\
  length gl = length xs /\ length arrs = length xs /\ NoDup arrs /\
  forall (j : nat) g a x,
    gl !! j = Some g -> arrs !! j = Some a -> xs !! j = Some x ->
    gene_stored h g a x.

Lemma alloc_run c (h : gmap nat Heap.cell) r l h' r' :
  Heap.alloc c h r = Ok (l, h', r') ->
  r' = r /\ (l ∉ dom h) /\ h' = <[l := c]> h /\ (h ⊆ h').
Proof.
  intros H. assert (r' = r) by (unfold Heap.alloc in H; now injection H).
  apply alloc_Ok in H. tauto.
Qed.

(** The loop that fills the array of a new gene. *)
Lemma init_inputs_sim a lo hi :
  forall k i (h : gmap nat Heap.cell) r u h' r' ins,
    h !! a = Some (Heap.CInts ins) ->
    Heap.for_range k i
      (fun i _ =>
         Heap.hbind (Heap.hrand (randint 0 (hi - lo))) (fun rv =>
         Heap.hbind (Heap.read_ints a) (fun xs =>
         Heap.hbind (Heap.hlift (py_store xs i (lo + rv))) (fun xs' =>
         Heap.write a (Heap.CInts xs'))))) u h r = Ok (tt, h', r') ->
    exists ins',
      for_range k i
        (fun i ins =>
           mbind (randint 0 (hi - lo)) (fun rv =>
           lift (py_store ins i (lo + rv)))) ins r = Ok (ins', r') /\
      h' = <[a := Heap.CInts ins']> h.
Proof.
  induction k as [|k IH]; intros i h r u h' r' ins Ha H.
  - simpl in H. injection H as _ <- <-. exists ins. split; [reflexivity |].
    symmetry. now apply insert_id.
  - simpl in H. apply hbind_Ok in H as ([] & h1 & r1 & Hbody & H).
    apply hbind_Ok in Hbody as (rv & h2 & r2 & Hrv & Hbody).
    apply hrand_Ok in Hrv as (Hrv & ->).
    apply hbind_Ok in Hbody as (xs & h3 & r3 & Hxs & Hbody).
    apply (read_ints_sim _ _ _ _ _ _ _ Ha) in Hxs as (-> & -> & ->).
    apply hbind_Ok in Hbody as (xs' & h4 & r4 & Hst & Hbody).
    apply hlift_Ok in Hst as (Hst & -> & ->).
    injection Hbody as <- <-.
    apply (IH _ _ _ _ _ _ xs') in H; [| apply lookup_insert_eq].
    destruct H as (ins' & Hloop & ->).
    exists ins'. split.
    + simpl. unfold mbind at 1. unfold mbind at 1. rewrite Hrv.
      unfold lift. rewrite Hst. exact Hloop.
    + apply insert_insert_eq.
Qed.

Lemma building_extend (h h' : gmap nat Heap.cell) lg gl arrs xs g a x :
  building h lg gl arrs xs ->
  (forall l c, h !! l = Some c -> l <> lg -> h' !! l = Some c) ->
  g ∉ dom h -> a ∉ dom h ->
  h' !! lg = Some (Heap.CList (gl ++ [g])) ->
  gene_stored h' g a x ->
  building h' lg (gl ++ [g]) (arrs ++ [a]) (xs ++ [x]).
Proof.
  intros (Hl & Hlen & Hlena & Hnd & Hst) Hold Hfg Hfa Hlg' Hnew.
  split; [assumption |].
  split; [rewrite !length_app; simpl; lia |].
  split; [rewrite !length_app; simpl; lia |].
  split.
  { apply NoDup_app. split; [assumption |]. split; [| apply NoDup_singleton].
    intros a0 Hin Hin'. apply list_elem_of_singleton in Hin' as ->.
    apply list_elem_of_lookup in Hin as [j Hj].
    pose proof (lookup_lt_Some _ _ _ Hj) as Hlt.
    destruct (lookup_lt_is_Some_2 gl j) as [g0 Hg0]; [lia |].
    destruct (lookup_lt_is_Some_2 xs j) as [x0 Hx0]; [lia |].
    destruct (Hst _ _ _ _ Hg0 Hj Hx0) as [_ Hca].
    apply Hfa. eapply elem_of_dom_2; eauto. }
  intros j g0 a0 x0 Hg0 Ha0 Hx0.
  destruct (decide (j < length xs)%nat) as [Hlt | Hge].
  - rewrite lookup_app_l in Hg0 by lia.
    rewrite lookup_app_l in Ha0 by lia.
    rewrite lookup_app_l in Hx0 by lia.
    destruct (Hst _ _ _ _ Hg0 Ha0 Hx0) as [Hcg Hca].
    split; apply Hold; try assumption.
    + intros ->. rewrite Hl in Hcg. discriminate.
    + intros ->. rewrite Hl in Hca. discriminate.
  - rewrite lookup_app_r in Hg0 by lia.
    rewrite lookup_app_r in Ha0 by lia.
    rewrite lookup_app_r in Hx0 by lia.
    apply list_lookup_singleton_Some in Hg0 as [_ <-].
    apply list_lookup_singleton_Some in Ha0 as [_ <-].
    apply list_lookup_singleton_Some in Hx0 as [_ <-].
    assumption.
Qed.

(** One gene: the store builds the gene the value model builds, in two
    objects that did not exist before, and appends it to the list. *)
Lemma init_gene_sim ind lg (h : gmap nat Heap.cell) node r u h' r' gl arrs xs :
  Heap.h_genes ind = lg ->
  building h lg gl arrs xs ->
  Heap.init_gene ind node h r = Ok (u, h', r') ->
  exists g a x,
    init_gene (Heap.h_config ind) node r = Ok (x, r') /\
    building h' lg (gl ++ [g]) (arrs ++ [a]) (xs ++ [x]) /\
    (dom h ⊆ dom h') /\
    (forall l c, h !! l = Some c -> l <> lg -> h' !! l = Some c).
Proof.
  intros Hlg Hb H. unfold Heap.init_gene in H.
  set (cfg := Heap.h_config ind) in *.
  apply hbind_Ok in H as (g & h1 & r1 & Hnew & H).
  (* the new gene: its object, its array of zeros, the value it stands for *)
  assert (Hgene : exists a x0,
             (if node <? num_nodes cfg
              then mbind (randint 0 (num_func_genes cfg)) (fun fi =>
                   mbind (lift (py_index (function_inputs cfg) fi)) (fun ni =>
                   lift (FunctionGen fi (max_inputs cfg) ni)))
              else lift (OutputGen (max_inputs cfg))) r = Ok (x0, r1) /\
             gene_stored h1 g a x0 /\ (h ⊆ h1) /\
             (g ∉ dom h) /\ (a ∉ dom h) /\ g <> a).
  { destruct (node <? num_nodes cfg).
    - apply hbind_Ok in Hnew as (fi & ha & ra & Hfi & Hnew).
      apply hrand_Ok in Hfi as (Hfi & ->).
      apply hbind_Ok in Hnew as (ni & hb & rb & Hni & Hnew).
      apply hlift_Ok in Hni as (Hni & -> & ->).
      unfold Heap.new_FunctionGen in Hnew.
      apply hbind_Ok in Hnew as (z0 & hc & rc & Hz0 & Hnew).
      apply hlift_Ok in Hz0 as (Hz0 & -> & ->).
      apply hbind_Ok in Hnew as (l0 & hd & rd & Hl0 & Hnew).
      apply alloc_run in Hl0 as (-> & Hf0 & -> & Hsub0).
      apply hbind_Ok in Hnew as (z & he & re & Hz & Hnew).
      apply hlift_Ok in Hz as (Hz & -> & ->).
      apply hbind_Ok in Hnew as (a & hf & rf & Ha & Hnew).
      apply alloc_run in Ha as (-> & Hfa & -> & Hsuba).
      apply alloc_run in Hnew as (-> & Hfg & -> & Hsubg).
      exists a, {| is_output := false; fnc_idx := Some fi; inputs := z;
                   num_inputs := ni |}.
      split.
      { unfold mbind. rewrite Hfi. unfold lift at 1. rewrite Hni.
        unfold lift, FunctionGen. rewrite Hz. simpl. reflexivity. }
      assert (g <> a).
      { intros ->. apply Hfg. rewrite dom_insert. set_solver. }
      split.
      { split; simpl; [apply lookup_insert_eq |].
        rewrite lookup_insert_ne by assumption. apply lookup_insert_eq. }
      split; [etrans; [exact Hsub0 | etrans; eassumption] |].
      split.
      { eapply subseteq_dom_fresh; [| exact Hfg]. etrans; eassumption. }
      split; [| assumption].
      eapply subseteq_dom_fresh; [exact Hsub0 | exact Hfa].
    - unfold Heap.new_OutputGen in Hnew.
      apply hbind_Ok in Hnew as (z & he & re & Hz & Hnew).
      apply hlift_Ok in Hz as (Hz & -> & ->).
      apply hbind_Ok in Hnew as (a & hf & rf & Ha & Hnew).
      apply alloc_run in Ha as (-> & Hfa & -> & Hsuba).
      apply alloc_run in Hnew as (-> & Hfg & -> & Hsubg).
      exists a, {| is_output := true; fnc_idx := None; inputs := z;
                   num_inputs := 1 |}.
      split.
      { unfold lift, OutputGen. rewrite Hz. simpl. reflexivity. }
      assert (g <> a).
      { intros ->. apply Hfg. rewrite dom_insert. set_solver. }
      split.
      { split; simpl; [apply lookup_insert_eq |].
        rewrite lookup_insert_ne by assumption. apply lookup_insert_eq. }
      split; [etrans; eassumption |].
      split; [eapply subseteq_dom_fresh; [exact Hsuba | exact Hfg] |].
      split; assumption. }
  destruct Hgene as (a & x0 & Hx0 & [Hcg Hca] & Hsub1 & Hfg & Hfa & Hga).
  apply hbind_Ok in H as ([lo hi] & h2 & r2 & Hrg & H).
  apply hlift_Ok in Hrg as (Hrg & -> & ->).
  apply hbind_Ok in H as (gf & h3 & r3 & Hgf & H).
  apply (read_gen_sim _ _ _ _ _ _ _ _ (conj Hcg Hca)) in Hgf
    as (-> & -> & ->).
  apply hbind_Ok in H as (zs & h4 & r4 & Hzs & H). simpl in Hzs.
  apply (read_ints_sim _ _ _ _ _ _ _ Hca) in Hzs as (-> & -> & ->).
  apply hbind_Ok in H as ([] & h5 & r5 & Hloop & H). simpl in Hloop.
  apply (init_inputs_sim a lo hi _ _ _ _ _ _ _ _ Hca) in Hloop
    as (ins' & Hloop & ->).
  apply hbind_Ok in H as (ls & h6 & r6 & Hls & H).
  pose proof Hb as (Hl & _).
  assert (Hlg_g : lg <> g)
    by (intros ->; apply Hfg; eapply elem_of_dom_2; eauto).
  assert (Hlg_a : lg <> a)
    by (intros ->; apply Hfa; eapply elem_of_dom_2; eauto).
  assert (Hl5 : (<[a := Heap.CInts ins']> h1) !! lg = Some (Heap.CList gl)).
  { rewrite lookup_insert_ne by congruence.
    eapply lookup_weaken; eassumption. }
  assert (h6 = <[a := Heap.CInts ins']> h1 /\ r6 = r5 /\ ls = gl)
    as (-> & -> & ->).
  { unfold Heap.read_list, Heap.hbind, Heap.read in Hls.
    rewrite Hlg, Hl5 in Hls. injection Hls as <- <- <-. auto. }
  injection H as _ <- <-. rewrite Hlg.
  exists g, a, (set_inputs x0 ins').
  split.
  { unfold init_gene. fold cfg. unfold mbind at 1. rewrite Hx0.
    unfold mbind at 1, lift at 1. rewrite Hrg.
    unfold mbind at 1. rewrite Hloop. reflexivity. }
  assert (Hkeep : forall l c, h !! l = Some c -> l <> lg ->
            (<[lg := Heap.CList (gl ++ [g])]>
               (<[a := Heap.CInts ins']> h1)) !! l = Some c).
  { intros l c Hlc Hne.
    rewrite lookup_insert_ne by congruence.
    rewrite lookup_insert_ne
      by (intros <-; apply Hfa; eapply elem_of_dom_2; eauto).
    eapply lookup_weaken; eassumption. }
  split; [| split; [| exact Hkeep]].
  - eapply building_extend; try eassumption.
    + apply lookup_insert_eq.
    + split; simpl.
      * rewrite lookup_insert_ne by congruence.
        rewrite lookup_insert_ne by congruence. exact Hcg.
      * rewrite lookup_insert_ne by congruence. apply lookup_insert_eq.
  - etrans; [apply subseteq_dom; exact Hsub1 |].
    etrans; [apply dom_insert_subseteq |]. apply dom_insert_subseteq.
Qed.

(** The loop of [init_genes]. *)
Lemma init_genes_loop_sim ind lg :
  Heap.h_genes ind = lg ->
  forall k i (h : gmap nat Heap.cell) r u h' r' gl arrs xs,
    building h lg gl arrs xs ->
    Heap.for_range k i (fun node _ => Heap.init_gene ind node) tt h r
      = Ok (u, h', r') ->
    exists gl' arrs' xs',
      for_range k i
        (fun node gs =>
           mbind (init_gene (Heap.h_config ind) node)
                 (fun gene => ret (gs ++ [gene]))) xs r = Ok (xs', r') /\
      building h' lg gl' arrs' xs'.
Proof.
  intros Hlg. induction k as [| k IH]; intros i h r u h' r' gl arrs xs Hb H.
  - injection H as _ <- <-. exists gl, arrs, xs. split; [reflexivity | assumption].
  - cbn [Heap.for_range] in H.
    apply hbind_Ok in H as (u1 & h1 & r1 & Hone & H).
    destruct (init_gene_sim _ _ _ _ _ _ _ _ _ _ _ Hlg Hb Hone)
      as (g & a & x & Hx & Hb1 & _ & _).
    destruct u1.
    destruct (IH _ _ _ _ _ _ _ _ _ Hb1 H) as (gl' & arrs' & xs' & Hrest & Hb').
    exists gl', arrs', xs'. split; [| assumption].
    cbn [for_range]. unfold mbind at 1. unfold mbind at 1. rewrite Hx.
    unfold ret at 1. exact Hrest.
Qed.

(** [init_genes] on an individual whose gene list is a stored list. *)
Lemma init_genes_sim fuel ind (h : gmap nat Heap.cell) r ind' h' r'
    gl arrs v :
  building h (Heap.h_genes ind) gl arrs (genes v) ->
  Heap.h_config ind = config v ->
  Heap.init_genes fuel ind h r = Ok (ind', h', r') ->
  exists sh v',
    init_genes fuel v r = Ok (v', r') /\ represents h' ind' sh v'.
Proof.
  intros Hb Hcfg H. unfold Heap.init_genes in H.
  apply hbind_Ok in H as (u & h1 & r1 & Hloop & H).
  destruct (init_genes_loop_sim ind _ eq_refl _ _ _ _ _ _ _ _ _ _ Hb Hloop)
    as (gl' & arrs' & xs' & Hxs & Hb1).
  pose proof Hb1 as (Hl & Hlen & Hlena & Hnd & Hst).
  apply hbind_Ok in H as (ls & h2 & r2 & Hls & H).
  assert (h2 = h1 /\ r2 = r1 /\ ls = gl') as (-> & -> & ->).
  { unfold Heap.read_list, Heap.hbind, Heap.read in Hls.
    rewrite Hl in Hls. injection Hls as <- <- <-. auto. }
  apply hbind_Ok in H as (la & h3 & r3 & Hla & H).
  apply alloc_run in Hla as (-> & Hfla & -> & Hsub).
  apply hbind_Ok in H as (u2 & h4 & r4 & Hchk & H).
  injection H as <- <- <-.
  set (sh := {| s_list := Heap.h_genes ind; s_gens := gl';
                s_arrays := arrs'; s_mask := la |}).
  set (v0 := set_active (set_genes v xs') (replicate (length xs') false)).
  assert (Hrep : represents
                   (<[la := Heap.CBools (replicate (length gl') false)]> h1)
                   (Heap.set_h_active ind la) sh v0).
  { split; [reflexivity |]. split; [reflexivity |].
    split; [exact Hcfg |].
    assert (Hne : forall l c, h1 !! l = Some c -> la <> l)
      by (intros l c Hlc ->; apply Hfla; eapply elem_of_dom_2; eauto).
    split; [simpl; rewrite lookup_insert_ne by eauto; exact Hl |].
    split.
    { exists (replicate (length xs') false). split; [reflexivity |].
      simpl. rewrite Hlen. apply lookup_insert_eq. }
    split; [exact Hlen |]. split; [exact Hlena |]. split; [exact Hnd |].
    intros j g a x Hg Ha Hx. simpl in Hg, Ha, Hx.
    destruct (Hst _ _ _ _ Hg Ha Hx) as [Hcg Hca].
    split; rewrite lookup_insert_ne by eauto; assumption. }
  destruct (check_active_sim _ _ _ _ _ _ _ _ _ Hrep Hchk)
    as (-> & v' & Hv' & Hrep').
  exists sh, v'. split; [| exact Hrep'].
  unfold init_genes. rewrite <- Hcfg. unfold mbind at 1. rewrite Hxs.
  unfold lift. fold v0. rewrite Hv'. reflexivity.
Qed.

(** [spawn] on the store builds a representation of what [spawn] on values
    answers, with the same draws. *)
Lemma spawn_sim fuel cfg (h : gmap nat Heap.cell) r p h' r' :
  Heap.spawn fuel cfg h r = Ok (p, h', r') ->
  exists sh v, spawn fuel cfg r = Ok (v, r') /\ represents h' p sh v.
Proof.
  intros H. unfold Heap.spawn in H.
  apply hbind_Ok in H as (ind & h1 & r1 & Hnew & H).
  unfold Heap.new_Individual in Hnew.
  apply hbind_Ok in Hnew as (lg & h0 & r0 & Hlg & Hnew).
  apply alloc_run in Hlg as (-> & Hf & -> & Hsub).
  injection Hnew as <- <- <-.
  unfold spawn.
  match type of H with
  | Heap.init_genes _ ?i _ _ = _ =>
      eapply (init_genes_sim fuel i _ _ _ _ _ [] [] (new_Individual cfg));
        [| reflexivity | exact H]
  end.
  split; [apply lookup_insert_eq |].
  split; [reflexivity |]. split; [reflexivity |].
  split; [apply NoDup_nil_2 |].
  intros j g a x Hg. rewrite lookup_nil in Hg. discriminate.
Qed.

(** A representation only depends on the objects of its footprint. *)
Lemma represents_agree (h h' : gmap nat Heap.cell) ind sh v :
  represents h ind sh v ->
  (forall l, l ∈ footprint sh -> h' !! l = h !! l) ->
  represents h' ind sh v.
Proof.
  intros (Hg & Ha & Hc & Hl & (bs & Hbs & Hm) & Hlen & Hlena & Hnd & Hst) Hag.
  assert (Hin_g : forall j g, s_gens sh !! j = Some g -> g ∈ footprint sh).
  { intros j g Hj. unfold footprint.
    rewrite !elem_of_union, !elem_of_list_to_set. left. right.
    eapply list_elem_of_lookup_2; eassumption. }
  assert (Hin_a : forall j a, s_arrays sh !! j = Some a -> a ∈ footprint sh).
  { intros j a Hj. unfold footprint.
    rewrite !elem_of_union, !elem_of_list_to_set. right.
    eapply list_elem_of_lookup_2; eassumption. }
  split; [assumption |]. split; [assumption |]. split; [assumption |].
  split; [rewrite Hag; [assumption | unfold footprint; set_solver] |].
  split.
  { exists bs. split; [assumption |].
    rewrite Hag; [assumption | unfold footprint; set_solver]. }
  split; [assumption |]. split; [assumption |]. split; [assumption |].
  intros j g a x Hgj Haj Hxj. destruct (Hst _ _ _ _ Hgj Haj Hxj) as [Hcg Hca].
  split; (rewrite Hag; [assumption | eauto]).
Qed.

(** ** The value model is what the store computes *)

(** X20: a parent spawned on the store (the object graph of lists, [Gen]
    objects and numpy arrays), cloned, and the clone mutated: with the
    same draws the value model spawns the parent's value, [clone] answers
    it unchanged, and [mutate] answers the value the clone then holds,
    while the parent still holds its own. *)
Theorem store_refines_values fuel cfg fuel' force
    (h : gmap nat Heap.cell) r p h1 r1 c h2 r2 c' h3 r3 :
  Heap.spawn fuel cfg h r = Ok (p, h1, r1) ->
  Heap.clone p h1 r1 = Ok (c, h2, r2) ->
  Heap.mutate fuel' force c h2 r2 = Ok (c', h3, r3) ->
  exists shp shc vp vc,
    spawn fuel cfg r = Ok (vp, r1) /\
    clone vp = Ok vp /\ r2 = r1 /\
    mutate fuel' force vp r2 = Ok (vc, r3) /\ c' = c /\
    represents h3 p shp vp /\ represents h3 c shc vc.
Proof.
  intros Hsp Hcl Hmu.
  destruct (spawn_sim _ _ _ _ _ _ _ Hsp) as (shp & vp & Hvp & Hrp).
  destruct (clone_sim _ _ _ _ _ _ _ _ Hrp Hcl)
    as (-> & Hsub & Hrp2 & shc & Hrc & Hnew).
  destruct (mutate_sim _ _ _ _ _ _ _ _ _ _ Hrc Hmu)
    as (-> & vc & Hvc & Hrc3).
  destruct (keeps_mutate c shc fuel' force _ _ _ _ _
              (represents_has_shape _ _ _ _ Hrc) Hmu) as (_ & [_ Hfr] & _).
  exists shp, shc, vp, vc.
  split; [assumption |]. split.
  { unfold clone. destruct Hrp as (_ & _ & _ & _ & (bs & -> & _) & _).
    reflexivity. }
  split; [reflexivity |]. split; [assumption |]. split; [reflexivity |].
  split; [| assumption].
  apply (represents_agree h2); [assumption |].
  intros l Hl.
  pose proof (footprint_in_dom _ _ _ _ (represents_has_shape _ _ _ _ Hrp) Hl)
    as Hd1.
  apply Hfr.
  - eapply subseteq_dom; eassumption.
  - intros Hc. exact (Hnew _ Hc Hd1).
Qed.

(** On the sample genotype: the clone mutated on the store holds the value
    [mutate] answers on the parent's value, and the parent holds its own. *)
Definition force_mutated_clone :=
  outcome (Heap.mutate 20 true stored_clone.1.1 stored_clone.1.2
             stored_clone.2).

Lemma store_refines_values_demo :
  exists vc,
    mutate 20 true demo_parent stored_clone.2
      = Ok (vc, force_mutated_clone.2) /\
    Heap.genes_at force_mutated_clone.1.2 stored_parent.1.1
      = Some (genes demo_parent) /\
    Heap.genes_at force_mutated_clone.1.2 stored_clone.1.1
      = Some (genes vc) /\
    genes vc <> genes demo_parent.
Proof.
  destruct (store_refines_values 10 demo_config 20 true ∅ demo_rng
              stored_parent.1.1 stored_parent.1.2 stored_parent.2
              stored_clone.1.1 stored_clone.1.2 stored_clone.2
              force_mutated_clone.1.1 force_mutated_clone.1.2
              force_mutated_clone.2)
    as (shp & shc & vp & vc & Hsp & _ & _ & Hmu & _ & Hrp & Hrc);
    [vm_compute; reflexivity.. |].
  assert (Hvp : demo_parent = vp).
  { rewrite demo_spawn in Hsp.
    exact (f_equal (fun x => match x with Ok (v, _) => v | _ => vp end) Hsp). }
  destruct Hvp.
  exists vc. split; [exact Hmu |].
  split; [apply (represents_read _ _ _ _ Hrp) |].
  split; [apply (represents_read _ _ _ _ Hrc) |].
  vm_compute in Hmu.
  apply (f_equal (fun x => match x with Ok (v, _) => genes v | _ => [] end))
    in Hmu.
  cbv beta iota in Hmu. rewrite <- Hmu. vm_compute. discriminate.
Defined.

(** * Further properties of the genotype

    ** The active mask is the set of nodes the outputs reach *)

(** A [for] loop keeps an invariant that its body keeps inside the range. *)
Lemma for_range_res_inv_in {St} (P : Z -> St -> Prop)
    (body : Z -> St -> result St) :
  forall k i,
    (forall j s s', i <= j < i + Z.of_nat k -> P j s -> body j s = Ok s' ->
                    P (j + 1) s') ->
    forall s s',
      P i s -> for_range_res body k i s = Ok s' -> P (i + Z.of_nat k) s'.
Proof.
  induction k as [|k IH]; simpl; intros i Hstep s s' HP H.
  - inv_run. now rewrite Z.add_0_r.
  - inv_run. replace (i + Z.of_nat (S k)) with (i + 1 + Z.of_nat k) by lia.
    eapply IH; [| | eassumption].
    + intros j t t' Hj. apply Hstep. lia.
    + eapply Hstep; [| eassumption..]. lia.
Qed.

(** [reachable cfg gs n]: [n] is an output node, or the node named by a
    used slot (one below [num_inputs]) of a reachable node; the values
    below [num_input] name external inputs. *)
Inductive reachable (cfg : CgpConfig) (gs : list Gen) : Z -> Prop :=
| reach_output k :
    0 <= k < num_output cfg -> reachable cfg gs (num_nodes cfg + k)
| reach_slot n g i c :
    reachable cfg gs n -> gs !! Z.to_nat n = Some g ->
    0 <= i < num_inputs g -> inputs g !! Z.to_nat i = Some c ->
    num_input cfg <= c ->
    reachable cfg gs (c - num_input cfg).

Lemma reachable_nonneg cfg gs n :
  0 <= num_nodes cfg -> reachable cfg gs n -> 0 <= n.
Proof. intros Hnn H. destruct H; lia. Qed.

(** Every node that a used slot of node [j] names is marked in [a]. *)
Definition feeds_marked (cfg : CgpConfig) (gs : list Gen) (a : list bool)
    (j : nat) : Prop :=
  forall g i c,
    gs !! j = Some g -> 0 <= i < num_inputs g ->
    inputs g !! Z.to_nat i = Some c -> num_input cfg <= c ->
    a !! Z.to_nat (c - num_input cfg) = Some true.

Lemma feeds_marked_mono cfg gs (a a' : list bool) j :
  (forall k, a !! k = Some true -> a' !! k = Some true) ->
  feeds_marked cfg gs a j -> feeds_marked cfg gs a' j.
Proof. intros Hm Hf g i c Hg Hi Hc Hge. eauto. Qed.

Lemma py_index_nonneg {A} (l : list A) i x :
  0 <= i -> py_index l i = Ok x -> l !! Z.to_nat i = Some x.
Proof.
  intros Hi H. apply py_index_Ok in H as (j & Hj & Hx).
  apply py_pos_nonneg in Hj as [-> _]; assumption.
Qed.

Lemma py_store_nonneg {A} (l : list A) i x l' :
  0 <= i -> py_store l i x = Ok l' ->
  l' = <[Z.to_nat i := x]> l /\ (Z.to_nat i < length l)%nat.
Proof.
  intros Hi H. apply py_store_Ok in H as (j & Hj & ->).
  apply py_pos_nonneg in Hj as [-> ?]; auto.
Qed.

(** What a walk from [node] adds to the mask: it keeps what was marked,
    marks [node], and every node it newly marks is reachable if [node] is
    and has all the nodes it uses marked. *)
Lemma walk_to_out_marks cfg gs :
  forall fuel node act act',
    0 <= node ->
    walk_to_out fuel cfg gs node act = Ok act' ->
    (forall j, act !! j = Some true -> act' !! j = Some true) /\
    act' !! Z.to_nat node = Some true /\
    (forall j, act' !! j = Some true ->
       act !! j = Some true \/
       (feeds_marked cfg gs act' j /\
        (reachable cfg gs node -> reachable cfg gs (Z.of_nat j)))).
Proof.
  induction fuel as [|f IH]; simpl; intros node act act' Hnode H;
    [discriminate |].
  apply rbind_Ok in H as (b & Hb & H).
  apply (py_index_nonneg _ _ _ Hnode) in Hb.
  destruct b; simpl in H.
  { injection H as <-. auto. }
  apply rbind_Ok in H as (act1 & Hst & H).
  apply (py_store_nonneg _ _ _ _ Hnode) in Hst as [-> Hlt].
  apply rbind_Ok in H as (g & Hg & H).
  apply (py_index_nonneg _ _ _ Hnode) in Hg.
  set (n := Z.to_nat node) in *.
  set (act1 := <[n := true]> act) in *.
  pose (Q := fun (i : Z) (a : list bool) =>
    0 <= i /\
    (forall j, act1 !! j = Some true -> a !! j = Some true) /\
    (forall j, a !! j = Some true ->
       act1 !! j = Some true \/
       (feeds_marked cfg gs a j /\
        (reachable cfg gs node -> reachable cfg gs (Z.of_nat j)))) /\
    (forall i' c, 0 <= i' < i -> inputs g !! Z.to_nat i' = Some c ->
       num_input cfg <= c ->
       a !! Z.to_nat (c - num_input cfg) = Some true)).
  assert (HQ : Q (0 + Z.of_nat (Z.to_nat (num_inputs g))) act').
  { eapply (for_range_res_inv_in Q); [| | exact H].
    - clear H. intros i a a' Hi (Hi0 & Hmono & Hnew & Hdone) Hbody.
      apply rbind_Ok in Hbody as (c & Hc & Hbody).
      apply (py_index_nonneg _ _ _ Hi0) in Hc.
      destruct (Z.geb_spec c (num_input cfg)) as [Hge | Hlt'].
      + apply IH in Hbody as (Hm1 & Hmark & Hnew1); [| lia].
        split; [lia |]. split; [auto |]. split.
        * intros j Hj. destruct (Hnew1 j Hj) as [Hold | [Hf Hr]].
          -- destruct (Hnew j Hold) as [? | [Hf Hr]]; [auto |].
             right. split; [| assumption].
             eapply feeds_marked_mono; eassumption.
          -- right. split; [assumption |]. intros Hrn. apply Hr.
             eapply reach_slot; [exact Hrn | exact Hg | | exact Hc | lia].
             lia.
        * intros i' c' Hi' Hc' Hge'.
          destruct (Z.eq_dec i' i) as [-> |].
          -- rewrite Hc in Hc'. injection Hc' as <-. exact Hmark.
          -- apply Hm1. eapply Hdone; [| eassumption..]. lia.
      + injection Hbody as <-.
        split; [lia |]. split; [assumption |]. split; [assumption |].
        intros i' c' Hi' Hc' Hge'.
        destruct (Z.eq_dec i' i) as [-> |].
        * rewrite Hc in Hc'. injection Hc' as <-. lia.
        * eapply Hdone; [| eassumption..]. lia.
    - split; [lia |]. split; [auto |]. split; [auto |]. intros; lia. }
  destruct HQ as (_ & Hmono & Hnew & Hdone).
  assert (Hn : act1 !! n = Some true)
    by (unfold act1; apply list_lookup_insert_eq; assumption).
  split.
  { intros j Hj. apply Hmono. unfold act1.
    destruct (decide (n = j)) as [<- | Hne]; [assumption |].
    now rewrite list_lookup_insert_ne. }
  split; [auto |].
  intros j Hj. destruct (Hnew j Hj) as [Hold | ?]; [| auto].
  destruct (decide (n = j)) as [<- | Hne].
  - right. split; [| unfold n; rewrite Z2Nat.id by lia; auto].
    intros g' i c Hg' Hi Hc Hge. rewrite Hg in Hg'. injection Hg' as <-.
    eapply Hdone; [| eassumption..]. lia.
  - left. unfold act1 in Hold. now rewrite list_lookup_insert_ne in Hold.
Qed.

(** [check_active] marks exactly the reachable nodes. *)
Lemma check_active_mask fuel ind ind' :
  0 <= num_nodes (config ind) ->
  check_active fuel ind = Ok ind' ->
  exists a0 a,
    active ind = Some a0 /\ ind' = set_active ind a /\
    length a = length a0 /\
    forall j : nat,
      a !! j = Some true <-> reachable (config ind) (genes ind) (Z.of_nat j).
Proof.
  intros Hnn H.
  destruct (check_active_frame _ _ _ H) as (a0 & a & Ha0 & -> & Hlen).
  exists a0, a. split; [assumption |]. split; [reflexivity |].
  split; [assumption |].
  unfold check_active in H. rewrite Ha0 in H.
  apply rbind_Ok in H as (a1 & Hrun & H). injection H as ->.
  set (cfg := config ind) in *. set (gs := genes ind) in *.
  pose (Q := fun (k : Z) (m : list bool) =>
    0 <= k /\
    (forall j, m !! j = Some true ->
       feeds_marked cfg gs m j /\ reachable cfg gs (Z.of_nat j)) /\
    (forall k', 0 <= k' < k ->
       m !! Z.to_nat (num_nodes cfg + k') = Some true)).
  assert (HQ : Q (0 + Z.of_nat (Z.to_nat (num_output cfg))) a).
  { eapply (for_range_res_inv_in Q); [| | exact Hrun].
    - intros k m m' Hk (Hk0 & Htrue & Hout) Hbody.
      apply walk_to_out_marks in Hbody as (Hmono & Hmark & Hnew); [| lia].
      split; [lia |]. split.
      + intros j Hj. destruct (Hnew j Hj) as [Hold | [Hf Hr]].
        * destruct (Htrue j Hold) as [Hf Hr]. split; [| assumption].
          eapply feeds_marked_mono; eassumption.
        * split; [assumption |]. apply Hr. apply reach_output. lia.
      + intros k' Hk'. destruct (Z.eq_dec k' k) as [-> |]; [assumption |].
        apply Hmono, Hout. lia.
    - split; [lia |]. split; [| intros; lia].
      intros j Hj. apply lookup_replicate in Hj as [? _]. discriminate. }
  destruct HQ as (_ & Htrue & Hout).
  intros j. split; [intros Hj; apply Htrue; assumption |].
  intros Hr.
  assert (Hall : forall n, reachable cfg gs n ->
                   a !! Z.to_nat n = Some true).
  { clear j Hr. intros n Hr. induction Hr as [k Hk | n g i c Hr IH Hg Hi Hc Hge].
    - apply Hout. lia.
    - destruct (Htrue _ IH) as [Hf _]. eapply Hf; eassumption. }
  specialize (Hall _ Hr). now rewrite Nat2Z.id in Hall.
Qed.

(** The mask of [ind] has one entry per gene and marks exactly the nodes
    its outputs reach. *)
Definition mask_in_sync (ind : Individual) : Prop :=
  exists a,
    active ind = Some a /\ length a = length (genes ind) /\
    forall j : nat,
      a !! j = Some true <-> reachable (config ind) (genes ind) (Z.of_nat j).

Lemma init_genes_in_sync fuel ind r ind' r' :
  0 <= num_nodes (config ind) ->
  init_genes fuel ind r = Ok (ind', r') ->
  config ind' = config ind /\ mask_in_sync ind'.
Proof.
  intros Hnn H. unfold init_genes in H.
  apply mbind_Ok in H as (gs & r1 & _ & H).
  apply lift_Ok in H as [H ->].
  apply check_active_mask in H as (a0 & a & Ha0 & -> & Hlen & Hiff);
    [| assumption].
  simpl in *. injection Ha0 as <-. rewrite length_replicate in Hlen.
  split; [reflexivity |]. exists a. simpl. auto.
Qed.

Lemma mutate_pass_in_sync fuel ind r ind' cnt r' :
  0 <= num_nodes (config ind) ->
  (forall a0, active ind = Some a0 -> length a0 = length (genes ind)) ->
  mutate_pass fuel ind r = Ok (ind', cnt, r') ->
  config ind' = config ind /\ mask_in_sync ind'.
Proof.
  intros Hnn Hlen0 H. unfold mutate_pass in H.
  apply mbind_Ok in H as ([gs cnt0] & r1 & Hloop & H).
  apply mbind_Ok in H as (ind1 & r2 & Hchk & H).
  apply ret_Ok in H as [H ->]. injection H as -> ->.
  apply lift_Ok in Hchk as [Hchk ->].
  apply mutate_loop_step in Hloop as [Hlen _].
  apply check_active_mask in Hchk as (a0 & a & Ha0 & -> & Hla & Hiff);
    [| assumption].
  simpl in *. split; [reflexivity |]. exists a. simpl.
  split; [reflexivity |]. split; [| assumption].
  rewrite Hla, (Hlen0 _ Ha0). congruence.
Qed.

Lemma mutate_in_sync :
  forall fuel force ind r ind' r',
    0 <= num_nodes (config ind) ->
    (forall a0, active ind = Some a0 -> length a0 = length (genes ind)) ->
    mutate fuel force ind r = Ok (ind', r') ->
    config ind' = config ind /\ mask_in_sync ind'.
Proof.
  induction fuel as [|f IH]; simpl; intros force ind r ind' r' Hnn Hlen H;
    [discriminate |].
  apply mbind_Ok in H as (ind0 & r0 & H0 & H).
  assert (Hind0 : config ind0 = config ind /\
                  forall a0, active ind0 = Some a0 ->
                             length a0 = length (genes ind0)).
  { destruct (is_spawned ind); simpl in H0.
    - apply ret_Ok in H0 as [-> _]. auto.
    - apply init_genes_in_sync in H0 as (Hc & a & Ha & Hl & _);
        [| assumption].
      split; [assumption |]. intros a0 Ha0. congruence. }
  destruct Hind0 as [Hc0 Hlen0].
  apply mbind_Ok in H as ([ind1 cnt] & r1 & H1 & H).
  apply mutate_pass_in_sync in H1 as [Hc1 Hsync]; [| congruence | assumption].
  assert (Hdone : config ind1 = config ind /\ mask_in_sync ind1)
    by (split; [congruence | assumption]).
  destruct force; [| apply ret_Ok in H as [-> _]; assumption].
  destruct (active ind1) as [a|] eqn:Ea; [| inv_run].
  destruct (active ind0) as [o|]; [| inv_run].
  destruct (array_equal a o); [| apply ret_Ok in H as [-> _]; assumption].
  apply IH in H as [Hc Hs].
  - split; [congruence | assumption].
  - congruence.
  - destruct Hsync as (a' & Ha' & Hl' & _). intros a0 Ha0. congruence.
Qed.

(** X1: a call of [check_active] that returns leaves the genes as they
    are and a mask that marks exactly the nodes reachable from the output
    nodes through the used slots (those below [num_inputs]) of reachable
    nodes; the output nodes themselves are marked. *)
Theorem check_active_marks_reachable fuel ind ind' :
  0 <= num_nodes (config ind) ->
  check_active fuel ind = Ok ind' ->
  exists a,
    active ind' = Some a /\ genes ind' = genes ind /\
    config ind' = config ind /\
    (forall j : nat,
        a !! j = Some true
        <-> reachable (config ind) (genes ind) (Z.of_nat j)) /\
    (forall k, 0 <= k < num_output (config ind) ->
               a !! Z.to_nat (num_nodes (config ind) + k) = Some true).
Proof.
  intros Hnn H.
  apply check_active_mask in H as (a0 & a & _ & -> & _ & Hiff);
    [| assumption].
  exists a. simpl. repeat split; try apply Hiff.
  intros k Hk.
  rewrite <- (Z2Nat.id (num_nodes (config ind) + k)) at 1 by lia.
  rewrite Nat2Z.id. apply Hiff. rewrite Z2Nat.id by lia.
  now apply reach_output.
Qed.

Lemma check_active_marks_reachable_witness :
  exists a,
    active demo_parent = Some a /\
    (forall j : nat,
        a !! j = Some true
        <-> reachable demo_config (genes demo_parent) (Z.of_nat j)) /\
    a !! 6%nat = Some true.
Proof.
  destruct (check_active_marks_reachable 10%nat demo_parent demo_parent)
    as (a & Ha & _ & _ & Hiff & Hout);
    [vm_compute; discriminate | vm_compute; reflexivity |].
  exists a. split; [exact Ha |]. split; [exact Hiff |].
  apply (Hout 0). vm_compute. split; [discriminate | reflexivity].
Defined.

(** X2: the genotype [spawn] answers, and the genotype [mutate] leaves
    behind when it returns, carry a mask with one entry per gene that
    marks exactly the nodes reachable in their (new) genes: the phenotype
    an evaluator reads off [active] is never stale. *)
Theorem spawn_and_mutate_keep_mask_in_sync :
  (forall fuel cfg r ind r',
      0 <= num_nodes cfg ->
      spawn fuel cfg r = Ok (ind, r') ->
      config ind = cfg /\ mask_in_sync ind) /\
  (forall fuel force ind r ind' r',
      0 <= num_nodes (config ind) ->
      (forall a0, active ind = Some a0 -> length a0 = length (genes ind)) ->
      mutate fuel force ind r = Ok (ind', r') ->
      config ind' = config ind /\ mask_in_sync ind').
Proof.
  split.
  - intros fuel cfg r ind r' Hnn H. unfold spawn in H.
    now apply init_genes_in_sync in H.
  - apply mutate_in_sync.
Qed.

Lemma spawn_and_mutate_keep_mask_in_sync_witness :
  mask_in_sync demo_parent /\
  exists ind' r',
    mutate 20 true demo_parent {| tape := demo_tape; pos := 20 |}
      = Ok (ind', r') /\
    mask_in_sync ind'.
Proof.
  pose proof (proj1 spawn_and_mutate_keep_mask_in_sync 10%nat demo_config
                demo_rng demo_parent _ ltac:(vm_compute; discriminate)
                demo_spawn) as [_ Hsync].
  split; [exact Hsync |].
  destruct (mutate 20 true demo_parent {| tape := demo_tape; pos := 20 |})
    as [[ind' r']| |] eqn:E; [| vm_compute in E; discriminate..].
  exists ind', r'. split; [reflexivity |].
  eapply (proj2 spawn_and_mutate_keep_mask_in_sync 20%nat true demo_parent);
    [vm_compute; discriminate | | exact E].
  intros a0 [= <-]. reflexivity.
Defined.

(** X4: [check_active] only reads the length of the mask it is given, so
    a second call changes nothing. *)
Theorem check_active_idempotent fuel ind ind' :
  check_active fuel ind = Ok ind' -> check_active fuel ind' = Ok ind'.
Proof.
  intros H.
  destruct (check_active_frame _ _ _ H) as (a0 & a & Ha0 & -> & Hlen).
  unfold check_active in *. rewrite Ha0 in H. simpl.
  rewrite Hlen.
  apply rbind_Ok in H as (a1 & Hrun & H). rewrite Hrun. simpl.
  injection H as ->. reflexivity.
Qed.

Lemma check_active_idempotent_witness :
  check_active 10 demo_parent = Ok demo_parent.
Proof.
  apply (check_active_idempotent 10%nat demo_parent).
  vm_compute. reflexivity.
Defined.


(** ** Every gene fits its function *)

(** The gene at position [j]: its array has [max_inputs] slots; below
    [num_nodes] it is a function gene whose [fnc_idx] is an index of the
    function set and whose [num_inputs] is the arity of that function;
    from [num_nodes] on it is an output gene with one used slot. *)
Definition gene_ok (cfg : CgpConfig) (j : nat) (g : Gen) : Prop :=
  length (inputs g) = Z.to_nat (max_inputs cfg) /\
  if Z.of_nat j <? num_nodes cfg
  then is_output g = false /\
       exists fi, fnc_idx g = Some fi /\ 0 <= fi < num_func_genes cfg /\
                  function_inputs cfg !! Z.to_nat fi = Some (num_inputs g)
  else is_output g = true /\ fnc_idx g = None /\ num_inputs g = 1.

Definition genes_ok (cfg : CgpConfig) (gs : list Gen) : Prop :=
  forall (j : nat) g, gs !! j = Some g -> gene_ok cfg j g.

Lemma init_gene_ok cfg (j : nat) r g r' :
  init_gene cfg (Z.of_nat j) r = Ok (g, r') -> gene_ok cfg j g.
Proof.
  unfold init_gene. intros H.
  apply mbind_Ok in H as (g0 & r0 & Hg0 & H).
  apply mbind_Ok in H as ([lo hi] & r1 & _ & H).
  apply mbind_Ok in H as (ins & r2 & Hloop & H).
  apply ret_Ok in H as [-> _].
  assert (Hlen : length ins = length (inputs g0)).
  { apply (for_range_inv (fun _ l => length l = length (inputs g0)))
      in Hloop; [assumption | | reflexivity].
    intros i s ra s' rb Hs Hb. inv_run.
    apply py_store_length in Hb. congruence. }
  unfold gene_ok. simpl. rewrite Hlen.
  destruct (Z.of_nat j <? num_nodes cfg).
  - apply mbind_Ok in Hg0 as (fi & ra & Hfi & Hg0).
    apply randint_Ok in Hfi as (Hfi & _ & _).
    apply mbind_Ok in Hg0 as (ni & rb & Hni & Hg0).
    apply lift_Ok in Hni as [Hni _]. apply lift_Ok in Hg0 as [Hg0 _].
    apply py_index_nonneg in Hni; [| lia].
    unfold FunctionGen in Hg0.
    apply rbind_Ok in Hg0 as (z0 & _ & Hg0).
    apply rbind_Ok in Hg0 as (z & Hz & Hg0). injection Hg0 as <-.
    apply np_zeros_Ok in Hz as [_ ->]. simpl.
    split; [apply length_replicate |]. split; [reflexivity |].
    exists fi. split; [reflexivity |]. split; [lia | assumption].
  - apply lift_Ok in Hg0 as [Hg0 _]. unfold OutputGen in Hg0.
    apply rbind_Ok in Hg0 as (z & Hz & Hg0). injection Hg0 as <-.
    apply np_zeros_Ok in Hz as [_ ->]. simpl.
    split; [apply length_replicate | auto].
Qed.

Lemma init_genes_ok fuel ind r ind' r' :
  genes ind = [] ->
  init_genes fuel ind r = Ok (ind', r') ->
  genes_ok (config ind) (genes ind').
Proof.
  intros Hnil H j g Hj.
  destruct (init_genes_made _ _ _ _ _ Hnil H j g Hj) as (r0 & r1 & Hg).
  eapply init_gene_ok; eassumption.
Qed.

Lemma resample_fnc_range fuel cfg cur fi r fi' r' :
  0 <= fi < num_func_genes cfg ->
  resample_fnc fuel cfg cur fi r = Ok (fi', r') ->
  0 <= fi' < num_func_genes cfg.
Proof.
  revert fi r. induction fuel as [|f IH]; simpl; intros fi r Hfi H.
  - destruct (fi =? cur); inv_run. assumption.
  - destruct (fi =? cur); inv_run; [| assumption].
    apply randint_Ok in Hrun as (Hv & _ & _). eauto.
Qed.

Lemma genes_ok_insert cfg gs (p : nat) g' :
  genes_ok cfg gs -> gene_ok cfg p g' -> genes_ok cfg (<[p := g']> gs).
Proof.
  intros Hok Hg j g Hj. destruct (decide (j = p)) as [-> | Hne].
  - apply list_lookup_insert_Some in Hj as [(_ & <- & _) | [? _]];
      [assumption | congruence].
  - rewrite list_lookup_insert_ne in Hj by congruence. auto.
Qed.

Lemma mutate_function_gene_ok fuel cfg gs idx r gs' b r' :
  0 <= idx < num_nodes cfg -> genes_ok cfg gs ->
  mutate_function_gene fuel cfg gs idx r = Ok (gs', b, r') ->
  genes_ok cfg gs'.
Proof.
  intros Hidx Hok H. unfold mutate_function_gene in H.
  apply mbind_Ok in H as (fi0 & r0 & Hfi0 & H).
  apply randint_Ok in Hfi0 as (Hfi0 & _ & _).
  apply mbind_Ok in H as (g & r1 & Hg & H). apply lift_Ok in Hg as [Hg ->].
  apply mbind_Ok in H as (cur & r2 & _ & H).
  apply mbind_Ok in H as (fi & r3 & Hfi & H).
  apply resample_fnc_range in Hfi; [| assumption].
  apply mbind_Ok in H as (ni & r4 & Hni & H).
  apply lift_Ok in Hni as [Hni ->].
  apply py_index_nonneg in Hni; [| lia].
  apply mbind_Ok in H as (gs1 & r5 & Hst & H).
  apply lift_Ok in Hst as [Hst ->]. apply ret_Ok in H as [H ->]. injection H as -> ->.
  apply py_index_nonneg in Hg; [| lia].
  apply py_store_nonneg in Hst as [-> _]; [| lia].
  apply genes_ok_insert; [assumption |].
  destruct (Hok _ _ Hg) as [Hlen Hkind].
  unfold gene_ok. simpl. split; [assumption |].
  rewrite Z2Nat.id in * by lia.
  destruct (Z.ltb_spec idx (num_nodes cfg)); [| lia].
  split; [tauto |]. exists fi. auto.
Qed.

Lemma mutate_connection_gene_ok fuel cfg gs idx r gs' b r' :
  0 <= idx -> genes_ok cfg gs ->
  mutate_connection_gene fuel cfg gs idx r = Ok (gs', b, r') ->
  genes_ok cfg gs'.
Proof.
  intros Hidx Hok H. unfold mutate_connection_gene in H.
  apply mbind_Ok in H as ([lo hi] & r0 & _ & H).
  apply mbind_Ok in H as (g & r1 & Hg & H). apply lift_Ok in Hg as [Hg ->].
  apply mbind_Ok in H as ([g' c] & r2 & Hsl & H).
  apply mbind_Ok in H as (gs1 & r3 & Hst & H).
  apply lift_Ok in Hst as [Hst ->]. apply ret_Ok in H as [H ->]. injection H as -> ->.
  apply py_index_nonneg in Hg; [| lia].
  apply py_store_nonneg in Hst as [-> _]; [| lia].
  apply genes_ok_insert; [assumption |].
  pose proof (Hok _ _ Hg) as Hgok.
  apply mutate_slots_spec in Hsl; [| lia].
  destruct Hsl as [[_ ->] | (_ & s & old & new & _ & _ & _ & _ & ->)];
    [assumption |].
  destruct Hgok as [Hlen Hkind]. unfold gene_ok. simpl.
  rewrite length_insert. auto.
Qed.

Lemma mutate_loop_ok fuel cfg n cnt gs r gs' cnt' r' :
  genes_ok cfg gs ->
  mutate_loop fuel cfg n cnt gs r = Ok (gs', cnt', r') ->
  genes_ok cfg gs'.
Proof.
  revert cnt gs r.
  induction fuel as [|f IH]; simpl; intros cnt gs r Hok H.
  - destruct (cnt <=? mutation_budget cfg n); inv_run. assumption.
  - destruct (cnt <=? mutation_budget cfg n); inv_run; [| assumption].
    apply randint_Ok in Hrun as (Hidx & _ & _).
    eapply IH; [| eassumption].
    eapply mutate_connection_gene_ok; [| | eassumption]; [lia |].
    destruct (Z.ltb_spec a (num_nodes cfg)).
    + eapply mutate_function_gene_ok; [| eassumption..]. lia.
    + inv_run. assumption.
Qed.

Lemma mutate_pass_ok fuel ind r ind' cnt r' :
  genes_ok (config ind) (genes ind) ->
  mutate_pass fuel ind r = Ok (ind', cnt, r') ->
  genes_ok (config ind) (genes ind').
Proof.
  unfold mutate_pass. intros Hok H. inv_run.
  apply mutate_loop_ok in Hrun; [| assumption].
  apply check_active_frame in Hrun0 as (act0 & act & _ & -> & _).
  assumption.
Qed.

Lemma mutate_genes_ok :
  forall fuel force ind r ind' r',
    (is_spawned ind = false -> genes ind = []) ->
    (is_spawned ind = true -> genes_ok (config ind) (genes ind)) ->
    mutate fuel force ind r = Ok (ind', r') ->
    genes_ok (config ind) (genes ind').
Proof.
  induction fuel as [|f IH]; simpl; intros force ind r ind' r' Hnil Hok H;
    [discriminate |].
  apply mbind_Ok in H as (ind0 & r0 & H0 & H).
  assert (Hind0 : config ind0 = config ind /\ is_spawned ind0 = true /\
                  genes_ok (config ind) (genes ind0)).
  { destruct (is_spawned ind) eqn:Esp; simpl in H0.
    - inv_run. auto.
    - pose proof (init_genes_ok _ _ _ _ _ (Hnil eq_refl) H0).
      apply init_genes_connections in H0; [| auto]. tauto. }
  destruct Hind0 as (Hc0 & Hs0 & Hok0).
  apply mbind_Ok in H as ([ind1 cnt] & r1 & H1 & H).
  pose proof (mutate_pass_step _ _ _ _ _ _ H1) as (Hc1 & Hs1 & _).
  apply mutate_pass_ok in H1; [| rewrite Hc0; assumption].
  rewrite Hc0 in H1.
  destruct force; [| inv_run; assumption].
  destruct (active ind1) as [a|]; [| inv_run].
  destruct (active ind0) as [o|]; [| inv_run].
  destruct (array_equal a o); [| inv_run; assumption].
  apply IH in H.
  - now rewrite Hc1, Hc0 in H.
  - congruence.
  - intros _. now rewrite Hc1, Hc0.
Qed.

(** X3: in the genotype [spawn] answers, and in the one [mutate] leaves
    behind, every gene fits the configuration: its connection array has
    [max_inputs] slots; a gene below [num_nodes] is a function gene whose
    [fnc_idx] is a valid index of the function set and whose [num_inputs]
    is [function_inputs[fnc_idx]] (a function mutation moves both
    together); the genes after them are output genes with one used slot. *)
Theorem genes_fit_their_functions :
  (forall fuel cfg r ind r',
      spawn fuel cfg r = Ok (ind, r') -> genes_ok cfg (genes ind)) /\
  (forall fuel force ind r ind' r',
      (is_spawned ind = false -> genes ind = []) ->
      (is_spawned ind = true -> genes_ok (config ind) (genes ind)) ->
      mutate fuel force ind r = Ok (ind', r') ->
      genes_ok (config ind) (genes ind')).
Proof.
  split.
  - intros fuel cfg r ind r' H. unfold spawn in H.
    now apply init_genes_ok in H.
  - apply mutate_genes_ok.
Qed.

Lemma genes_fit_their_functions_witness :
  genes_ok demo_config (genes demo_parent) /\
  exists ind' r',
    mutate 20 true demo_parent {| tape := demo_tape; pos := 20 |}
      = Ok (ind', r') /\
    genes_ok demo_config (genes ind').
Proof.
  pose proof (proj1 genes_fit_their_functions _ _ _ _ _ demo_spawn) as Hok.
  split; [exact Hok |].
  destruct (mutate 20 true demo_parent {| tape := demo_tape; pos := 20 |})
    as [[ind' r']| |] eqn:E; [| vm_compute in E; discriminate..].
  exists ind', r'. split; [reflexivity |].
  apply (proj2 genes_fit_their_functions _ _ _ _ _ _
           (fun H : is_spawned demo_parent = false =>
              False_ind _ (Bool.diff_true_false H))
           (fun _ => Hok) E).
Defined.


(** ** Well-formed genotypes *)

(** What [spawn] establishes and [mutate] keeps, in one predicate: a sound
    configuration, one gene per grid node and output, legal connections,
    genes that fit their functions, a mask in sync with the genes. *)
Definition well_formed (ind : Individual) : Prop :=
  config_ok (config ind) /\
  length (genes ind)
    = Z.to_nat (num_nodes (config ind) + num_output (config ind)) /\
  connections_ok (config ind) (genes ind) /\
  genes_ok (config ind) (genes ind) /\
  mask_in_sync ind.

Lemma spawn_well_formed fuel cfg r ind r' :
  config_ok cfg -> spawn fuel cfg r = Ok (ind, r') ->
  config ind = cfg /\ well_formed ind.
Proof.
  intros Hok H. unfold spawn in H.
  pose proof (init_genes_connections fuel (new_Individual cfg) r ind r'
                eq_refl H)
    as (Hc & Hcon & _ & Hlen).
  pose proof (init_genes_ok fuel (new_Individual cfg) r ind r' eq_refl H)
    as Hgok.
  apply init_genes_in_sync in H as [_ Hsync];
    [| now apply config_ok_num_nodes].
  simpl in *. split; [assumption |]. unfold well_formed. rewrite Hc.
  auto.
Qed.

Lemma mutate_well_formed fuel force ind r ind' r' :
  well_formed ind -> mutate fuel force ind r = Ok (ind', r') ->
  config ind' = config ind /\ well_formed ind'.
Proof.
  intros (Hok & Hlen & Hcon & Hgok & Hsync) H.
  pose proof Hsync as (a & Ha & Hla & _).
  assert (Hsp : is_spawned ind = true) by (unfold is_spawned; now rewrite Ha).
  assert (Hnil : is_spawned ind = false -> genes ind = [])
    by (rewrite Hsp; discriminate).
  assert (Hpres : config ind' = config ind /\ is_spawned ind' = true /\
                  (length (genes ind')
                     = Z.to_nat (num_nodes (config ind)
                                 + num_output (config ind)) /\
                   connections_ok (config ind) (genes ind'))).
  { apply (mutate_preserves
             (fun cfg gs =>
                length gs = Z.to_nat (num_nodes cfg + num_output cfg) /\
                connections_ok cfg gs)) with (fuel := fuel) (force := force)
        (r := r) (r' := r'); [| | assumption | auto | assumption].
    - intros f i r0 i' r0' Hn Hi.
      apply init_genes_connections in Hi; tauto.
    - intros cfg gs gs' Hst [Hl Hc]. split.
      + destruct Hst as [-> _]. assumption.
      + eapply genes_step_connections; eassumption. }
  destruct Hpres as (Hc & _ & Hlen' & Hcon').
  pose proof (mutate_genes_ok _ _ _ _ _ _ Hnil (fun _ => Hgok) H) as Hgok'.
  apply mutate_in_sync in H as [_ Hsync'];
    [| now apply config_ok_num_nodes | intros a0 Ha0; congruence].
  split; [assumption |]. unfold well_formed. rewrite Hc. auto.
Qed.

Lemma genes_ok_arity cfg gs :
  config_ok cfg -> genes_ok cfg gs -> Forall arity_ok gs.
Proof.
  intros (_ & _ & _ & _ & _ & _ & _ & _ & Hmx & Hfis) Hgok.
  apply Forall_lookup. intros j g Hj.
  destruct (Hgok _ _ Hj) as [Hlen Hkind]. unfold arity_ok. rewrite Hlen.
  destruct (Z.of_nat j <? num_nodes cfg).
  - destruct Hkind as (_ & fi & _ & _ & Hni).
    rewrite Forall_lookup in Hfis. specialize (Hfis _ _ Hni). simpl in Hfis.
    lia.
  - destruct Hkind as (_ & _ & ->). lia.
Qed.

(** ** The depth of [__walk_to_out] *)

(** A walk from a node of column [col] needs [col + 1] nested calls at
    most: a used slot names a node of a strictly earlier column. *)
Lemma walk_to_out_column_depth cfg gs :
  config_ok cfg -> connections_ok cfg gs -> Forall arity_ok gs ->
  forall fuel node act,
    0 <= node < Z.of_nat (length gs) ->
    Z.min (node / rows cfg) (cols cfg) < Z.of_nat fuel ->
    length act = length gs ->
    exists act', walk_to_out fuel cfg gs node act = Ok act' /\
                 length act' = length gs.
Proof.
  intros Hok Hcon Har.
  induction fuel as [|f IH]; intros node act Hnode Hf Hlen.
  { destruct Hok as (Hr & Hc & _).
    pose proof (Z.div_pos node (rows cfg)). simpl in Hf. lia. }
  simpl.
  destruct (py_index_in_range act node) as [b Hb]; [lia |].
  rewrite Hb. simpl. destruct b; simpl; [eauto |].
  rewrite py_store_in_range by lia. simpl.
  destruct (py_index_in_range gs node) as [g Hg]; [lia |].
  rewrite Hg. simpl.
  apply py_index_nonneg in Hg; [| lia].
  destruct (Hcon _ _ Hg) as (lo & hi & Hrg & Hall).
  rewrite Z2Nat.id in Hrg by lia.
  destruct (con_id_range_nonempty cfg node Hok ltac:(lia))
    as (lo' & hi' & Hrg' & _ & Hhi).
  rewrite Hrg in Hrg'. injection Hrg' as <- <-.
  rewrite Forall_lookup in Har. pose proof (Har _ _ Hg) as Hag.
  unfold arity_ok in Hag.
  pose proof Hok as (Hrows & _ & _ & Hni & _).
  destruct (for_range_res_total (fun _ a => length a = length gs)
              (fun i a =>
                 rbind (py_index (inputs g) i) (fun c =>
                 if c >=? num_input cfg
                 then walk_to_out f cfg gs (c - num_input cfg) a
                 else Ok a))
              (Z.to_nat (num_inputs g)) 0)
    with (s := <[Z.to_nat node := true]> act) as (act' & Hloop & Hlen').
  - intros j a Hj Ha.
    destruct (py_index_in_range (inputs g) j) as [c Hc]; [lia |].
    rewrite Hc. simpl.
    apply py_index_nonneg in Hc; [| lia].
    rewrite Forall_lookup in Hall. specialize (Hall _ _ Hc). simpl in Hall.
    destruct (Z.geb_spec c (num_input cfg)); [| eauto].
    pose proof (con_id_range_column cfg node lo hi c Hrows Hrg Hall) as Hcol.
    simpl in Hcol. destruct Hcol as [? | [[_ Hlt] _]]; [lia |].
    apply IH; lia.
  - now rewrite length_insert.
  - eauto.
Qed.

(** X5: on a well-formed genotype [check_active] returns, and the
    recursion of [__walk_to_out] is at most [cols + 1] calls deep (the
    fuel of the model counts nested calls): it does not grow with the
    number of rows. *)
Theorem walk_depth_bounded_by_columns fuel ind :
  well_formed ind ->
  cols (config ind) < Z.of_nat fuel ->
  exists ind', check_active fuel ind = Ok ind'.
Proof.
  intros (Hok & Hlen & Hcon & Hgok & (a & Ha & Hla & _)) Hfuel.
  pose proof (genes_ok_arity _ _ Hok Hgok) as Har.
  pose proof (config_ok_num_nodes _ Hok) as Hnn.
  pose proof Hok as (Hrows & Hcols & _ & _ & Hno & Hnodes & _).
  unfold check_active. rewrite Ha.
  destruct (for_range_res_total (fun _ act => length act = length (genes ind))
              (fun node act =>
                 walk_to_out fuel (config ind) (genes ind)
                   (num_nodes (config ind) + node) act)
              (Z.to_nat (num_output (config ind))) 0)
    with (s := replicate (length a) false) as (act' & Hloop & _).
  - intros j act Hj Hact.
    apply (walk_to_out_column_depth _ _ Hok Hcon Har); [lia | | assumption].
    lia.
  - now rewrite length_replicate.
  - rewrite Hloop. simpl. eauto.
Qed.

Lemma demo_config_ok : config_ok demo_config.
Proof.
  apply (new_CgpConfig_ok _ _ _ _ _ _ _ demo_config_built); try lia.
  repeat constructor; lia.
Qed.

Lemma demo_parent_well_formed : well_formed demo_parent.
Proof.
  exact (proj2 (spawn_well_formed 10 demo_config demo_rng demo_parent _
                  demo_config_ok demo_spawn)).
Qed.

Lemma walk_depth_bounded_by_columns_witness :
  exists ind', check_active 4 demo_parent = Ok ind'.
Proof.
  apply (walk_depth_bounded_by_columns 4 demo_parent);
    [| vm_compute; reflexivity].
  exact demo_parent_well_formed.
Defined.

(** ** Counting the active nodes *)

(** The number of [True] in a mask. *)
Fixpoint count_true (a : list bool) : Z :=
  match a with
  | [] => 0
  | b :: a' => Z_of_bool b + count_true a'
  end.

Lemma count_true_app a b : count_true (a ++ b) = count_true a + count_true b.
Proof. induction a as [|x a IH]; simpl; lia. Qed.

Lemma count_true_bounds a : 0 <= count_true a <= Z.of_nat (length a).
Proof. induction a as [|[] a IH]; simpl; lia. Qed.

Lemma count_true_replicate n : count_true (replicate n true) = Z.of_nat n.
Proof. induction n as [|n IH]; simpl; lia. Qed.

Lemma count_true_take_S a (j : nat) b :
  a !! j = Some b ->
  count_true (take (S j) a) = count_true (take j a) + Z_of_bool b.
Proof.
  intros Hj. rewrite (take_S_r _ _ _ Hj), count_true_app. simpl. lia.
Qed.

Lemma count_true_take_le a (i j : nat) :
  (i <= j)%nat -> count_true (take i a) <= count_true (take j a).
Proof.
  intros Hij. replace j with (i + (j - i))%nat by lia.
  rewrite <- take_take_drop, count_true_app.
  pose proof (count_true_bounds (take (j - i) (drop i a))). lia.
Qed.

Lemma np_where_from_length i a :
  Z.of_nat (length (np_where_from i a)) = count_true a.
Proof.
  revert i. induction a as [|[] a IH]; intros i; simpl; [reflexivity | |].
  - rewrite <- (IH (i + 1)). lia.
  - apply IH.
Qed.

Lemma num_active_nodes_count a : num_active_nodes a = count_true a.
Proof. apply np_where_from_length. Qed.

Lemma cumsum_from_length acc a : length (cumsum_from acc a) = length a.
Proof. revert acc. induction a as [|b a IH]; intros acc; simpl; auto. Qed.

Lemma cumsum_from_lookup a :
  forall acc (j : nat),
    (j < length a)%nat ->
    cumsum_from acc a !! j = Some (acc + count_true (take (S j) a)).
Proof.
  induction a as [|b a IH]; intros acc j Hj; simpl in *; [lia |].
  destruct j as [|j]; simpl.
  - rewrite ?take_0. simpl. f_equal. lia.
  - rewrite IH by lia. f_equal. lia.
Qed.


(** ** What [active_net] answers on a well-formed genotype *)

(** The index in the net of the row decoded from node [j]: the input rows
    come first, then one row per active node, in node order. *)
Definition row_index (cfg : CgpConfig) (a : list bool) (j : nat) : Z :=
  num_input cfg + count_true (take j a).

(** The row a connection value [c] stands for: the input row [c], or the
    row of node [c - num_input]. *)
Definition source_row (cfg : CgpConfig) (a : list bool) (c : Z) : Z :=
  if c <? num_input cfg then c
  else row_index cfg a (Z.to_nat (c - num_input cfg)).

(** [row] is the decoding of node [j]: its name is the name of the gene's
    function followed by the row's own index, or [output-k] for the [k]-th
    output; it has one connection per used slot, the row the slot's value
    stands for. *)
Definition row_decodes (names : nat -> FncAttrs) (cfg : CgpConfig)
    (gs : list Gen) (a : list bool) (j : nat) (row : NetRow) : Prop :=
  exists g,
    gs !! j = Some g /\
    match fnc_idx g with
    | Some fi =>
        exists h s,
          functions cfg !! Z.to_nat fi = Some h /\
          fnc_name (names h) = Ok s /\
          row.1 = s +:+ "_id_" +:+ pretty (row_index cfg a j)
    | None =>
        row.1 = "output-" +:+
                pretty (count_true (drop (Z.to_nat (num_nodes cfg)) (take j a)))
    end /\
    length row.2 = Z.to_nat (num_inputs g) /\
    forall (i : nat) c,
      (i < Z.to_nat (num_inputs g))%nat -> inputs g !! i = Some c ->
      row.2 !! i = Some (source_row cfg a c).

Lemma pretty_nat_Z (n : nat) : pretty n = pretty (Z.of_nat n).
Proof. destruct n; reflexivity. Qed.

Lemma np_arange_length n : length (np_arange n) = Z.to_nat n.
Proof. unfold np_arange. now rewrite length_fmap, length_seq. Qed.

Lemma np_arange_lookup n (i : nat) :
  (i < Z.to_nat n)%nat -> np_arange n !! i = Some (Z.of_nat i).
Proof.
  intros Hi. unfold np_arange. rewrite list_lookup_fmap.
  rewrite lookup_seq_lt by assumption. reflexivity.
Qed.

(** The table [active_cnt] after line 340, on a mask with one entry per
    gene and one external input. *)
Lemma active_cnt_built cfg a :
  num_input cfg = 1 ->
  length a = Z.to_nat (num_nodes cfg + num_output cfg) ->
  0 <= num_nodes cfg + num_output cfg ->
  np_assign_from (np_arange (num_nodes cfg + num_output cfg + num_input cfg))
    (num_input cfg) (np_cumsum a)
  = Ok (0 :: np_cumsum a).
Proof.
  intros Hni Hlen Hnn. unfold np_assign_from.
  rewrite np_arange_length, Hni.
  replace (Z.to_nat (num_nodes cfg + num_output cfg + 1))
    with (S (length a)) by lia.
  unfold slice_start.
  change (1 <? 0) with false. cbv iota.
  replace (Z.to_nat (Z.min 1 (Z.of_nat (S (length a))))) with 1%nat by lia.
  unfold np_cumsum at 1. rewrite cumsum_from_length.
  replace (S (length a) - 1)%nat with (length a) by lia.
  rewrite Nat.eqb_refl.
  replace (num_nodes cfg + num_output cfg + 1)
    with (Z.of_nat (S (length a))) by lia.
  unfold np_arange. rewrite Nat2Z.id. reflexivity.
Qed.

Lemma active_cnt_lookup a (c : nat) :
  (c <= length a)%nat ->
  (0 :: np_cumsum a) !! c = Some (count_true (take c a)).
Proof.
  intros Hc. destruct c as [|c]; [reflexivity |]. simpl.
  unfold np_cumsum. rewrite cumsum_from_lookup by lia. reflexivity.
Qed.

Lemma net_connections_spec cnt ins :
  forall k i,
    0 <= i -> (Z.to_nat i + k <= length ins)%nat ->
    (forall (t : nat) c, ins !! t = Some c ->
                         0 <= c < Z.of_nat (length cnt)) ->
    exists con,
      net_connections cnt ins k i = Ok con /\ length con = k /\
      forall (t : nat) c,
        (t < k)%nat -> ins !! (Z.to_nat i + t)%nat = Some c ->
        con !! t = cnt !! Z.to_nat c.
Proof.
  induction k as [|k IH]; intros i Hi Hk Hin.
  - exists []. simpl. split; [reflexivity |]. split; [reflexivity |].
    intros; lia.
  - simpl.
    destruct (lookup_lt_is_Some_2 ins (Z.to_nat i)) as [c Hc]; [lia |].
    assert (Hci : py_index ins i = Ok c).
    { unfold py_index. rewrite py_pos_in_range by lia. now rewrite Hc. }
    rewrite Hci. simpl.
    pose proof (Hin _ _ Hc) as Hcr.
    destruct (lookup_lt_is_Some_2 cnt (Z.to_nat c)) as [v Hv]; [lia |].
    assert (Hvi : py_index cnt c = Ok v).
    { unfold py_index. rewrite py_pos_in_range by lia. now rewrite Hv. }
    rewrite Hvi. simpl.
    destruct (IH (i + 1)) as (rest & Hrest & Hlen & Hall); [lia | lia | auto |].
    rewrite Hrest. simpl. exists (v :: rest).
    split; [reflexivity |]. split; [simpl; lia |].
    intros t c' Ht Hc'. destruct t as [|t]; simpl.
    + rewrite Nat.add_0_r in Hc'. congruence.
    + apply Hall; [lia |].
      replace (Z.to_nat (i + 1) + t)%nat with (Z.to_nat i + S t)%nat by lia.
      assumption.
Qed.

(** The number of active output nodes before node [j]. *)
Definition out_count (cfg : CgpConfig) (a : list bool) (j : nat) : Z :=
  count_true (drop (Z.to_nat (num_nodes cfg)) (take j a)).

Lemma out_count_S cfg a (j : nat) b :
  a !! j = Some b ->
  out_count cfg a (S j)
  = out_count cfg a j
    + (if Z.of_nat j <? num_nodes cfg then 0 else Z_of_bool b).
Proof.
  intros Hj. unfold out_count. rewrite (take_S_r _ _ _ Hj).
  pose proof (lookup_lt_Some _ _ _ Hj) as Hlt.
  assert (Hlen : length (take j a) = j) by (rewrite length_take; lia).
  destruct (Z.ltb_spec (Z.of_nat j) (num_nodes cfg)).
  - rewrite !drop_ge by (rewrite ?length_app, Hlen; simpl; lia).
    simpl. lia.
  - rewrite drop_app_le by lia. rewrite count_true_app. simpl. lia.
Qed.

Section ActiveNetOnWellFormed.
Variable names : nat -> FncAttrs.
Variable ind : Individual.
Variable a : list bool.
Hypothesis Hwf : well_formed ind.
Hypothesis Ha : active ind = Some a.

Lemma wf_mask_length : length a = length (genes ind).
Proof using Hwf Ha.
  destruct Hwf as (_ & _ & _ & _ & (a' & Ha' & Hl & _)). congruence.
Qed.

Lemma wf_num_input : num_input (config ind) = 1.
Proof using Hwf. destruct Hwf as ((_ & _ & _ & H & _) & _). exact H. Qed.

(** A slot of the gene at [j] holds a value between 0 and [j]. *)
Lemma wf_slot_range (j i : nat) g c :
  genes ind !! j = Some g -> inputs g !! i = Some c ->
  0 <= c <= Z.of_nat j.
Proof using Hwf.
  intros Hg Hc. destruct Hwf as (Hok & _ & Hcon & _).
  destruct (Hcon _ _ Hg) as (lo & hi & Hrg & Hall).
  destruct (con_id_range_nonempty _ (Z.of_nat j) Hok ltac:(lia))
    as (lo' & hi' & Hrg' & Hlo & Hhi).
  rewrite Hrg in Hrg'. injection Hrg' as <- <-.
  rewrite Forall_lookup in Hall. specialize (Hall _ _ Hc). simpl in Hall.
  lia.
Qed.

(** The node a used slot of an active node names is active. *)
Lemma wf_mask_closed (j i : nat) g c :
  a !! j = Some true -> genes ind !! j = Some g ->
  (i < Z.to_nat (num_inputs g))%nat -> inputs g !! i = Some c ->
  1 <= c -> a !! Z.to_nat (c - 1) = Some true.
Proof using Hwf Ha.
  intros Hj Hg Hi Hc Hc1.
  destruct Hwf as (_ & _ & _ & _ & (a' & Ha' & _ & Hiff)).
  rewrite Ha in Ha'. injection Ha' as <-.
  apply Hiff. rewrite Z2Nat.id by lia.
  rewrite <- wf_num_input.
  apply (reach_slot _ _ (Z.of_nat j) g (Z.of_nat i) c).
  - now apply Hiff.
  - now rewrite Nat2Z.id.
  - lia.
  - now rewrite Nat2Z.id.
  - rewrite wf_num_input. lia.
Qed.

(** What [active_cnt] holds at the value of a used slot of an active
    node. *)
Lemma wf_active_cnt_slot (j i : nat) g c :
  a !! j = Some true -> genes ind !! j = Some g ->
  (i < Z.to_nat (num_inputs g))%nat -> inputs g !! i = Some c ->
  (0 :: np_cumsum a) !! Z.to_nat c = Some (source_row (config ind) a c) /\
  0 <= source_row (config ind) a c < row_index (config ind) a j.
Proof using Hwf Ha.
  intros Hj Hg Hi Hc.
  pose proof (wf_slot_range _ _ _ _ Hg Hc) as Hcr.
  pose proof (lookup_lt_Some _ _ _ Hj) as Hjlt.
  rewrite active_cnt_lookup by lia.
  unfold source_row, row_index. rewrite wf_num_input.
  pose proof (count_true_bounds (take (Z.to_nat c) a)) as Hb.
  pose proof (count_true_take_le a (Z.to_nat c) j ltac:(lia)) as Hle.
  destruct (Z.ltb_spec c 1) as [Hlt | Hge].
  - replace (Z.to_nat c) with 0%nat in * by lia. rewrite take_0 in *.
    simpl in *. split; [f_equal; lia | lia].
  - pose proof (wf_mask_closed _ _ _ _ Hj Hg Hi Hc Hge) as Hsrc.
    replace (Z.to_nat c) with (S (Z.to_nat (c - 1))) in * by lia.
    rewrite (count_true_take_S _ _ _ Hsrc) in *. simpl in *.
    split; [f_equal; lia | lia].
Qed.

Hypothesis Hfuns :
  length (functions (config ind)) = length (function_inputs (config ind)).

(** The turn of the loop for an active node [j]. *)
Lemma net_row_spec (j : nat) net :
  (forall (i : nat) h, functions (config ind) !! i = Some h ->
                       exists s, fnc_name (names h) = Ok s) ->
  a !! j = Some true ->
  Z.of_nat (length net) = row_index (config ind) a j ->
  exists row,
    net_row names (config ind) (genes ind) (0 :: np_cumsum a) (Z.of_nat j)
      (net, out_count (config ind) a j)
    = Ok (net ++ [row], out_count (config ind) a (S j)) /\
    row_decodes names (config ind) (genes ind) a j row.
Proof.
  intros Hnames Hj Hnet.
  pose proof (lookup_lt_Some _ _ _ Hj) as Hjlt.
  rewrite wf_mask_length in Hjlt.
  destruct (lookup_lt_is_Some_2 (genes ind) j Hjlt) as [g Hg].
  pose proof Hwf as (Hok & _ & _ & Hgok & _).
  pose proof (genes_ok_arity _ _ Hok Hgok) as Har.
  rewrite Forall_lookup in Har. pose proof (Har _ _ Hg) as Hag.
  unfold arity_ok in Hag.
  unfold net_row.
  assert (Hgi : py_index (genes ind) (Z.of_nat j) = Ok g).
  { unfold py_index. rewrite py_pos_in_range by lia.
    now rewrite Nat2Z.id, Hg. }
  rewrite Hgi. simpl.
  destruct (net_connections_spec (0 :: np_cumsum a) (inputs g)
              (Z.to_nat (num_inputs g)) 0)
    as (con & Hcon & Hlen & Hall); [lia | simpl; lia | |].
  { intros t c Hc. pose proof (wf_slot_range _ _ _ _ Hg Hc).
    simpl. unfold np_cumsum. rewrite cumsum_from_length.
    rewrite wf_mask_length. lia. }
  rewrite Hcon. simpl.
  assert (Hcons : forall (i : nat) c,
             (i < Z.to_nat (num_inputs g))%nat -> inputs g !! i = Some c ->
             con !! i = Some (source_row (config ind) a c)).
  { intros i c Hi Hc. rewrite (Hall i c Hi) by (simpl; assumption).
    eapply wf_active_cnt_slot; eassumption. }
  rewrite (out_count_S _ _ _ _ Hj).
  destruct (Hgok _ _ Hg) as [_ Hkind].
  destruct (Z.of_nat j <? num_nodes (config ind)).
  - destruct Hkind as (_ & fi & Hfi & Hfir & Hni). rewrite Hfi.
    pose proof (lookup_lt_Some _ _ _ Hni) as Hfl. rewrite <- Hfuns in Hfl.
    destruct (lookup_lt_is_Some_2 _ _ Hfl) as [h Hh].
    assert (Hhi : py_index (functions (config ind)) fi = Ok h).
    { unfold py_index. rewrite py_pos_in_range by lia. now rewrite Hh. }
    rewrite Hhi. simpl.
    destruct (Hnames _ _ Hh) as [s Hs]. rewrite Hs. simpl.
    eexists. split; [rewrite Z.add_0_r; reflexivity |].
    exists g. split; [assumption |]. rewrite Hfi. simpl.
    split; [| split; assumption].
    exists h, s. split; [assumption |]. split; [assumption |].
    now rewrite pretty_nat_Z, Hnet.
  - destruct Hkind as (_ & Hnone & _). rewrite Hnone.
    eexists. split; [reflexivity |].
    exists g. split; [assumption |]. rewrite Hnone. simpl.
    split; [reflexivity |]. split; assumption.
Qed.

(** The loop of [active_net], from the node after the prefix [pre]. *)
Lemma net_rows_spec :
  (forall (i : nat) h, functions (config ind) !! i = Some h ->
                       exists s, fnc_name (names h) = Ok s) ->
  forall todo pre net,
    a = pre ++ todo ->
    Z.of_nat (length net) = row_index (config ind) a (length pre) ->
    exists ext,
      net_rows names (config ind) (genes ind) (0 :: np_cumsum a)
        (Z.of_nat (length pre)) todo
        (net, out_count (config ind) a (length pre))
      = Ok (net ++ ext) /\
      Z.of_nat (length ext) = count_true todo /\
      forall j : nat,
        (length pre <= j)%nat -> a !! j = Some true ->
        exists row,
          (net ++ ext) !! Z.to_nat (row_index (config ind) a j) = Some row /\
          row_decodes names (config ind) (genes ind) a j row.
Proof.
  intros Hnames.
  induction todo as [|b todo IH]; intros pre net Hpre Hnet.
  - exists []. simpl. rewrite app_nil_r. split; [reflexivity |].
    split; [reflexivity |]. intros j Hle Hj.
    apply lookup_lt_Some in Hj. rewrite Hpre, app_nil_r in Hj. lia.
  - assert (Hb : a !! length pre = Some b).
    { rewrite Hpre. now rewrite list_lookup_middle. }
    assert (Hpre' : a = (pre ++ [b]) ++ todo)
      by (rewrite Hpre at 1; now rewrite <- app_assoc).
    assert (Hlen' : length (pre ++ [b]) = S (length pre))
      by (rewrite length_app; simpl; lia).
    assert (Hnode : Z.of_nat (length pre) + 1 = Z.of_nat (length (pre ++ [b])))
      by lia.
    assert (Hidx : row_index (config ind) a (S (length pre))
                   = row_index (config ind) a (length pre) + Z_of_bool b).
    { unfold row_index. rewrite (count_true_take_S _ _ _ Hb). lia. }
    cbn [net_rows]. destruct b.
    + destruct (net_row_spec (length pre) net Hnames Hb Hnet)
        as (row & Hrow & Hdec).
      rewrite Hrow. simpl. rewrite Hnode, <- Hlen'.
      destruct (IH (pre ++ [true]) (net ++ [row]) Hpre') as (ext & Hrun & Hext & Hall).
      { rewrite Hlen', Hidx, length_app. simpl. lia. }
      exists (row :: ext). rewrite <- app_assoc in Hrun. simpl in Hrun.
      split; [exact Hrun |]. split; [simpl length; simpl count_true; lia |].
      intros j Hle Hj.
      destruct (decide (j = length pre)) as [-> | Hne].
      * exists row. split; [| assumption].
        rewrite <- Hnet, Nat2Z.id. now rewrite list_lookup_middle.
      * destruct (Hall j) as (row' & Hrow' & Hdec'); [lia | assumption |].
        exists row'. rewrite <- app_assoc in Hrow'. auto.
    + rewrite Hnode.
      replace (out_count (config ind) a (length pre))
        with (out_count (config ind) a (length (pre ++ [false]))).
      2:{ rewrite Hlen', (out_count_S _ _ _ _ Hb).
          destruct (_ <? _); simpl; lia. }
      destruct (IH (pre ++ [false]) net Hpre') as (ext & Hrun & Hext & Hall).
      { rewrite Hlen', Hidx. simpl. lia. }
      exists ext. split; [exact Hrun |]. split; [simpl; lia |].
      intros j Hle Hj.
      destruct (decide (j = length pre)) as [-> | Hne]; [congruence |].
      apply Hall; [lia | assumption].
Qed.

(** [active_net] on a well-formed genotype whose functions have names. *)
Lemma active_net_spec :
  (forall (i : nat) h, functions (config ind) !! i = Some h ->
                       exists s, fnc_name (names h) = Ok s) ->
  exists net,
    active_net names ind = Ok net /\
    Z.of_nat (length net) = num_input (config ind) + num_active_nodes a /\
    net !! 0%nat = Some ("input 0", [0; 0]) /\
    forall j : nat,
      a !! j = Some true ->
      exists row,
        net !! Z.to_nat (row_index (config ind) a j) = Some row /\
        row_decodes names (config ind) (genes ind) a j row.
Proof.
  intros Hnames. unfold active_net. rewrite Ha.
  pose proof Hwf as (Hok & Hlen & _).
  pose proof (config_ok_num_nodes _ Hok) as Hnn.
  pose proof Hok as (_ & _ & _ & Hni & Hno & _).
  rewrite active_cnt_built;
    [| assumption | rewrite wf_mask_length; assumption | lia].
  simpl. rewrite Hni.
  destruct (net_rows_spec Hnames a [] [("input 0", [0; 0])] eq_refl)
    as (ext & Hrun & Hext & Hall).
  { unfold row_index. rewrite Hni. reflexivity. }
  simpl in Hrun. unfold out_count in Hrun. rewrite take_0, drop_nil in Hrun.
  simpl in Hrun.
  exists ([("input 0", [0; 0])] ++ ext). split; [exact Hrun |].
  split.
  { rewrite num_active_nodes_count, length_app. simpl length.
    unfold NetRow in *. lia. }
  split; [reflexivity |].
  intros j Hj. apply Hall; [simpl; lia | assumption].
Qed.
End ActiveNetOnWellFormed.

(** With functions that have neither [name] nor [__name__] (plain strings,
    say) the loop fails at the first active function node. *)
Lemma net_rows_nameless names ind a :
  well_formed ind -> active ind = Some a ->
  length (functions (config ind)) = length (function_inputs (config ind)) ->
  (forall (i : nat) h, functions (config ind) !! i = Some h ->
                       fnc_name (names h) = Raise AttributeError) ->
  forall todo pre acc,
    a = pre ++ todo ->
    (exists j : nat, (length pre <= j)%nat /\
                     Z.of_nat j < num_nodes (config ind) /\
                     a !! j = Some true) ->
    net_rows names (config ind) (genes ind) (0 :: np_cumsum a)
      (Z.of_nat (length pre)) todo acc
    = Raise AttributeError.
Proof.
  intros Hwf Ha Hfuns Hnames.
  induction todo as [|b todo IH]; intros pre acc Hpre (j & Hle & HjN & Hj).
  { apply lookup_lt_Some in Hj. rewrite Hpre, app_nil_r in Hj. lia. }
  assert (Hb : a !! length pre = Some b).
  { rewrite Hpre. now rewrite list_lookup_middle. }
  assert (Hpre' : a = (pre ++ [b]) ++ todo)
    by (rewrite Hpre at 1; now rewrite <- app_assoc).
  assert (Hlen' : length (pre ++ [b]) = S (length pre))
    by (rewrite length_app; simpl; lia).
  assert (Hnode : Z.of_nat (length pre) + 1 = Z.of_nat (length (pre ++ [b])))
    by lia.
  cbn [net_rows]. destruct b.
  - (* the first active node of the rest: a function node *)
    clear IH. destruct acc as [net out]. unfold net_row.
    pose proof (lookup_lt_Some _ _ _ Hb) as Hlt.
    rewrite (wf_mask_length ind a Hwf Ha) in Hlt.
    destruct (lookup_lt_is_Some_2 (genes ind) _ Hlt) as [g Hg].
    pose proof Hwf as (Hok & _ & _ & Hgok & _).
    pose proof (genes_ok_arity _ _ Hok Hgok) as Har.
    rewrite Forall_lookup in Har. pose proof (Har _ _ Hg) as Hag.
    unfold arity_ok in Hag.
    assert (Hgi : py_index (genes ind) (Z.of_nat (length pre)) = Ok g).
    { unfold py_index. rewrite py_pos_in_range by lia.
      now rewrite Nat2Z.id, Hg. }
    rewrite Hgi. simpl.
    destruct (net_connections_spec (0 :: np_cumsum a) (inputs g)
                (Z.to_nat (num_inputs g)) 0)
      as (con & Hcon & _); [lia | simpl; lia | |].
    { intros t c Hc. pose proof (wf_slot_range ind Hwf _ _ _ _ Hg Hc).
      simpl. unfold np_cumsum. rewrite cumsum_from_length.
      rewrite (wf_mask_length ind a Hwf Ha). lia. }
    rewrite Hcon. simpl.
    destruct (Hgok _ _ Hg) as [_ Hkind].
    destruct (Z.ltb_spec (Z.of_nat (length pre)) (num_nodes (config ind)));
      [| lia].
    destruct Hkind as (_ & fi & Hfi & Hfir & Hni). rewrite Hfi.
    pose proof (lookup_lt_Some _ _ _ Hni) as Hfl. rewrite <- Hfuns in Hfl.
    destruct (lookup_lt_is_Some_2 _ _ Hfl) as [h Hh].
    assert (Hhi : py_index (functions (config ind)) fi = Ok h).
    { unfold py_index. rewrite py_pos_in_range by lia. now rewrite Hh. }
    rewrite Hhi. simpl. rewrite (Hnames _ _ Hh). reflexivity.
  - rewrite Hnode. apply IH; [assumption |].
    exists j. rewrite Hlen'. split; [| auto].
    destruct (decide (j = length pre)) as [-> |]; [congruence | lia].
Qed.

Lemma count_true_all l :
  (forall (k : nat), (k < length l)%nat -> l !! k = Some true) ->
  count_true l = Z.of_nat (length l).
Proof.
  induction l as [|b l IH]; intros Hall; [reflexivity |].
  pose proof (Hall 0%nat ltac:(simpl; lia)) as H0. simpl in H0.
  injection H0 as ->. simpl count_true. rewrite IH.
  - simpl length. simpl. lia.
  - intros k Hk. apply (Hall (S k)). simpl. lia.
Qed.

(** X6: on a well-formed genotype at least the output nodes are active
    and at most every node: [num_active_nodes] lies between [num_output]
    and [num_nodes + num_output]. *)
Theorem num_active_nodes_bounds ind a :
  well_formed ind -> active ind = Some a ->
  num_output (config ind) <= num_active_nodes a
  <= num_nodes (config ind) + num_output (config ind).
Proof.
  intros Hwf Ha. rewrite num_active_nodes_count.
  pose proof (wf_mask_length ind a Hwf Ha) as Hla.
  destruct Hwf as (Hok & Hlen & _ & _ & (a' & Ha' & _ & Hiff)).
  rewrite Ha in Ha'. injection Ha' as <-.
  pose proof (config_ok_num_nodes _ Hok) as Hnn.
  pose proof Hok as (_ & _ & _ & _ & Hno & _).
  pose proof (count_true_bounds a) as Hb.
  split; [| lia].
  rewrite <- (take_drop (Z.to_nat (num_nodes (config ind))) a).
  rewrite count_true_app.
  pose proof (count_true_bounds (take (Z.to_nat (num_nodes (config ind))) a)).
  rewrite (count_true_all (drop _ a)).
  - rewrite length_drop. lia.
  - intros k Hk. rewrite length_drop in Hk. rewrite lookup_drop.
    apply Hiff. rewrite Nat2Z.inj_add, Z2Nat.id by lia.
    apply reach_output. lia.
Qed.

Lemma num_active_nodes_bounds_witness :
  1 <= num_active_nodes [false; true; true; false; false; false; true] <= 7.
Proof.
  apply (num_active_nodes_bounds demo_parent _ demo_parent_well_formed).
  reflexivity.
Defined.

(** X7: on a well-formed genotype whose function objects carry a [name]
    or a [__name__], [active_net] returns a net of [num_input] input rows
    followed by one row per active node. *)
Theorem active_net_has_one_row_per_active_node names ind a :
  well_formed ind -> active ind = Some a ->
  length (functions (config ind)) = length (function_inputs (config ind)) ->
  (forall (i : nat) h, functions (config ind) !! i = Some h ->
                       exists s, fnc_name (names h) = Ok s) ->
  exists net,
    active_net names ind = Ok net /\
    Z.of_nat (length net) = num_input (config ind) + num_active_nodes a /\
    net !! 0%nat = Some ("input 0", [0; 0]).
Proof.
  intros Hwf Ha Hfuns Hnames.
  destruct (active_net_spec names ind a Hwf Ha Hfuns Hnames)
    as (net & Hnet & Hlen & Hin & _).
  eauto.
Qed.

(** X8: the rows of that net decode the active nodes.  The row of an
    active node [j] sits at index [num_input] plus the number of active
    nodes before [j]; its name is the function's name followed by that
    index (or [output-k]); it has one connection per used slot, which is
    the index of the row of the node (or of the input) the slot names.
    That node is active, and its row comes strictly before: the net is in
    topological order and has no dangling connection. *)
Theorem active_net_rows_decode names ind a net :
  well_formed ind -> active ind = Some a ->
  length (functions (config ind)) = length (function_inputs (config ind)) ->
  (forall (i : nat) h, functions (config ind) !! i = Some h ->
                       exists s, fnc_name (names h) = Ok s) ->
  active_net names ind = Ok net ->
  forall j : nat,
    a !! j = Some true ->
    exists row,
      net !! Z.to_nat (row_index (config ind) a j) = Some row /\
      row_decodes names (config ind) (genes ind) a j row /\
      Forall (fun v => 0 <= v < row_index (config ind) a j) row.2 /\
      forall g (i : nat) c,
        genes ind !! j = Some g ->
        (i < Z.to_nat (num_inputs g))%nat -> inputs g !! i = Some c ->
        num_input (config ind) <= c ->
        a !! Z.to_nat (c - num_input (config ind)) = Some true.
Proof.
  intros Hwf Ha Hfuns Hnames Hnet j Hj.
  destruct (active_net_spec names ind a Hwf Ha Hfuns Hnames)
    as (net' & Hnet' & _ & _ & Hrows).
  rewrite Hnet in Hnet'. injection Hnet' as <-.
  destruct (Hrows j Hj) as (row & Hrow & Hdec).
  exists row. split; [assumption |]. split; [assumption |].
  pose proof Hwf as (Hok & _ & _ & Hgok & _).
  pose proof (genes_ok_arity _ _ Hok Hgok) as Har.
  rewrite Forall_lookup in Har.
  split.
  - destruct Hdec as (g & Hg & _ & Hlen & Hcon).
    pose proof (Har _ _ Hg) as Hag. unfold arity_ok in Hag.
    apply Forall_lookup. intros i v Hv.
    pose proof (lookup_lt_Some _ _ _ Hv) as Hi. rewrite Hlen in Hi.
    destruct (lookup_lt_is_Some_2 (inputs g) i) as [c Hc]; [lia |].
    rewrite (Hcon i c Hi Hc) in Hv. injection Hv as <-.
    eapply (wf_active_cnt_slot ind a Hwf Ha); eassumption.
  - intros g i c Hg Hi Hc Hge.
    rewrite (wf_num_input ind Hwf) in *.
    eapply (wf_mask_closed ind a Hwf Ha); eassumption.
Qed.

(** Sample function objects: the first has a [name], the second only a
    [__name__]. *)
Definition demo_names (h : nat) : FncAttrs :=
  match h with
  | O => {| attr_name := Some "conv"; attr_dunder_name := None |}
  | _ => {| attr_name := None; attr_dunder_name := Some "add" |}
  end.

Lemma demo_names_total (i h : nat) :
  functions demo_config !! i = Some h ->
  exists s, fnc_name (demo_names h) = Ok s.
Proof. intros _. destruct h as [|h]; eexists; reflexivity. Qed.

Lemma active_net_has_one_row_per_active_node_witness :
  exists net,
    active_net demo_names demo_parent = Ok net /\
    Z.of_nat (length net)
    = 1 + num_active_nodes [false; true; true; false; false; false; true] /\
    net !! 0%nat = Some ("input 0", [0; 0]).
Proof.
  apply (active_net_has_one_row_per_active_node demo_names demo_parent _
           demo_parent_well_formed eq_refl eq_refl demo_names_total).
Defined.

Lemma active_net_rows_decode_witness :
  exists row,
    [("input 0", [0; 0]); ("add_id_1", [0; 0]); ("add_id_2", [1; 1]);
     ("output-0", [2])] !! 3%nat = Some row /\
    row_decodes demo_names demo_config (genes demo_parent)
      [false; true; true; false; false; false; true] 6 row /\
    Forall (fun v => 0 <= v < 3) row.2.
Proof.
  destruct (active_net_rows_decode demo_names demo_parent
              [false; true; true; false; false; false; true]
              [("input 0", [0; 0]); ("add_id_1", [0; 0]);
               ("add_id_2", [1; 1]); ("output-0", [2])]
              demo_parent_well_formed eq_refl eq_refl demo_names_total
              ltac:(vm_compute; reflexivity) 6%nat eq_refl)
    as (row & Hrow & Hdec & Htopo & _).
  exists row. auto.
Defined.

(** X9: [active_net] needs function objects with a [name] or a
    [__name__].  When the function set holds none (plain strings, as the
    Keras evaluator's own [get_function_input_list] makes it), it raises
    [AttributeError] on every well-formed genotype with an active function
    node. *)
Theorem active_net_needs_named_functions names ind a (j : nat) :
  well_formed ind -> active ind = Some a ->
  length (functions (config ind)) = length (function_inputs (config ind)) ->
  (forall (i : nat) h, functions (config ind) !! i = Some h ->
                       fnc_name (names h) = Raise AttributeError) ->
  Z.of_nat j < num_nodes (config ind) -> a !! j = Some true ->
  active_net names ind = Raise AttributeError.
Proof.
  intros Hwf Ha Hfuns Hnames HjN Hj. unfold active_net. rewrite Ha.
  pose proof Hwf as (Hok & Hlen & _).
  pose proof (config_ok_num_nodes _ Hok) as Hnn.
  pose proof Hok as (_ & _ & _ & Hni & Hno & _).
  rewrite active_cnt_built;
    [| assumption | rewrite (wf_mask_length ind a Hwf Ha); assumption | lia].
  simpl.
  apply (net_rows_nameless names ind a Hwf Ha Hfuns Hnames a [] _ eq_refl).
  exists j. simpl. split; [lia | auto].
Qed.

Definition no_names (h : nat) : FncAttrs :=
  {| attr_name := None; attr_dunder_name := None |}.

Lemma active_net_needs_named_functions_witness :
  active_net no_names demo_parent = Raise AttributeError.
Proof.
  apply (active_net_needs_named_functions no_names demo_parent
           [false; true; true; false; false; false; true] 1
           demo_parent_well_formed eq_refl eq_refl);
    [intros; reflexivity | reflexivity | reflexivity].
Defined.


(** * Building a configuration, and degenerate grids *)

Lemma np_max_spec l m :
  np_max l = Ok m -> m ∈ l /\ Forall (fun x => x <= m) l.
Proof.
  destruct l as [|x l]; [discriminate |]. intros [= <-].
  assert (Hgen : forall l x,
             (fold_left Z.max l x = x \/ fold_left Z.max l x ∈ l) /\
             x <= fold_left Z.max l x /\
             Forall (fun y => y <= fold_left Z.max l x) l).
  { clear. induction l as [|y l IH]; intros x; simpl.
    - split; [auto |]. split; [lia | constructor].
    - destruct (IH (Z.max x y)) as (Hin & Hge & Hall).
      split; [| split; [lia | constructor; [lia | assumption]]].
      destruct Hin as [-> | Hin].
      + destruct (Z.max_spec x y) as [[_ ->] | [_ ->]];
          [right; left | left; reflexivity].
      + right. now right. }
  destruct (Hgen l x) as (Hin & Hge & Hall). split.
  - destruct Hin as [-> | Hin]; [left | now right].
  - constructor; assumption.
Qed.

(** X10: [CgpConfig(...)] raises [ValueError] exactly when the two lists
    differ in length or are empty ([np.max] of an empty list), the default
    arguments included; otherwise it returns a configuration of one input,
    one output and [rows * cols] nodes, whose [max_inputs] is the greatest
    of the arities. *)
Theorem cgp_config_construction rows cols level_back fns fis rate :
  (new_CgpConfig rows cols level_back fns fis rate = Raise ValueError
   <-> (length fns <> length fis \/ fis = [])) /\
  new_CgpConfig rows cols level_back [] [] rate = Raise ValueError /\
  (length fns = length fis -> fis <> [] ->
   exists cfg,
     new_CgpConfig rows cols level_back fns fis rate = Ok cfg /\
     num_input cfg = 1 /\ num_output cfg = 1 /\
     num_nodes cfg = rows * cols /\
     num_func_genes cfg = Z.of_nat (length fns) /\
     functions cfg = fns /\ function_inputs cfg = fis /\
     max_inputs cfg ∈ fis /\ Forall (fun x => x <= max_inputs cfg) fis).
Proof.
  unfold new_CgpConfig. split; [| split; [reflexivity |]].
  - destruct (Nat.eqb_spec (length fns) (length fis)) as [Hlen | Hne]; simpl.
    + destruct fis as [|x fis]; simpl.
      * split; [auto | reflexivity].
      * split; [discriminate |]. intros [? | ?]; [contradiction | discriminate].
    + split; [auto | reflexivity].
  - intros Hlen Hne.
    destruct (Nat.eqb_spec (length fns) (length fis)); [| contradiction].
    simpl. destruct (np_max fis) as [m| |] eqn:Em.
    + apply np_max_spec in Em as [Hin Hall]. simpl.
      eexists. split; [reflexivity |]. simpl. auto 10.
    + destruct fis; [contradiction | discriminate].
    + destruct fis; discriminate.
Qed.

Lemma cgp_config_construction_witness :
  exists cfg,
    new_CgpConfig 2 3 2 [0%nat; 1%nat] [1; 2] (1 # 10) = Ok cfg /\
    num_nodes cfg = 6 /\ max_inputs cfg = 2.
Proof.
  destruct (proj2 (proj2 (cgp_config_construction 2 3 2 [0%nat; 1%nat]
                            [1; 2] (1 # 10))) eq_refl)
    as (cfg & Hcfg & _ & _ & Hn & _ & _ & _ & Hin & Hall);
    [discriminate |].
  exists cfg. split; [exact Hcfg |]. split; [exact Hn |].
  rewrite Forall_forall in Hall.
  pose proof (Hall 2 ltac:(right; left)) as H2. cbv beta in H2.
  apply elem_of_cons in Hin as [Hin | Hin]; [lia |].
  apply list_elem_of_singleton in Hin. assumption.
Defined.

(** The first turn of the loop of [init_genes] decides. *)
Lemma init_genes_first_fails fuel ind e :
  (forall r, init_gene (config ind) 0 r = Raise e) ->
  0 < num_nodes (config ind) + num_output (config ind) ->
  forall r, init_genes fuel ind r = Raise e.
Proof.
  intros Hfirst Hpos r. unfold init_genes.
  destruct (Z.to_nat (num_nodes (config ind) + num_output (config ind)))
    as [|k] eqn:Ek; [lia |].
  cbn [for_range]. unfold mbind at 1. unfold mbind at 1.
  unfold mbind at 1. rewrite Hfirst. reflexivity.
Qed.

(** X11: a grid without rows passes the constructor, but no genotype can
    be spawned on it, whatever the random draws: [init_genes] raises at
    the first gene, which is the output gene.  When the largest arity is
    not negative the array of the gene is built and the column
    [node // rows] raises [ZeroDivisionError]; when it is negative
    [np.zeros] raises [ValueError] before that. *)
Theorem spawn_on_zero_rows ncols lb fns fis rate cfg fuel r :
  new_CgpConfig 0 ncols lb fns fis rate = Ok cfg ->
  spawn fuel cfg r
  = Raise (if max_inputs cfg <? 0 then ValueError else ZeroDivisionError).
Proof.
  intros Hcfg. unfold new_CgpConfig in Hcfg.
  destruct (negb _); [discriminate |].
  apply rbind_Ok in Hcfg as (mx & _ & [= <-]).
  cbn [max_inputs].
  unfold spawn. apply init_genes_first_fails; [| simpl; lia].
  intros r0. unfold init_gene. simpl.
  unfold mbind at 1. unfold lift at 1, OutputGen, np_zeros.
  destruct (Z.ltb_spec mx 0); reflexivity.
Qed.

Lemma spawn_on_zero_rows_witness :
  spawn 10 {| rows := 0; cols := 3; level_back := 2; num_input := 1;
              num_output := 1; num_nodes := 0; functions := [0%nat];
              function_inputs := [1]; num_func_genes := 1; max_inputs := 1;
              mutation_rate := 1 # 10 |} demo_rng
  = Raise ZeroDivisionError /\
  spawn 10 {| rows := 0; cols := 3; level_back := 2; num_input := 1;
              num_output := 1; num_nodes := 0; functions := [0%nat];
              function_inputs := [-1]; num_func_genes := 1;
              max_inputs := -1; mutation_rate := 1 # 10 |} demo_rng
  = Raise ValueError.
Proof.
  split.
  - apply (spawn_on_zero_rows 3 2 [0%nat] [1] (1 # 10)). reflexivity.
  - apply (spawn_on_zero_rows 3 2 [0%nat] [-1] (1 # 10)). reflexivity.
Defined.

(** X12: a level-back that is zero or negative passes the constructor
    too, but no genotype can be spawned on such a grid (of at least one
    row, with a function of at least one input): the legal interval of the
    first gene is empty and [np.random.randint] raises [ValueError],
    whatever the random draws. *)
Theorem spawn_on_nonpositive_level_back nrows ncols lb fns fis rate
    cfg fuel r :
  new_CgpConfig nrows ncols lb fns fis rate = Ok cfg ->
  0 < nrows -> 0 <= ncols -> lb <= 0 -> 1 <= max_inputs cfg ->
  spawn fuel cfg r = Raise ValueError.
Proof.
  intros Hcfg Hrows Hcols Hlb Hmx. unfold new_CgpConfig in Hcfg.
  destruct (Nat.eqb_spec (length fns) (length fis)) as [Hlen |];
    [| discriminate]. simpl in Hcfg.
  apply rbind_Ok in Hcfg as (mx & Hmax & [= <-]). simpl in Hmx.
  assert (Hne : (0 < length fis)%nat)
    by (destruct fis; [discriminate | simpl; lia]).
  unfold spawn. apply init_genes_first_fails; [| simpl; nia].
  intros r0. unfold init_gene. cbn [config new_Individual num_nodes
    num_func_genes function_inputs max_inputs].
  (* the gene itself is built *)
  assert (Hgene : exists g0 r1,
             (if 0 <? nrows * ncols
              then mbind (randint 0 (Z.of_nat (length fns))) (fun fi =>
                   mbind (lift (py_index fis fi)) (fun ni =>
                   lift (FunctionGen fi mx ni)))
              else lift (OutputGen mx)) r0 = Ok (g0, r1) /\
             inputs g0 = replicate (Z.to_nat mx) 0).
  { destruct (0 <? nrows * ncols).
    - unfold mbind at 1.
      destruct (randint 0 (Z.of_nat (length fns)) r0)
        as [[fi r1]| |] eqn:Efi.
      2,3: unfold randint in Efi;
           destruct (Z.leb_spec (Z.of_nat (length fns)) 0);
           [lia | discriminate].
      apply randint_Ok in Efi as (Hfi & _ & _).
      destruct (py_index_in_range fis fi) as [ni Hni]; [lia |].
      unfold mbind, lift. rewrite Hni.
      unfold FunctionGen, np_zeros.
      destruct (Z.ltb_spec mx 0); [lia |]. simpl. eauto.
    - unfold lift, OutputGen, np_zeros.
      destruct (Z.ltb_spec mx 0); [lia |]. simpl. eauto. }
  destruct Hgene as (g0 & r1 & Hg0 & Hins).
  unfold mbind at 1. rewrite Hg0.
  unfold mbind at 1, lift at 1, con_id_range.
  cbn [rows cols level_back num_input].
  destruct (Z.eqb_spec nrows 0); [lia |].
  rewrite Z.div_0_l by lia.
  replace (Z.min 0 ncols) with 0 by lia.
  destruct (Z.geb_spec (0 - lb) 0); [| lia].
  rewrite Hins, length_replicate.
  destruct (Z.to_nat mx) as [|k] eqn:Ek; [lia |].
  unfold mbind at 1. cbn [for_range]. unfold mbind at 1. unfold mbind at 1.
  unfold randint.
  destruct (Z.leb_spec (0 * nrows + 1 - ((0 - lb) * nrows + 1)) 0);
    [reflexivity | nia].
Qed.

Lemma spawn_on_nonpositive_level_back_witness :
  spawn 10 {| rows := 2; cols := 3; level_back := 0; num_input := 1;
              num_output := 1; num_nodes := 6; functions := [0%nat];
              function_inputs := [1]; num_func_genes := 1; max_inputs := 1;
              mutation_rate := 1 # 10 |} demo_rng
  = Raise ValueError.
Proof.
  apply (spawn_on_nonpositive_level_back 2 3 0 [0%nat] [1] (1 # 10));
    [reflexivity | lia | lia | lia | simpl; lia].
Defined.

(** * Mutation leaves the fitness fields alone *)

(** The fields that [__evaluator_wrapper] writes. *)
Definition fitness (ind : Individual)
    : option Q * option Z * option Z * option Q :=
  (score ind, model ind, total_params ind, accuracy ind).

Lemma check_active_fitness fuel ind ind' :
  check_active fuel ind = Ok ind' -> fitness ind' = fitness ind.
Proof.
  intros H. apply check_active_frame in H as (a0 & a & _ & -> & _).
  reflexivity.
Qed.

Lemma init_genes_fitness fuel ind r ind' r' :
  init_genes fuel ind r = Ok (ind', r') -> fitness ind' = fitness ind.
Proof.
  unfold init_genes. intros H.
  apply mbind_Ok in H as (gs & r1 & _ & H). apply lift_Ok in H as [H _].
  apply check_active_fitness in H. exact H.
Qed.

Lemma mutate_pass_fitness fuel ind r ind' cnt r' :
  mutate_pass fuel ind r = Ok (ind', cnt, r') -> fitness ind' = fitness ind.
Proof.
  unfold mutate_pass. intros H.
  apply mbind_Ok in H as ([gs c] & r1 & _ & H).
  apply mbind_Ok in H as (ind1 & r2 & Hchk & H).
  apply lift_Ok in Hchk as [Hchk _]. apply ret_Ok in H as [H _].
  injection H as -> _. apply check_active_fitness in Hchk. exact Hchk.
Qed.

(** X13: [mutate] rewrites the genes and the mask only: the score, the
    model, the parameter count and the accuracy of the genotype it returns
    are the ones it was called with.  A mutated clone keeps reporting its
    parent's fitness until it is evaluated. *)
Theorem mutate_keeps_fitness_fields fuel force ind r ind' r' :
  mutate fuel force ind r = Ok (ind', r') ->
  score ind' = score ind /\ model ind' = model ind /\
  total_params ind' = total_params ind /\ accuracy ind' = accuracy ind.
Proof.
  intros H.
  assert (Hfit : fitness ind' = fitness ind).
  { revert force ind r H.
    induction fuel as [|f IH]; simpl; intros force ind r H; [discriminate |].
    apply mbind_Ok in H as (ind0 & r0 & H0 & H).
    assert (Hf0 : fitness ind0 = fitness ind).
    { destruct (is_spawned ind); simpl in H0.
      - apply ret_Ok in H0 as [-> _]. reflexivity.
      - eapply init_genes_fitness; eassumption. }
    apply mbind_Ok in H as ([ind1 cnt] & r1 & H1 & H).
    apply mutate_pass_fitness in H1.
    destruct force; [| apply ret_Ok in H as [-> _]; congruence].
    destruct (active ind1) as [a|]; [| inv_run].
    destruct (active ind0) as [o|]; [| inv_run].
    destruct (array_equal a o);
      [| apply ret_Ok in H as [-> _]; congruence].
    apply IH in H. congruence. }
  unfold fitness in Hfit. injection Hfit as -> -> -> ->. auto.
Qed.

Lemma mutate_keeps_fitness_fields_witness :
  exists ind' r',
    mutate 20 true demo_parent {| tape := demo_tape; pos := 20 |}
      = Ok (ind', r') /\
    score ind' = None /\ genes ind' <> genes demo_parent.
Proof.
  destruct (mutate 20 true demo_parent {| tape := demo_tape; pos := 20 |})
    as [[ind' r']| |] eqn:E; [| vm_compute in E; discriminate..].
  exists ind', r'. split; [reflexivity |].
  split; [exact (proj1 (mutate_keeps_fitness_fields _ _ _ _ _ _ E)) |].
  vm_compute in E. injection E as <- _. vm_compute. discriminate.
Defined.


(** * Pareto ranking: what [fast_non_dominated_sort] does get right *)

(** ** The test of lines 395-400 is Pareto dominance *)

(** [p] is at least as good as [q] in score and in size, and better in
    one of the two. *)
Definition pareto_better (sp : Q) (tp : Z) (sq : Q) (tq : Z) : Prop :=
  (sq <= sp)%Q /\ tp <= tq /\ ((sq < sp)%Q \/ tp < tq).

Lemma Qle_bool_false x y : Qle_bool x y = false <-> (y < x)%Q.
Proof.
  split.
  - intros H. apply Qnot_le_lt. intros Hle.
    apply Qle_bool_iff in Hle. congruence.
  - intros Hlt. destruct (Qle_bool x y) eqn:E; [| reflexivity].
    apply Qle_bool_iff in E. apply Qlt_not_le in Hlt. contradiction.
Qed.

Lemma pareto_better_bool sp tp sq tq :
  pareto_better sp tp sq tq <->
  Qle_bool sq sp = true /\ tp <= tq /\
  (Qle_bool sp sq = false \/ tp < tq).
Proof.
  unfold pareto_better. split; intros (A & B & C).
  - split; [now apply Qle_bool_iff |]. split; [assumption |].
    destruct C as [C | C]; [left; now apply Qle_bool_false | now right].
  - split; [now apply Qle_bool_iff |]. split; [assumption |].
    destruct C as [C | C]; [left; now apply Qle_bool_false | now right].
Qed.

Lemma dominates_evaluated p q sp tp sq tq :
  score p = Some sp -> total_params p = Some tp ->
  score q = Some sq -> total_params q = Some tq ->
  exists b, dominates p q = Ok b /\
            (b = true <-> pareto_better sp tp sq tq).
Proof.
  intros Hsp Htp Hsq Htq.
  unfold dominates, or_else, and_then, gt_score, ge_score, lt_params,
    le_params.
  rewrite Hsp, Htp, Hsq, Htq. setoid_rewrite pareto_better_bool. simpl.
  assert (Htot : Qle_bool sp sq = true \/ Qle_bool sq sp = true).
  { destruct (Qlt_le_dec sp sq) as [Hlt | Hle].
    - left. now apply Qle_bool_iff, Qlt_le_weak.
    - right. now apply Qle_bool_iff. }
  destruct (Qle_bool sp sq), (Qle_bool sq sp), (Z.ltb_spec tp tq),
    (Z.leb_spec tp tq); simpl; try (destruct Htot; discriminate);
    eexists; (split; [reflexivity |]);
    (split; [intros Hb; try discriminate Hb;
             (split; [reflexivity | split; [lia |]]);
             first [left; reflexivity | right; lia]
            | intros (A & B & [C | C]);
              first [reflexivity | discriminate | lia]]).
Qed.

(** A genome that lacks a score makes every comparison raise. *)
Lemma dominates_no_score p q :
  score p = None \/ score q = None -> dominates p q = Raise TypeError.
Proof.
  intros H. unfold dominates, or_else, and_then, gt_score.
  destruct (score p), (score q); destruct H; try discriminate; reflexivity.
Qed.

(** A comparison answers a boolean or raises [TypeError]. *)
Lemma dominates_cases p q :
  (exists b, dominates p q = Ok b) \/ dominates p q = Raise TypeError.
Proof.
  unfold dominates, or_else, and_then, gt_score, ge_score, lt_params,
    le_params.
  destruct (score p), (score q); simpl; auto.
  destruct (total_params p), (total_params q); simpl;
    repeat (match goal with
            | |- context [if ?b then _ else _] => destruct b; simpl
            end); eauto.
Qed.

(** A genome compared with itself: never better, and [TypeError] when it
    lacks a fitness field. *)
Lemma dominates_self p :
  (score p = None \/ total_params p = None) ->
  dominates p p = Raise TypeError.
Proof.
  intros H. unfold dominates, or_else, and_then, gt_score, ge_score,
    lt_params, le_params.
  destruct (score p) as [s|]; [| reflexivity].
  destruct H as [? | H]; [discriminate |]. rewrite H. simpl.
  assert (Hs : Qle_bool s s = true) by (apply Qle_bool_iff, Qle_refl).
  rewrite Hs. reflexivity.
Qed.

(** A comparison that answers [True] was made on two evaluated genomes,
    the first Pareto-better than the second. *)
Lemma dominates_true_inv p q :
  dominates p q = Ok true ->
  exists sp tp sq tq,
    score p = Some sp /\ total_params p = Some tp /\
    score q = Some sq /\ total_params q = Some tq /\
    pareto_better sp tp sq tq.
Proof.
  intros H.
  destruct (score p) as [sp|] eqn:Hsp;
    [| rewrite dominates_no_score in H by (rewrite Hsp; auto);
       discriminate].
  destruct (score q) as [sq|] eqn:Hsq;
    [| rewrite dominates_no_score in H by (rewrite Hsq; auto);
       discriminate].
  destruct (total_params p) as [tp|] eqn:Htp,
           (total_params q) as [tq|] eqn:Htq.
  - destruct (dominates_evaluated p q _ _ _ _ Hsp Htp Hsq Htq)
      as (b & Hb & Hiff).
    rewrite Hb in H. injection H as ->.
    exists sp, tp, sq, tq. repeat split; try reflexivity; now apply Hiff.
  - exfalso. revert H.
    unfold dominates, or_else, and_then, gt_score, ge_score, lt_params,
      le_params. rewrite ?Hsp, ?Hsq, ?Htp, ?Htq. simpl.
    destruct (Qle_bool sp sq), (Qle_bool sq sp); simpl; discriminate.
  - exfalso. revert H.
    unfold dominates, or_else, and_then, gt_score, ge_score, lt_params,
      le_params. rewrite ?Hsp, ?Hsq, ?Htp, ?Htq. simpl.
    destruct (Qle_bool sp sq), (Qle_bool sq sp); simpl; discriminate.
  - exfalso. revert H.
    unfold dominates, or_else, and_then, gt_score, ge_score, lt_params,
      le_params. rewrite ?Hsp, ?Hsq, ?Htp, ?Htq. simpl.
    destruct (Qle_bool sp sq), (Qle_bool sq sp); simpl; discriminate.
Qed.

Lemma dominates_asym p q :
  dominates p q = Ok true -> dominates q p = Ok false.
Proof.
  intros H.
  destruct (dominates_true_inv _ _ H)
    as (sp & tp & sq & tq & Hsp & Htp & Hsq & Htq & Hb).
  destruct (dominates_evaluated q p _ _ _ _ Hsq Htq Hsp Htp)
    as (b & Hb' & Hiff).
  rewrite Hb'. f_equal. destruct b; [| reflexivity].
  destruct Hb as (H1 & H2 & H3).
  destruct (proj1 Hiff eq_refl) as (H1' & H2' & H3').
  exfalso. destruct H3 as [Hlt | Hlt]; [| lia].
  apply Qlt_not_le in Hlt. contradiction.
Qed.

Lemma dominates_trans p q u :
  dominates p q = Ok true -> dominates q u = Ok true ->
  dominates p u = Ok true.
Proof.
  intros Hpq Hqu.
  destruct (dominates_true_inv _ _ Hpq)
    as (sp & tp & sq & tq & Hsp & Htp & Hsq & Htq & (A1 & A2 & A3)).
  destruct (dominates_true_inv _ _ Hqu)
    as (sq' & tq' & su & tu & Hsq' & Htq' & Hsu & Htu & (B1 & B2 & B3)).
  rewrite Hsq in Hsq'. injection Hsq' as <-.
  rewrite Htq in Htq'. injection Htq' as <-.
  destruct (dominates_evaluated p u _ _ _ _ Hsp Htp Hsu Htu)
    as (b & Hb & Hiff).
  rewrite Hb. f_equal. apply Hiff.
  split; [eapply Qle_trans; eassumption |]. split; [lia |].
  destruct A3 as [A3 | A3]; [| right; lia].
  left. eapply Qle_lt_trans; eassumption.
Qed.

(** X14: on two evaluated genomes the three-clause test of lines 395-400
    is Pareto dominance: [p] beats [q] exactly when its score is no lower
    and its parameter count no higher, one of the two strictly.  It is a
    strict partial order (never both ways, transitive).  A missing score
    makes the test raise [TypeError]. *)
Theorem dominates_is_pareto_dominance :
  (forall p q sp tp sq tq,
      score p = Some sp -> total_params p = Some tp ->
      score q = Some sq -> total_params q = Some tq ->
      (dominates p q = Ok true \/ dominates p q = Ok false) /\
      (dominates p q = Ok true <-> pareto_better sp tp sq tq)) /\
  (forall p q, dominates p q = Ok true -> dominates q p = Ok false) /\
  (forall p q u, dominates p q = Ok true -> dominates q u = Ok true ->
                 dominates p u = Ok true) /\
  (forall p q, score p = None \/ score q = None ->
               dominates p q = Raise TypeError).
Proof.
  split; [| split; [| split]].
  - intros p q sp tp sq tq Hsp Htp Hsq Htq.
    destruct (dominates_evaluated p q _ _ _ _ Hsp Htp Hsq Htq)
      as (b & Hb & Hiff).
    rewrite Hb. split; [destruct b; auto |].
    split; [intros [= ->]; now apply Hiff | intros Hp; f_equal; now apply Hiff].
  - apply dominates_asym.
  - apply dominates_trans.
  - apply dominates_no_score.
Qed.

Lemma dominates_is_pareto_dominance_witness :
  (dominates gX.2 gY.2 = Ok true <-> pareto_better 2%Q 4 1%Q 5) /\
  dominates gY.2 gX.2 = Ok false.
Proof.
  split.
  - apply (proj1 dominates_is_pareto_dominance gX.2 gY.2 2%Q 4 1%Q 5);
      reflexivity.
  - apply (proj1 (proj2 dominates_is_pareto_dominance) gX.2 gY.2).
    reflexivity.
Defined.


(** ** The counting phase *)

Lemma py_index_nat {A} (l : list A) (j : nat) x :
  l !! j = Some x -> py_index l (Z.of_nat j) = Ok x.
Proof.
  intros H. pose proof (lookup_lt_Some _ _ _ H).
  unfold py_index. rewrite py_pos_in_range by lia.
  now rewrite Nat2Z.id, H.
Qed.

Lemma py_store_nat {A} (l : list A) (j : nat) x :
  (j < length l)%nat -> py_store l (Z.of_nat j) x = Ok (<[j := x]> l).
Proof.
  intros H. rewrite py_store_in_range by lia. now rewrite Nat2Z.id.
Qed.

(** A loop whose turns return, or raise [e] for the reason [E], returns,
    or raises [e] for that reason. *)
Lemma for_range_res_ok_or {St} (P : Z -> St -> Prop)
    (body : Z -> St -> result St) (e : exn) (E : Prop) :
  forall k i,
    (forall x s, i <= x < i + Z.of_nat k -> P x s ->
       (exists s', body x s = Ok s' /\ P (x + 1) s') \/
       (body x s = Raise e /\ E)) ->
    forall s, P i s ->
      (exists s', for_range_res body k i s = Ok s' /\ P (i + Z.of_nat k) s')
      \/ (for_range_res body k i s = Raise e /\ E).
Proof.
  induction k as [|k IH]; intros i Hb s HP.
  - left. exists s. simpl. rewrite Z.add_0_r. auto.
  - simpl. destruct (Hb i s ltac:(lia) HP) as [(s1 & H1 & HP1) | [H1 HE]];
      rewrite H1; simpl; [| now right].
    destruct (IH (i + 1) ltac:(intros; apply Hb; [lia | assumption]) s1 HP1)
      as [(s' & H' & HP') | H'].
    + left. exists s'. split; [assumption |].
      now replace (i + Z.of_nat (S k)) with (i + 1 + Z.of_nat k) by lia.
    + now right.
Qed.

(** ... and raises [e] if one turn always does. *)
Lemma for_range_res_raises {St} (P : Z -> St -> Prop)
    (body : Z -> St -> result St) (e : exn) (E : Prop) (j : Z) :
  forall k i,
    (forall x s, i <= x < i + Z.of_nat k -> P x s ->
       (exists s', body x s = Ok s' /\ P (x + 1) s') \/
       (body x s = Raise e /\ E)) ->
    i <= j < i + Z.of_nat k ->
    (forall s, P j s -> body j s = Raise e) ->
    forall s, P i s -> for_range_res body k i s = Raise e.
Proof.
  induction k as [|k IH]; intros i Hb Hj Hraise s HP; [lia |].
  simpl. destruct (Z.eq_dec i j) as [-> | Hne].
  - rewrite Hraise by assumption. reflexivity.
  - destruct (Hb i s ltac:(lia) HP) as [(s1 & H1 & HP1) | [H1 _]];
      rewrite H1; simpl; [| reflexivity].
    apply IH; [| lia | assumption | assumption].
    intros; apply Hb; [lia | assumption].
Qed.

(** A genome that was not evaluated (or not completely). *)
Definition lacks_fitness (g : Genome) : Prop :=
  score g.2 = None \/ total_params g.2 = None.

Definition some_lacks_fitness (pop : list Genome) : Prop :=
  exists g, g ∈ pop /\ lacks_fitness g.

Lemma dominates_raise_inv (p q : Genome) :
  dominates p.2 q.2 = Raise TypeError -> lacks_fitness p \/ lacks_fitness q.
Proof.
  intros H. unfold lacks_fitness.
  destruct (score p.2) as [sp|] eqn:Hsp; [| auto].
  destruct (total_params p.2) as [tp|] eqn:Htp; [| auto].
  destruct (score q.2) as [sq|] eqn:Hsq; [| auto].
  destruct (total_params q.2) as [tq|] eqn:Htq; [| auto].
  destruct (dominates_evaluated _ _ _ _ _ _ Hsp Htp Hsq Htq) as (b & Hb & _).
  congruence.
Qed.

(** The working lists all have one entry per genome. *)
Definition lens (len : nat) (st : SortState) : Prop :=
  length (S_sets st) = len /\ length (n_count st) = len /\
  length (rank st) = len /\ (0 < length (front st))%nat.

(** One comparison of the counting phase, spelled out. *)
Lemma scan_pair_eq pop (p q : nat) st gp gq Sp v :
  pop !! p = Some gp -> pop !! q = Some gq ->
  S_sets st !! p = Some Sp -> n_count st !! p = Some v ->
  scan_pair pop (Z.of_nat p) (Z.of_nat q) st =
  (pq <- dominates gp.2 gq.2 ;;
   if pq then
     Ok {| S_sets := <[p := append_new gq Sp]> (S_sets st);
           n_count := n_count st; rank := rank st; front := front st |}
   else
     qp <- dominates gq.2 gp.2 ;;
     if qp then
       Ok {| S_sets := S_sets st; n_count := <[p := v + 1]> (n_count st);
             rank := rank st; front := front st |}
     else Ok st)%res.
Proof.
  intros Hp Hq HS Hn. unfold scan_pair. unfold Genome in *.
  rewrite (py_index_nat _ _ _ Hp), (py_index_nat _ _ _ Hq). simpl.
  destruct (dominates gp.2 gq.2) as [[]| |]; simpl; try reflexivity.
  - rewrite (py_index_nat _ _ _ HS). simpl.
    rewrite py_store_nat by (eapply lookup_lt_Some; eassumption).
    reflexivity.
  - destruct (dominates gq.2 gp.2) as [[]| |]; simpl; try reflexivity.
    rewrite (py_index_nat _ _ _ Hn). simpl.
    rewrite py_store_nat by (eapply lookup_lt_Some; eassumption).
    reflexivity.
Qed.

(** What the inner loop keeps, for a fixed [p]: the lengths, the fronts,
    the rank list, and a count of [p] that is zero exactly when none of
    the genomes compared so far beats [p]. *)
Definition scan_inv (pop : list Genome) (p : nat) (gp : Genome)
    (st0 : SortState) (q : Z) (st : SortState) : Prop :=
  0 <= q /\ lens (length pop) st /\ front st = front st0 /\
  exists v, n_count st !! p = Some v /\ 0 <= v /\
            (v = 0 <-> forall (q' : nat) gq,
                         Z.of_nat q' < q -> pop !! q' = Some gq ->
                         dominates gq.2 gp.2 <> Ok true).

Lemma scan_pair_step pop (p : nat) gp st0 q st :
  pop !! p = Some gp -> 0 <= q < Z.of_nat (length pop) ->
  scan_inv pop p gp st0 q st ->
  (exists st', scan_pair pop (Z.of_nat p) q st = Ok st' /\
               scan_inv pop p gp st0 (q + 1) st') \/
  (scan_pair pop (Z.of_nat p) q st = Raise TypeError /\
   some_lacks_fitness pop).
Proof.
  intros Hp Hq (Hq0 & (HlS & Hln & Hlr & Hlf) & Hfr & v & Hv & Hv0 & Hiff).
  pose proof (lookup_lt_Some _ _ _ Hp) as Hplt.
  destruct (lookup_lt_is_Some_2 pop (Z.to_nat q)) as [gq Hgq]; [lia |].
  destruct (lookup_lt_is_Some_2 (S_sets st) p) as [Sp HSp]; [lia |].
  pose proof (scan_pair_eq pop p (Z.to_nat q) st gp gq Sp v Hp Hgq HSp Hv)
    as Heq.
  rewrite Z2Nat.id in Heq by lia. rewrite Heq. clear Heq.
  assert (Hnext : forall (b : bool),
             dominates gq.2 gp.2 = Ok b ->
             (((if b then v + 1 else v) = 0) <->
              forall (q' : nat) gq',
                Z.of_nat q' < q + 1 -> pop !! q' = Some gq' ->
                dominates gq'.2 gp.2 <> Ok true)).
  { intros b Hb. split.
    - intros Hz q' gq' Hq' Hgq'.
      destruct b; [lia |].
      destruct (decide (q' = Z.to_nat q)) as [-> | Hne].
      + unfold Genome in *. rewrite Hgq in Hgq'. injection Hgq' as <-.
        congruence.
      + apply (proj1 Hiff Hz q'); [lia | assumption].
    - intros Hall. destruct b.
      + exfalso. apply (Hall (Z.to_nat q) gq); [lia | assumption | assumption].
      + apply Hiff. intros q' gq' Hq'. apply Hall. lia. }
  assert (Hlack : forall a b : Genome,
             a ∈ pop -> b ∈ pop -> dominates a.2 b.2 = Raise TypeError ->
             some_lacks_fitness pop).
  { intros a b Ha Hb Hr. apply dominates_raise_inv in Hr as [Hr | Hr];
      [exists a | exists b]; auto. }
  assert (Hinp : gp ∈ pop) by (eapply list_elem_of_lookup_2; eassumption).
  assert (Hinq : gq ∈ pop) by (eapply list_elem_of_lookup_2; eassumption).
  destruct (dominates_cases gp.2 gq.2) as [[bpq Hpq] | Hpq]; rewrite Hpq;
    simpl; [| right; split; [reflexivity | eauto]].
  destruct bpq.
  - (* [p] beats [q]: [q] does not beat [p] *)
    left. eexists. split; [reflexivity |].
    split; [lia |]. split.
    { unfold lens. simpl. rewrite length_insert. auto. }
    split; [assumption |]. exists v. simpl. split; [assumption |].
    split; [assumption |].
    apply (Hnext false). now apply dominates_asym.
  - destruct (dominates_cases gq.2 gp.2) as [[bqp Hqp] | Hqp]; rewrite Hqp;
      simpl; [| right; split; [reflexivity | eauto]].
    left. destruct bqp.
    + eexists. split; [reflexivity |].
      split; [lia |]. split.
      { unfold lens. simpl. rewrite length_insert. auto. }
      split; [assumption |]. exists (v + 1). simpl.
      split; [apply list_lookup_insert_eq; lia |].
      split; [lia |]. apply (Hnext true Hqp).
    + exists st. split; [reflexivity |].
      split; [lia |]. split; [unfold lens; auto |].
      split; [assumption |]. exists v.
      split; [assumption |]. split; [assumption |]. apply (Hnext false Hqp).
Qed.

(** [g] is beaten by no genome of [pop]. *)
Definition unbeaten (pop : list Genome) (g : Genome) : bool :=
  forallb (fun q : Genome =>
             match dominates q.2 g.2 with Ok true => false | _ => true end)
    pop.

Lemma unbeaten_spec pop g :
  unbeaten pop g = true <->
  forall (q : nat) gq, pop !! q = Some gq -> dominates gq.2 g.2 <> Ok true.
Proof.
  unfold unbeaten. rewrite forallb_forall. split.
  - intros H q gq Hq Hd.
    assert (Hin : In gq pop)
      by (apply list_elem_of_In; eapply list_elem_of_lookup_2; eassumption).
    specialize (H _ Hin). rewrite Hd in H. discriminate.
  - intros H gq Hin. apply list_elem_of_In, list_elem_of_lookup in Hin as [q Hq].
    specialize (H _ _ Hq).
    destruct (dominates gq.2 g.2) as [[]| |]; congruence.
Qed.

(** One turn of the outer loop, on a state whose only front is [F]. *)
Lemma scan_genome_step pop (p : nat) gp st F :
  pop !! p = Some gp -> lens (length pop) st -> front st = [F] ->
  (exists st',
      scan_genome pop (Z.of_nat p) st = Ok st' /\
      lens (length pop) st' /\
      front st' = [if unbeaten pop gp then append_new gp F else F]) \/
  (scan_genome pop (Z.of_nat p) st = Raise TypeError /\
   some_lacks_fitness pop).
Proof.
  intros Hp (HlS & Hln & Hlr & Hlf) Hfr.
  pose proof (lookup_lt_Some _ _ _ Hp) as Hplt.
  unfold scan_genome.
  rewrite py_store_nat by lia. simpl.
  rewrite py_store_nat by lia. simpl.
  set (st1 := {| S_sets := <[p := []]> (S_sets st);
                 n_count := <[p := 0]> (n_count st);
                 rank := rank st; front := front st |}).
  destruct (for_range_res_ok_or (scan_inv pop p gp st1)
              (scan_pair pop (Z.of_nat p)) TypeError
              (some_lacks_fitness pop) (length pop) 0)
    with (s := st1) as [(st2 & Hloop & Hinv) | [Hloop HE]].
  - intros q s Hq Hs. apply scan_pair_step; [assumption | lia | assumption].
  - split; [lia |]. split.
    { unfold lens, st1. simpl. rewrite !length_insert. auto. }
    split; [reflexivity |]. exists 0. unfold st1. simpl.
    split; [apply list_lookup_insert_eq; lia |]. split; [lia |].
    split; [intros _ q' gq Hq'; lia | reflexivity].
  - rewrite Hloop. simpl.
    destruct Hinv as (_ & (HlS2 & Hln2 & Hlr2 & Hlf2) & Hfr2 & v & Hv & Hv0
                      & Hiff).
    rewrite (py_index_nat _ _ _ Hv). simpl.
    assert (Hub : unbeaten pop gp = true <-> v = 0).
    { rewrite unbeaten_spec, Hiff. split.
      - intros H q' gq _. apply H.
      - intros H q' gq Hq'. apply (H q' gq); [| assumption].
        apply lookup_lt_Some in Hq'. unfold Genome in *. lia. }
    unfold st1 in Hfr2. simpl in Hfr2. rewrite Hfr in Hfr2.
    left. destruct (Z.eqb_spec v 0) as [Hz | Hnz].
    + rewrite py_store_nat by lia. simpl.
      rewrite (py_index_nat _ _ _ Hp). simpl.
      rewrite Hfr2. simpl.
      eexists. split; [reflexivity |]. split.
      { unfold lens. simpl. rewrite length_insert. auto with lia. }
      simpl. rewrite (proj2 Hub Hz). reflexivity.
    + exists st2. split; [reflexivity |]. split; [unfold lens; auto |].
      rewrite Hfr2. destruct (unbeaten pop gp) eqn:E; [| reflexivity].
      exfalso. apply Hnz. now apply Hub.
  - rewrite Hloop. right. auto.
Qed.

(** The first front after the genomes of [l] were scanned. *)
Definition first_front_of (pop l : list Genome) : list Genome :=
  fold_left (fun F g => if unbeaten pop g then append_new g F else F) l [].

Definition initial_state (len : nat) : SortState :=
  {| S_sets := replicate len []; n_count := replicate len 0;
     rank := replicate len 0; front := [[]] |}.

(** The counting phase as a whole. *)
Lemma counting_phase pop :
  (exists st,
      for_range_res (scan_genome pop) (length pop) 0
        (initial_state (length pop)) = Ok st /\
      lens (length pop) st /\ front st = [first_front_of pop pop]) \/
  (for_range_res (scan_genome pop) (length pop) 0
     (initial_state (length pop)) = Raise TypeError /\
   some_lacks_fitness pop).
Proof.
  pose (P := fun (x : Z) (st : SortState) =>
               0 <= x /\ lens (length pop) st /\
               front st = [first_front_of pop (take (Z.to_nat x) pop)]).
  destruct (for_range_res_ok_or P (scan_genome pop) TypeError
              (some_lacks_fitness pop) (length pop) 0)
    with (s := initial_state (length pop))
    as [(st & Hloop & (_ & Hlens & Hfr)) | H].
  - intros x st Hx (Hx0 & Hlens & Hfr).
    destruct (lookup_lt_is_Some_2 pop (Z.to_nat x)) as [gp Hgp]; [lia |].
    destruct (scan_genome_step pop (Z.to_nat x) gp st _ Hgp Hlens Hfr)
      as [(st' & Hrun & Hlens' & Hfr') | Hrun];
      rewrite Z2Nat.id in Hrun by lia; [left | now right].
    exists st'. split; [assumption |]. split; [lia |].
    split; [assumption |]. rewrite Hfr'.
    replace (Z.to_nat (x + 1)) with (S (Z.to_nat x)) by lia.
    rewrite (take_S_r _ _ _ Hgp). unfold first_front_of.
    rewrite fold_left_app. reflexivity.
  - split; [lia |]. split.
    + unfold lens, initial_state. simpl. rewrite !length_replicate.
      auto with lia.
    + reflexivity.
  - left. exists st. split; [assumption |]. split; [assumption |].
    rewrite Hfr.
    replace (Z.to_nat (0 + Z.of_nat (length pop))) with (length pop) by lia.
    now rewrite firstn_all.
  - now right.
Qed.

(** The turn of a genome that lacks a fitness field raises: it is compared
    with itself. *)
Lemma scan_genome_raises pop (j : nat) g st :
  pop !! j = Some g -> lacks_fitness g -> lens (length pop) st ->
  scan_genome pop (Z.of_nat j) st = Raise TypeError.
Proof.
  intros Hj Hbad (HlS & Hln & Hlr & Hlf).
  pose proof (lookup_lt_Some _ _ _ Hj) as Hjlt.
  unfold scan_genome.
  rewrite py_store_nat by lia. simpl.
  rewrite py_store_nat by lia. simpl.
  set (st1 := {| S_sets := <[j := []]> (S_sets st);
                 n_count := <[j := 0]> (n_count st);
                 rank := rank st; front := front st |}).
  rewrite (for_range_res_raises (scan_inv pop j g st1)
             (scan_pair pop (Z.of_nat j)) TypeError (some_lacks_fitness pop)
             (Z.of_nat j) (length pop) 0); [reflexivity | | lia | |].
  - intros q s Hq Hs. apply scan_pair_step; [assumption | lia | assumption].
  - intros s (_ & (HlS' & Hln' & _) & _ & v & Hv & _).
    destruct (lookup_lt_is_Some_2 (S_sets s) j) as [Sp HSp]; [lia |].
    rewrite (scan_pair_eq pop j j s g g Sp v Hj Hj HSp Hv).
    rewrite dominates_self by assumption. reflexivity.
  - split; [lia |]. split.
    { unfold lens, st1. simpl. rewrite !length_insert. auto. }
    split; [reflexivity |]. exists 0. unfold st1. simpl.
    split; [apply list_lookup_insert_eq; lia |]. split; [lia |].
    split; [intros _ q' gq Hq'; lia | reflexivity].
Qed.

(** X15: a population that holds a genome without a score or without a
    parameter count cannot be ranked: [fast_non_dominated_sort] raises
    [TypeError] (the genome is compared with itself at the latest). *)
Theorem sort_raises_on_unevaluated_genome fuel pop g :
  g ∈ pop -> score g.2 = None \/ total_params g.2 = None ->
  fast_non_dominated_sort fuel pop = Raise TypeError.
Proof.
  intros Hin Hbad. apply list_elem_of_lookup in Hin as [j Hj].
  pose proof (lookup_lt_Some _ _ _ Hj) as Hjlt.
  unfold fast_non_dominated_sort.
  pose (P := fun (x : Z) (st : SortState) =>
               0 <= x /\ lens (length pop) st /\
               front st = [first_front_of pop (take (Z.to_nat x) pop)]).
  rewrite (for_range_res_raises P (scan_genome pop) TypeError
             (some_lacks_fitness pop) (Z.of_nat j) (length pop) 0);
    [reflexivity | | unfold Genome in *; lia | |].
  - intros x st Hx (Hx0 & Hlens & Hfr).
    destruct (lookup_lt_is_Some_2 pop (Z.to_nat x)) as [gp Hgp]; [lia |].
    destruct (scan_genome_step pop (Z.to_nat x) gp st _ Hgp Hlens Hfr)
      as [(st' & Hrun & Hlens' & Hfr') | Hrun];
      rewrite Z2Nat.id in Hrun by lia; [left | now right].
    exists st'. split; [assumption |]. split; [lia |].
    split; [assumption |]. rewrite Hfr'.
    replace (Z.to_nat (x + 1)) with (S (Z.to_nat x)) by lia.
    rewrite (take_S_r _ _ _ Hgp). unfold first_front_of.
    rewrite fold_left_app. reflexivity.
  - intros st (_ & Hlens & _). eapply scan_genome_raises; eassumption.
  - split; [lia |]. split; [| reflexivity].
    unfold lens. simpl. rewrite !length_replicate. auto with lia.
Qed.

Lemma sort_raises_on_unevaluated_genome_witness :
  fast_non_dominated_sort 10 [gA; (7%nat, demo_parent); gB] = Raise TypeError.
Proof.
  apply (sort_raises_on_unevaluated_genome 10 _ (7%nat, demo_parent)).
  - apply list_elem_of_further, list_elem_of_here.
  - left. reflexivity.
Defined.

(** ** The peeling phase never touches the fronts it has built *)

Lemma peel_one_front pop i q st Q st' Q' :
  peel_one pop i q (st, Q) = Ok (st', Q') -> front st' = front st.
Proof.
  unfold peel_one. intros H.
  apply rbind_Ok in H as (nq & _ & H).
  apply rbind_Ok in H as (n' & _ & H).
  apply rbind_Ok in H as (nq' & _ & H).
  destruct (nq' =? 0).
  - apply rbind_Ok in H as (rank' & _ & H).
    apply rbind_Ok in H as (gq & _ & H). injection H as <- _. reflexivity.
  - injection H as <- _. reflexivity.
Qed.

Lemma peel_front_front pop i members :
  forall acc acc',
    peel_front pop i members acc = Ok acc' -> front acc'.1 = front acc.1.
Proof.
  induction members as [|m members IH]; simpl; intros acc acc' H.
  - injection H as <-. reflexivity.
  - apply rbind_Ok in H as (acc1 & Hloop & H).
    apply IH in H. rewrite H.
    apply (for_range_res_inv
             (fun _ (a : SortState * list Genome) =>
                front a.1 = front acc.1)) in Hloop;
      [assumption | | reflexivity].
    intros j [s Q] [s' Q'] Hs Hb. simpl in *.
    apply peel_one_front in Hb. congruence.
Qed.

Lemma peel_loop_front pop :
  forall fuel i st st',
    0 <= i -> peel_loop fuel pop i st = Ok st' ->
    exists ext,
      front st' = front st ++ ext /\
      (front st !! Z.to_nat i = Some [] -> ext = []) /\
      forall cur, front st !! Z.to_nat i = Some cur -> cur <> [] ->
                  ext <> [].
Proof.
  induction fuel as [|f IH]; intros i st st' Hi H.
  - simpl in H. apply rbind_Ok in H as (cur & Hcur & H).
    apply py_index_nonneg in Hcur; [| assumption].
    destruct cur; [| discriminate]. injection H as <-.
    exists []. rewrite app_nil_r. split; [reflexivity |].
    split; [reflexivity |]. intros cur Hc. congruence.
  - simpl in H. apply rbind_Ok in H as (cur & Hcur & H).
    apply py_index_nonneg in Hcur; [| assumption].
    destruct cur as [|m cur].
    + injection H as <-. exists []. rewrite app_nil_r.
      split; [reflexivity |]. split; [reflexivity |].
      intros cur Hc. congruence.
    + apply rbind_Ok in H as ([st1 Q] & Hpeel & H).
      apply peel_front_front in Hpeel. simpl in Hpeel.
      apply IH in H as (ext & Hext & _); [| lia]. simpl in Hext.
      exists (Q :: ext). rewrite Hext, Hpeel, <- app_assoc.
      split; [reflexivity |]. split; [congruence |]. intros; discriminate.
Qed.

Lemma first_front_filter pop l :
  NoDup (l.*1) ->
  first_front_of pop l = List.filter (unbeaten pop) l.
Proof.
  intros Hnd. unfold first_front_of.
  assert (Hgen : forall acc,
             (forall g, g ∈ l -> g.1 ∉ acc.*1) ->
             fold_left (fun F g => if unbeaten pop g then append_new g F
                                   else F) l acc
             = acc ++ List.filter (unbeaten pop) l).
  { induction l as [|g l IH]; intros acc Hdisj; simpl.
    - now rewrite app_nil_r.
    - apply NoDup_cons in Hnd as [Hg Hnd].
      destruct (unbeaten pop g).
      + unfold append_new, py_in.
        rewrite bool_decide_eq_false_2 by (apply Hdisj; left).
        rewrite IH; [now rewrite <- app_assoc | assumption |].
        intros g' Hg'. rewrite fmap_app, elem_of_app. intros [Hin | Hin].
        * revert Hin. apply Hdisj. now right.
        * simpl in Hin. apply list_elem_of_singleton in Hin.
          apply Hg. rewrite <- Hin. apply list_elem_of_fmap. eauto.
      + apply IH; [assumption |]. intros g' Hg'. apply Hdisj. now right. }
  apply (Hgen []). intros g _ Hin. inversion Hin.
Qed.

(** X16: the first front is right.  When the genomes of the population
    are distinct objects and the ranking returns, its first front is the
    list of the genomes that no genome of the population beats, in the
    order of the population (and there is no front at all exactly when
    there is no such genome). *)
Theorem first_front_is_the_unbeaten_genomes fuel pop fronts :
  NoDup (pop.*1) ->
  fast_non_dominated_sort fuel pop = Ok fronts ->
  hd [] fronts = List.filter (unbeaten pop) pop /\
  (fronts = [] <-> List.filter (unbeaten pop) pop = []).
Proof.
  intros Hnd H. unfold fast_non_dominated_sort in H.
  apply rbind_Ok in H as (st & Hscan & H).
  apply rbind_Ok in H as (st' & Hpeel & H). injection H as <-.
  destruct (counting_phase pop) as [(st0 & Hscan0 & _ & Hfr) | [Hr _]];
    [| unfold initial_state in Hr; congruence].
  unfold initial_state in Hscan0. rewrite Hscan in Hscan0.
  injection Hscan0 as <-.
  rewrite (first_front_filter pop pop Hnd) in Hfr.
  apply peel_loop_front in Hpeel as (ext & Hext & Hnil & Hne); [| lia].
  rewrite Hext, Hfr. rewrite Hfr in Hnil, Hne. simpl in Hnil, Hne.
  destruct (List.filter (unbeaten pop) pop) as [|g F] eqn:EF.
  - (* no first front: the loop stops at once *)
    rewrite (Hnil eq_refl). simpl.
    split; [reflexivity | split; intros _; reflexivity].
  - specialize (Hne (g :: F) eq_refl ltac:(discriminate)).
    destruct ext as [|e ext]; [contradiction |]. simpl.
    split; [reflexivity |]. split; discriminate.
Qed.

Lemma first_front_is_the_unbeaten_genomes_witness :
  hd [] [[gA; gB]; [gX; gY]] = List.filter (unbeaten [gA; gB; gX; gY])
                                 [gA; gB; gX; gY].
Proof.
  apply (first_front_is_the_unbeaten_genomes 10 [gA; gB; gX; gY]).
  - apply (bool_decide_unpack _). vm_compute. reflexivity.
  - vm_compute. reflexivity.
Defined.

(** ** The peeling loop stops *)

(** The number of counts that are still positive. *)
Definition pos_count (l : list Z) : Z :=
  Z.of_nat (length (List.filter (fun v => 0 <? v) l)).

Lemma pos_count_cons v l :
  pos_count (v :: l) = (if 0 <? v then 1 else 0) + pos_count l.
Proof. unfold pos_count. simpl. destruct (0 <? v); simpl; lia. Qed.

Lemma pos_count_bounds l : 0 <= pos_count l <= Z.of_nat (length l).
Proof.
  induction l as [|v l IH]; [unfold pos_count; simpl; lia |].
  rewrite pos_count_cons. simpl length. destruct (0 <? v); lia.
Qed.

Lemma pos_count_insert l :
  forall (j : nat) old v,
    l !! j = Some old ->
    pos_count (<[j := v]> l)
    = pos_count l - (if 0 <? old then 1 else 0) + (if 0 <? v then 1 else 0).
Proof.
  induction l as [|x l IH]; intros j old v Hj; [discriminate |].
  destruct j as [|j]; simpl in *.
  - injection Hj as ->. rewrite !pos_count_cons. lia.
  - rewrite !pos_count_cons, (IH _ _ _ Hj). lia.
Qed.

(** What a round of peeling keeps: the lengths, the fronts, and a number
    of positive counts that has gone down as soon as the next front is not
    empty. *)
Definition peel_inv (len : nat) (fr : list (list Genome)) (n0 : Z)
    (acc : SortState * list Genome) : Prop :=
  lens len acc.1 /\ front acc.1 = fr /\
  pos_count (n_count acc.1) <= n0 /\
  (acc.2 <> [] -> pos_count (n_count acc.1) < n0).

Lemma peel_one_total pop i q fr n0 acc :
  0 <= q < Z.of_nat (length pop) ->
  peel_inv (length pop) fr n0 acc ->
  exists acc', peel_one pop i q acc = Ok acc' /\
               peel_inv (length pop) fr n0 acc'.
Proof.
  intros Hq ((HlS & Hln & Hlr & Hlf) & Hfr & Hle & Hlt).
  destruct acc as [st Q]. simpl in *. unfold peel_one.
  destruct (lookup_lt_is_Some_2 (n_count st) (Z.to_nat q)) as [old Hold];
    [lia |].
  assert (Hi : py_index (n_count st) q = Ok old).
  { unfold py_index. rewrite py_pos_in_range by lia. now rewrite Hold. }
  rewrite Hi. simpl. rewrite py_store_in_range by lia. simpl.
  assert (Hi' : py_index (<[Z.to_nat q := old - 1]> (n_count st)) q
                = Ok (old - 1)).
  { unfold py_index. rewrite py_pos_in_range by (rewrite length_insert; lia).
    rewrite list_lookup_insert_eq by lia. reflexivity. }
  rewrite Hi'. simpl.
  pose proof (pos_count_insert _ _ _ (old - 1) Hold) as Hpc.
  destruct (Z.eqb_spec (old - 1) 0) as [Hz | Hnz].
  - rewrite py_store_in_range by lia. simpl.
    destruct (lookup_lt_is_Some_2 pop (Z.to_nat q)) as [gq Hgq]; [lia |].
    assert (Hg : py_index pop q = Ok gq).
    { unfold py_index. rewrite py_pos_in_range by lia. now rewrite Hgq. }
    rewrite Hg. simpl. eexists. split; [reflexivity |].
    unfold peel_inv, lens. simpl. rewrite !length_insert.
    destruct (Z.ltb_spec 0 old); [| lia].
    destruct (Z.ltb_spec 0 (old - 1)); [lia |].
    repeat split; auto; lia.
  - eexists. split; [reflexivity |].
    unfold peel_inv, lens. simpl. rewrite !length_insert.
    destruct (Z.ltb_spec 0 old), (Z.ltb_spec 0 (old - 1)); try lia;
      (repeat split; auto; try lia; intros HQ; specialize (Hlt HQ); lia).
Qed.

Lemma peel_front_total pop i fr n0 members :
  forall acc,
    peel_inv (length pop) fr n0 acc ->
    exists acc', peel_front pop i members acc = Ok acc' /\
                 peel_inv (length pop) fr n0 acc'.
Proof.
  induction members as [|m members IH]; intros acc Hinv; simpl.
  - eauto.
  - destruct (for_range_res_total (fun _ a => peel_inv (length pop) fr n0 a)
                (peel_one pop i) (length (S_sets acc.1)) 0)
      with (s := acc) as (acc1 & Hloop & Hinv1).
    + intros q a Hq Ha. apply peel_one_total; [| assumption].
      destruct Hinv as ((HlS & _) & _). lia.
    + assumption.
    + rewrite Hloop. simpl. apply IH. assumption.
Qed.

Lemma peel_loop_total pop :
  forall fuel i st,
    0 <= i -> lens (length pop) st ->
    length (front st) = S (Z.to_nat i) ->
    (forall cur, front st !! Z.to_nat i = Some cur -> cur <> [] ->
                 pos_count (n_count st) < Z.of_nat fuel) ->
    exists st', peel_loop fuel pop i st = Ok st'.
Proof.
  induction fuel as [|f IH]; intros i st Hi Hlens Hlen Hfuel.
  - simpl.
    destruct (lookup_lt_is_Some_2 (front st) (Z.to_nat i)) as [cur Hcur];
      [lia |].
    assert (Hc : py_index (front st) i = Ok cur).
    { unfold py_index. rewrite py_pos_in_range by lia. now rewrite Hcur. }
    rewrite Hc. simpl. destruct cur as [|m cur]; [eauto |].
    specialize (Hfuel _ Hcur ltac:(discriminate)).
    pose proof (pos_count_bounds (n_count st)). simpl in Hfuel. lia.
  - simpl.
    destruct (lookup_lt_is_Some_2 (front st) (Z.to_nat i)) as [cur Hcur];
      [lia |].
    assert (Hc : py_index (front st) i = Ok cur).
    { unfold py_index. rewrite py_pos_in_range by lia. now rewrite Hcur. }
    rewrite Hc. simpl. destruct cur as [|m cur]; [eauto |].
    specialize (Hfuel _ Hcur ltac:(discriminate)).
    destruct (peel_front_total pop i (front st) (pos_count (n_count st))
                (m :: cur) (st, []))
      as ([st1 Q] & Hpeel & (Hlens1 & Hfr1 & Hle1 & Hlt1)).
    { split; [assumption |]. split; [reflexivity |]. simpl.
      split; [lia | congruence]. }
    rewrite Hpeel. simpl in *. apply IH.
    + lia.
    + destruct Hlens1 as (? & ? & ? & ?). unfold lens. simpl.
      rewrite length_app. simpl. auto with lia.
    + simpl. rewrite length_app, Hfr1, Hlen. simpl. lia.
    + simpl. intros cur' Hcur' Hne.
      rewrite Hfr1 in Hcur'.
      replace (Z.to_nat (i + 1)) with (length (front st)) in Hcur' by lia.
      rewrite list_lookup_middle in Hcur' by reflexivity.
      injection Hcur' as <-. specialize (Hlt1 Hne). lia.
Qed.

(** X17: on a population of evaluated genomes the ranking returns.  Its
    [while] loop stops after at most one round per genome: a round that
    leaves a non-empty front has brought one positive count to zero
    (fuel: one unit per round).  The empty population has no front. *)
Theorem sort_returns_on_evaluated_population :
  (forall fuel pop,
      (forall g, g ∈ pop ->
                 is_Some (score g.2) /\ is_Some (total_params g.2)) ->
      (length pop < fuel)%nat ->
      exists fronts, fast_non_dominated_sort fuel pop = Ok fronts) /\
  (forall fuel, fast_non_dominated_sort fuel [] = Ok []).
Proof.
  split.
  - intros fuel pop Hev Hfuel. unfold fast_non_dominated_sort.
    destruct (counting_phase pop)
      as [(st & Hscan & Hlens & Hfr) | [_ (g & Hin & Hbad)]].
    + unfold initial_state in Hscan. rewrite Hscan. simpl.
      destruct (peel_loop_total pop fuel 0 st) as [st' Hpeel];
        [lia | assumption | now rewrite Hfr | |].
      * intros cur _ _. destruct Hlens as (_ & Hln & _).
        pose proof (pos_count_bounds (n_count st)). lia.
      * rewrite Hpeel. simpl. eauto.
    + exfalso. destruct (Hev g Hin) as [[s Hs] [t Ht]].
      destruct Hbad; congruence.
  - intros fuel. destruct fuel; reflexivity.
Qed.

Lemma sort_returns_on_evaluated_population_witness :
  exists fronts, fast_non_dominated_sort 5 [gA; gB; gX; gY] = Ok fronts.
Proof.
  apply (proj1 sort_returns_on_evaluated_population 5%nat [gA; gB; gX; gY]);
    [| simpl; lia].
  intros g Hg. repeat (apply elem_of_cons in Hg as [-> | Hg]);
    [split; eexists; reflexivity.. |].
  inversion Hg.
Defined.


(** * The evolution loop: degenerate budgets, and elitism *)

(** A generation without children changes nothing but the ghost counter. *)
Lemma generation_without_children fuel nc evaluator comp force st r :
  nc <= 0 ->
  generation fuel nc evaluator comp force st r
  = Ok ({| parent := parent st; current_epoch := current_epoch st;
           log := log st ++ []; generations := generations st + 1 |}, r).
Proof.
  intros Hnc. unfold generation.
  replace (Z.to_nat nc) with 0%nat by lia. reflexivity.
Qed.

Lemma run_loop_without_children nc evaluator comp max_epochs force :
  nc <= 0 ->
  forall fuel st r,
    current_epoch st < max_epochs ->
    run_loop fuel nc evaluator comp max_epochs force st r = Timeout.
Proof.
  intros Hnc. induction fuel as [|f IH]; intros st r Hlt; simpl;
    destruct (Z.ltb_spec (current_epoch st) max_epochs); try lia;
    [reflexivity |].
  unfold mbind. rewrite generation_without_children by assumption.
  apply IH. simpl. assumption.
Qed.

(** X18: with no child per generation ([children] zero or negative) and a
    positive [max_epochs], [run] never returns: [current_epoch] only moves
    in the loop over the children.  With a loaded parent every amount of
    fuel runs out; without one the run can only end in an exception of the
    first evaluation.  With [max_epochs] zero or negative [run] returns the
    parent at once, without a single generation. *)
Theorem run_needs_children_to_stop :
  (forall fuel self evaluator comp max_epochs force r p,
      num_children self <= 0 -> 0 < max_epochs ->
      cgp_parent self = Some p ->
      run fuel self evaluator comp max_epochs force r = Timeout) /\
  (forall fuel self evaluator comp max_epochs force r st r',
      num_children self <= 0 -> 0 < max_epochs ->
      run fuel self evaluator comp max_epochs force r <> Ok (st, r')) /\
  (forall fuel self evaluator comp max_epochs force r p,
      max_epochs <= 0 -> cgp_parent self = Some p ->
      run fuel self evaluator comp max_epochs force r
      = Ok ({| parent := p; current_epoch := 0; log := [];
               generations := 0 |}, r)).
Proof.
  split; [| split].
  - intros fuel self evaluator comp max_epochs force r p Hnc Hme Hp.
    unfold run. rewrite Hp. unfold mbind at 1, ret at 1.
    apply run_loop_without_children; [assumption | simpl; lia].
  - intros fuel self evaluator comp max_epochs force r st r' Hnc Hme H.
    unfold run in H. apply mbind_Ok in H as (first & r1 & _ & H).
    rewrite run_loop_without_children in H;
      [discriminate | assumption | simpl; lia].
  - intros fuel self evaluator comp max_epochs force r p Hme Hp.
    unfold run. rewrite Hp. unfold mbind at 1, ret at 1.
    destruct fuel; simpl; destruct (Z.ltb_spec 0 max_epochs); try lia;
      reflexivity.
Qed.

Lemma run_needs_children_to_stop_witness :
  run 50 {| cgp_config := demo_config; num_children := 0;
            cgp_parent := Some (with_score demo_parent (5 # 10)) |}
    demo_evaluator higher_score_wins 10 true demo_rng = Timeout.
Proof.
  apply (proj1 run_needs_children_to_stop 50%nat _ _ _ _ _ _
           (with_score demo_parent (5 # 10)));
    [simpl; lia | lia | reflexivity].
Defined.

(** ** Elitism *)

(** [comp] only prefers a candidate that is strictly better than a scored
    parent (as a "greater than" does). *)
Definition strict_comparator (comp : option Q -> Q -> bool) : Prop :=
  forall c cand, comp (Some c) cand = true -> (c < cand)%Q.

(** The score of [p] is [s] or better. *)
Definition score_at_least (s : Q) (p : Individual) : Prop :=
  exists s', score p = Some s' /\ (s <= s')%Q.

Lemma select_children_elitist comp children :
  strict_comparator comp ->
  forall idx st st' s,
    score_at_least s (parent st) ->
    select_children comp idx children st = Ok st' ->
    score_at_least s (parent st').
Proof.
  intros Hcomp idx st st' s Hs H.
  apply select_children_parent in H as (-> & _).
  revert Hs. generalize (parent st). clear st.
  induction children as [|child rest IH]; simpl; intros p Hs; [assumption |].
  apply IH. unfold child_wins.
  destruct (score child) as [cs|] eqn:Ecs; [| assumption].
  destruct (Qgtb cs 0 && comp (score p) cs) eqn:E; [| assumption].
  apply andb_true_iff in E as [_ E].
  destruct Hs as (s' & Hs' & Hle). rewrite Hs' in E.
  apply Hcomp in E. exists cs. split; [assumption |].
  apply Qlt_le_weak. eapply Qle_lt_trans; eassumption.
Qed.

Lemma generation_elitist fuel nc evaluator comp force st r st' r' s :
  strict_comparator comp ->
  score_at_least s (parent st) ->
  generation fuel nc evaluator comp force st r = Ok (st', r') ->
  score_at_least s (parent st').
Proof.
  intros Hcomp Hs H. unfold generation in H.
  apply mbind_Ok in H as ([children lg] & r1 & _ & H).
  apply mbind_Ok in H as (lines & r2 & _ & H).
  apply lift_Ok in H as [H _].
  eapply select_children_elitist; [eassumption | | eassumption].
  assumption.
Qed.

Lemma run_loop_elitist nc evaluator comp max_epochs force s :
  strict_comparator comp ->
  forall fuel st r st' r',
    score_at_least s (parent st) ->
    run_loop fuel nc evaluator comp max_epochs force st r = Ok (st', r') ->
    score_at_least s (parent st').
Proof.
  intros Hcomp. induction fuel as [|f IH]; simpl; intros st r st' r' Hs H;
    destruct (current_epoch st <? max_epochs); inv_run; try assumption.
  eapply IH; [| eassumption].
  eapply generation_elitist; eassumption.
Qed.

(** X19: the run is elitist.  When the trainer's comparator only prefers
    strictly better scores, the parent a run (or any number of its
    generations) ends with scores at least as well as the parent it began
    with: the loaded one, or the one spawned and evaluated first. *)
Theorem run_never_lowers_the_parent_score :
  (forall nc evaluator comp max_epochs force s fuel st r st' r',
      strict_comparator comp ->
      score_at_least s (parent st) ->
      run_loop fuel nc evaluator comp max_epochs force st r = Ok (st', r') ->
      score_at_least s (parent st')) /\
  (forall fuel self evaluator comp max_epochs force r st r' p s,
      strict_comparator comp ->
      cgp_parent self = Some p -> score p = Some s ->
      run fuel self evaluator comp max_epochs force r = Ok (st, r') ->
      score_at_least s (parent st)) /\
  strict_comparator higher_score_wins.
Proof.
  split; [| split].
  - intros nc evaluator comp max_epochs force s fuel st r st' r' Hcomp.
    now apply run_loop_elitist.
  - intros fuel self evaluator comp max_epochs force r st r' p s Hcomp Hp Hs H.
    unfold run in H. rewrite Hp in H.
    apply mbind_Ok in H as (first & r1 & Hfirst & H).
    apply ret_Ok in Hfirst as [-> ->].
    eapply run_loop_elitist; [eassumption | | eassumption].
    simpl. exists s. split; [assumption | apply Qle_refl].
  - intros c cand H. unfold higher_score_wins, Qgtb in H.
    apply negb_true_iff, Qle_bool_false in H. exact H.
Qed.

Lemma run_never_lowers_the_parent_score_witness :
  exists st r',
    run 50 {| cgp_config := demo_config; num_children := 2;
              cgp_parent := Some (with_score demo_parent (45 # 100)) |}
      demo_evaluator higher_score_wins 4 true demo_rng = Ok (st, r') /\
    score_at_least (45 # 100) (parent st).
Proof.
  destruct (run 50 {| cgp_config := demo_config; num_children := 2;
              cgp_parent := Some (with_score demo_parent (45 # 100)) |}
      demo_evaluator higher_score_wins 4 true demo_rng)
    as [[st r']| |] eqn:E; [| vm_compute in E; discriminate..].
  exists st, r'. split; [reflexivity |].
  eapply (proj1 (proj2 run_never_lowers_the_parent_score));
    [apply run_never_lowers_the_parent_score | | | exact E];
    reflexivity.
Defined.

(** ** The fronts that are returned *)

(** A list of genomes of the population, no object twice. *)
Definition front_ok (pop F : list Genome) : Prop :=
  Forall (fun g => g ∈ pop) F /\ NoDup (F.*1).

Lemma append_new_ok pop g F :
  g ∈ pop -> front_ok pop F -> front_ok pop (append_new g F).
Proof.
  intros Hg [Hin Hnd]. unfold append_new, py_in.
  destruct (bool_decide_reflect (g.1 ∈ F.*1)) as [Hmem | Hmem];
    [split; assumption |].
  split.
  - apply Forall_app. split; [assumption | repeat constructor; assumption].
  - rewrite fmap_app. apply NoDup_app. split; [assumption |].
    split; [| apply NoDup_singleton].
    intros x Hx Hx'. simpl in Hx'. apply list_elem_of_singleton in Hx'.
    subst x. contradiction.
Qed.

Lemma first_front_ok pop l :
  (forall g, g ∈ l -> g ∈ pop) -> front_ok pop (first_front_of pop l).
Proof.
  intros Hsub. unfold first_front_of.
  assert (Hgen : forall acc,
             front_ok pop acc ->
             front_ok pop
               (fold_left (fun F g => if unbeaten pop g then append_new g F
                                      else F) l acc)).
  { induction l as [|g l IH]; intros acc Hacc; simpl; [assumption |].
    apply IH; [intros g' Hg'; apply Hsub; now right |].
    destruct (unbeaten pop g); [| assumption].
    apply append_new_ok; [apply Hsub; left | assumption]. }
  apply Hgen. split; constructor.
Qed.

Lemma peel_one_ok pop i q st Q st' Q' :
  peel_one pop i q (st, Q) = Ok (st', Q') ->
  front_ok pop Q -> front_ok pop Q'.
Proof.
  unfold peel_one. intros H HQ.
  apply rbind_Ok in H as (nq & _ & H).
  apply rbind_Ok in H as (n' & _ & H).
  apply rbind_Ok in H as (nq' & _ & H).
  destruct (nq' =? 0).
  - apply rbind_Ok in H as (rank' & _ & H).
    apply rbind_Ok in H as (gq & Hgq & H). injection H as _ <-.
    apply append_new_ok; [| assumption].
    apply py_index_Ok in Hgq as (j & _ & Hj).
    eapply list_elem_of_lookup_2; eassumption.
  - injection H as _ <-. assumption.
Qed.

Lemma peel_front_ok pop i members :
  forall acc acc',
    peel_front pop i members acc = Ok acc' ->
    front_ok pop acc.2 -> front_ok pop acc'.2.
Proof.
  induction members as [|m members IH]; simpl; intros acc acc' H Hok.
  - now injection H as <-.
  - apply rbind_Ok in H as (acc1 & Hloop & H).
    eapply IH; [eassumption |].
    apply (for_range_res_inv
             (fun _ (a : SortState * list Genome) => front_ok pop a.2))
      in Hloop; [assumption | | assumption].
    intros j [s Q] [s' Q'] Hs Hb. simpl in *.
    eapply peel_one_ok; eassumption.
Qed.

Lemma removelast_take {A} (l : list A) :
  removelast l = take (length l - 1) l.
Proof.
  rewrite removelast_firstn_len. f_equal. lia.
Qed.

Lemma peel_loop_fronts pop :
  forall fuel i st st',
    0 <= i -> length (front st) = S (Z.to_nat i) ->
    Forall (front_ok pop) (front st) ->
    Forall (fun F => F <> []) (take (Z.to_nat i) (front st)) ->
    peel_loop fuel pop i st = Ok st' ->
    Forall (front_ok pop) (front st') /\
    Forall (fun F => F <> []) (removelast (front st')).
Proof.
  assert (Hstop : forall i st,
             length (front st) = S (Z.to_nat i) ->
             Forall (fun F : list Genome => F <> [])
               (take (Z.to_nat i) (front st)) ->
             Forall (fun F : list Genome => F <> [])
               (removelast (front st))).
  { intros i st Hlen Hne. rewrite removelast_take, Hlen.
    now replace (S (Z.to_nat i) - 1)%nat with (Z.to_nat i) by lia. }
  induction fuel as [|f IH]; intros i st st' Hi Hlen Hok Hne H.
  - simpl in H. apply rbind_Ok in H as (cur & Hcur & H).
    destruct cur; [| discriminate]. injection H as <-.
    split; [assumption | eapply Hstop; eassumption].
  - simpl in H. apply rbind_Ok in H as (cur & Hcur & H).
    apply py_index_nonneg in Hcur; [| assumption].
    destruct cur as [|m cur].
    { injection H as <-. split; [assumption | eapply Hstop; eassumption]. }
    apply rbind_Ok in H as ([st1 Q] & Hpeel & H).
    pose proof (peel_front_front _ _ _ _ _ Hpeel) as Hfr. simpl in Hfr.
    apply peel_front_ok in Hpeel; [| split; constructor]. simpl in Hpeel.
    apply IH in H; [assumption | lia | | |]; simpl.
    + rewrite length_app, Hfr, Hlen. simpl. lia.
    + rewrite Hfr. apply Forall_app. split; [assumption |].
      repeat constructor; apply Hpeel.
    + rewrite Hfr.
      replace (Z.to_nat (i + 1)) with (length (front st)) by lia.
      rewrite take_app_length.
      rewrite <- (take_drop (Z.to_nat i) (front st)).
      apply Forall_app. split; [assumption |].
      rewrite (drop_S _ _ _ Hcur).
      rewrite drop_ge by lia. repeat constructor. discriminate.
Qed.

(** X21: every front that [fast_non_dominated_sort] returns is non-empty,
    is made of genomes of the population, and holds no object twice. *)
Theorem returned_fronts_are_sound fuel pop fronts :
  fast_non_dominated_sort fuel pop = Ok fronts ->
  Forall (fun F => F <> [] /\ Forall (fun g => g ∈ pop) F /\ NoDup (F.*1))
    fronts.
Proof.
  intros H. unfold fast_non_dominated_sort in H.
  apply rbind_Ok in H as (st & Hscan & H).
  apply rbind_Ok in H as (st' & Hpeel & H). injection H as <-.
  destruct (counting_phase pop) as [(st0 & Hscan0 & _ & Hfr) | [Hr _]];
    [| unfold initial_state in Hr; congruence].
  unfold initial_state in Hscan0. rewrite Hscan in Hscan0.
  injection Hscan0 as <-.
  apply peel_loop_fronts in Hpeel as [Hok Hne]; [| lia | | |].
  - rewrite removelast_take in *.
    apply Forall_take with (n := (length (front st') - 1)%nat) in Hok.
    rewrite Forall_forall in *. intros F HF.
    destruct (Hok F HF) as [? ?]. auto.
  - now rewrite Hfr.
  - rewrite Hfr. repeat constructor; now apply first_front_ok.
  - simpl. constructor.
Qed.

Lemma returned_fronts_are_sound_witness :
  Forall (fun F => F <> [] /\ Forall (fun g => g ∈ [gA; gB; gX; gY]) F
                   /\ NoDup (F.*1))
    [[gA; gB]; [gX; gY]].
Proof.
  apply (returned_fronts_are_sound 10 [gA; gB; gX; gY]).
  vm_compute. reflexivity.
Defined.

(** * Selection only takes children of positive score *)

(** X22: whatever the comparator, the parent after the selection loop is
    the parent before it or one of the children, and then one whose score
    is positive: a child scored zero or less (a failed evaluation, say)
    never becomes the parent. *)
Theorem selection_takes_positive_scores_only comp idx children st st' :
  select_children comp idx children st = Ok st' ->
  parent st' = parent st \/
  (parent st' ∈ children /\
   exists s, score (parent st') = Some s /\ (0 < s)%Q).
Proof.
  intros H. apply select_children_parent in H as (-> & _).
  generalize (parent st). clear st st' idx.
  induction children as [|child rest IH]; simpl; intros p; [now left |].
  destruct (IH (if child_wins comp p child then child else p))
    as [Heq | [Hin Hs]].
  - rewrite Heq. destruct (child_wins comp p child) eqn:E; [| now left].
    right. split; [left |].
    unfold child_wins in E. destruct (score child) as [cs|]; [| discriminate].
    apply andb_true_iff in E as [E _]. exists cs. split; [reflexivity |].
    unfold Qgtb in E. apply negb_true_iff, Qle_bool_false in E. exact E.
  - right. split; [now right | assumption].
Qed.

Lemma selection_takes_positive_scores_only_witness :
  exists st',
    select_children higher_score_wins 0
      [with_score demo_parent (-1 # 10); with_score demo_parent 0]
      {| parent := demo_parent; current_epoch := 0; log := [];
         generations := 1 |} = Ok st' /\
    parent st' = demo_parent.
Proof.
  eexists. split; [reflexivity |].
  destruct (selection_takes_positive_scores_only higher_score_wins 0
              [with_score demo_parent (-1 # 10); with_score demo_parent 0]
              {| parent := demo_parent; current_epoch := 0; log := [];
                 generations := 1 |} _ eq_refl) as [H | [_ (s & Hs & Hpos)]].
  - exact H.
  - reflexivity.
Defined.

(** * The evaluator: layer names, the function list, the model outputs *)

(** ** Layer names *)

(** [c] occurs in [s]. *)
Fixpoint mentions (c : Ascii.ascii) (s : string) : bool :=
  match s with
  | EmptyString => false
  | String a s' => Ascii.eqb a c || mentions c s'
  end.

Lemma mentions_app c s t :
  mentions c (s +:+ t) = mentions c s || mentions c t.
Proof.
  induction s as [|a s IH]; simpl; [reflexivity |].
  rewrite IH. apply orb_assoc.
Qed.

Lemma pretty_N_char_digit x : Ascii.eqb (pretty_N_char x) "_"%char = false.
Proof.
  unfold pretty_N_char. repeat case_match; reflexivity.
Qed.

Lemma pretty_N_go_plain x :
  forall s, mentions "_"%char s = false -> mentions "_"%char (pretty_N_go x s) = false.
Proof.
  induction (N.lt_wf_0 x) as [x _ IH]. intros s Hs.
  destruct (decide (x = 0%N)) as [-> | Hx].
  - now rewrite pretty_N_go_0.
  - rewrite pretty_N_go_step by lia. apply IH.
    + apply N.div_lt; lia.
    + simpl. now rewrite pretty_N_char_digit.
Qed.

Lemma pretty_N_plain (x : N) : mentions "_"%char (pretty x) = false.
Proof.
  unfold pretty, pretty_N. case_decide; [reflexivity |].
  now apply pretty_N_go_plain.
Qed.

(** A number printed with [%d] holds no underscore. *)
Lemma pretty_Z_plain (x : Z) : mentions "_"%char (pretty x) = false.
Proof.
  destruct x as [|p|p]; [reflexivity | apply pretty_N_plain |].
  change (pretty (Z.neg p)) with ("-" +:+ pretty (N.pos p)).
  simpl. apply pretty_N_plain.
Qed.

(** A string is split in one way only at its last underscore. *)
Lemma last_underscore_split s1 :
  forall s2 t1 t2,
    mentions "_"%char t1 = false -> mentions "_"%char t2 = false ->
    s1 +:+ String "_"%char t1 = s2 +:+ String "_"%char t2 ->
    s1 = s2 /\ t1 = t2.
Proof.
  induction s1 as [|a s1 IH]; intros [|b s2] t1 t2 H1 H2 H; simpl in H.
  - injection H as ->. auto.
  - injection H as <- ->. rewrite mentions_app in H1. simpl in H1.
    rewrite orb_true_r in H1. discriminate.
  - injection H as -> <-. rewrite mentions_app in H2. simpl in H2.
    rewrite orb_true_r in H2. discriminate.
  - injection H as -> H. destruct (IH _ _ _ H1 H2 H) as [-> ->]. auto.
Qed.

Lemma layer_name_inj n1 n2 (i1 i2 : Z) :
  n1 +:+ "_id_" +:+ pretty i1 = n2 +:+ "_id_" +:+ pretty i2 ->
  n1 = n2 /\ i1 = i2.
Proof.
  intros H.
  assert (Hassoc : forall n d,
             n +:+ "_id_" +:+ d = (n +:+ "_id") +:+ String "_"%char d).
  { intros n d. induction n as [|a n IH]; [reflexivity |].
    change (String a (n +:+ "_id_" +:+ d)
            = String a ((n +:+ "_id") +:+ String "_"%char d)).
    f_equal. exact IH. }
  rewrite !Hassoc in H.
  apply last_underscore_split in H as [Hn Hd]; try apply pretty_Z_plain.
  change (n1 +:+ "_id") with (n1 +:+ String "_"%char "id") in Hn.
  change (n2 +:+ "_id") with (n2 +:+ String "_"%char "id") in Hn.
  apply last_underscore_split in Hn as [-> _]; try reflexivity.
  split; [reflexivity |]. now apply (inj pretty).
Qed.

Lemma name_to_layer_Ok m name idx m' l :
  name_to_layer m name idx = KOk (m', l) ->
  exists spec cls args,
    dict_get name m = Some spec /\ spec_cls spec = Some cls /\
    spec_args spec = Some args /\
    let args' := <["name" := ArgStr (name +:+ "_id_" +:+ pretty idx)]> args in
    m' = dict_set name (set_args spec args') m /\
    l = {| layer_cls := cls; layer_kwargs := args' |}.
Proof.
  unfold name_to_layer. intros H.
  destruct (dict_get name m) as [spec|]; [| discriminate].
  destruct (spec_cls spec) as [cls|] eqn:Hc; [| discriminate].
  destruct (spec_args spec) as [args|] eqn:Ha; [| discriminate].
  injection H as <- <-. eauto 10.
Qed.

(** X23: the layer that [name_to_layer] builds is named after the
    function and the index, and the name tells the two apart: two calls
    that differ in the name or in the index build layers of different
    names, whatever mapping each one started from. *)
Theorem layer_names_are_unique m1 m2 n1 n2 i1 i2 m1' m2' l1 l2 :
  name_to_layer m1 n1 i1 = KOk (m1', l1) ->
  name_to_layer m2 n2 i2 = KOk (m2', l2) ->
  layer_kwargs l1 !! "name" = layer_kwargs l2 !! "name" ->
  n1 = n2 /\ i1 = i2.
Proof.
  intros H1 H2 Heq.
  apply name_to_layer_Ok in H1 as (? & ? & ? & _ & _ & _ & _ & ->).
  apply name_to_layer_Ok in H2 as (? & ? & ? & _ & _ & _ & _ & ->).
  simpl in Heq. rewrite !lookup_insert_eq in Heq.
  injection Heq as Heq. now apply layer_name_inj.
Qed.

Definition demo_mapping : FunctionMapping :=
  [("conv", {| spec_cls := Some 0%nat;
               spec_args := Some {["filters" := ArgObj 32]};
               spec_inputs := Some 1 |});
   ("add", {| spec_cls := Some 1%nat; spec_args := Some ∅;
              spec_inputs := Some 2 |})].

Definition demo_layer : Layer :=
  {| layer_cls := 0%nat;
     layer_kwargs := <["name" := ArgStr "conv_id_3"]>
                       {["filters" := ArgObj 32]} |}.

Definition demo_mapping_after : FunctionMapping :=
  [("conv", {| spec_cls := Some 0%nat;
               spec_args := Some (layer_kwargs demo_layer);
               spec_inputs := Some 1 |});
   ("add", {| spec_cls := Some 1%nat; spec_args := Some ∅;
              spec_inputs := Some 2 |})].

Lemma layer_names_are_unique_witness :
  name_to_layer demo_mapping "conv" 3 = KOk (demo_mapping_after, demo_layer)
  /\ "conv" = "conv" /\ 3 = 3.
Proof.
  assert (E : name_to_layer demo_mapping "conv" 3
              = KOk (demo_mapping_after, demo_layer))
    by (vm_compute; reflexivity).
  split; [exact E |].
  exact (layer_names_are_unique demo_mapping demo_mapping "conv" "conv" 3 3
           demo_mapping_after demo_mapping_after demo_layer demo_layer
           E E eq_refl).
Defined.

Lemma dict_get_set {V} k k' (v : V) d :
  dict_get k' (dict_set k v d)
  = if String.eqb k' k then Some v else dict_get k' d.
Proof.
  induction d as [|[k0 v0] d IH]; simpl.
  - destruct (String.eqb_spec k' k); reflexivity.
  - destruct (String.eqb_spec k k0) as [-> | Hne]; simpl.
    + destruct (String.eqb_spec k' k0); reflexivity.
    + rewrite IH. destruct (String.eqb_spec k' k0) as [-> | ?];
        [| reflexivity].
      destruct (String.eqb_spec k0 k); [congruence | reflexivity].
Qed.

Lemma dict_set_keys {V} k (v v0 : V) d :
  dict_get k d = Some v0 -> (dict_set k v d).*1 = d.*1.
Proof.
  induction d as [|[k0 w] d IH]; simpl; [discriminate |].
  destruct (String.eqb_spec k k0) as [-> | Hne]; simpl; [reflexivity |].
  intros H. f_equal. auto.
Qed.

Lemma declared_inputs_set k spec spec' m :
  dict_get k m = Some spec -> spec_inputs spec' = spec_inputs spec ->
  declared_inputs (dict_set k spec' m) = declared_inputs m.
Proof.
  induction m as [|[k0 w] m IH]; simpl; [discriminate |].
  destruct (String.eqb_spec k k0) as [-> | Hne]; simpl.
  - intros [= ->] ->. reflexivity.
  - intros H Hi. rewrite (IH H Hi). reflexivity.
Qed.

Definition layer_of (r : kresult (FunctionMapping * Layer)) : kresult Layer :=
  match r with
  | KOk (_, l) => KOk l
  | KRaise e => KRaise e
  end.

(** X24: [name_to_layer] writes the layer name into the argument dict of
    the mapping, and that is all a later call can see of it: the function
    list stays what it was, and every later call builds the layer (or
    raises the exception) it would have without the earlier one. *)
Theorem name_to_layer_leaves_no_trace m n1 i1 m' l1 :
  name_to_layer m n1 i1 = KOk (m', l1) ->
  get_function_input_list m' = get_function_input_list m /\
  forall n2 i2,
    layer_of (name_to_layer m' n2 i2) = layer_of (name_to_layer m n2 i2).
Proof.
  intros H.
  apply name_to_layer_Ok in H as (spec & cls & args & Hg & Hc & Ha & -> & _).
  split.
  - unfold get_function_input_list.
    rewrite (dict_set_keys _ _ _ _ Hg).
    now rewrite (declared_inputs_set _ spec) by (assumption || reflexivity).
  - intros n2 i2. unfold name_to_layer. rewrite dict_get_set.
    destruct (String.eqb_spec n2 n1) as [-> | Hne].
    + rewrite Hg. simpl. rewrite Hc, Ha. simpl.
      now rewrite insert_insert_eq.
    + destruct (dict_get n2 m) as [s2|]; [| reflexivity].
      destruct (spec_cls s2); [| reflexivity].
      destruct (spec_args s2); reflexivity.
Qed.

Lemma name_to_layer_leaves_no_trace_witness :
  get_function_input_list demo_mapping_after
  = get_function_input_list demo_mapping /\
  forall n2 i2,
    layer_of (name_to_layer demo_mapping_after n2 i2)
    = layer_of (name_to_layer demo_mapping n2 i2).
Proof.
  apply (name_to_layer_leaves_no_trace demo_mapping "conv" 3
           demo_mapping_after demo_layer).
  vm_compute. reflexivity.
Defined.

(** ** From the function mapping to a configuration *)

Lemma declared_inputs_Ok m :
  forall ins,
    declared_inputs m = KOk ins ->
    length ins = length m /\
    forall (i : nat) k spec,
      m !! i = Some (k, spec) ->
      exists n, spec_inputs spec = Some n /\ ins !! i = Some n.
Proof.
  induction m as [|[k0 v] m IH]; simpl; intros ins H.
  - injection H as <-. split; [reflexivity |]. intros i k spec Hi.
    destruct i; discriminate Hi.
  - destruct (spec_inputs v) as [n|] eqn:Hn; [| discriminate].
    destruct (declared_inputs m) as [rest|]; [| discriminate].
    injection H as <-. destruct (IH _ eq_refl) as [Hlen Hall].
    split; [simpl; now rewrite Hlen |].
    intros [|i] k spec Hi; simpl in *.
    + injection Hi as <- <-. eauto.
    + eauto.
Qed.

Lemma dict_get_lookup {V} (d : list (string * V)) (i : nat) k v :
  NoDup d.*1 -> d !! i = Some (k, v) -> dict_get k d = Some v.
Proof.
  revert i. induction d as [|[k0 v0] d IH]; intros i Hnd Hi.
  - destruct i; discriminate Hi.
  - simpl in Hnd. apply NoDup_cons in Hnd as [Hk0 Hnd]. simpl.
    destruct i as [|i]; simpl in Hi.
    + injection Hi as -> ->. now rewrite String.eqb_refl.
    + destruct (String.eqb_spec k k0) as [-> | Hne]; [| eauto].
      exfalso. apply Hk0. apply list_elem_of_fmap.
      exists (k0, v). split; [reflexivity |].
      eapply list_elem_of_lookup_2; eassumption.
Qed.

(** X25: the two lists of [get_function_input_list] fit each other: on a
    mapping that is not empty [CgpConfig] accepts them (the handles of the
    functions are the positions of their names), one function gene per
    entry, and the arity it records at the position of a name is the
    ['inputs'] that the mapping gives for that name. *)
Theorem function_list_builds_a_configuration
    m fns ins nrows ncols lb rate :
  NoDup m.*1 -> m <> [] ->
  get_function_input_list m = KOk (fns, ins) ->
  exists cfg,
    new_CgpConfig nrows ncols lb (seq 0 (length fns)) ins rate = Ok cfg /\
    num_func_genes cfg = Z.of_nat (length m) /\
    forall (i : nat) name,
      fns !! i = Some name ->
      exists spec n,
        dict_get name m = Some spec /\ spec_inputs spec = Some n /\
        function_inputs cfg !! i = Some n /\ n <= max_inputs cfg.
Proof.
  intros Hnd Hne H. unfold get_function_input_list in H.
  destruct (declared_inputs m) as [ins'|] eqn:Hins; [| discriminate].
  injection H as <- <-.
  apply declared_inputs_Ok in Hins as [Hlen Hall].
  assert (Hl : length (seq 0 (length m.*1)) = length m)
    by now rewrite length_seq, length_fmap.
  destruct ins' as [|x ins']; [destruct m; [contradiction | discriminate] |].
  eexists. unfold new_CgpConfig. rewrite Hl, Hlen, Nat.eqb_refl. simpl.
  split; [reflexivity |]. simpl. split; [reflexivity |].
  intros i name Hi. rewrite list_lookup_fmap in Hi.
  destruct (m !! i) as [[k spec]|] eqn:Hmi; [| discriminate].
  injection Hi as ->.
  destruct (Hall _ _ _ Hmi) as (n & Hn & Hin).
  exists spec, n. repeat split; try assumption.
  - eapply dict_get_lookup; eassumption.
  - destruct i as [|i]; simpl in Hin.
    + injection Hin as <-. apply fold_left_max_ge.
    + pose proof (fold_left_max_bound ins' x) as Hb.
      rewrite Forall_lookup in Hb. exact (Hb _ _ Hin).
Qed.

Lemma function_list_builds_a_configuration_witness :
  exists cfg,
    new_CgpConfig 2 3 1 (seq 0 (length ["conv"; "add"])) [1; 2] (1 # 10)
    = Ok cfg /\
    num_func_genes cfg = Z.of_nat (length demo_mapping) /\
    forall (i : nat) name,
      ["conv"; "add"] !! i = Some name ->
      exists spec n,
        dict_get name demo_mapping = Some spec /\ spec_inputs spec = Some n /\
        function_inputs cfg !! i = Some n /\ n <= max_inputs cfg.
Proof.
  apply (function_list_builds_a_configuration demo_mapping).
  - apply (bool_decide_unpack _). vm_compute. reflexivity.
  - discriminate.
  - reflexivity.
Defined.

(** ** The outputs of the Keras model *)

Lemma elem_of_add_key keys k k' :
  k' ∈ add_key keys k <-> k' ∈ keys \/ k' = k.
Proof.
  unfold add_key. case_bool_decide as Hin.
  - split; [auto |]. intros [? | ->]; assumption.
  - rewrite elem_of_app, list_elem_of_singleton. reflexivity.
Qed.

Lemma elem_of_input_keys l :
  forall keys k, k ∈ fold_left add_key l keys <-> k ∈ keys \/ k ∈ l.
Proof.
  induction l as [|x l IH]; simpl; intros keys k.
  - rewrite elem_of_nil. tauto.
  - rewrite IH, elem_of_add_key, elem_of_cons. tauto.
Qed.

Lemma elem_of_np_where_from a :
  forall i k,
    k ∈ np_where_from i a
    <-> exists j : nat, a !! j = Some true /\ k = i + Z.of_nat j.
Proof.
  induction a as [|b a IH]; simpl; intros i k.
  - rewrite elem_of_nil. split; [tauto |]. intros (j & Hj & _).
    now rewrite lookup_nil in Hj.
  - assert (Htail : k ∈ np_where_from (i + 1) a
                    <-> exists j : nat, a !! j = Some true
                                        /\ k = i + Z.of_nat (S j)).
    { rewrite IH. split; intros (j & Hj & ->); exists j;
        (split; [assumption | lia]). }
    destruct b.
    + rewrite elem_of_cons, Htail. split.
      * intros [-> | (j & Hj & ->)]; [exists 0%nat | exists (S j)];
          (split; [assumption || reflexivity | lia]).
      * intros ([|j] & Hj & ->); [left; lia | right; eauto].
    + rewrite Htail. split.
      * intros (j & Hj & ->). exists (S j). auto.
      * intros ([|j] & Hj & ->); [discriminate | eauto].
Qed.

Lemma function_keys_spec cfg gs l :
  forall keys,
    (forall idx, idx ∈ l -> 0 <= idx < Z.of_nat (length gs)) ->
    (forall idx g fi,
        idx ∈ l -> gs !! Z.to_nat idx = Some g -> fnc_idx g = Some fi ->
        0 <= fi < Z.of_nat (length (functions cfg))) ->
    exists ks,
      function_keys cfg gs l keys = Ok ks /\
      forall k,
        k ∈ ks
        <-> k ∈ keys \/
            exists idx g, idx ∈ l /\ gs !! Z.to_nat idx = Some g /\
                          fnc_idx g <> None /\ k = idx + num_input cfg.
Proof.
  induction l as [|idx l IH]; simpl; intros keys Hl Hfi.
  - eexists. split; [reflexivity |]. intros k. split; [auto |].
    intros [? | (? & ? & Hin & _)]; [assumption |].
    now apply elem_of_nil in Hin.
  - destruct (py_index_in_range gs idx) as [g Hg]; [apply Hl; left |].
    rewrite Hg. simpl.
    apply py_index_nonneg in Hg; [| apply Hl; left].
    set (keys' := match fnc_idx g with
                  | Some _ => add_key keys (idx + num_input cfg)
                  | None => keys
                  end).
    assert (Hstep : match fnc_idx g with
                    | Some fi =>
                        (_ <- py_index (functions cfg) fi ;;
                         Ok (add_key keys (idx + num_input cfg)))%res
                    | None => Ok keys
                    end = Ok keys').
    { unfold keys'. destruct (fnc_idx g) as [fi|] eqn:Hf; [| reflexivity].
      destruct (py_index_in_range (functions cfg) fi) as [h ->];
        [eapply Hfi; [left | eassumption..] | reflexivity]. }
    rewrite Hstep. simpl.
    destruct (IH keys') as (ks & Hks & Hspec);
      [intros; apply Hl; now right
      | intros i' g' fi' Hi'; apply Hfi; now right |].
    exists ks. split; [assumption |]. intros k. rewrite Hspec.
    unfold keys'. split.
    + intros [Hk | (i' & g' & Hi' & Hg' & Hf & ->)].
      * destruct (fnc_idx g) eqn:Hf; [| auto].
        apply elem_of_add_key in Hk as [? | ->]; [auto |].
        right. exists idx, g. repeat split; [left | assumption | congruence].
      * right. exists i', g'. repeat split; [now right | assumption..].
    + intros [Hk | (i' & g' & Hi' & Hg' & Hf & ->)].
      * left. destruct (fnc_idx g); [| assumption].
        apply elem_of_add_key. auto.
      * apply elem_of_cons in Hi' as [-> | Hi'].
        -- left. rewrite Hg in Hg'. injection Hg' as <-.
           destruct (fnc_idx g); [| congruence].
           apply elem_of_add_key. auto.
        -- right. eauto 10.
Qed.

(** The last item of [sorted(keys)] is the largest key. *)
Lemma sorted_last_key ks c :
  c ∈ ks -> (forall k, k ∈ ks -> k <= c) ->
  drop (slice_start (length ks) (-1)) (py_sorted ks) = [c].
Proof.
  intros Hc Hmax. unfold py_sorted.
  pose proof (merge_sort_Permutation Z.le ks) as Hperm.
  pose proof (StronglySorted_merge_sort Z.le ks) as Hsort.
  rewrite <- (Permutation_length Hperm).
  assert (Hc' : c ∈ merge_sort Z.le ks) by now rewrite Hperm.
  assert (Hmax' : forall k, k ∈ merge_sort Z.le ks -> k <= c)
    by (intros k Hk; apply Hmax; now rewrite <- Hperm).
  clear Hperm Hc Hmax.
  destruct (merge_sort Z.le ks) as [|y l] using rev_ind;
    [now apply elem_of_nil in Hc' |].
  clear IHl. rewrite length_app. simpl.
  unfold slice_start. change (-1 <? 0) with true. cbv iota.
  replace (Z.to_nat (Z.max 0 (-1 + Z.of_nat (length l + 1))))
    with (length l) by lia.
  rewrite drop_app_length. f_equal.
  assert (y <= c) by (apply Hmax'; apply elem_of_app; right; left).
  apply elem_of_app in Hc' as [Hc' | Hc'].
  - pose proof (StronglySorted_app_1_elem_of Z.le l [y] c y Hsort Hc'
                  ltac:(left)). lia.
  - apply list_elem_of_singleton in Hc'. congruence.
Qed.

(** With one output, a function node that the output reaches is not
    above the node the output gene reads. *)
Lemma active_below_output_source cfg gs g c :
  config_ok cfg -> num_output cfg = 1 ->
  length gs = Z.to_nat (num_nodes cfg + 1) ->
  connections_ok cfg gs -> genes_ok cfg gs ->
  gs !! Z.to_nat (num_nodes cfg) = Some g -> inputs g !! 0%nat = Some c ->
  forall n, reachable cfg gs n -> n < num_nodes cfg -> n <= c - 1.
Proof.
  intros Hok Hout Hlen Hcon Hgok Hg Hc n Hreach.
  pose proof (config_ok_num_nodes _ Hok) as Hnn.
  pose proof Hok as (_ & _ & _ & Hni & _).
  induction Hreach as [k Hk | n g' i c' Hreach IH Hg' Hi Hc' Hge];
    intros Hlt; [lia |].
  pose proof (reachable_nonneg _ _ _ Hnn Hreach) as Hn0.
  destruct (Hcon _ _ Hg') as (lo & hi & Hrg & Hall).
  rewrite Z2Nat.id in Hrg by lia.
  destruct (con_id_range_nonempty cfg n Hok Hn0)
    as (lo' & hi' & Hrg' & _ & Hhi).
  rewrite Hrg in Hrg'. injection Hrg' as <- <-.
  rewrite Forall_lookup in Hall. pose proof (Hall _ _ Hc') as Hin.
  simpl in Hin.
  destruct (Z_lt_le_dec n (num_nodes cfg)) as [Hfn | Hon].
  - specialize (IH Hfn). lia.
  - pose proof (lookup_lt_Some _ _ _ Hg') as Hbound.
    assert (n = num_nodes cfg) as -> by lia.
    rewrite Hg in Hg'. injection Hg' as <-.
    destruct (Hgok _ _ Hg) as [_ Hkind].
    rewrite Z2Nat.id in Hkind by lia.
    rewrite Z.ltb_irrefl in Hkind. destruct Hkind as (_ & _ & Hone).
    assert (i = 0) as -> by lia.
    change (Z.to_nat 0) with 0%nat in Hc'. rewrite Hc in Hc'. injection Hc' as <-. lia.
Qed.

(** X26: on a well-formed genotype with one output (what [CgpConfig]
    sets) and one function object per function gene, the node from which
    [individual_to_keras_model] takes the output of the model (the
    largest key of its node table) is the node that the output gene of
    the genotype reads. *)
Theorem model_output_is_the_output_gene_source ind a :
  well_formed ind -> num_output (config ind) = 1 ->
  length (functions (config ind)) = length (function_inputs (config ind)) ->
  active ind = Some a ->
  exists g c,
    genes ind !! Z.to_nat (num_nodes (config ind)) = Some g /\
    inputs g !! 0%nat = Some c /\
    output_keys (config ind) (genes ind) a = Ok [c].
Proof.
  intros (Hok & Hlen & Hcon & Hgok & (a' & Ha' & Hla & Hsync)) Hout Hfuns Ha.
  rewrite Ha in Ha'. injection Ha' as <-.
  pose proof (config_ok_num_nodes _ Hok) as Hnn.
  pose proof Hok as (_ & _ & _ & Hni & _ & _ & _ & _ & Hmx & _).
  rewrite Hout in Hlen.
  destruct (lookup_lt_is_Some_2 (genes ind)
              (Z.to_nat (num_nodes (config ind)))) as [g Hg]; [lia |].
  pose proof (Hgok _ _ Hg) as [Hgl Hkind].
  rewrite Z2Nat.id in Hkind by lia. rewrite Z.ltb_irrefl in Hkind.
  destruct Hkind as (_ & Hnof & Hone).
  destruct (lookup_lt_is_Some_2 (inputs g) 0%nat) as [c Hc]; [lia |].
  exists g, c. split; [assumption |]. split; [assumption |].
  (* the range of the slot of the output gene *)
  destruct (Hcon _ _ Hg) as (lo & hi & Hrg & Hall).
  rewrite Z2Nat.id in Hrg by lia.
  destruct (con_id_range_nonempty (config ind) (num_nodes (config ind))
              Hok Hnn) as (lo' & hi' & Hrg' & Hlo & Hhi).
  rewrite Hrg in Hrg'. injection Hrg' as <- <-.
  rewrite Forall_lookup in Hall. pose proof (Hall _ _ Hc) as Hcr.
  simpl in Hcr.
  (* the keys *)
  unfold output_keys, node_keys.
  destruct (function_keys_spec (config ind) (genes ind) (np_where a)
              (fold_left add_key (np_arange (num_input (config ind))) []))
    as (ks & Hks & Hspec).
  { intros idx Hidx. apply elem_of_np_where_from in Hidx as (j & Hj & ->).
    apply lookup_lt_Some in Hj. lia. }
  { intros idx gi fi Hidx Hgi Hfi.
    apply elem_of_np_where_from in Hidx as (j & Hj & ->).
    replace (Z.to_nat (0 + Z.of_nat j)) with j in Hgi by lia.
    destruct (Hgok _ _ Hgi) as [_ Hk].
    destruct (Z.of_nat j <? num_nodes (config ind));
      [| destruct Hk as (_ & Hnone & _); congruence].
    destruct Hk as (_ & fi' & Hfi' & Hrange & _).
    rewrite Hfi in Hfi'. injection Hfi' as <-.
    destruct Hok as (_ & _ & _ & _ & _ & _ & Hnf & _). lia. }
  rewrite Hks. simpl. rewrite Hout. f_equal.
  apply sorted_last_key.
  - apply Hspec.
    destruct (Z_lt_le_dec c 1) as [Hc0 | Hc1].
    + left. apply elem_of_input_keys. right. rewrite Hni.
      assert (c = 0) as -> by lia. now left.
    + assert (Hreach : reachable (config ind) (genes ind)
                         (c - num_input (config ind))).
      { eapply (reach_slot _ _ (num_nodes (config ind)) g 0 c);
          [| assumption | lia | assumption | lia].
        rewrite <- (Z.add_0_r (num_nodes (config ind))).
        apply reach_output. lia. }
      rewrite Hni in Hreach.
      assert (Hmark : a !! Z.to_nat (c - 1) = Some true).
      { apply Hsync. now rewrite Z2Nat.id by lia. }
      destruct (lookup_lt_is_Some_2 (genes ind) (Z.to_nat (c - 1)))
        as [gc Hgc]; [lia |].
      right. exists (c - 1), gc. repeat split.
      * apply elem_of_np_where_from. exists (Z.to_nat (c - 1)).
        split; [assumption | lia].
      * assumption.
      * destruct (Hgok _ _ Hgc) as [_ Hk].
        destruct (Z.ltb_spec (Z.of_nat (Z.to_nat (c - 1)))
                    (num_nodes (config ind))); [| lia].
        destruct Hk as (_ & fi & -> & _). discriminate.
      * lia.
  - intros k Hk. apply Hspec in Hk as [Hk | (idx & gi & Hidx & Hgi & Hf & ->)].
    + apply elem_of_input_keys in Hk as [Hk | Hk];
        [now apply elem_of_nil in Hk |].
      unfold np_arange in Hk. apply list_elem_of_fmap in Hk as (j & -> & Hj).
      apply elem_of_seq in Hj. lia.
    + apply elem_of_np_where_from in Hidx as (j & Hj & ->).
      replace (Z.to_nat (0 + Z.of_nat j)) with j in Hgi by lia.
      destruct (Hgok _ _ Hgi) as [_ Hk].
      destruct (Z.ltb_spec (Z.of_nat j) (num_nodes (config ind)))
        as [Hfn | Hon]; [| destruct Hk as (_ & Hnone & _); contradiction].
      pose proof (active_below_output_source _ _ _ _ Hok Hout Hlen Hcon Hgok
                    Hg Hc (Z.of_nat j) (proj1 (Hsync j) Hj) Hfn).
      lia.
Qed.

Lemma model_output_is_the_output_gene_source_witness :
  exists g c,
    genes demo_parent !! Z.to_nat (num_nodes (config demo_parent)) = Some g /\
    inputs g !! 0%nat = Some c /\
    output_keys (config demo_parent) (genes demo_parent)
      (default [] (active demo_parent)) = Ok [c].
Proof.
  apply (model_output_is_the_output_gene_source demo_parent).
  - exact demo_parent_well_formed.
  - reflexivity.
  - reflexivity.
  - reflexivity.
Defined.
